(** * merecat: the request pipeline of [libhttpd.c]

    A shallow embedding of the path sanitizer, the HTML defanger, the MIME
    lookup, the symlink expander, the [.htaccess] / [.htpasswd] gates, the
    header parser and the response composer of [src/libhttpd.c], together
    with the properties the design document states about them.

    C strings are modelled by their contents: a [list ascii] holding the
    bytes before the terminating NUL.  C integers are modelled by [Z]. *)

From Stdlib Require Import Ascii String ZArith Lia Bool Arith List Sorted.
Import ListNotations.

Local Open Scope list_scope.

(** ** C strings *)

Module CStr.

Definition cstring := list ascii.

(** A string literal of the C source. *)
Definition lit (s : string) : cstring := list_ascii_of_string s.

Definition ascii_eqb (a b : ascii) : bool := Ascii.eqb a b.
Arguments ascii_eqb : simpl never.

(** [strncmp(s, p, strlen(p)) == 0] as used throughout the source: does
    [s] start with [p]. *)
Fixpoint starts_with (p s : cstring) : bool :=
  match p, s with
  | [], _ => true
  | _ :: _, [] => false
  | a :: p', b :: s' => ascii_eqb a b && starts_with p' s'
  end.

(** [strstr(hay, needle)]: offset of the first occurrence. *)
Fixpoint strstr (hay needle : cstring) : option nat :=
  if starts_with needle hay then Some 0
  else match hay with
       | [] => None
       | _ :: hay' => option_map S (strstr hay' needle)
       end.

(** [strchr(s, c)]: offset of the first [c]. *)
Fixpoint strchr (s : cstring) (c : ascii) : option nat :=
  match s with
  | [] => None
  | a :: s' => if ascii_eqb a c then Some 0 else option_map S (strchr s' c)
  end.

(** [strrchr(s, c)]: offset of the last [c]. *)
Fixpoint strrchr (s : cstring) (c : ascii) : option nat :=
  match s with
  | [] => None
  | a :: s' =>
      match strrchr s' c with
      | Some i => Some (S i)
      | None => if ascii_eqb a c then Some 0 else None
      end
  end.

(** Skipping a run of slashes, as in
    [for (cp2 = cp + 2; *cp2 == '/'; ++cp2) continue;]. *)
Fixpoint skip_slashes (s : cstring) : cstring :=
  match s with
  | c :: s' => if ascii_eqb c "/" then skip_slashes s' else s
  | [] => []
  end.

(** A character as [unsigned char]. *)
Definition uchar (c : ascii) : Z := Z.of_N (N_of_ascii c).

(** [strcmp]: the difference of the first differing bytes (0 past the end). *)
Fixpoint strcmp (s1 s2 : cstring) : Z :=
  match s1, s2 with
  | [], [] => 0
  | [], c2 :: _ => 0 - uchar c2
  | c1 :: _, [] => uchar c1
  | c1 :: t1, c2 :: t2 =>
      if (uchar c1 - uchar c2 =? 0)%Z then strcmp t1 t2
      else (uchar c1 - uchar c2)%Z
  end.

(** [strncmp]: [strcmp] over at most [n] bytes. *)
Fixpoint strncmp (s1 s2 : cstring) (n : nat) {struct n} : Z :=
  match n with
  | O => 0
  | S n' =>
      match s1, s2 with
      | [], [] => 0
      | [], c2 :: _ => 0 - uchar c2
      | c1 :: _, [] => uchar c1
      | c1 :: t1, c2 :: t2 =>
          if (uchar c1 - uchar c2 =? 0)%Z then strncmp t1 t2 n'
          else (uchar c1 - uchar c2)%Z
      end
  end.

(** The NUL byte that ends a C string in memory. *)
Definition NUL : ascii := "000"%char.

(** The double quote character (code 34). *)
Definition dquote : ascii := "034"%char.

(** A proposition-level reading of [strstr]: [needle] occurs in [hay]. *)
Definition occurs (needle hay : cstring) : Prop :=
  exists pre post, hay = pre ++ needle ++ post.

(** [needle] sits in [s] at offset [i], character by character. *)
Definition sub_at (needle s : cstring) (i : nat) : Prop :=
  forall j, j < length needle -> nth_error s (i + j) = nth_error needle j.

Definition no_sub (needle s : cstring) : Prop := forall i, ~ sub_at needle s i.

Lemma Some_eq {A} (a b : A) : Some a = Some b -> a = b.
Proof. congruence. Qed.

Lemma ascii_eqb_eq a b : ascii_eqb a b = true <-> a = b.
Proof. apply Ascii.eqb_eq. Qed.

Lemma ascii_eqb_refl a : ascii_eqb a a = true.
Proof. apply Ascii.eqb_refl. Qed.

Lemma ascii_eqb_neq a b : a <> b -> ascii_eqb a b = false.
Proof. intros H. apply Ascii.eqb_neq. assumption. Qed.

Lemma starts_with_spec needle : forall s,
  starts_with needle s = true <-> sub_at needle s 0.
Proof.
  induction needle as [|a p IH]; intros s; simpl.
  - split; auto. intros _ j Hj. simpl in Hj. lia.
  - destruct s as [|b s].
    + split; [discriminate|]. intros H. specialize (H 0 ltac:(simpl; lia)).
      discriminate.
    + rewrite andb_true_iff, ascii_eqb_eq, IH. split.
      * intros [E H] [|j] Hj; simpl in *; [congruence|]. apply H. lia.
      * intros H. split.
        -- specialize (H 0 ltac:(simpl; lia)). simpl in H. congruence.
        -- intros j Hj. apply (H (S j)). simpl. lia.
Qed.

Lemma sub_at_skipn needle s k i :
  sub_at needle (skipn k s) i <-> sub_at needle s (k + i).
Proof.
  unfold sub_at. split; intros H j Hj; specialize (H j Hj).
  - rewrite nth_error_skipn in H. rewrite <- H. f_equal. lia.
  - rewrite nth_error_skipn. rewrite <- H. f_equal. lia.
Qed.

Lemma sub_at_cons needle a s i :
  sub_at needle (a :: s) (S i) <-> sub_at needle s i.
Proof. apply (sub_at_skipn needle (a :: s) 1 i). Qed.

Lemma sub_at_firstn needle s k i :
  sub_at needle (firstn k s) i -> sub_at needle s i.
Proof.
  intros H j Hj. specialize (H j Hj).
  destruct (nth_error needle j) as [c|] eqn:E.
  - destruct (Nat.lt_ge_cases (i + j) k) as [Hlt|Hge].
    + rewrite nth_error_firstn in H.
      destruct (Nat.ltb_spec (i + j) k); [assumption|lia].
    + rewrite nth_error_firstn in H.
      destruct (Nat.ltb_spec (i + j) k); [lia|discriminate].
  - apply nth_error_None in E. lia.
Qed.

Lemma sub_at_bound needle s i :
  needle <> [] -> sub_at needle s i -> i + length needle <= length s.
Proof.
  intros Hn H. destruct needle as [|a p]; [congruence|].
  specialize (H (length p) ltac:(simpl; lia)).
  assert (nth_error (a :: p) (length p) <> None) as E
    by (apply nth_error_Some; simpl; lia).
  rewrite <- H in E. apply nth_error_Some in E. simpl. lia.
Qed.

Lemma strstr_Some hay needle : forall i,
  strstr hay needle = Some i -> sub_at needle hay i.
Proof.
  induction hay as [|a hay IH]; intros i; simpl.
  - destruct (starts_with needle []) eqn:E; [|discriminate].
    intros [= <-]. apply starts_with_spec. assumption.
  - destruct (starts_with needle (a :: hay)) eqn:E.
    + intros [= <-]. apply starts_with_spec. assumption.
    + destruct (strstr hay needle) as [k|]; [|discriminate].
      simpl. intros [= <-]. apply sub_at_cons. auto.
Qed.

Lemma strstr_None hay needle :
  strstr hay needle = None -> no_sub needle hay.
Proof.
  induction hay as [|a hay IH]; simpl.
  - destruct (starts_with needle []) eqn:E; [discriminate|].
    intros _ i H.
    assert (needle <> []) as Hn by (intros ->; discriminate).
    apply sub_at_bound in H; auto. simpl in H.
    destruct needle; [congruence|simpl in H; lia].
  - destruct (starts_with needle (a :: hay)) eqn:E; [discriminate|].
    destruct (strstr hay needle) as [k|]; [discriminate|].
    intros _ [|i] H.
    + apply starts_with_spec in H. congruence.
    + apply sub_at_cons in H. exact (IH eq_refl i H).
Qed.

Lemma strrchr_Some s c : forall j,
  strrchr s c = Some j -> nth_error s j = Some c.
Proof.
  induction s as [|a s IH]; intros j; simpl; [discriminate|].
  destruct (strrchr s c) as [i|].
  - intros [= <-]. simpl. auto.
  - destruct (ascii_eqb a c) eqn:E; [|discriminate].
    intros [= <-]. simpl. apply ascii_eqb_eq in E. congruence.
Qed.

Lemma strrchr_bound s c j : strrchr s c = Some j -> j < length s.
Proof.
  intros H. apply strrchr_Some in H.
  apply nth_error_Some. congruence.
Qed.

Lemma strrchr_firstn s c k j :
  strrchr (firstn k s) c = Some j -> j < k /\ nth_error s j = Some c.
Proof.
  intros H. pose proof (strrchr_bound _ _ _ H) as Hb.
  apply strrchr_Some in H. rewrite length_firstn in Hb.
  split; [lia|]. rewrite nth_error_firstn in H.
  destruct (Nat.ltb_spec j k); [assumption|lia].
Qed.

Lemma occurs_sub_at needle s :
  occurs needle s -> exists i, sub_at needle s i.
Proof.
  intros [pre [post ->]]. exists (length pre). intros j Hj.
  rewrite nth_error_app2 by lia.
  replace (length pre + j - length pre) with j by lia.
  apply nth_error_app1. assumption.
Qed.

Lemma no_sub_not_occurs needle s : no_sub needle s -> ~ occurs needle s.
Proof. intros H Ho. apply occurs_sub_at in Ho as [i Hi]. exact (H i Hi). Qed.

(** Removing the segment between offsets [a] and [b]. *)
Lemma nth_error_delete (s : cstring) a b k :
  a <= b -> b <= length s ->
  nth_error (firstn a s ++ skipn b s) k =
  if k <? a then nth_error s k else nth_error s (k + (b - a)).
Proof.
  intros Hab Hb.
  assert (length (firstn a s) = a) as La by (rewrite length_firstn; lia).
  destruct (Nat.ltb_spec k a).
  - rewrite nth_error_app1 by lia. rewrite nth_error_firstn.
    destruct (Nat.ltb_spec k a); [reflexivity|lia].
  - rewrite nth_error_app2 by lia. rewrite La, nth_error_skipn.
    f_equal. lia.
Qed.

Lemma sub_at_2 a b s i :
  sub_at [a; b] s i <-> nth_error s i = Some a /\ nth_error s (i + 1) = Some b.
Proof.
  unfold sub_at. split.
  - intros H. split.
    + specialize (H 0 ltac:(simpl; lia)). rewrite Nat.add_0_r in H. exact H.
    + exact (H 1 ltac:(simpl; lia)).
  - intros [H0 H1] [|[|j]] Hj; simpl in Hj; try lia.
    + rewrite Nat.add_0_r. exact H0.
    + exact H1.
Qed.

Lemma sub_at_3 a b c s i :
  sub_at [a; b; c] s i <->
  nth_error s i = Some a /\ nth_error s (i + 1) = Some b /\
  nth_error s (i + 2) = Some c.
Proof.
  unfold sub_at. split.
  - intros H. repeat split.
    + specialize (H 0 ltac:(simpl; lia)). rewrite Nat.add_0_r in H. exact H.
    + exact (H 1 ltac:(simpl; lia)).
    + exact (H 2 ltac:(simpl; lia)).
  - intros [H0 [H1 H2]] [|[|[|j]]] Hj; simpl in Hj; try lia.
    + rewrite Nat.add_0_r. exact H0.
    + exact H1.
    + exact H2.
Qed.

Lemma sub_at_4 a b c d s i :
  sub_at [a; b; c; d] s i <->
  nth_error s i = Some a /\ nth_error s (i + 1) = Some b /\
  nth_error s (i + 2) = Some c /\ nth_error s (i + 3) = Some d.
Proof.
  unfold sub_at. split.
  - intros H. repeat split.
    + specialize (H 0 ltac:(simpl; lia)). rewrite Nat.add_0_r in H. exact H.
    + exact (H 1 ltac:(simpl; lia)).
    + exact (H 2 ltac:(simpl; lia)).
    + exact (H 3 ltac:(simpl; lia)).
  - intros [H0 [H1 [H2 H3]]] [|[|[|[|j]]]] Hj; simpl in Hj; try lia.
    + rewrite Nat.add_0_r. exact H0.
    + exact H1.
    + exact H2.
    + exact H3.
Qed.

Lemma strrchr_app s t c :
  strrchr t c <> None -> strrchr (s ++ t) c <> None.
Proof.
  intros H. induction s as [|a s IH]; simpl; [assumption|].
  destruct (strrchr (s ++ t) c); [discriminate|contradiction].
Qed.

End CStr.

Import CStr.

(** ** [defang]: HTML-escape a string into a bounded buffer *)

Module Defang.

(** The bytes one source character contributes: the [switch] of [defang]. *)
Definition entity (c : ascii) : cstring :=
  if ascii_eqb c "<" then lit "&lt;"
  else if ascii_eqb c ">" then lit "&gt;"
  else if ascii_eqb c "&" then lit "&amp;"
  else if ascii_eqb c dquote then lit "&quot;"
  else if ascii_eqb c "'" then lit "&#39;"
  else if ascii_eqb c "?" then lit "&#63;"
  else [c].

(** The [for] loop of [defang]; [used] is [cp2 - dfstr]. *)
Fixpoint defang_loop (str : cstring) (used dfsize : Z) : cstring :=
  match str with
  | [] => []
  | c :: str' =>
      if (used <? dfsize - 8)%Z
      then entity c ++ defang_loop str' (used + Z.of_nat (length (entity c))) dfsize
      else []
  end.

Definition defang (str : cstring) (dfsize : Z) : cstring :=
  defang_loop str 0 dfsize.

(** The six entities [defang] can emit. *)
Definition entities : list cstring :=
  [lit "&lt;"; lit "&gt;"; lit "&amp;"; lit "&quot;"; lit "&#39;"; lit "&#63;"].

(** The characters that must not survive. *)
Definition unsafe (c : ascii) : bool :=
  ascii_eqb c "<" || ascii_eqb c ">" || ascii_eqb c dquote ||
  ascii_eqb c "'" || ascii_eqb c "?".

(** At offset [i] of [out] an entity starts. *)
Definition entity_at (out : cstring) (i : nat) : Prop :=
  exists e, In e entities /\ firstn (length e) (skipn i out) = e.

(** The shape of every output: plain safe characters and whole entities. *)
Inductive escaped : cstring -> Prop :=
| escaped_nil : escaped []
| escaped_plain c out :
    unsafe c = false -> c <> "&"%char -> escaped out -> escaped (c :: out)
| escaped_entity e out :
    In e entities -> escaped out -> escaped (e ++ out).

Lemma entity_cases c :
  (In (entity c) entities) \/
  (entity c = [c] /\ unsafe c = false /\ c <> "&"%char).
Proof.
  unfold entity, unsafe, entities, ascii_eqb.
  destruct (Ascii.eqb_spec c "<"); [simpl; tauto|].
  destruct (Ascii.eqb_spec c ">"); [simpl; tauto|].
  destruct (Ascii.eqb_spec c "&"); [simpl; tauto|].
  destruct (Ascii.eqb_spec c dquote); [simpl; tauto|].
  destruct (Ascii.eqb_spec c "'"); [simpl; tauto|].
  destruct (Ascii.eqb_spec c "?"); [simpl; tauto|].
  right. auto.
Qed.

Lemma entities_shape e :
  In e entities ->
  Forall (fun c => unsafe c = false) e /\
  (exists t, e = "&"%char :: t /\ ~ In "&"%char t) /\
  2 <= length e <= 6.
Proof.
  unfold entities. simpl.
  intros [H|[H|[H|[H|[H|[H|[]]]]]]]; subst e; cbn;
    (split; [repeat constructor|]);
    (split; [eexists; split; [reflexivity|]; cbn; intuition discriminate | lia]).
Qed.

Lemma entity_length c : 1 <= length (entity c) <= 6.
Proof.
  destruct (entity_cases c) as [H|[H _]].
  - apply entities_shape in H. lia.
  - rewrite H. simpl. lia.
Qed.

Lemma defang_loop_escaped str : forall used dfsize,
  escaped (defang_loop str used dfsize).
Proof.
  induction str as [|c str IH]; intros used dfsize; simpl.
  - constructor.
  - destruct (used <? dfsize - 8)%Z; [|constructor].
    destruct (entity_cases c) as [H|[H [Hs Ha]]].
    + apply escaped_entity; auto.
    + rewrite H at 1. simpl. apply escaped_plain; auto.
Qed.

Lemma escaped_safe out :
  escaped out -> Forall (fun c => unsafe c = false) out.
Proof.
  induction 1 as [|c out Hs Ha _ IH|e out He _ IH].
  - constructor.
  - constructor; auto.
  - apply Forall_app. split; auto. apply entities_shape in He. tauto.
Qed.

Lemma entity_at_head e out : In e entities -> entity_at (e ++ out) 0.
Proof.
  intros He. exists e. split; auto. simpl.
  rewrite firstn_app, Nat.sub_diag, firstn_all. simpl. apply app_nil_r.
Qed.

Lemma entity_at_shift pre out i :
  entity_at out i -> entity_at (pre ++ out) (length pre + i).
Proof.
  intros [e [He Hf]]. exists e. split; auto.
  rewrite skipn_app.
  replace (length pre + i - length pre) with i by lia.
  rewrite skipn_all2 by lia. simpl. exact Hf.
Qed.

Lemma escaped_amp out :
  escaped out ->
  forall i, nth_error out i = Some "&"%char -> entity_at out i.
Proof.
  induction 1 as [|c out Hs Ha _ IH|e out He _ IH]; intros i Hi.
  - destruct i; discriminate.
  - destruct i as [|i]; simpl in Hi.
    + congruence.
    + apply (entity_at_shift [c] out i). auto.
  - destruct (Nat.lt_ge_cases i (length e)) as [Hlt|Hge].
    + rewrite nth_error_app1 in Hi by assumption.
      destruct (entities_shape e He) as [_ [[t [Et Ht]] _]].
      destruct i as [|i]; [apply entity_at_head; assumption|].
      subst e. simpl in Hi. apply nth_error_In in Hi. contradiction.
    + rewrite nth_error_app2 in Hi by assumption.
      apply IH in Hi.
      replace i with (length e + (i - length e)) by lia.
      apply entity_at_shift. assumption.
Qed.

Lemma defang_loop_length str : forall used dfsize,
  length (defang_loop str used dfsize) <= 6 * length str.
Proof.
  induction str as [|c str IH]; intros used dfsize; simpl.
  - lia.
  - destruct (used <? dfsize - 8)%Z; simpl; [|lia].
    rewrite length_app. specialize (IH (used + Z.of_nat (length (entity c)))%Z dfsize).
    pose proof (entity_length c). lia.
Qed.

(** The output and its terminator always fit the destination buffer. *)
Lemma defang_loop_fits str : forall used dfsize,
  (0 <= used)%Z ->
  (used + Z.of_nat (length (defang_loop str used dfsize)) <= Z.max used (dfsize - 3))%Z.
Proof.
  induction str as [|c str IH]; intros used dfsize Hu; simpl.
  - lia.
  - destruct (Z.ltb_spec used (dfsize - 8)); simpl; [|lia].
    rewrite length_app.
    pose proof (entity_length c) as Hl.
    specialize (IH (used + Z.of_nat (length (entity c)))%Z dfsize ltac:(lia)).
    lia.
Qed.

Lemma defang_fits str dfsize :
  (0 < dfsize)%Z -> (Z.of_nat (length (defang str dfsize)) < dfsize)%Z.
Proof.
  intros H. unfold defang.
  pose proof (defang_loop_fits str 0 dfsize ltac:(lia)). lia.
Qed.

(** C8, as the specification states it, fails on a double quote: its
    entity [&quot;] has six bytes, so the output of a one-byte input is
    six bytes long, more than five times the input. *)
Lemma defang_five_times_fails :
  defang [dquote] 100 = lit "&quot;" /\
  ~ (length (defang [dquote] 100) <= 5 * length [dquote]).
Proof.
  split; [reflexivity|]. vm_compute. lia.
Qed.

(** C8 (amended): for every input string and every destination buffer
    size, the output of [defang] contains none of the characters
    less-than, greater-than, double quote, apostrophe and question mark;
    every ampersand in it starts one of the six
    entities; and the output is at most six times as long as the input. *)
Theorem defang_output_safe (str : cstring) (dfsize : Z) :
  Forall (fun c => unsafe c = false) (defang str dfsize) /\
  (forall i, nth_error (defang str dfsize) i = Some "&"%char ->
             entity_at (defang str dfsize) i) /\
  length (defang str dfsize) <= 6 * length str.
Proof.
  unfold defang. split; [|split].
  - apply escaped_safe, defang_loop_escaped.
  - apply escaped_amp, defang_loop_escaped.
  - apply defang_loop_length.
Qed.

End Defang.

(** ** [de_dotdot]: the path sanitizer *)

Module DeDotdot.

(** A [while] loop on the buffer: [step] is the body guarded by the loop
    condition ([None] when the condition fails).  Every loop of
    [de_dotdot] shortens the string, so [S (length file)] iterations are
    always enough (lemma [run_done]). *)
Fixpoint while (fuel : nat) (step : cstring -> option cstring) (file : cstring)
  : cstring :=
  match fuel with
  | 0 => file
  | S fuel' =>
      match step file with
      | None => file
      | Some file' => while fuel' step file'
      end
  end.

Definition run (step : cstring -> option cstring) (file : cstring) : cstring :=
  while (S (length file)) step file.

(** Body of [while ((cp = strstr(file, "//")))]. *)
Definition collapse_step (file : cstring) : option cstring :=
  match strstr file (lit "//") with
  | None => None
  | Some cp => Some (firstn (cp + 1) file ++ skip_slashes (skipn (cp + 2) file))
  end.

(** [if (file[0] == '/') memmove(file, &file[1], strlen(file));] *)
Definition strip_slash (file : cstring) : cstring :=
  match file with
  | c :: file' => if ascii_eqb c "/" then file' else file
  | [] => []
  end.

(** Body of [while (strncmp(file, "./", 2) == 0)]. *)
Definition dot_slash_step (file : cstring) : option cstring :=
  if starts_with (lit "./") file then Some (skipn 2 file) else None.

(** Body of [while ((cp = strstr(file, "/./")))]. *)
Definition slash_dot_step (file : cstring) : option cstring :=
  match strstr file (lit "/./") with
  | None => None
  | Some cp => Some (firstn cp file ++ skipn (cp + 2) file)
  end.

(** Body of [while (strncmp(file, "../", 3) == 0)]. *)
Definition leading_dotdot_step (file : cstring) : option cstring :=
  if starts_with (lit "../") file then Some (skipn 3 file) else None.

(** [for (cp2 = cp - 1; cp2 >= file && *cp2 != '/'; --cp2) continue;]
    The result is the offset [cp2 + 1]: just after the last slash before
    [cp], or 0 when there is none ([cp2] ran off the front). *)
Definition after_prev_slash (file : cstring) (cp : nat) : nat :=
  match strrchr (firstn cp file) "/" with
  | Some j => S j
  | None => 0
  end.

(** The [for (;;)] loop alternating between the two removals. *)
Fixpoint dotdot_loop (fuel : nat) (file : cstring) : cstring :=
  match fuel with
  | 0 => file
  | S fuel' =>
      let file1 := run leading_dotdot_step file in
      match strstr file1 (lit "/../") with
      | None => file1
      | Some cp =>
          dotdot_loop fuel'
            (firstn (after_prev_slash file1 cp) file1 ++ skipn (cp + 4) file1)
      end
  end.

(** Body of the last loop: elide a trailing [xxx/..]. *)
Definition trailing_step (file : cstring) : option cstring :=
  let l := length file in
  if (3 <? l) && starts_with (lit "/..") (skipn (l - 3) file) then
    match strrchr (firstn (l - 3) file) "/" with
    | None => None
    | Some cp2 => Some (firstn cp2 file)
    end
  else None.

Definition de_dotdot (file : cstring) : cstring :=
  let file := run collapse_step file in
  let file := strip_slash file in
  let file := run dot_slash_step file in
  let file := run slash_dot_step file in
  let file := dotdot_loop (S (length file)) file in
  run trailing_step file.

(** *** Termination of the loops *)

Section While.
Variable step : cstring -> option cstring.
Hypothesis step_shrinks :
  forall f f', step f = Some f' -> length f' < length f.

Lemma while_done : forall fuel file,
  length file < fuel -> step (while fuel step file) = None.
Proof.
  induction fuel as [|fuel IH]; intros file Hl; [lia|].
  simpl. destruct (step file) as [f'|] eqn:E; [|assumption].
  apply IH. apply step_shrinks in E. lia.
Qed.

Lemma run_done file : step (run step file) = None.
Proof. apply while_done. lia. Qed.

Lemma while_length : forall fuel file,
  length (while fuel step file) <= length file.
Proof.
  induction fuel as [|fuel IH]; intros file; simpl; [lia|].
  destruct (step file) as [f'|] eqn:E; [|lia].
  apply step_shrinks in E. specialize (IH f'). lia.
Qed.
End While.

Lemma while_inv (P : cstring -> Prop) step :
  (forall f f', P f -> step f = Some f' -> P f') ->
  forall fuel file, P file -> P (while fuel step file).
Proof.
  intros Hstep. induction fuel as [|fuel IH]; intros file HP; simpl; auto.
  destruct (step file) as [f'|] eqn:E; eauto.
Qed.

Lemma skip_slashes_length s : length (skip_slashes s) <= length s.
Proof.
  induction s as [|c s IH]; simpl; auto.
  destruct (ascii_eqb c "/"); simpl; lia.
Qed.

Lemma starts_with_length p : forall s,
  starts_with p s = true -> length p <= length s.
Proof.
  induction p as [|a p IH]; intros [|b s]; simpl; try lia; try discriminate.
  rewrite andb_true_iff. intros [_ H]. apply IH in H. lia.
Qed.

Lemma collapse_step_shrinks f f' :
  collapse_step f = Some f' -> length f' < length f.
Proof.
  unfold collapse_step. destruct (strstr f (lit "//")) as [cp|] eqn:E; [|discriminate].
  intros [= <-]. apply strstr_Some, sub_at_bound in E; [|discriminate].
  simpl in E. rewrite length_app, length_firstn.
  pose proof (skip_slashes_length (skipn (cp + 2) f)) as H.
  rewrite length_skipn in H. lia.
Qed.

Lemma dot_slash_step_shrinks f f' :
  dot_slash_step f = Some f' -> length f' < length f.
Proof.
  unfold dot_slash_step. destruct (starts_with (lit "./") f) eqn:E; [|discriminate].
  intros H. apply Some_eq in H. subst f'.
  apply starts_with_length in E. simpl in E.
  rewrite length_skipn. lia.
Qed.

Lemma slash_dot_step_shrinks f f' :
  slash_dot_step f = Some f' -> length f' < length f.
Proof.
  unfold slash_dot_step. destruct (strstr f (lit "/./")) as [cp|] eqn:E; [|discriminate].
  intros [= <-]. apply strstr_Some, sub_at_bound in E; [|discriminate].
  simpl in E. rewrite length_app, length_firstn, length_skipn. lia.
Qed.

Lemma leading_dotdot_step_shrinks f f' :
  leading_dotdot_step f = Some f' -> length f' < length f.
Proof.
  unfold leading_dotdot_step.
  destruct (starts_with (lit "../") f) eqn:E; [|discriminate].
  intros H. apply Some_eq in H. subst f'.
  apply starts_with_length in E. simpl in E.
  rewrite length_skipn. lia.
Qed.

Lemma trailing_step_shrinks f f' :
  trailing_step f = Some f' -> length f' < length f.
Proof.
  unfold trailing_step.
  destruct (Nat.ltb_spec 3 (length f)); cbn [andb]; [|discriminate].
  destruct (starts_with (lit "/..") (skipn (length f - 3) f)); [|discriminate].
  destruct (strrchr (firstn (length f - 3) f) "/") as [cp2|] eqn:E; [|discriminate].
  intros [= <-]. apply strrchr_firstn in E. rewrite length_firstn. lia.
Qed.

(** *** What each loop leaves behind *)

Definition slash : ascii := "/".
Definition dot : ascii := ".".

Ltac nth_solve :=
  match goal with
  | H : nth_error ?s _ = Some ?c |- nth_error ?s _ = Some ?c =>
      rewrite <- H; f_equal; lia
  end.

Ltac nth_clash :=
  match goal with
  | H1 : nth_error ?s ?i = Some ?a, H2 : nth_error ?s ?j = Some ?b |- _ =>
      assert (i = j) as Heq_idx by lia;
      rewrite Heq_idx in H1; rewrite H1 in H2; discriminate H2
  end.

(** The conditions the first three loops establish, and the [..] loop
    must keep. *)
Record clean (s : cstring) : Prop := {
  clean_slashes : no_sub (lit "//") s;
  clean_slash_dot : no_sub (lit "/./") s;
  clean_dot_slash : starts_with (lit "./") s = false
}.

Lemma no_sub_skipn needle s k : no_sub needle s -> no_sub needle (skipn k s).
Proof. intros H i Hi. apply sub_at_skipn in Hi. exact (H _ Hi). Qed.

Lemma no_sub_firstn needle s k : no_sub needle s -> no_sub needle (firstn k s).
Proof. intros H i Hi. apply sub_at_firstn in Hi. exact (H _ Hi). Qed.

Lemma starts_with_false needle s :
  starts_with needle s = false <-> ~ sub_at needle s 0.
Proof.
  rewrite <- starts_with_spec. destruct (starts_with needle s); split;
    congruence.
Qed.

Lemma starts_with_firstn needle s k :
  starts_with needle s = false -> starts_with needle (firstn k s) = false.
Proof.
  rewrite !starts_with_false. intros H Hs. apply H.
  apply sub_at_firstn in Hs. exact Hs.
Qed.

Lemma strip_slash_no_sub needle s :
  no_sub needle s -> no_sub needle (strip_slash s).
Proof.
  destruct s as [|c s]; simpl; auto.
  destruct (ascii_eqb c "/"); auto.
  intros H. apply (no_sub_skipn needle (c :: s) 1 H).
Qed.

Lemma collapsed file : no_sub (lit "//") (run collapse_step file).
Proof.
  apply strstr_None.
  pose proof (run_done collapse_step collapse_step_shrinks file) as H.
  set (r := run collapse_step file) in *. unfold collapse_step in H.
  destruct (strstr r (lit "//")); [discriminate|reflexivity].
Qed.

Lemma dot_slash_step_slashes f f' :
  no_sub (lit "//") f -> dot_slash_step f = Some f' -> no_sub (lit "//") f'.
Proof.
  unfold dot_slash_step. destruct (starts_with _ f); [|discriminate].
  intros H E. apply Some_eq in E. subst f'. apply no_sub_skipn. exact H.
Qed.

Lemma dot_slash_done file :
  starts_with (lit "./") (run dot_slash_step file) = false.
Proof.
  pose proof (run_done dot_slash_step dot_slash_step_shrinks file) as H.
  set (r := run dot_slash_step file) in *. unfold dot_slash_step in H.
  destruct (starts_with (lit "./") r); [discriminate|reflexivity].
Qed.

Lemma slash_dot_step_keeps f f' :
  no_sub (lit "//") f /\ starts_with (lit "./") f = false ->
  slash_dot_step f = Some f' ->
  no_sub (lit "//") f' /\ starts_with (lit "./") f' = false.
Proof.
  intros [H1 H3]. unfold slash_dot_step.
  destruct (strstr f (lit "/./")) as [cp|] eqn:E; [|discriminate].
  intros [= <-]. apply strstr_Some in E.
  pose proof (sub_at_bound (lit "/./") f cp ltac:(discriminate) E) as Hb.
  simpl in Hb.
  apply (sub_at_3 slash dot slash) in E as [E0 [E1 E2]].
  split.
  - intros i Hi. apply (sub_at_2 slash slash) in Hi as [A B].
    rewrite nth_error_delete in A, B by lia.
    destruct (Nat.ltb_spec i cp); destruct (Nat.ltb_spec (i + 1) cp); try lia.
    + apply (H1 i). apply (sub_at_2 slash slash). split; nth_solve.
    + apply (H1 i). apply (sub_at_2 slash slash). split; nth_solve.
    + apply (H1 (i + 2)). apply (sub_at_2 slash slash). split; nth_solve.
  - apply starts_with_false. intros Hs.
    apply (sub_at_2 dot slash) in Hs as [A B].
    rewrite nth_error_delete in A, B by lia.
    apply starts_with_false in H3. apply H3. apply (sub_at_2 dot slash).
    destruct (Nat.ltb_spec 0 cp); destruct (Nat.ltb_spec (0 + 1) cp); try lia.
    + split; nth_solve.
    + split; [nth_solve|]. rewrite <- E0. f_equal. lia.
    + exfalso. assert (cp = 0) by lia. subst cp. simpl in A, E2.
      rewrite A in E2. discriminate.
Qed.

Lemma slash_dot_done file : no_sub (lit "/./") (run slash_dot_step file).
Proof.
  apply strstr_None.
  pose proof (run_done slash_dot_step slash_dot_step_shrinks file) as H.
  set (r := run slash_dot_step file) in *. unfold slash_dot_step in H.
  destruct (strstr r (lit "/./")); [discriminate|reflexivity].
Qed.

(** After the first three loops the buffer is [clean]. *)
Lemma clean_before_dotdot file :
  clean (run slash_dot_step (run dot_slash_step (strip_slash (run collapse_step file)))).
Proof.
  assert (no_sub (lit "//") (run dot_slash_step (strip_slash (run collapse_step file)))) as H1.
  { apply (while_inv (no_sub (lit "//")) dot_slash_step dot_slash_step_slashes).
    apply strip_slash_no_sub, collapsed. }
  pose proof (dot_slash_done (strip_slash (run collapse_step file))) as H3.
  set (f := run dot_slash_step (strip_slash (run collapse_step file))) in *.
  destruct (while_inv
              (fun s => no_sub (lit "//") s /\ starts_with (lit "./") s = false)
              slash_dot_step slash_dot_step_keeps (S (length f)) f (conj H1 H3))
    as [K1 K3].
  constructor; auto. apply slash_dot_done.
Qed.

Lemma leading_dotdot_step_clean f f' :
  clean f -> leading_dotdot_step f = Some f' -> clean f'.
Proof.
  intros [H1 H2 H3]. unfold leading_dotdot_step.
  destruct (starts_with (lit "../") f) eqn:E; [|discriminate].
  intros H. apply Some_eq in H. subst f'.
  apply starts_with_spec, (sub_at_3 dot dot slash) in E as [E0 [E1 E2]].
  constructor.
  - apply no_sub_skipn. assumption.
  - apply no_sub_skipn. assumption.
  - apply starts_with_false. intros Hs.
    apply (sub_at_skipn (lit "./") f 3 0), (sub_at_2 dot slash) in Hs as [A B].
    apply (H2 2). apply (sub_at_3 slash dot slash). repeat split; nth_solve.
Qed.

(** Removing [xxx/../]: [cp] is where [/../] starts. *)
Lemma dotdot_edit_clean f cp :
  clean f -> sub_at (lit "/../") f cp ->
  clean (firstn (after_prev_slash f cp) f ++ skipn (cp + 4) f).
Proof.
  intros [H1 H2 H3] E.
  pose proof (sub_at_bound (lit "/../") f cp ltac:(discriminate) E) as Hb.
  simpl in Hb.
  apply (sub_at_4 slash dot dot slash) in E as [E0 [E1 [E2 E3]]].
  assert (after_prev_slash f cp = 0 \/
          exists j, after_prev_slash f cp = S j /\ j < cp /\
                    nth_error f j = Some slash) as Hp.
  { unfold after_prev_slash.
    destruct (strrchr (firstn cp f) "/") as [j|] eqn:Ej; [|auto].
    right. exists j. apply strrchr_firstn in Ej. tauto. }
  set (p := after_prev_slash f cp) in *.
  assert (p <= cp) as Hpc by (destruct Hp as [->|[j [-> ?]]]; lia).
  constructor.
  - intros i Hi. apply (sub_at_2 slash slash) in Hi as [A B].
    rewrite nth_error_delete in A, B by lia.
    destruct (Nat.ltb_spec i p); destruct (Nat.ltb_spec (i + 1) p); try lia.
    + apply (H1 i). apply (sub_at_2 slash slash). split; nth_solve.
    + apply (H1 (cp + 3)). apply (sub_at_2 slash slash). split; nth_solve.
    + apply (H1 (i + (cp + 4 - p))). apply (sub_at_2 slash slash).
      split; nth_solve.
  - intros i Hi. apply (sub_at_3 slash dot slash) in Hi as [A [B C]].
    rewrite nth_error_delete in A, B, C by lia.
    destruct (Nat.ltb_spec i p); destruct (Nat.ltb_spec (i + 1) p);
      destruct (Nat.ltb_spec (i + 2) p); try lia.
    + apply (H2 i). apply (sub_at_3 slash dot slash). repeat split; nth_solve.
    + destruct Hp as [Hp|[j [Hp [Hj Hs]]]]; [lia|].
      assert (j = i + 1) by lia. subst j. rewrite B in Hs. discriminate.
    + apply (H2 (cp + 3)). apply (sub_at_3 slash dot slash).
      repeat split; nth_solve.
    + apply (H2 (i + (cp + 4 - p))). apply (sub_at_3 slash dot slash).
      repeat split; nth_solve.
  - apply starts_with_false. intros Hs.
    apply (sub_at_2 dot slash) in Hs as [A B].
    rewrite nth_error_delete in A, B by lia.
    destruct (Nat.ltb_spec 0 p); destruct (Nat.ltb_spec (0 + 1) p); try lia.
    + apply starts_with_false in H3. apply H3. apply (sub_at_2 dot slash).
      split; nth_solve.
    + destruct Hp as [Hp|[j [Hp [Hj Hsl]]]]; [lia|].
      assert (j = 0) by lia. subst j. rewrite A in Hsl. discriminate.
    + apply (H2 (cp + 3)). apply (sub_at_3 slash dot slash).
      repeat split; nth_solve.
Qed.

(** What the whole function establishes. *)
Record sanitized (s : cstring) : Prop := {
  sanitized_clean : clean s;
  sanitized_dotdot : no_sub (lit "/../") s;
  sanitized_leading : starts_with (lit "../") s = false
}.

Lemma dotdot_loop_sanitized : forall fuel file,
  length file < fuel -> clean file -> sanitized (dotdot_loop fuel file).
Proof.
  induction fuel as [|fuel IH]; intros file Hl Hc; [lia|].
  cbn [dotdot_loop].
  pose proof (while_inv clean leading_dotdot_step leading_dotdot_step_clean
                (S (length file)) file Hc) as Hc1.
  pose proof (while_length leading_dotdot_step leading_dotdot_step_shrinks
                (S (length file)) file) as Hl1.
  pose proof (run_done leading_dotdot_step leading_dotdot_step_shrinks file) as Hd.
  fold (run leading_dotdot_step file) in Hc1, Hl1.
  set (file1 := run leading_dotdot_step file) in *.
  destruct (strstr file1 (lit "/../")) as [cp|] eqn:E.
  - apply strstr_Some in E.
    pose proof (sub_at_bound (lit "/../") file1 cp ltac:(discriminate) E) as Hb.
    simpl in Hb.
    apply IH; [|apply dotdot_edit_clean; assumption].
    assert (after_prev_slash file1 cp <= cp) as Hp.
    { unfold after_prev_slash.
      destruct (strrchr (firstn cp file1) "/") as [j|] eqn:Ej; [|lia].
      apply strrchr_firstn in Ej. lia. }
    rewrite length_app, length_firstn, length_skipn. lia.
  - constructor; [assumption|apply strstr_None; assumption|].
    unfold leading_dotdot_step in Hd.
    destruct (starts_with (lit "../") file1); [discriminate|reflexivity].
Qed.

Lemma trailing_step_sanitized f f' :
  sanitized f -> trailing_step f = Some f' -> sanitized f'.
Proof.
  intros [[H1 H2 H3] H4 H5]. unfold trailing_step.
  destruct ((3 <? length f) && _); [|discriminate].
  destruct (strrchr (firstn (length f - 3) f) "/") as [cp2|]; [|discriminate].
  intros [= <-].
  repeat constructor;
    first [apply no_sub_firstn; assumption | apply starts_with_firstn; assumption].
Qed.

Lemma de_dotdot_sanitized file : sanitized (de_dotdot file).
Proof.
  unfold de_dotdot.
  apply (while_inv sanitized trailing_step trailing_step_sanitized).
  apply dotdot_loop_sanitized; [lia|]. apply clean_before_dotdot.
Qed.

(** C2: for every input string, the output of [de_dotdot] contains no
    [//], no [/./] and no [/../], and does not begin with [./] or [../]. *)
Theorem de_dotdot_output (file : cstring) :
  ~ occurs (lit "//") (de_dotdot file) /\
  ~ occurs (lit "/./") (de_dotdot file) /\
  ~ occurs (lit "/../") (de_dotdot file) /\
  starts_with (lit "./") (de_dotdot file) = false /\
  starts_with (lit "../") (de_dotdot file) = false.
Proof.
  destruct (de_dotdot_sanitized file) as [[H1 H2 H3] H4 H5].
  repeat split; try assumption; apply no_sub_not_occurs; assumption.
Qed.

End DeDotdot.

(** ** [figure_mime]: MIME type and encodings from the file name *)

Module Mime.

Local Open Scope Z_scope.

(** [struct mime_entry]; [ext_len] and [val_len] are the string lengths
    [init_mime] fills in, so they are not stored separately. *)
Record mime_entry := { ext : cstring; val : cstring }.

Definition ext_len (e : mime_entry) : nat := length (ext e).

(** [tolower] in the C locale. *)
Definition tolower (c : ascii) : ascii :=
  if (65 <=? uchar c) && (uchar c <=? 90)
  then ascii_of_N (N_of_ascii c + 32)
  else c.

(** [strncasecmp]: as [strcmp] on lower-cased bytes, over at most [n] of them. *)
Fixpoint strncasecmp (s1 s2 : cstring) (n : nat) : Z :=
  match n with
  | O => 0
  | S n' =>
      match s1, s2 with
      | [], [] => 0
      | [], c2 :: _ => 0 - uchar (tolower c2)
      | c1 :: _, [] => uchar (tolower c1)
      | c1 :: t1, c2 :: t2 =>
          if uchar (tolower c1) - uchar (tolower c2) =? 0
          then strncasecmp t1 t2 n'
          else uchar (tolower c1) - uchar (tolower c2)
      end
  end.

(** [ext_compare], the comparison handed to [qsort]. *)
Definition ext_compare (a b : mime_entry) : Z := strcmp (ext a) (ext b).

(** [qsort] of a table under [ext_compare]: the library sort, modelled by
    insertion. *)
Fixpoint qsort_insert (e : mime_entry) (tab : list mime_entry) : list mime_entry :=
  match tab with
  | [] => [e]
  | h :: t => if ext_compare e h <=? 0 then e :: tab else h :: qsort_insert e t
  end.

Definition qsort (tab : list mime_entry) : list mime_entry :=
  fold_right qsort_insert [] tab.

(** [init_mime] for one table: sort it (the lengths are implicit). *)
Definition init_mime (tab : list mime_entry) : list mime_entry := qsort tab.

(** The binary search of [figure_mime] over [typ_tab], between [bot] and
    [top].  [None] only when the iteration budget runs out; lemma
    [bsearch_total] shows that [S (length typ_tab)] is always enough. *)
Fixpoint bsearch (fuel : nat) (typ_tab : list mime_entry) (e : cstring)
  (bot top : Z) : option (option mime_entry) :=
  match fuel with
  | O => None
  | S fuel' =>
      if top >=? bot then
        let mid := Z.quot (top + bot) 2 in
        match nth_error typ_tab (Z.to_nat mid) with
        | None => Some None
        | Some m =>
            let r := strncasecmp e (ext m) (length e) in
            if r <? 0 then bsearch fuel' typ_tab e bot (mid - 1)
            else if r >? 0 then bsearch fuel' typ_tab e (mid + 1) top
            else if (length e <? ext_len m)%nat then bsearch fuel' typ_tab e bot (mid - 1)
            else if (ext_len m <? length e)%nat then bsearch fuel' typ_tab e (mid + 1) top
            else Some (Some m)
        end
      else Some None
  end.

(** The type lookup for one extension: [top = n_typ_tab - 1; bot = 0]. *)
Definition type_lookup (typ_tab : list mime_entry) (e : cstring)
  : option (option mime_entry) :=
  bsearch (S (length typ_tab)) typ_tab e 0 (Z.of_nat (length typ_tab) - 1).

(** The test of the linear search over [enc_tab]. *)
Definition ext_matches (e : cstring) (m : mime_entry) : bool :=
  (length e =? ext_len m)%nat && (strncasecmp e (ext m) (length e) =? 0).

(** A linear scan of a table: the first entry whose extension has exactly
    the length of [e] and equals it up to case. *)
Definition linear_scan (tab : list mime_entry) (e : cstring) : option mime_entry :=
  find (ext_matches e) tab.

(** Index of the first matching entry, as the [for] loop over [enc_tab]
    records it in [me_indexes]. *)
Fixpoint enc_index (enc_tab : list mime_entry) (e : cstring) : option nat :=
  match enc_tab with
  | [] => None
  | m :: tab' =>
      if ext_matches e m then Some O else option_map S (enc_index tab' e)
  end.

Definition default_type : cstring := lit "text/plain; charset=%s".

(** The peeling loop.  [prev_dot] is an offset into the file name;
    [me_indexes] is kept in the order of discovery. *)
Fixpoint peel (fuel : nat) (enc_tab typ_tab : list mime_entry)
  (fn : cstring) (prev_dot : nat) (me_indexes : list nat)
  : option (cstring * list nat) :=
  match fuel with
  | O => None
  | S fuel' =>
      match strrchr (firstn prev_dot fn) "." with
      | None => Some (default_type, me_indexes)
      | Some dot =>
          let e := firstn (prev_dot - (dot + 1)) (skipn (dot + 1) fn) in
          let me_indexes' :=
            match enc_index enc_tab e with
            | Some i =>
                if (length me_indexes <? 100)%nat then me_indexes ++ [i]
                else me_indexes
            | None => me_indexes
            end in
          match type_lookup typ_tab e with
          | None => None
          | Some (Some m) => Some (val m, me_indexes')
          | Some None => peel fuel' enc_tab typ_tab fn dot me_indexes'
          end
      end
  end.

(** The [done:] part: build the encodings header value, last found first. *)
Definition add_encoding (enc_tab : list mime_entry) (i : nat) (encodings : cstring)
  : cstring :=
  let v := match nth_error enc_tab i with Some m => val m | None => [] end in
  match encodings with
  | [] => v
  | _ :: _ => encodings ++ lit "," ++ v
  end.

Definition figure_mime (enc_tab typ_tab : list mime_entry) (expnfilename : cstring)
  : option (cstring * cstring) :=
  match peel (S (length expnfilename)) enc_tab typ_tab expnfilename
             (length expnfilename) [] with
  | None => None
  | Some (type, me_indexes) =>
      Some (type, fold_left (fun acc i => add_encoding enc_tab i acc)
                            (rev me_indexes) [])
  end.

(** *** The order behind the search *)

(** Lexicographic comparison of byte codes. *)
Fixpoint lexcmp (a b : list Z) : comparison :=
  match a, b with
  | [], [] => Eq
  | [], _ :: _ => Lt
  | _ :: _, [] => Gt
  | x :: a', y :: b' =>
      match x ?= y with
      | Eq => lexcmp a' b'
      | c => c
      end
  end.

(** The case-folded key the search compares by. *)
Definition key (s : cstring) : list Z := map (fun c => uchar (tolower c)) s.

(** The three-way decision one probe of the binary search takes. *)
Definition probe (e : cstring) (m : mime_entry) : comparison :=
  let r := strncasecmp e (ext m) (length e) in
  if r <? 0 then Lt
  else if r >? 0 then Gt
  else if (length e <? ext_len m)%nat then Lt
  else if (ext_len m <? length e)%nat then Gt
  else Eq.

Lemma uchar_nonneg c : 0 <= uchar c.
Proof. unfold uchar. lia. Qed.

Lemma uchar_inj a b : uchar a = uchar b -> a = b.
Proof.
  unfold uchar. intros H. apply N2Z.inj in H.
  rewrite <- (ascii_N_embedding a), <- (ascii_N_embedding b). congruence.
Qed.

Lemma lexcmp_refl a : lexcmp a a = Eq.
Proof. induction a as [|x a IH]; simpl; auto. rewrite Z.compare_refl. auto. Qed.

Lemma lexcmp_eq : forall a b, lexcmp a b = Eq -> a = b.
Proof.
  induction a as [|x a IH]; intros [|y b]; simpl; try discriminate; auto.
  destruct (Z.compare_spec x y); try discriminate.
  intros Hl. f_equal; auto.
Qed.

Lemma lexcmp_antisym : forall a b, lexcmp b a = CompOpp (lexcmp a b).
Proof.
  induction a as [|x a IH]; intros [|y b]; simpl; auto.
  rewrite (Z.compare_antisym x y).
  destruct (x ?= y); simpl; auto.
Qed.

Lemma lexcmp_trans : forall a b c,
  lexcmp a b = Lt -> lexcmp b c = Lt -> lexcmp a c = Lt.
Proof.
  induction a as [|x a IH]; intros [|y b] [|z c]; simpl; try discriminate; auto.
  destruct (Z.compare_spec x y); destruct (Z.compare_spec y z);
    try discriminate; intros H1 H2.
  - subst. rewrite Z.compare_refl. eauto.
  - subst. destruct (Z.compare_spec y z); auto; lia.
  - subst. destruct (Z.compare_spec x z); auto; lia.
  - destruct (Z.compare_spec x z); auto; lia.
Qed.

Lemma lexcmp_gt_lt a b : lexcmp a b = Gt <-> lexcmp b a = Lt.
Proof.
  rewrite (lexcmp_antisym a b). destruct (lexcmp a b); simpl; split; congruence.
Qed.

Lemma probe_lexcmp : forall e m, probe e m = lexcmp (key e) (key (ext m)).
Proof.
  intros e [t v]. unfold probe, ext_len. simpl ext. revert t.
  induction e as [|c e IH]; intros [|d t]; simpl.
  - reflexivity.
  - reflexivity.
  - pose proof (uchar_nonneg (tolower c)).
    destruct (Z.ltb_spec (uchar (tolower c)) 0); [lia|].
    destruct (uchar (tolower c) >? 0); reflexivity.
  - specialize (IH t).
    destruct (Z.eqb_spec (uchar (tolower c) - uchar (tolower d)) 0) as [E|E].
    + assert (uchar (tolower c) = uchar (tolower d)) as -> by lia.
      rewrite Z.compare_refl. exact IH.
    + destruct (Z.compare_spec (uchar (tolower c)) (uchar (tolower d))); try lia.
      * destruct (Z.ltb_spec (uchar (tolower c) - uchar (tolower d)) 0); [reflexivity|lia].
      * destruct (Z.ltb_spec (uchar (tolower c) - uchar (tolower d)) 0); [lia|].
        destruct (Z.gtb_spec (uchar (tolower c) - uchar (tolower d)) 0); [reflexivity|lia].
Qed.

Lemma ext_matches_probe e m : ext_matches e m = true <-> probe e m = Eq.
Proof.
  unfold ext_matches, probe.
  destruct (Nat.eqb_spec (length e) (ext_len m));
    destruct (Z.eqb_spec (strncasecmp e (ext m) (length e)) 0) as [E|E]; simpl.
  - rewrite E. simpl.
    destruct (Nat.ltb_spec (length e) (ext_len m)); [lia|].
    destruct (Nat.ltb_spec (ext_len m) (length e)); [lia|]. tauto.
  - destruct (Z.ltb_spec (strncasecmp e (ext m) (length e)) 0);
      [split; discriminate|].
    destruct (Z.gtb_spec (strncasecmp e (ext m) (length e)) 0);
      [split; discriminate|lia].
  - rewrite E. simpl.
    destruct (Nat.ltb_spec (length e) (ext_len m)); [split; discriminate|].
    destruct (Nat.ltb_spec (ext_len m) (length e)); [split; discriminate|lia].
  - destruct (Z.ltb_spec (strncasecmp e (ext m) (length e)) 0);
      [split; discriminate|].
    destruct (Z.gtb_spec (strncasecmp e (ext m) (length e)) 0);
      [split; discriminate|lia].
Qed.

Lemma bsearch_step fuel typ_tab e bot top :
  bsearch (S fuel) typ_tab e bot top =
  if top >=? bot then
    match nth_error typ_tab (Z.to_nat (Z.quot (top + bot) 2)) with
    | None => Some None
    | Some m =>
        match probe e m with
        | Lt => bsearch fuel typ_tab e bot (Z.quot (top + bot) 2 - 1)
        | Gt => bsearch fuel typ_tab e (Z.quot (top + bot) 2 + 1) top
        | Eq => Some (Some m)
        end
    end
  else Some None.
Proof.
  cbn [bsearch]. destruct (top >=? bot); [|reflexivity].
  destruct (nth_error typ_tab (Z.to_nat (Z.quot (top + bot) 2))) as [m|];
    [|reflexivity].
  unfold probe.
  destruct (strncasecmp e (ext m) (length e) <? 0); [reflexivity|].
  destruct (strncasecmp e (ext m) (length e) >? 0); [reflexivity|].
  destruct (length e <? ext_len m)%nat; [reflexivity|].
  destruct (ext_len m <? length e)%nat; reflexivity.
Qed.

(** *** Correctness of the search over a sorted table *)

(** The table is strictly increasing under the folded order. *)
Definition before (a b : mime_entry) : Prop :=
  lexcmp (key (ext a)) (key (ext b)) = Lt.

Lemma sorted_nth tab : StronglySorted before tab ->
  forall i j a b, (i < j)%nat ->
    nth_error tab i = Some a -> nth_error tab j = Some b -> before a b.
Proof.
  induction 1 as [|h t Hs IH Hf]; intros i j a b Hij Ha Hb.
  - destruct i; discriminate.
  - destruct j as [|j]; [lia|]. simpl in Hb.
    destruct i as [|i]; simpl in Ha.
    + injection Ha as <-. rewrite Forall_forall in Hf.
      apply Hf. eapply nth_error_In; eauto.
    + apply (IH i j); auto. lia.
Qed.

Lemma find_none_all {A} (f : A -> bool) l :
  (forall x, In x l -> f x = false) -> find f l = None.
Proof.
  induction l as [|a l IH]; simpl; auto. intros H.
  rewrite (H a) by auto. apply IH. auto.
Qed.

Lemma find_first {A} (f : A -> bool) : forall l i m,
  nth_error l i = Some m -> f m = true ->
  (forall j x, (j < i)%nat -> nth_error l j = Some x -> f x = false) ->
  find f l = Some m.
Proof.
  induction l as [|a l IH]; intros i m Hn Hm Hb.
  - destruct i; discriminate.
  - destruct i as [|i]; simpl in *.
    + injection Hn as <-. rewrite Hm. reflexivity.
    + rewrite (Hb 0%nat a) by (auto; lia).
      apply (IH i); auto. intros j x Hj Hx. apply (Hb (S j)); auto. lia.
Qed.

Lemma probe_not_matching e m : probe e m <> Eq -> ext_matches e m = false.
Proof.
  intros H. destruct (ext_matches e m) eqn:E; auto.
  apply ext_matches_probe in E. contradiction.
Qed.

Section Search.
Variable typ_tab : list mime_entry.
Variable e : cstring.
Hypothesis tab_sorted : StronglySorted before typ_tab.

Lemma probe_lt_right i j a b :
  (i <= j)%nat -> nth_error typ_tab i = Some a -> nth_error typ_tab j = Some b ->
  probe e a = Lt -> probe e b = Lt.
Proof.
  intros Hij Ha Hb Hp.
  destruct (Nat.eq_dec i j) as [->|Hne]; [congruence|].
  rewrite probe_lexcmp in *.
  eapply lexcmp_trans; [exact Hp|].
  apply (sorted_nth typ_tab tab_sorted i j); auto. lia.
Qed.

Lemma probe_gt_left i j a b :
  (i <= j)%nat -> nth_error typ_tab i = Some a -> nth_error typ_tab j = Some b ->
  probe e b = Gt -> probe e a = Gt.
Proof.
  intros Hij Ha Hb Hp.
  destruct (Nat.eq_dec i j) as [->|Hne]; [congruence|].
  rewrite probe_lexcmp in *. apply lexcmp_gt_lt in Hp. apply lexcmp_gt_lt.
  eapply lexcmp_trans; [|exact Hp].
  apply (sorted_nth typ_tab tab_sorted i j); auto. lia.
Qed.

Lemma probe_eq_left i j a b :
  (i < j)%nat -> nth_error typ_tab i = Some a -> nth_error typ_tab j = Some b ->
  probe e b = Eq -> probe e a = Gt.
Proof.
  intros Hij Ha Hb Hp. rewrite probe_lexcmp in *.
  apply lexcmp_eq in Hp. rewrite Hp. apply lexcmp_gt_lt.
  apply (sorted_nth typ_tab tab_sorted i j); auto.
Qed.

Lemma bsearch_correct : forall fuel bot top,
  0 <= bot -> top < Z.of_nat (length typ_tab) ->
  Z.max 0 (top - bot + 1) < Z.of_nat fuel ->
  (forall i m, (Z.of_nat i < bot) -> nth_error typ_tab i = Some m ->
               probe e m = Gt) ->
  (forall i m, (top < Z.of_nat i) -> nth_error typ_tab i = Some m ->
               probe e m = Lt) ->
  bsearch fuel typ_tab e bot top = Some (linear_scan typ_tab e).
Proof.
  induction fuel as [|fuel IH]; intros bot top Hb Ht Hf Hlo Hhi; [lia|].
  rewrite bsearch_step.
  destruct (Z.geb_spec top bot) as [Hge|Hlt].
  - set (mid := Z.quot (top + bot) 2).
    assert (bot <= mid <= top) as Hmid.
    { unfold mid. rewrite Z.quot_div_nonneg by lia.
      split; [apply Z.div_le_lower_bound|apply Z.div_le_upper_bound]; lia. }
    destruct (nth_error typ_tab (Z.to_nat mid)) as [m|] eqn:Em.
    + destruct (probe e m) eqn:Ep.
      * f_equal. symmetry. unfold linear_scan.
        apply (find_first _ _ (Z.to_nat mid)); auto.
        -- apply ext_matches_probe. assumption.
        -- intros j x Hj Hx. apply probe_not_matching.
           rewrite (probe_eq_left j (Z.to_nat mid) x m); auto. discriminate.
      * apply IH; try lia; auto.
        intros i x Hi Hx.
        apply (probe_lt_right (Z.to_nat mid) i m x); auto. lia.
      * apply IH; try lia; auto.
        intros i x Hi Hx.
        apply (probe_gt_left i (Z.to_nat mid) x m); auto. lia.
    + apply nth_error_None in Em. lia.
  - f_equal. symmetry. apply find_none_all.
    intros x Hx. apply In_nth_error in Hx as [i Hi].
    apply probe_not_matching.
    destruct (Z.lt_ge_cases (Z.of_nat i) bot).
    + rewrite (Hlo i x); auto. discriminate.
    + rewrite (Hhi i x); auto; [discriminate|lia].
Qed.

(** The search never runs out of its iteration budget, and finds what
    a linear scan finds. *)
Lemma bsearch_total : type_lookup typ_tab e = Some (linear_scan typ_tab e).
Proof.
  unfold type_lookup. apply bsearch_correct; try lia.
  intros i m Hi Hm.
  assert (nth_error typ_tab i <> None) as Hn by congruence.
  apply nth_error_Some in Hn. lia.
Qed.
End Search.

(** *** The lookups always finish *)

Lemma bsearch_finishes typ_tab e : forall fuel bot top,
  0 <= bot -> Z.max 0 (top - bot + 1) < Z.of_nat fuel ->
  exists r, bsearch fuel typ_tab e bot top = Some r.
Proof.
  induction fuel as [|fuel IH]; intros bot top Hb Hf; [lia|].
  rewrite bsearch_step.
  destruct (Z.geb_spec top bot) as [Hge|Hlt]; [|eauto].
  assert (bot <= Z.quot (top + bot) 2 <= top) as Hmid.
  { rewrite Z.quot_div_nonneg by lia.
    split; [apply Z.div_le_lower_bound|apply Z.div_le_upper_bound]; lia. }
  destruct (nth_error typ_tab (Z.to_nat (Z.quot (top + bot) 2))) as [m|];
    [|eauto].
  destruct (probe e m); [eauto|apply IH; lia|apply IH; lia].
Qed.

Lemma type_lookup_finishes typ_tab e :
  exists r, type_lookup typ_tab e = Some r.
Proof. unfold type_lookup. apply bsearch_finishes; lia. Qed.

Lemma peel_finishes enc_tab typ_tab fn : forall fuel prev_dot me_indexes,
  (prev_dot < fuel)%nat ->
  exists r, peel fuel enc_tab typ_tab fn prev_dot me_indexes = Some r.
Proof.
  induction fuel as [|fuel IH]; intros prev_dot me_indexes Hf; [lia|].
  cbn [peel].
  destruct (strrchr (firstn prev_dot fn) ".") as [dot|] eqn:Ed; [|eauto].
  apply strrchr_firstn in Ed as [Hlt _].
  destruct (type_lookup_finishes typ_tab
              (firstn (prev_dot - (dot + 1)) (skipn (dot + 1) fn))) as [r ->].
  destruct r as [m|]; [eauto|]. apply IH. lia.
Qed.

Lemma figure_mime_finishes enc_tab typ_tab fn :
  exists r, figure_mime enc_tab typ_tab fn = Some r.
Proof.
  unfold figure_mime.
  destruct (peel_finishes enc_tab typ_tab fn (S (length fn)) (length fn) [])
    as [[t ix] ->]; [lia|]. eauto.
Qed.

(** A name without a dot has the default type and no encoding. *)
Lemma figure_mime_no_dot enc_tab typ_tab fn :
  strrchr fn "." = None ->
  figure_mime enc_tab typ_tab fn = Some (default_type, []).
Proof.
  intros H. unfold figure_mime. cbn [peel].
  rewrite firstn_all, H. reflexivity.
Qed.

(** *** What [init_mime] establishes *)

(** A byte of a table extension: not NUL (it is inside a C string) and
    not an upper-case letter. *)
Definition plain (c : ascii) : Prop := uchar c <> 0 /\ tolower c = c.

Definition plain_ext (m : mime_entry) : Prop := Forall plain (ext m).

Lemma key_plain s : Forall plain s -> key s = map uchar s.
Proof.
  unfold key. induction 1 as [|c s [_ Hc] _ IH]; simpl; auto.
  rewrite Hc, IH. reflexivity.
Qed.

Lemma strcmp_lexcmp : forall a b,
  Forall plain a -> Forall plain b ->
  (strcmp a b ?= 0) = lexcmp (map uchar a) (map uchar b).
Proof.
  induction a as [|c a IH]; intros [|d b] Ha Hb; simpl.
  - reflexivity.
  - inversion Hb as [|? ? [Hd _] _]; subst.
    pose proof (uchar_nonneg d). apply Z.compare_lt_iff. lia.
  - inversion Ha as [|? ? [Hc _] _]; subst.
    pose proof (uchar_nonneg c). apply Z.compare_gt_iff. lia.
  - inversion Ha; inversion Hb; subst.
    destruct (Z.eqb_spec (uchar c - uchar d) 0) as [E|E].
    + assert (uchar c = uchar d) as -> by lia.
      rewrite Z.compare_refl. auto.
    + destruct (Z.compare_spec (uchar c) (uchar d)); try lia.
      * apply Z.compare_lt_iff. lia.
      * apply Z.compare_gt_iff. lia.
Qed.

Lemma map_uchar_inj a b : map uchar a = map uchar b -> a = b.
Proof.
  revert b. induction a as [|c a IH]; intros [|d b]; simpl; try discriminate; auto.
  intros [= H1 H2]. f_equal; auto using uchar_inj.
Qed.

Lemma In_qsort_insert x e : forall l,
  In x (qsort_insert e l) <-> x = e \/ In x l.
Proof.
  induction l as [|h t IH]; simpl.
  - intuition.
  - destruct (ext_compare e h <=? 0); simpl; rewrite ?IH; intuition.
Qed.

Lemma In_qsort x : forall l, In x (qsort l) <-> In x l.
Proof.
  induction l as [|h t IH]; simpl; [tauto|].
  rewrite In_qsort_insert, IH. intuition.
Qed.

Lemma qsort_insert_sorted e : forall l,
  plain_ext e -> Forall plain_ext l ->
  (forall x, In x l -> ext x <> ext e) ->
  StronglySorted before l -> StronglySorted before (qsort_insert e l).
Proof.
  intros l He Hl Hne Hs. induction Hs as [|h t Hs IH Hf]; simpl.
  - repeat constructor.
  - inversion Hl as [|? ? Hh Ht]; subst.
    pose proof (strcmp_lexcmp (ext e) (ext h) He Hh) as Hc.
    rewrite <- !key_plain in Hc by assumption.
    unfold ext_compare.
    destruct (Z.leb_spec (strcmp (ext e) (ext h)) 0) as [Hle|Hgt].
    + assert (before e h) as Heh.
      { unfold before. destruct (Z.compare_spec (strcmp (ext e) (ext h)) 0);
          try lia; auto.
        symmetry in Hc. apply lexcmp_eq in Hc.
        rewrite !key_plain in Hc by assumption. apply map_uchar_inj in Hc.
        exfalso. apply (Hne h); simpl; auto. }
      constructor; [constructor; assumption|].
      constructor; [assumption|].
      rewrite Forall_forall in *. intros x Hx.
      eapply lexcmp_trans; [exact Heh|]. apply Hf. assumption.
    + assert (before h e) as Hhe.
      { unfold before. apply lexcmp_gt_lt. rewrite <- Hc.
        apply Z.compare_gt_iff. lia. }
      constructor.
      * apply IH; auto. intros x Hx. apply Hne. simpl. auto.
      * rewrite Forall_forall in *. intros x Hx.
        apply In_qsort_insert in Hx as [->|Hx]; auto.
Qed.

Lemma init_mime_sorted tab :
  NoDup (map ext tab) -> Forall plain_ext tab ->
  StronglySorted before (init_mime tab).
Proof.
  unfold init_mime. induction tab as [|e tab IH]; simpl; intros Hn Hp.
  - constructor.
  - inversion Hn as [|? ? Hnot Hn']; inversion Hp as [|? ? He Ht]; subst.
    apply qsort_insert_sorted; auto.
    + apply Forall_forall. intros x Hx. apply (proj1 (In_qsort x tab)) in Hx.
      rewrite Forall_forall in Ht. auto.
    + intros x Hx Heq. apply (proj1 (In_qsort x tab)) in Hx. apply Hnot.
      rewrite <- Heq. apply in_map. assumption.
Qed.

(** C9: over the type table as [init_mime] leaves it, the binary search
    of [figure_mime] returns, for every extension, exactly the entry a
    linear scan of the same table finds by case-insensitive comparison
    with exact length match.  The table itself comes from a header that
    is not part of the sources at hand; it is taken to list each
    extension once, in lower case. *)
Theorem figure_mime_search_is_linear_scan
  (typ_tab : list mime_entry) (e : cstring) :
  NoDup (map ext typ_tab) -> Forall plain_ext typ_tab ->
  type_lookup (init_mime typ_tab) e = Some (linear_scan (init_mime typ_tab) e).
Proof.
  intros Hn Hp. apply bsearch_total. apply init_mime_sorted; assumption.
Qed.

(** A small type table for examples. *)
Definition sample_typ_tab : list mime_entry :=
  [ {| ext := lit "html"; val := lit "text/html; charset=%s" |};
    {| ext := lit "css"; val := lit "text/css" |};
    {| ext := lit "js"; val := lit "application/javascript" |};
    {| ext := lit "c"; val := lit "text/plain; charset=%s" |};
    {| ext := lit "png"; val := lit "image/png" |} ].

Lemma plain_sample_typ_tab : Forall plain_ext sample_typ_tab.
Proof.
  unfold sample_typ_tab, plain_ext, plain.
  repeat constructor; simpl; discriminate.
Qed.

Lemma nodup_sample_typ_tab : NoDup (map ext sample_typ_tab).
Proof.
  unfold sample_typ_tab. simpl.
  repeat constructor; simpl; intuition discriminate.
Qed.

Lemma figure_mime_search_is_linear_scan_witness :
  type_lookup (init_mime sample_typ_tab) (lit "HTML") =
  Some (linear_scan (init_mime sample_typ_tab) (lit "HTML")).
Proof.
  apply (figure_mime_search_is_linear_scan sample_typ_tab (lit "HTML")).
  - exact nodup_sample_typ_tab.
  - exact plain_sample_typ_tab.
Defined.

End Mime.

(** ** [expand_symlinks]: component-wise path resolution *)

Module Symlinks.

(** What [readlink(checked, link, sizeof(link) - 1)] can answer. *)
Inductive readlink_result :=
| Link (target : cstring)   (* success: the contents of the symlink *)
| NotALink                  (* -1 with [EINVAL] *)
| Bogus                     (* -1 with [EACCES], [ENOENT] or [ENOTDIR] *)
| Failure.                  (* -1 with any other [errno] *)

(** The static buffer [checked] is modelled byte by byte, because the
    function moves [checkedlen] and the terminating NUL independently. *)
Definition buffer := list ascii.

(** The C string a buffer holds: the bytes before its first NUL. *)
Fixpoint c_str (mem : buffer) : cstring :=
  match mem with
  | [] => []
  | c :: mem' => if ascii_eqb c NUL then [] else c :: c_str mem'
  end.

(** [mem[k] = c].  Writes are contiguous in [expand_symlinks], so the
    padding case is never reached. *)
Fixpoint poke (mem : buffer) (k : nat) (c : ascii) : buffer :=
  match k, mem with
  | O, [] => [c]
  | O, _ :: mem' => c :: mem'
  | S k', [] => NUL :: poke [] k' c
  | S k', b :: mem' => b :: poke mem' k' c
  end.

(** Copy the bytes [s] to [mem[k..]]. *)
Fixpoint blit (mem : buffer) (k : nat) (s : cstring) : buffer :=
  match s with
  | [] => mem
  | c :: s' => blit (poke mem k c) (S k) s'
  end.

(** [mem[k]], NUL outside what was written. *)
Definition peek (mem : buffer) (k : nat) : ascii := nth k mem NUL.

(** The [..] case: drop the last component of [checked], staying put when
    [checkedlen] is already 0.  Returns the new [checkedlen]. *)
Definition pop_component (mem : buffer) (checkedlen : nat) : nat :=
  if (checkedlen =? 0)%nat then checkedlen
  else match strrchr (c_str mem) "/" with
       | None => 0
       | Some O => 1
       | Some cp2 => cp2
       end.

(** [if (checkedlen > 0 && checked[checkedlen - 1] != '/') checked[checkedlen++] = '/';] *)
Definition add_separator (mem : buffer) (checkedlen : nat) : buffer * nat :=
  if (0 <? checkedlen)%nat && negb (ascii_eqb (peek mem (checkedlen - 1)) "/")
  then (poke mem checkedlen "/", S checkedlen)
  else (mem, checkedlen).

(** "Grab one component from r and transfer it to checked": the new
    buffer, [checkedlen] and [r]. *)
Definition grab_component (mem : buffer) (checkedlen : nat) (r : cstring)
  : buffer * nat * cstring :=
  match strchr r "/" with
  | Some i =>
      let '(mem1, len1) :=
        if (i =? 0)%nat then
          (* Special case for absolute paths. *)
          (blit mem checkedlen (firstn 1 r), checkedlen + 1)
        else if (strncmp r (lit "..") (Nat.max i 2) =? 0)%Z then
          (mem, pop_component mem checkedlen)
        else
          let '(mem', len') := add_separator mem checkedlen in
          (blit mem' len' (firstn i r), len' + i) in
      (poke mem1 len1 NUL, len1, skipn (i + 1) r)
  | None =>
      if (strcmp r (lit "..") =? 0)%Z then
        if (checkedlen =? 0)%nat then (mem, checkedlen, [])
        else
          let len1 := pop_component mem checkedlen in
          (poke mem len1 NUL, len1, [])
      else
        let '(mem', len') := add_separator mem checkedlen in
        (blit mem' len' (r ++ [NUL]), len' + length r, [])
  end.

(** [if (link[linklen - 1] == '/') link[--linklen] = '\0';] *)
Definition trim_slash (link : cstring) : cstring :=
  match rev link with
  | c :: t => if ascii_eqb c "/" then rev t else link
  | [] => link
  end.

(** "Insert the link contents in front of the rest of the filename." *)
Definition insert_link (link r : cstring) : cstring :=
  match r with
  | [] => link
  | _ :: _ => link ++ lit "/" ++ r
  end.

(** [sizeof(link) - 1], the most [readlink] may store. *)
Definition LINK_BYTES : nat := Z.to_nat 4999.

(** The value returned through [checked] at the two normal exits. *)
Definition dot_if_empty (prevcheckedlen : nat) (mem : buffer) : cstring :=
  if (prevcheckedlen =? 0)%nat then lit "."
  else c_str (poke mem prevcheckedlen NUL).

Section Expand.

(** [MAX_LINKS] comes from a header that is not among the sources. *)
Variable MAX_LINKS : nat.
Variable readlink : cstring -> readlink_result.
(** [stat(path, &sb) != -1] *)
Variable stat : cstring -> bool.

(** The result of [expand_symlinks]: [None] for a NULL return, else the
    expanded path and the trailer. *)
Definition result := option (cstring * cstring).

(** The [while (restlen > 0)] loop.  The outer [option] is [None] only
    when [fuel] runs out; [expand_loop_finishes] shows it never does for
    the budget [expand_symlinks] passes. *)
Fixpoint expand_loop (fuel : nat) (mem : buffer) (checkedlen : nat)
  (r : cstring) (nlinks : nat) : option result :=
  match fuel with
  | O => None
  | S fuel' =>
      match r with
      | [] =>
          Some (Some (match c_str mem with
                      | [] => lit "."
                      | _ :: _ => c_str mem
                      end, []))
      | _ :: _ =>
          let '(mem1, len1, r1) := grab_component mem checkedlen r in
          match c_str mem1 with
          | [] => expand_loop fuel' mem1 len1 r1 nlinks
          | _ :: _ =>
              match readlink (c_str mem1) with
              | NotALink => expand_loop fuel' mem1 len1 r1 nlinks
              | Bogus => Some (Some (dot_if_empty checkedlen mem1, r))
              | Failure => Some None
              | Link target =>
                  if (MAX_LINKS <? S nlinks)%nat then Some None
                  else
                    let link := trim_slash (firstn LINK_BYTES target) in
                    let rest := insert_link link r1 in
                    if starts_with (lit "/") rest
                    then expand_loop fuel' (poke mem1 0 NUL) 0 rest (S nlinks)
                    else expand_loop fuel' (poke mem1 checkedlen NUL) checkedlen
                                     rest (S nlinks)
              end
          end
      end
  end.

(** "Trim trailing slashes." *)
Definition trim_trailing_slashes (path : cstring) : cstring :=
  rev (skip_slashes (rev path)).

(** Enough iterations for any run: every iteration either eats a byte of
    the rest or follows one of at most [MAX_LINKS] links, each of which
    adds fewer than 5000 bytes. *)
Definition budget (r : cstring) (nlinks : nat) : nat :=
  Z.to_nat (Z.of_nat (length r)
            + (Z.of_nat MAX_LINKS - Z.of_nat nlinks) * 5000 + 1).

Definition expand_symlinks (path : cstring) (no_symlink_check tildemapped : bool)
  : option result :=
  if no_symlink_check && stat path then
    Some (Some (trim_trailing_slashes path, []))
  else
    let rest := if tildemapped then path else skip_slashes path in
    expand_loop (budget rest 0) [NUL] 0 rest 0.

End Expand.

(** *** Bytes and strings in the [checked] buffer *)

Definition nul_free (s : cstring) : Prop := ~ In NUL s.

Lemma c_str_poke_nul : forall mem k,
  c_str (poke mem k NUL) = firstn k (c_str mem).
Proof.
  induction mem as [|c mem IH]; intros [|k]; simpl; auto.
  destruct (ascii_eqb c NUL); simpl; [reflexivity|]. rewrite IH. reflexivity.
Qed.

Lemma c_str_poke_beyond : forall mem k c,
  length (c_str mem) < k -> c_str (poke mem k c) = c_str mem.
Proof.
  induction mem as [|b mem IH]; intros [|k] c H; simpl in *; try lia.
  - reflexivity.
  - destruct (ascii_eqb b NUL); simpl in *; [reflexivity|].
    rewrite IH by lia. reflexivity.
Qed.

Lemma c_str_blit_beyond : forall s mem k,
  length (c_str mem) < k -> c_str (blit mem k s) = c_str mem.
Proof.
  induction s as [|c s IH]; intros mem k H; simpl; auto.
  rewrite IH; rewrite c_str_poke_beyond; auto.
Qed.

Lemma blit_cons : forall s b mem k,
  blit (b :: mem) (S k) s = b :: blit mem k s.
Proof.
  induction s as [|c s IH]; intros b mem k; simpl; auto.
Qed.

Lemma blit_app : forall a b mem k,
  blit mem k (a ++ b) = blit (blit mem k a) (k + length a) b.
Proof.
  induction a as [|c a IH]; intros b mem k; simpl.
  - rewrite Nat.add_0_r. reflexivity.
  - rewrite IH. f_equal. lia.
Qed.

Lemma c_str_nul_free : forall s tail,
  nul_free s -> c_str (s ++ NUL :: tail) = s.
Proof.
  induction s as [|c s IH]; intros tail H; simpl.
  - reflexivity.
  - destruct (Ascii.eqb_spec c NUL) as [->|Hc].
    + exfalso. apply H. simpl. auto.
    + unfold ascii_eqb. destruct (Ascii.eqb_spec c NUL); [contradiction|].
      rewrite IH; auto. intros Hin. apply H. simpl. auto.
Qed.

Lemma c_str_write_at_start : forall s mem,
  nul_free s -> c_str (poke (blit mem 0 s) (length s) NUL) = s.
Proof.
  induction s as [|c s IH]; intros mem H; simpl.
  - destruct mem; reflexivity.
  - assert (c <> NUL) as Hc by (intros ->; apply H; simpl; auto).
    assert (nul_free s) as Hs by (intros Hin; apply H; simpl; auto).
    destruct mem as [|b mem]; simpl; rewrite blit_cons; simpl;
      unfold ascii_eqb; destruct (Ascii.eqb_spec c NUL); try contradiction;
      rewrite IH; auto.
Qed.

(** Appending [s] where the string in the buffer ends. *)
Lemma c_str_append : forall mem n s,
  length (c_str mem) = n -> nul_free s ->
  c_str (poke (blit mem n s) (n + length s) NUL) = c_str mem ++ s.
Proof.
  induction mem as [|b mem IH]; intros n s Hn Hs; simpl in *.
  - subst n. simpl. apply c_str_write_at_start. assumption.
  - destruct (ascii_eqb b NUL) eqn:E; simpl in *.
    + subst n. simpl. apply c_str_write_at_start. assumption.
    + destruct n as [|n]; [discriminate|]. injection Hn as Hn.
      rewrite blit_cons. simpl. rewrite E. rewrite IH; auto.
Qed.

Lemma nth_error_poke : forall mem k c, nth_error (poke mem k c) k = Some c.
Proof.
  intros mem k. revert mem.
  induction k as [|k IH]; intros [|b mem] c; simpl; auto.
Qed.

Lemma c_str_length_le : forall mem n,
  nth_error mem n = Some NUL -> length (c_str mem) <= n.
Proof.
  induction mem as [|b mem IH]; intros [|n] H; simpl in *; try discriminate.
  - injection H as ->. simpl. lia.
  - destruct (ascii_eqb b NUL); simpl; [lia|]. apply IH in H. lia.
Qed.

Lemma peek_c_str : forall mem k,
  k < length (c_str mem) -> nth_error (c_str mem) k = Some (peek mem k).
Proof.
  unfold peek. induction mem as [|b mem IH]; intros k H; simpl in *; [lia|].
  destruct (ascii_eqb b NUL); simpl in *; [lia|].
  destruct k as [|k]; simpl; auto. apply IH. lia.
Qed.

(** *** The loop always finishes *)

Lemma grab_component_shrinks mem n r :
  r <> [] ->
  (length (snd (grab_component mem n r)) < length r)%nat.
Proof.
  intros Hne. unfold grab_component.
  assert (0 < length r)%nat as Hpos by (destruct r; [congruence|simpl; lia]).
  destruct (strchr r "/") as [i|].
  - destruct (if (i =? 0)%nat then _ else _) as [mem1 len1].
    cbn [snd]. rewrite length_skipn. lia.
  - destruct (strcmp r (lit "..") =? 0)%Z.
    + destruct (n =? 0)%nat; cbn [snd length]; assumption.
    + destruct (add_separator mem n). cbn [snd length]. assumption.
Qed.

Lemma trim_slash_length x : (length (trim_slash x) <= length x)%nat.
Proof.
  unfold trim_slash. destruct (rev x) as [|c t] eqn:E; [lia|].
  destruct (ascii_eqb c "/"); [|lia].
  rewrite <- (rev_involutive x), E. simpl.
  rewrite length_rev, length_app, length_rev. simpl. lia.
Qed.

Lemma insert_link_length t r1 :
  (Z.of_nat (length (insert_link (trim_slash (firstn LINK_BYTES t)) r1))
   <= 5000 + Z.of_nat (length r1))%Z.
Proof.
  pose proof (trim_slash_length (firstn LINK_BYTES t)) as H.
  rewrite length_firstn in H.
  set (x := trim_slash (firstn LINK_BYTES t)) in *. unfold LINK_BYTES in H.
  unfold insert_link. destruct r1 as [|c r1].
  - cbn [length]. lia.
  - rewrite length_app.
    change (length (lit "/" ++ c :: r1)) with (S (length (c :: r1))). lia.
Qed.

Section Finishes.

Variable MAX_LINKS : nat.
Variable readlink : cstring -> readlink_result.
Variable stat : cstring -> bool.

Lemma expand_loop_finishes : forall fuel mem n r nlinks,
  (Z.of_nat (length r) + (Z.of_nat MAX_LINKS - Z.of_nat nlinks) * 5000
   < Z.of_nat fuel)%Z ->
  nlinks <= MAX_LINKS ->
  exists res, expand_loop MAX_LINKS readlink fuel mem n r nlinks = Some res.
Proof.
  induction fuel as [|fuel IH]; intros mem n r nlinks Hf Hn; [lia|].
  cbn [expand_loop]. destruct r as [|a r']; [eauto|].
  pose proof (grab_component_shrinks mem n (a :: r') ltac:(discriminate)) as Hs.
  destruct (grab_component mem n (a :: r')) as [[mem1 len1] r1].
  cbn [snd] in Hs.
  destruct (c_str mem1) as [|b s1]; [apply IH; lia|].
  destruct (readlink (b :: s1)) as [t| | |]; eauto.
  - destruct (Nat.ltb_spec MAX_LINKS (S nlinks)); [eauto|].
    pose proof (insert_link_length t r1) as Hl.
    destruct (starts_with (lit "/") _); apply IH; lia.
  - apply IH; lia.
Qed.

Lemma expand_symlinks_finishes path no_symlink_check tildemapped :
  exists res,
    expand_symlinks MAX_LINKS readlink stat path no_symlink_check tildemapped
    = Some res.
Proof.
  unfold expand_symlinks.
  destruct (no_symlink_check && stat path); [eauto|].
  apply expand_loop_finishes; [unfold budget|]; lia.
Qed.

End Finishes.

(** *** Paths that stay below the root *)

(** A path component the expander may append to [checked]. *)
Definition comp_ok (c : cstring) : Prop :=
  c <> [] /\ ~ In "/"%char c /\ c <> lit ".." /\ nul_free c.

(** The strings [checked] can hold: components joined by single slashes,
    none of them empty or [..]. *)
Inductive good : cstring -> Prop :=
| good_nil : good []
| good_one c : comp_ok c -> good c
| good_snoc s c : good s -> s <> [] -> comp_ok c -> good (s ++ "/"%char :: c).

(** The components of a path, split at every slash. *)
Fixpoint components_from (cur s : cstring) : list cstring :=
  match s with
  | [] => [rev cur]
  | c :: s' =>
      if ascii_eqb c "/" then rev cur :: components_from [] s'
      else components_from (c :: cur) s'
  end.

Definition components (s : cstring) : list cstring := components_from [] s.

(** Equality of C strings, [strcmp(a, b) == 0] on contents. *)
Definition cstr_eqb (a b : cstring) : bool :=
  if list_eq_dec ascii_dec a b then true else false.

(** Walk the components lexically from depth 0 below the root; [None]
    when a [..] would climb above it. *)
Fixpoint walk (comps : list cstring) (depth : nat) : option nat :=
  match comps with
  | [] => Some depth
  | c :: comps' =>
      if cstr_eqb c [] || cstr_eqb c (lit ".") then walk comps' depth
      else if cstr_eqb c (lit "..") then
        match depth with
        | O => None
        | S d => walk comps' d
        end
      else walk comps' (S depth)
  end.

(** The canonical form of a path, read lexically, lies inside the
    directory it is relative to. *)
Definition canonical_inside (s : cstring) : Prop :=
  starts_with (lit "/") s = false /\ walk (components s) 0 <> None.

Lemma cstr_eqb_eq a b : cstr_eqb a b = true <-> a = b.
Proof.
  unfold cstr_eqb. destruct (list_eq_dec ascii_dec a b); split;
    congruence.
Qed.

Lemma walk_no_dotdot comps :
  Forall (fun c => c <> lit "..") comps -> forall d, walk comps d <> None.
Proof.
  induction 1 as [|c comps Hc _ IH]; intros d; cbn [walk]; [discriminate|].
  destruct (cstr_eqb c [] || cstr_eqb c (lit ".")); [apply IH|].
  destruct (cstr_eqb c (lit "..")) eqn:E; [|apply IH].
  apply cstr_eqb_eq in E. contradiction.
Qed.

Lemma components_from_plain : forall c cur,
  ~ In "/"%char c -> components_from cur c = [rev cur ++ c].
Proof.
  induction c as [|a c IH]; intros cur H; simpl.
  - rewrite app_nil_r. reflexivity.
  - destruct (Ascii.eqb_spec a "/") as [->|Ha]; [exfalso; apply H; simpl; auto|].
    unfold ascii_eqb. destruct (Ascii.eqb_spec a "/"); [contradiction|].
    rewrite IH by (intros Hin; apply H; simpl; auto).
    simpl. rewrite <- app_assoc. reflexivity.
Qed.

Lemma components_from_app : forall a cur b,
  components_from cur (a ++ "/"%char :: b) =
  components_from cur a ++ components b.
Proof.
  induction a as [|x a IH]; intros cur b; simpl.
  - reflexivity.
  - destruct (ascii_eqb x "/"); simpl; rewrite IH; reflexivity.
Qed.

Lemma good_components s :
  good s -> Forall (fun c => c <> lit "..") (components s).
Proof.
  induction 1 as [|c [_ [Hs [Hd _]]]|s c _ IH _ [_ [Hs [Hd _]]]].
  - repeat constructor. discriminate.
  - unfold components. rewrite components_from_plain by assumption.
    repeat constructor. assumption.
  - unfold components. rewrite components_from_app.
    apply Forall_app. split; [exact IH|].
    unfold components. rewrite components_from_plain by assumption.
    repeat constructor. assumption.
Qed.

Lemma good_relative s : good s -> starts_with (lit "/") s = false.
Proof.
  induction 1 as [|c [Hn [Hs _]]|s c _ IH Hne _].
  - reflexivity.
  - destruct c as [|a c]; [congruence|]. simpl.
    rewrite ascii_eqb_neq; [reflexivity|].
    intros <-. apply Hs. simpl. auto.
  - destruct s as [|a s]; [congruence|]. exact IH.
Qed.

Lemma good_canonical_inside s : good s -> canonical_inside s.
Proof.
  intros H. split; [apply good_relative; assumption|].
  apply walk_no_dotdot, good_components. assumption.
Qed.

Lemma good_nul_free s : good s -> nul_free s.
Proof.
  induction 1 as [|c [_ [_ [_ Hc]]]|s c _ IH _ [_ [_ [_ Hc]]]]; unfold nul_free in *.
  - simpl. tauto.
  - assumption.
  - rewrite in_app_iff. simpl. intros [H|[H|H]]; auto. discriminate.
Qed.

Lemma strrchr_absent s c : ~ In c s -> strrchr s c = None.
Proof.
  induction s as [|a s IH]; simpl; auto. intros H.
  rewrite IH by tauto.
  destruct (Ascii.eqb_spec a c) as [->|]; [tauto|].
  unfold ascii_eqb. destruct (Ascii.eqb_spec a c); [contradiction|reflexivity].
Qed.

Lemma strrchr_last_slash : forall s c,
  ~ In "/"%char c -> strrchr (s ++ "/"%char :: c) "/" = Some (length s).
Proof.
  induction s as [|a s IH]; intros c H; simpl.
  - rewrite strrchr_absent by assumption. reflexivity.
  - rewrite IH by assumption. reflexivity.
Qed.

(** Dropping the last component of a good path leaves a good path. *)
Lemma good_pop s :
  good s ->
  match strrchr s "/" with
  | None => True
  | Some k => 1 <= k /\ k < length s /\ good (firstn k s)
  end.
Proof.
  intros H. inversion H as [|c [_ [Hs _]]|t c Ht Hne [_ [Hs _]]]; subst.
  - exact I.
  - rewrite strrchr_absent by assumption. exact I.
  - rewrite strrchr_last_slash by assumption.
    rewrite length_app. simpl. split; [destruct t; [congruence|simpl; lia]|].
    split; [lia|].
    rewrite firstn_app, Nat.sub_diag, firstn_all. simpl.
    rewrite app_nil_r. assumption.
Qed.

Lemma good_last s c :
  good s -> nth_error s (length s - 1) = Some c -> c <> "/"%char.
Proof.
  intros H. assert (forall x, comp_ok x -> forall pre,
    nth_error (pre ++ x) (length (pre ++ x) - 1) = Some c -> c <> "/"%char) as K.
  { intros x [Hn [Hs _]] pre Hc Heq. subst c. apply Hs.
    rewrite length_app in Hc. destruct x as [|a x]; [congruence|].
    rewrite nth_error_app2 in Hc by (simpl; lia).
    apply nth_error_In in Hc. assumption. }
  destruct H as [|x Hx|t x Ht Hne Hx].
  - simpl. discriminate.
  - apply (K x Hx []).
  - intros Hc. apply (K x Hx (t ++ ["/"%char])).
    rewrite <- app_assoc. simpl. assumption.
Qed.

(** *** One component at a time *)

(** The buffer holds a good path, terminated at or before [checkedlen]. *)
Definition checked_ok (mem : buffer) (checkedlen : nat) : Prop :=
  nth_error mem checkedlen = Some NUL /\ good (c_str mem).

(** What is left to resolve: no NUL, no empty component, not absolute. *)
Definition rest_ok (r : cstring) : Prop :=
  nul_free r /\ no_sub (lit "//") r /\ starts_with (lit "/") r = false.

Lemma append_component mem n comp :
  checked_ok mem n -> comp_ok comp ->
  forall mem' len', add_separator mem n = (mem', len') ->
  good (c_str (poke (blit mem' len' comp) (len' + length comp) NUL)) /\
  good (firstn n (c_str (poke (blit mem' len' comp) (len' + length comp) NUL))).
Proof.
  intros [Hn Hg] Hc mem' len' Hsep.
  pose proof (c_str_length_le mem n Hn) as Hle.
  destruct Hc as [Hne [Hs [Hd Hz]]].
  destruct (Nat.eq_dec (length (c_str mem)) n) as [Heq|Hneq].
  - (* the string ends exactly at [checkedlen] *)
    unfold add_separator in Hsep.
    destruct (Nat.ltb_spec 0 n) as [Hpos|Hzero]; cbn [andb] in Hsep.
    + assert (nth_error (c_str mem) (length (c_str mem) - 1)
              = Some (peek mem (n - 1))) as Hlast.
      { rewrite Heq. apply peek_c_str. lia. }
      pose proof (good_last _ _ Hg Hlast) as Hnot.
      rewrite (ascii_eqb_neq _ _ Hnot) in Hsep. cbn [negb] in Hsep.
      injection Hsep as <- <-.
      change (blit (poke mem n "/") (S n) comp)
        with (blit mem n ("/"%char :: comp)).
      replace (S n + length comp) with (n + length ("/"%char :: comp))
        by (simpl; lia).
      rewrite (c_str_append mem n ("/"%char :: comp) Heq).
      * assert (c_str mem <> []) as Hne'
          by (intros E; rewrite E in Heq; simpl in Heq; lia).
        split.
        -- apply good_snoc; auto. repeat split; assumption.
        -- rewrite <- Heq, firstn_app, Nat.sub_diag, firstn_all. simpl.
           rewrite app_nil_r. assumption.
      * intros [H|H]; [discriminate|]. exact (Hz H).
    + injection Hsep as <- <-. assert (n = 0) as Hn0 by lia.
      rewrite Hn0 in *.
      rewrite (c_str_append mem 0 comp Heq Hz).
      destruct (c_str mem); [|discriminate]. simpl.
      split; [apply good_one; repeat split; assumption|constructor].
  - (* a stale terminator sits before [checkedlen]: writes are invisible *)
    assert (length (c_str mem') < len' /\ c_str mem' = c_str mem) as [Hlt Hsame].
    { unfold add_separator in Hsep.
      destruct ((0 <? n)%nat && negb (ascii_eqb (peek mem (n - 1)) "/"));
        injection Hsep as <- <-.
      - rewrite c_str_poke_beyond by lia. split; [lia|reflexivity].
      - split; [lia|reflexivity]. }
    rewrite c_str_poke_nul, c_str_blit_beyond by assumption.
    rewrite Hsame in *. rewrite !firstn_all2 by lia.
    split; assumption.
Qed.

Lemma pop_component_ok mem n :
  checked_ok mem n ->
  good (c_str (poke mem (pop_component mem n) NUL)) /\
  good (firstn n (c_str (poke mem (pop_component mem n) NUL))).
Proof.
  intros [Hn Hg]. pose proof (c_str_length_le mem n Hn) as Hle.
  rewrite c_str_poke_nul. unfold pop_component.
  destruct (Nat.eqb_spec n 0) as [->|Hn0].
  - simpl. split; constructor.
  - pose proof (good_pop _ Hg) as Hp.
    destruct (strrchr (c_str mem) "/") as [k|].
    + destruct Hp as [Hk [Hkl Hgk]]. destruct k as [|k]; [lia|].
      rewrite firstn_firstn, Nat.min_r by lia. split; assumption.
    + simpl. rewrite firstn_nil. split; constructor.
Qed.

Lemma strchr_Some s c : forall i,
  strchr s c = Some i -> nth_error s i = Some c /\ ~ In c (firstn i s).
Proof.
  induction s as [|a s IH]; intros i; simpl; [discriminate|].
  destruct (Ascii.eqb_spec a c) as [->|Hne].
  - rewrite ascii_eqb_refl. intros [= <-]. simpl. auto.
  - rewrite ascii_eqb_neq by assumption.
    destruct (strchr s c) as [k|]; [|discriminate].
    simpl. intros [= <-]. destruct (IH k eq_refl) as [H1 H2].
    simpl. split; [assumption|]. intros [H|H]; auto.
Qed.

Lemma strchr_None s c : strchr s c = None -> ~ In c s.
Proof.
  induction s as [|a s IH]; simpl; [tauto|].
  destruct (Ascii.eqb_spec a c) as [->|Hne].
  - rewrite ascii_eqb_refl. discriminate.
  - rewrite ascii_eqb_neq by assumption.
    destruct (strchr s c); [discriminate|].
    intros _ [H|H]; [contradiction|]. apply IH; auto.
Qed.

Lemma strncmp_dotdot r i :
  firstn i r = lit ".." -> strncmp r (lit "..") (Nat.max i 2) = 0%Z.
Proof.
  destruct r as [|a [|b r]]; destruct i as [|[|j]]; simpl firstn;
    try discriminate.
  intros H. injection H as -> -> H.
  destruct j as [|j]; [reflexivity|].
  destruct r as [|c r]; [reflexivity|discriminate].
Qed.

Lemma strcmp_dotdot r : r = lit ".." -> strcmp r (lit "..") = 0%Z.
Proof. intros ->. reflexivity. Qed.

Lemma nul_free_firstn s k : nul_free s -> nul_free (firstn k s).
Proof.
  intros H Hin. apply H. apply (In_nth_error) in Hin as [j Hj].
  rewrite nth_error_firstn in Hj. destruct (j <? k)%nat; [|discriminate].
  eapply nth_error_In; eauto.
Qed.

Lemma nul_free_skipn s k : nul_free s -> nul_free (skipn k s).
Proof.
  intros H Hin. apply H. rewrite <- (firstn_skipn k s).
  apply in_or_app. auto.
Qed.

Lemma rest_ok_tail r i :
  rest_ok r -> nth_error r i = Some "/"%char -> rest_ok (skipn (i + 1) r).
Proof.
  intros [Hz [Hs Hr]] Hi. repeat split.
  - apply nul_free_skipn. assumption.
  - apply DeDotdot.no_sub_skipn. assumption.
  - apply DeDotdot.starts_with_false. intros Hsub.
    apply (sub_at_skipn (lit "/") r (i + 1) 0) in Hsub.
    specialize (Hsub 0 ltac:(simpl; lia)). simpl in Hsub.
    apply (Hs i). apply (sub_at_2 "/" "/"). split; [assumption|].
    rewrite <- Hsub. f_equal. lia.
Qed.

Lemma rest_ok_nil : rest_ok [].
Proof.
  repeat split.
  - intros H. exact H.
  - intros i H. apply sub_at_bound in H; [simpl in H; lia|discriminate].
Qed.

Lemma rest_ok_first_not_slash r :
  rest_ok r -> nth_error r 0 <> Some "/"%char.
Proof.
  intros [_ [_ H]] E. destruct r as [|a r]; [discriminate|].
  simpl in E. injection E as ->. simpl in H.
  rewrite ?ascii_eqb_refl in H. discriminate.
Qed.

Lemma grab_component_ok mem n r mem1 len1 r1 :
  checked_ok mem n -> rest_ok r -> r <> [] ->
  grab_component mem n r = (mem1, len1, r1) ->
  checked_ok mem1 len1 /\ good (firstn n (c_str mem1)) /\
  rest_ok r1 /\ length r1 < length r.
Proof.
  intros Hc Hr Hne Hg. unfold grab_component in Hg.
  destruct (strchr r "/") as [i|] eqn:Ei.
  - apply strchr_Some in Ei as [Hi Hnot].
    assert (i < length r) as Hlt by (apply nth_error_Some; congruence).
    assert (i <> 0) as Hi0.
    { intros ->. exact (rest_ok_first_not_slash r Hr Hi). }
    destruct (Nat.eqb_spec i 0) as [|_]; [contradiction|].
    assert (rest_ok (skipn (i + 1) r) /\ length (skipn (i + 1) r) < length r)
      as [Hr1 Hl1].
    { split; [apply rest_ok_tail; assumption|]. rewrite length_skipn. lia. }
    destruct (Z.eqb_spec (strncmp r (lit "..") (Nat.max i 2)) 0) as [E|E].
    + injection Hg as <- <- <-.
      destruct (pop_component_ok mem n Hc) as [G1 G2].
      refine (conj (conj _ _) (conj _ (conj _ _))); auto using nth_error_poke.
    + destruct (add_separator mem n) as [mem' len'] eqn:Hsep.
      injection Hg as <- <- <-.
      assert (comp_ok (firstn i r)) as Hok.
      { repeat split.
        - intros E0. apply (f_equal (@length ascii)) in E0.
          rewrite length_firstn in E0. simpl in E0. lia.
        - assumption.
        - intros E0. apply E. apply strncmp_dotdot. assumption.
        - apply nul_free_firstn. apply Hr. }
      pose proof (append_component mem n (firstn i r) Hc Hok mem' len' Hsep)
        as [G1 G2].
      rewrite length_firstn, Nat.min_l in G1, G2 by lia.
      refine (conj (conj _ _) (conj _ (conj _ _))); auto using nth_error_poke.
  - apply strchr_None in Ei.
    assert (length (@nil ascii) < length r) as Hl
      by (destruct r; [congruence|simpl; lia]).
    destruct (Z.eqb_spec (strcmp r (lit "..")) 0) as [E|E].
    + destruct (Nat.eqb_spec n 0) as [->|Hn0].
      * injection Hg as <- <- <-. destruct Hc as [Hn Hg'].
        refine (conj (conj _ _) (conj _ (conj _ _))); auto using rest_ok_nil. constructor.
      * injection Hg as <- <- <-.
        destruct (pop_component_ok mem n Hc) as [G1 G2].
        refine (conj (conj _ _) (conj _ (conj _ _))); auto using nth_error_poke, rest_ok_nil.
    + destruct (add_separator mem n) as [mem' len'] eqn:Hsep.
      injection Hg as <- <- <-.
      assert (comp_ok r) as Hok.
      { repeat split; auto.
        - intros E0. apply E. apply strcmp_dotdot. assumption.
        - apply Hr. }
      pose proof (append_component mem n r Hc Hok mem' len' Hsep) as [G1 G2].
      rewrite blit_app. simpl blit.
      refine (conj (conj _ _) (conj _ (conj _ _))); auto using nth_error_poke, rest_ok_nil.
Qed.

(** *** Following a link *)

Lemma trim_slash_cases x :
  (trim_slash x = x /\ nth_error x (length x - 1) <> Some "/"%char) \/
  x = trim_slash x ++ ["/"%char].
Proof.
  unfold trim_slash. destruct (rev x) as [|c t] eqn:E.
  - left. split; auto.
    apply (f_equal (@rev ascii)) in E. rewrite rev_involutive in E.
    subst x. discriminate.
  - apply (f_equal (@rev ascii)) in E. rewrite rev_involutive in E.
    simpl in E. destruct (Ascii.eqb_spec c "/") as [->|Hc].
    + rewrite ascii_eqb_refl. right. assumption.
    + rewrite ascii_eqb_neq by assumption. left. split; auto.
      subst x. rewrite length_app. simpl.
      rewrite nth_error_app2 by lia.
      replace (length (rev t) + 1 - 1 - length (rev t)) with 0 by lia.
      simpl. congruence.
Qed.

Lemma sub_at_app_l needle a b i : sub_at needle a i -> sub_at needle (a ++ b) i.
Proof.
  intros H j Hj. specialize (H j Hj).
  assert (nth_error needle j <> None) as Hn by (apply nth_error_Some; lia).
  rewrite <- H in Hn. apply nth_error_Some in Hn.
  rewrite nth_error_app1 by assumption. assumption.
Qed.

Lemma no_sub_join a b :
  no_sub (lit "//") a -> no_sub (lit "//") b ->
  nth_error a (length a - 1) <> Some "/"%char ->
  starts_with (lit "/") b = false ->
  no_sub (lit "//") (a ++ "/"%char :: b).
Proof.
  intros Ha Hb Hend Hstart i Hi.
  apply (sub_at_2 "/" "/") in Hi as [A B].
  destruct (Nat.lt_ge_cases (i + 1) (length a)) as [H1|H1].
  - rewrite nth_error_app1 in A, B by lia.
    apply (Ha i). apply (sub_at_2 "/" "/"). auto.
  - destruct (Nat.eq_dec (i + 1) (length a)) as [H2|H2].
    + rewrite nth_error_app1 in A by lia. apply Hend.
      rewrite <- A. f_equal. lia.
    + destruct (Nat.eq_dec i (length a)) as [H3|H3].
      * rewrite nth_error_app2 in B by lia.
        replace (i + 1 - length a) with 1 in B by lia. simpl in B.
        destruct b as [|c b]; [discriminate|]. simpl in B, Hstart.
        injection B as ->. rewrite ?ascii_eqb_refl in Hstart. discriminate.
      * rewrite nth_error_app2 in A, B by lia.
        destruct (i - length a) as [|k] eqn:Ek; [lia|].
        replace (i + 1 - length a) with (S (k + 1)) in B by lia.
        simpl in A, B.
        apply (Hb k). apply (sub_at_2 "/" "/"). auto.
Qed.

(** A symlink target the claim is about: not empty, not absolute, no
    empty component, no NUL. *)
Definition target_ok (t : cstring) : Prop :=
  t <> [] /\ nul_free t /\ starts_with (lit "/") t = false /\
  no_sub (lit "//") t.

Lemma link_rest_ok t r1 :
  target_ok t -> rest_ok r1 ->
  rest_ok (insert_link (trim_slash (firstn LINK_BYTES t)) r1) /\
  (Z.of_nat (length (insert_link (trim_slash (firstn LINK_BYTES t)) r1))
   <= 5000 + Z.of_nat (length r1))%Z.
Proof.
  intros [Hne [Hz [Hrel Hs]]] [Hz1 [Hs1 Hrel1]].
  set (x := firstn LINK_BYTES t).
  assert (x <> [] /\ nul_free x /\ starts_with (lit "/") x = false /\
          no_sub (lit "//") x /\ (Z.of_nat (length x) <= 4999)%Z)
    as [Hx1 [Hx2 [Hx3 [Hx4 Hx5]]]].
  { unfold x. repeat split.
    - destruct t; [congruence|].
      change LINK_BYTES with (S (Z.to_nat 4998)). discriminate.
    - apply nul_free_firstn. assumption.
    - destruct t; [congruence|].
      change LINK_BYTES with (S (Z.to_nat 4998)). exact Hrel.
    - apply DeDotdot.no_sub_firstn. assumption.
    - rewrite length_firstn. unfold LINK_BYTES. lia. }
  set (link := trim_slash x).
  assert (link <> [] /\ nul_free link /\ starts_with (lit "/") link = false /\
          no_sub (lit "//") link /\ (Z.of_nat (length link) <= 4999)%Z /\
          nth_error link (length link - 1) <> Some "/"%char)
    as [L1 [L2 [L3 [L4 [L5 L6]]]]].
  { destruct (trim_slash_cases x) as [[E Hend]|E]; fold link in E.
    - rewrite E in *. repeat split; assumption.
    - assert (link <> []) as Hl.
      { intros E0. rewrite E0 in E. simpl in E. rewrite E in Hx3.
        simpl in Hx3. rewrite ?ascii_eqb_refl in Hx3. discriminate. }
      repeat split.
      + assumption.
      + intros Hin. apply Hx2. rewrite E. apply in_or_app. auto.
      + rewrite E in Hx3. destruct link; [congruence|exact Hx3].
      + intros i Hi. apply (Hx4 i). rewrite E. apply sub_at_app_l. assumption.
      + rewrite E, length_app in Hx5. simpl in Hx5. lia.
      + intros Hend. apply (Hx4 (length link - 1)). rewrite E.
        apply (sub_at_2 "/" "/"). split.
        * rewrite nth_error_app1 by (destruct link; [congruence|simpl; lia]).
          assumption.
        * rewrite nth_error_app2 by lia.
          replace (length link - 1 + 1 - length link) with 0
            by (destruct link; [congruence|simpl; lia]).
          reflexivity. }
  unfold insert_link. destruct r1 as [|c r1].
  - split; [repeat split; assumption|cbn [length]; lia].
  - split.
    + repeat split.
      * intros Hin. apply in_app_or in Hin as [Hin|[Hin|Hin]]; auto.
        discriminate.
      * apply no_sub_join; assumption.
      * destruct link; [congruence|exact L3].
    + rewrite length_app.
      change (length (lit "/" ++ c :: r1)) with (S (length (c :: r1))). lia.
Qed.

(** *** The loop *)

Lemma canonical_inside_dot : canonical_inside (lit ".").
Proof. split; [reflexivity|]. vm_compute. discriminate. Qed.

Lemma skip_slashes_suffix s : exists k, skip_slashes s = skipn k s.
Proof.
  induction s as [|c s [k IH]]; simpl.
  - exists 0. reflexivity.
  - destruct (ascii_eqb c "/").
    + exists (S k). exact IH.
    + exists 0. reflexivity.
Qed.

Lemma skip_slashes_relative s : starts_with (lit "/") (skip_slashes s) = false.
Proof.
  induction s as [|c s IH]; simpl; auto.
  destruct (ascii_eqb c "/") eqn:E; auto.
  simpl. rewrite Ascii.eqb_sym. fold (ascii_eqb c "/"). rewrite E. reflexivity.
Qed.

(** *** Nothing left to resolve *)

Section Resolved.

Variable MAX_LINKS : nat.
Variable readlink : cstring -> readlink_result.
Variable stat : cstring -> bool.

Hypothesis links_ok : forall p t, readlink p = Link t -> target_ok t.

(** A path in which nothing is left to resolve: components joined by
    single slashes, none of them empty or [..], and [readlink] reports
    every prefix that ends with a component, the path itself included,
    as no symbolic link. *)
Inductive resolved : cstring -> Prop :=
| resolved_nil : resolved []
| resolved_one c : comp_ok c -> readlink c = NotALink -> resolved c
| resolved_snoc s c :
    resolved s -> s <> [] -> comp_ok c ->
    readlink (s ++ "/"%char :: c) = NotALink ->
    resolved (s ++ "/"%char :: c).

Lemma resolved_good s : resolved s -> good s.
Proof.
  induction 1; [constructor|apply good_one|apply good_snoc]; assumption.
Qed.

Lemma resolved_pop s :
  resolved s ->
  match strrchr s "/" with
  | None => True
  | Some k => resolved (firstn k s)
  end.
Proof.
  intros H. inversion H as [|c [_ [Hs _]] _|t c Ht Hne [_ [Hs _]] _]; subst.
  - exact I.
  - rewrite strrchr_absent by assumption. exact I.
  - rewrite strrchr_last_slash by assumption.
    rewrite firstn_app, Nat.sub_diag, firstn_all. simpl.
    rewrite app_nil_r. assumption.
Qed.

Lemma append_resolved mem n comp :
  nth_error mem n = Some NUL -> resolved (c_str mem) -> comp_ok comp ->
  forall mem' len', add_separator mem n = (mem', len') ->
  (readlink (c_str (poke (blit mem' len' comp) (len' + length comp) NUL))
   = NotALink ->
   resolved (c_str (poke (blit mem' len' comp) (len' + length comp) NUL))) /\
  resolved (firstn n (c_str (poke (blit mem' len' comp) (len' + length comp) NUL))).
Proof.
  intros Hn Hr Hc mem' len' Hsep.
  pose proof (resolved_good _ Hr) as Hg.
  pose proof (c_str_length_le mem n Hn) as Hle.
  pose proof Hc as [Hne [Hs [Hd Hz]]].
  destruct (Nat.eq_dec (length (c_str mem)) n) as [Heq|Hneq].
  - (* the string ends exactly at [checkedlen] *)
    unfold add_separator in Hsep.
    destruct (Nat.ltb_spec 0 n) as [Hpos|Hzero]; cbn [andb] in Hsep.
    + assert (nth_error (c_str mem) (length (c_str mem) - 1)
              = Some (peek mem (n - 1))) as Hlast.
      { rewrite Heq. apply peek_c_str. lia. }
      pose proof (good_last _ _ Hg Hlast) as Hnot.
      rewrite (ascii_eqb_neq _ _ Hnot) in Hsep. cbn [negb] in Hsep.
      injection Hsep as <- <-.
      change (blit (poke mem n "/") (S n) comp)
        with (blit mem n ("/"%char :: comp)).
      replace (S n + length comp) with (n + length ("/"%char :: comp))
        by (simpl; lia).
      rewrite (c_str_append mem n ("/"%char :: comp) Heq).
      * assert (c_str mem <> []) as Hne'
          by (intros E; rewrite E in Heq; simpl in Heq; lia).
        split.
        -- intros Hrl. apply resolved_snoc; assumption.
        -- rewrite <- Heq, firstn_app, Nat.sub_diag, firstn_all. simpl.
           rewrite app_nil_r. assumption.
      * intros [H|H]; [discriminate|]. exact (Hz H).
    + injection Hsep as <- <-. assert (n = 0) as Hn0 by lia.
      rewrite Hn0 in *.
      rewrite (c_str_append mem 0 comp Heq Hz).
      destruct (c_str mem); [|discriminate]. simpl.
      split; [intros Hrl; apply resolved_one; assumption|constructor].
  - (* a stale terminator sits before [checkedlen]: writes are invisible *)
    assert (length (c_str mem') < len' /\ c_str mem' = c_str mem) as [Hlt Hsame].
    { unfold add_separator in Hsep.
      destruct ((0 <? n)%nat && negb (ascii_eqb (peek mem (n - 1)) "/"));
        injection Hsep as <- <-.
      - rewrite c_str_poke_beyond by lia. split; [lia|reflexivity].
      - split; [lia|reflexivity]. }
    rewrite c_str_poke_nul, c_str_blit_beyond by assumption.
    rewrite Hsame in *. rewrite !firstn_all2 by lia.
    split; [intros _|]; assumption.
Qed.

Lemma pop_resolved mem n :
  nth_error mem n = Some NUL -> resolved (c_str mem) ->
  resolved (c_str (poke mem (pop_component mem n) NUL)) /\
  resolved (firstn n (c_str (poke mem (pop_component mem n) NUL))).
Proof.
  intros Hn Hr. pose proof (c_str_length_le mem n Hn) as Hle.
  pose proof (resolved_good _ Hr) as Hg.
  rewrite c_str_poke_nul. unfold pop_component.
  destruct (Nat.eqb_spec n 0) as [->|Hn0].
  - simpl. split; constructor.
  - pose proof (good_pop _ Hg) as Hp. pose proof (resolved_pop _ Hr) as Hq.
    destruct (strrchr (c_str mem) "/") as [k|].
    + destruct Hp as [Hk [Hkl _]]. destruct k as [|k]; [lia|].
      rewrite firstn_firstn, Nat.min_r by lia. split; assumption.
    + simpl. rewrite firstn_nil. split; constructor.
Qed.

(** One component later the buffer still holds a resolved path, once
    [readlink] has reported the new name as no link; the part up to the
    old [checkedlen] is resolved in any case. *)
Lemma grab_component_resolved mem n r mem1 len1 r1 :
  nth_error mem n = Some NUL -> resolved (c_str mem) ->
  rest_ok r -> r <> [] ->
  grab_component mem n r = (mem1, len1, r1) ->
  (readlink (c_str mem1) = NotALink -> resolved (c_str mem1)) /\
  resolved (firstn n (c_str mem1)).
Proof.
  intros Hn Hres Hr Hne Hg. unfold grab_component in Hg.
  destruct (strchr r "/") as [i|] eqn:Ei.
  - apply strchr_Some in Ei as [Hi Hnot].
    assert (i < length r) as Hlt by (apply nth_error_Some; congruence).
    assert (i <> 0) as Hi0.
    { intros ->. exact (rest_ok_first_not_slash r Hr Hi). }
    destruct (Nat.eqb_spec i 0) as [|_]; [contradiction|].
    destruct (Z.eqb_spec (strncmp r (lit "..") (Nat.max i 2)) 0) as [E|E].
    + injection Hg as <- <- <-.
      destruct (pop_resolved mem n Hn Hres) as [G1 G2]. auto.
    + destruct (add_separator mem n) as [mem' len'] eqn:Hsep.
      injection Hg as <- <- <-.
      assert (comp_ok (firstn i r)) as Hok.
      { repeat split.
        - intros E0. apply (f_equal (@length ascii)) in E0.
          rewrite length_firstn in E0. simpl in E0. lia.
        - assumption.
        - intros E0. apply E. apply strncmp_dotdot. assumption.
        - apply nul_free_firstn. apply Hr. }
      pose proof (append_resolved mem n (firstn i r) Hn Hres Hok mem' len' Hsep)
        as [G1 G2].
      rewrite length_firstn, Nat.min_l in G1, G2 by lia. auto.
  - apply strchr_None in Ei.
    destruct (Z.eqb_spec (strcmp r (lit "..")) 0) as [E|E].
    + destruct (Nat.eqb_spec n 0) as [->|Hn0].
      * injection Hg as <- <- <-. split; [auto|constructor].
      * injection Hg as <- <- <-.
        destruct (pop_resolved mem n Hn Hres) as [G1 G2]. auto.
    + destruct (add_separator mem n) as [mem' len'] eqn:Hsep.
      injection Hg as <- <- <-.
      assert (comp_ok r) as Hok.
      { repeat split; auto.
        - intros E0. apply E. apply strcmp_dotdot. assumption.
        - apply Hr. }
      pose proof (append_resolved mem n r Hn Hres Hok mem' len' Hsep) as [G1 G2].
      rewrite blit_app. simpl blit. auto.
Qed.

(** What [expand_symlinks] promises of the name it returns: read
    lexically it stays below the directory it is relative to, it holds
    no [..] component, and it is [.] or a path with nothing left to
    resolve, so that on the file system it names what it spells. *)
Definition canonical_below_root (checked : cstring) : Prop :=
  canonical_inside checked /\
  Forall (fun c => c <> lit "..") (components checked) /\
  (checked = lit "." \/ (checked <> [] /\ resolved checked)).

Lemma resolved_below_root s :
  s <> [] -> resolved s -> canonical_below_root s.
Proof.
  intros Hne H. pose proof (resolved_good _ H) as Hg.
  split; [apply good_canonical_inside; assumption|].
  split; [apply good_components; assumption|]. right. split; assumption.
Qed.

Lemma dot_below_root : canonical_below_root (lit ".").
Proof.
  split; [apply canonical_inside_dot|].
  split; [repeat constructor; discriminate|]. left. reflexivity.
Qed.

Lemma expand_loop_resolved : forall fuel mem n r nlinks,
  (Z.of_nat (length r) + (Z.of_nat MAX_LINKS - Z.of_nat nlinks) * 5000
   < Z.of_nat fuel)%Z ->
  nlinks <= MAX_LINKS ->
  nth_error mem n = Some NUL -> resolved (c_str mem) -> rest_ok r ->
  exists res,
    expand_loop MAX_LINKS readlink fuel mem n r nlinks = Some res /\
    forall checked trailer,
      res = Some (checked, trailer) -> canonical_below_root checked.
Proof.
  induction fuel as [|fuel IH]; intros mem n r nlinks Hf Hn Hz Hres Hr; [lia|].
  cbn [expand_loop]. destruct r as [|a r'].
  - eexists. split; [reflexivity|]. intros checked trailer [= <- _].
    destruct (c_str mem) eqn:E; [apply dot_below_root|].
    apply resolved_below_root; [discriminate|assumption].
  - set (r := a :: r') in *.
    destruct (grab_component mem n r) as [[mem1 len1] r1] eqn:Hg.
    pose proof (grab_component_resolved mem n r mem1 len1 r1 Hz Hres Hr
                  ltac:(discriminate) Hg) as [Hnew Hprev].
    apply grab_component_ok in Hg as [[Hz1 _] [_ [Hr1 Hl1]]];
      [|split; [assumption|apply resolved_good; assumption]
       |assumption|discriminate].
    destruct (c_str mem1) as [|b s1] eqn:Ec.
    + apply IH; [lia|assumption|assumption| |assumption].
      rewrite Ec. constructor.
    + rewrite <- Ec in *. destruct (readlink (c_str mem1)) as [t| | |] eqn:Erl.
      * destruct (Nat.ltb_spec MAX_LINKS (S nlinks)) as [Hmax|Hmax].
        -- eexists. split; [reflexivity|]. discriminate.
        -- destruct (link_rest_ok t r1 (links_ok _ _ Erl) Hr1) as [Hrest Hlen].
           pose proof Hrest as [_ [_ Hrel]]. rewrite Hrel.
           apply IH.
           ++ lia.
           ++ lia.
           ++ apply nth_error_poke.
           ++ rewrite c_str_poke_nul. assumption.
           ++ assumption.
      * apply IH; [lia|assumption|assumption|auto|assumption].
      * eexists. split; [reflexivity|]. intros checked trailer [= <- _].
        unfold dot_if_empty. destruct (Nat.eqb_spec n 0) as [|Hn0];
          [apply dot_below_root|].
        rewrite c_str_poke_nul. apply resolved_below_root; [|assumption].
        rewrite Ec. destruct n; [congruence|discriminate].
      * eexists. split; [reflexivity|]. discriminate.
Qed.

End Resolved.


(** A small symlink farm for examples: [a/l] points to [../b/]. *)
Definition sample_readlink (p : cstring) : readlink_result :=
  if cstr_eqb p (lit "a/l") then Link (lit "../b/")
  else if cstr_eqb p (lit "b/gone") then Bogus
  else NotALink.

Lemma sample_readlink_ok p t : sample_readlink p = Link t -> target_ok t.
Proof.
  unfold sample_readlink.
  destruct (cstr_eqb p (lit "a/l")); [|destruct (cstr_eqb p (lit "b/gone")); discriminate].
  intros [= <-]. repeat split.
  - discriminate.
  - unfold nul_free. simpl. intuition discriminate.
  - apply strstr_None. reflexivity.
Qed.


(** What the sample run returns: the link is followed, [..] is applied
    to [checked], and the missing tail becomes the trailer. *)
Example expand_symlinks_sample :
  expand_symlinks 32 sample_readlink (fun _ => false) (lit "a/l/gone/x")
                  false false
  = Some (Some (lit "b", lit "gone/x")).
Proof. vm_compute. reflexivity. Qed.


(** An empty component met while [checked] is empty is taken for the
    start of an absolute path: a relative link target such as
    [..//etc/passwd] resolves to [/etc/passwd]. *)
Example expand_symlinks_empty_component :
  expand_symlinks 32
    (fun p => if cstr_eqb p (lit "x") then Link (lit "..//etc/passwd")
              else NotALink)
    (fun _ => false) (lit "x") false false
  = Some (Some (lit "/etc/passwd", [])).
Proof. vm_compute. reflexivity. Qed.

End Symlinks.

(** ** The connection object and the server *)

Module Conn.

Local Open Scope Z_scope.

Inductive method :=
| METHOD_UNKNOWN | METHOD_GET | METHOD_HEAD | METHOD_POST | METHOD_PUT
| METHOD_DELETE | METHOD_CONNECT | METHOD_OPTIONS | METHOD_TRACE.

Inductive compression := COMPRESSION_NONE | COMPRESSION_GZIP.

(** The part of [struct stat] the server looks at. *)
Record stat_buf := {
  st_mode : Z;
  st_size : Z;
  st_mtime : Z
}.

Definition S_IROTH : Z := 4.
Definition S_IXOTH : Z := 1.
Definition S_IFMT : Z := 61440.
Definition S_IFDIR : Z := 16384.
Definition S_IFREG : Z := 32768.

Definition S_ISDIR (m : Z) : bool := Z.land m S_IFMT =? S_IFDIR.
Definition S_ISREG (m : Z) : bool := Z.land m S_IFMT =? S_IFREG.

(** What one [add_response] call appends to the response buffer.  Each
    constructor stands for one [snprintf] format of the source; its
    arguments are the values printed. *)
Inductive item :=
| StatusAndDates (protocol : cstring) (status : Z) (title : cstring)
                 (now modified : Z)
| ContentRange (first last total content_length : Z)
| ContentLength (n : Z)
| ContentType (type charset : cstring)
| ContentEncoding (value : cstring)
| CacheControlNoCache
| CacheControlMaxAge (max_age : Z) (etag : option cstring)
| ConnectionHeader (keep_alive : bool)
| ErrorBody (status : Z) (title form arg : cstring)
| ResponseTail
| OptionsReply (protocol : cstring) (now : Z) (post : bool) (max_age : Z)
| Raw (text : cstring).

(** [struct httpd_server], as far as the request pipeline reads it. *)
Record httpd_server := {
  max_age : Z;
  vhost : bool;
  global_passwd : bool;
  no_symlink_check : bool;
  charset : cstring;
  url_pattern : option cstring;
  cgi_pattern : option cstring
}.

(** [struct httpd_conn]: the fields the modelled functions read or
    write.  Pointers to strings are the strings; [file_address] is
    [None] for NULL and the mapped bytes otherwise. *)
Record httpd_conn := mk_conn {
  hs : httpd_server;
  client_addr : Z;
  real_ip : cstring;
  method_ : method;
  protocol : cstring;
  encodedurl : cstring;
  origfilename : cstring;
  expnfilename : cstring;
  indexname : cstring;
  pathinfo : cstring;
  query : cstring;
  hostdir : cstring;
  referer : cstring;
  useragent : cstring;
  accept : cstring;
  accepte : cstring;
  acceptl : cstring;
  cookie : cstring;
  contenttype : cstring;
  hdrhost : cstring;
  authorization : cstring;
  remoteuser : cstring;
  if_modified_since : Z;
  range_if : Z;
  contentlength : Z;
  type : cstring;
  encodings : cstring;
  mime_flag : bool;
  one_one : bool;
  got_range : bool;
  tildemapped : bool;
  first_byte_index : Z;
  last_byte_index : Z;
  keep_alive : bool;
  do_keep_alive : Z;
  should_linger : bool;
  sb : stat_buf;
  file_address : option cstring;
  compression_type : compression;
  has_deflate : bool;
  status : Z;
  bytes_to_send : Z;
  response : list item;
  accesspath : cstring;
  authpath : cstring;
  maxprevauthpath : Z;
  prevauthpath : cstring;
  prevuser : cstring;
  prevcryp : cstring;
  prevmtime : Z
}.

Definition eta_conn (hc : httpd_conn) : httpd_conn :=
  mk_conn (hs hc) (client_addr hc) (real_ip hc) (method_ hc) (protocol hc)
    (encodedurl hc) (origfilename hc) (expnfilename hc) (indexname hc)
    (pathinfo hc) (query hc) (hostdir hc) (referer hc) (useragent hc)
    (accept hc) (accepte hc) (acceptl hc) (cookie hc) (contenttype hc)
    (hdrhost hc) (authorization hc) (remoteuser hc) (if_modified_since hc)
    (range_if hc) (contentlength hc) (type hc) (encodings hc) (mime_flag hc)
    (one_one hc) (got_range hc) (tildemapped hc) (first_byte_index hc)
    (last_byte_index hc) (keep_alive hc) (do_keep_alive hc) (should_linger hc)
    (sb hc) (file_address hc) (compression_type hc) (has_deflate hc)
    (status hc) (bytes_to_send hc) (response hc) (accesspath hc) (authpath hc)
    (maxprevauthpath hc) (prevauthpath hc) (prevuser hc) (prevcryp hc)
    (prevmtime hc).

(** [hc->field = v]: the record with one field replaced. *)
Ltac setter proj :=
  let t := constr:(fun v hc =>
     ltac:(let body := eval cbv beta delta [eta_conn] in (eta_conn hc) in
           match eval pattern (proj hc) in body with
           | ?f _ => let g := eval cbv beta in (f v) in exact g
           end)) in
  exact t.

Definition set_real_ip : cstring -> httpd_conn -> httpd_conn := ltac:(setter real_ip).
Definition set_method : method -> httpd_conn -> httpd_conn := ltac:(setter method_).
Definition set_protocol : cstring -> httpd_conn -> httpd_conn := ltac:(setter protocol).
Definition set_encodedurl : cstring -> httpd_conn -> httpd_conn := ltac:(setter encodedurl).
Definition set_origfilename : cstring -> httpd_conn -> httpd_conn := ltac:(setter origfilename).
Definition set_expnfilename : cstring -> httpd_conn -> httpd_conn := ltac:(setter expnfilename).
Definition set_indexname : cstring -> httpd_conn -> httpd_conn := ltac:(setter indexname).
Definition set_pathinfo : cstring -> httpd_conn -> httpd_conn := ltac:(setter pathinfo).
Definition set_query : cstring -> httpd_conn -> httpd_conn := ltac:(setter query).
Definition set_hostdir : cstring -> httpd_conn -> httpd_conn := ltac:(setter hostdir).
Definition set_referer : cstring -> httpd_conn -> httpd_conn := ltac:(setter referer).
Definition set_useragent : cstring -> httpd_conn -> httpd_conn := ltac:(setter useragent).
Definition set_accept : cstring -> httpd_conn -> httpd_conn := ltac:(setter accept).
Definition set_accepte : cstring -> httpd_conn -> httpd_conn := ltac:(setter accepte).
Definition set_acceptl : cstring -> httpd_conn -> httpd_conn := ltac:(setter acceptl).
Definition set_cookie : cstring -> httpd_conn -> httpd_conn := ltac:(setter cookie).
Definition set_contenttype : cstring -> httpd_conn -> httpd_conn := ltac:(setter contenttype).
Definition set_hdrhost : cstring -> httpd_conn -> httpd_conn := ltac:(setter hdrhost).
Definition set_authorization : cstring -> httpd_conn -> httpd_conn := ltac:(setter authorization).
Definition set_remoteuser : cstring -> httpd_conn -> httpd_conn := ltac:(setter remoteuser).
Definition set_if_modified_since : Z -> httpd_conn -> httpd_conn := ltac:(setter if_modified_since).
Definition set_range_if : Z -> httpd_conn -> httpd_conn := ltac:(setter range_if).
Definition set_contentlength : Z -> httpd_conn -> httpd_conn := ltac:(setter contentlength).
Definition set_type : cstring -> httpd_conn -> httpd_conn := ltac:(setter type).
Definition set_encodings : cstring -> httpd_conn -> httpd_conn := ltac:(setter encodings).
Definition set_mime_flag : bool -> httpd_conn -> httpd_conn := ltac:(setter mime_flag).
Definition set_one_one : bool -> httpd_conn -> httpd_conn := ltac:(setter one_one).
Definition set_got_range : bool -> httpd_conn -> httpd_conn := ltac:(setter got_range).
Definition set_tildemapped : bool -> httpd_conn -> httpd_conn := ltac:(setter tildemapped).
Definition set_first_byte_index : Z -> httpd_conn -> httpd_conn := ltac:(setter first_byte_index).
Definition set_last_byte_index : Z -> httpd_conn -> httpd_conn := ltac:(setter last_byte_index).
Definition set_keep_alive : bool -> httpd_conn -> httpd_conn := ltac:(setter keep_alive).
Definition set_do_keep_alive : Z -> httpd_conn -> httpd_conn := ltac:(setter do_keep_alive).
Definition set_should_linger : bool -> httpd_conn -> httpd_conn := ltac:(setter should_linger).
Definition set_sb : stat_buf -> httpd_conn -> httpd_conn := ltac:(setter sb).
Definition set_file_address : option cstring -> httpd_conn -> httpd_conn := ltac:(setter file_address).
Definition set_compression_type : compression -> httpd_conn -> httpd_conn := ltac:(setter compression_type).
Definition set_status : Z -> httpd_conn -> httpd_conn := ltac:(setter status).
Definition set_bytes_to_send : Z -> httpd_conn -> httpd_conn := ltac:(setter bytes_to_send).
Definition set_response : list item -> httpd_conn -> httpd_conn := ltac:(setter response).
Definition set_accesspath : cstring -> httpd_conn -> httpd_conn := ltac:(setter accesspath).
Definition set_authpath : cstring -> httpd_conn -> httpd_conn := ltac:(setter authpath).
Definition set_prevauthpath : cstring -> httpd_conn -> httpd_conn := ltac:(setter prevauthpath).
Definition set_prevuser : cstring -> httpd_conn -> httpd_conn := ltac:(setter prevuser).
Definition set_prevcryp : cstring -> httpd_conn -> httpd_conn := ltac:(setter prevcryp).
Definition set_prevmtime : Z -> httpd_conn -> httpd_conn := ltac:(setter prevmtime).

(** [httpd_init_conn_content]: what is reset before each request.  The
    server, the peer address, [has_deflate] and the authentication cache
    are left as they are. *)
Definition httpd_init_conn_content (hc : httpd_conn) : httpd_conn :=
  {| hs := hs hc;
     client_addr := client_addr hc;
     real_ip := real_ip hc;
     method_ := METHOD_UNKNOWN;
     protocol := lit "UNKNOWN";
     encodedurl := [];
     origfilename := [];
     expnfilename := [];
     indexname := indexname hc;
     pathinfo := [];
     query := [];
     hostdir := [];
     referer := [];
     useragent := [];
     accept := [];
     accepte := [];
     acceptl := [];
     cookie := [];
     contenttype := [];
     hdrhost := [];
     authorization := [];
     remoteuser := [];
     if_modified_since := -1;
     range_if := -1;
     contentlength := 0;
     type := [];
     encodings := [];
     mime_flag := true;
     one_one := false;
     got_range := false;
     tildemapped := false;
     first_byte_index := 0;
     last_byte_index := -1;
     keep_alive := false;
     do_keep_alive := 0;
     should_linger := false;
     sb := sb hc;
     file_address := None;
     compression_type := COMPRESSION_NONE;
     has_deflate := has_deflate hc;
     status := 0;
     bytes_to_send := 0;
     response := [];
     accesspath := accesspath hc;
     authpath := authpath hc;
     maxprevauthpath := maxprevauthpath hc;
     prevauthpath := prevauthpath hc;
     prevuser := prevuser hc;
     prevcryp := prevcryp hc;
     prevmtime := prevmtime hc |}.

(** A connection as [httpd_get_conn] leaves it: buffers allocated by
    [httpd_init_conn_mem] (so [maxprevauthpath] is already non-zero),
    contents reset. *)
Definition fresh_conn (server : httpd_server) (peer : Z) : httpd_conn :=
  httpd_init_conn_content
    {| hs := server; client_addr := peer; real_ip := [];
       method_ := METHOD_UNKNOWN; protocol := []; encodedurl := [];
       origfilename := []; expnfilename := []; indexname := [];
       pathinfo := []; query := []; hostdir := []; referer := [];
       useragent := []; accept := []; accepte := []; acceptl := [];
       cookie := []; contenttype := []; hdrhost := []; authorization := [];
       remoteuser := []; if_modified_since := -1; range_if := -1;
       contentlength := 0; type := []; encodings := []; mime_flag := true;
       one_one := false; got_range := false; tildemapped := false;
       first_byte_index := 0; last_byte_index := -1; keep_alive := false;
       do_keep_alive := 0; should_linger := false;
       sb := {| st_mode := 0; st_size := 0; st_mtime := 0 |};
       file_address := None; compression_type := COMPRESSION_NONE;
       has_deflate := false; status := 0; bytes_to_send := 0; response := [];
       accesspath := []; authpath := []; maxprevauthpath := 200;
       prevauthpath := []; prevuser := []; prevcryp := []; prevmtime := 0 |}.

End Conn.

(** ** The world outside [libhttpd.c] *)

Module World.

Import Conn.

(** The C library, the file system and the sibling modules the request
    pipeline calls.  Each field is one external function, read as a
    function of its arguments.  Three functions of [libhttpd.c] itself
    are kept abstract here as well, because the properties below only
    pass through them: [really_check_referer], [cgi] and [ls]. *)
Record world := {
  (** [time(NULL)] *)
  now : Z;
  (** the hex MD5 digest of the first [length] mapped bytes *)
  md5 : cstring -> Z -> cstring;
  (** contents of [dir/ERR_DIR/err<status>.html], if it can be opened *)
  err_file : cstring -> Z -> option cstring;
  (** [stat] and [lstat]: [None] when they fail *)
  stat : cstring -> option stat_buf;
  lstat : cstring -> option stat_buf;
  (** [fopen(path, "r")] followed by reading: the bytes of the file *)
  fopen : cstring -> option cstring;
  readlink : cstring -> Symlinks.readlink_result;
  (** [mmc_map]: the mapped bytes, [None] for NULL *)
  mmc_map : cstring -> option cstring;
  mmc_icon_check : cstring -> option stat_buf;
  (** [inet_aton]: the address in network byte order, [None] for 0 *)
  inet_aton : cstring -> option Z;
  htonl : Z -> Z;
  (** [crypt(key, salt)], [None] for NULL *)
  crypt : cstring -> cstring -> option cstring;
  b64_decode : cstring -> cstring;
  tdate_parse : cstring -> Z;
  atoll : cstring -> Z;
  atol : cstring -> Z;
  (** [match(pattern, string)] of [match.c] *)
  wildmatch : cstring -> cstring -> bool;
  really_check_referer : httpd_conn -> bool;
  cgi : httpd_conn -> Z * httpd_conn;
  ls : httpd_conn -> Z * httpd_conn;
  (** constants of headers that are not among the sources *)
  GENERATE_INDEXES : bool;
  MAX_LINKS : nat;
  AUTH_FILE : cstring;
  ACCESS_FILE : cstring;
  INDEX_NAMES : list cstring;
  enc_tab : list Mime.mime_entry;
  typ_tab : list Mime.mime_entry
}.

End World.

(** ** The response composer *)

Module Response.

Import Conn World.
Local Open Scope Z_scope.

Definition ok200title : cstring := lit "OK".
Definition ok206title : cstring := lit "Partial Content".
Definition err302title : cstring := lit "Found".
Definition err302form : cstring := lit "The actual URL is '%s'." ++ ["010"%char].
Definition err304title : cstring := lit "Not Modified".
Definition err403title : cstring := lit "Forbidden".
Definition err404title : cstring := lit "Not Found".
Definition err500title : cstring := lit "Internal Error".
Definition err501title : cstring := lit "Not Implemented".
Definition err401title : cstring := lit "Unauthorized".
Definition httpd_err400title : cstring := lit "Bad Request".
Definition httpd_err400form : cstring :=
  lit "Your request has bad syntax(%s) or is inherently impossible to satisfy."
  ++ ["010"%char].
Definition err401form : cstring :=
  lit "Authorization required for the URL '%s'." ++ ["010"%char].
Definition err403form : cstring :=
  lit "You do not have permission to get URL '%s' from this server."
  ++ ["010"%char].
Definition err404form : cstring :=
  lit "The requested URL '%s' was not found on this server." ++ ["010"%char].
Definition err500form : cstring :=
  lit "There was an unusual problem serving the requested URL '%s'."
  ++ ["010"%char].
Definition err501form : cstring :=
  lit "The requested method '%s' is not implemented by this server."
  ++ ["010"%char].

(** The line end of the wire protocol, CR LF. *)
Definition crlf : cstring := ["013"%char; "010"%char].

(** [add_response]: append to the buffered response. *)
Definition add_response (i : item) (hc : httpd_conn) : httpd_conn :=
  set_response (response hc ++ [i]) hc.

(** [content_encoding]: the header it prints, if any. *)
Definition content_encoding (hc : httpd_conn) (encodings : cstring) : option item :=
  let gz := match compression_type hc with
            | COMPRESSION_GZIP => true
            | COMPRESSION_NONE => false
            end in
  match encodings with
  | _ :: _ =>
      let addgz := gz && match strstr encodings (lit "gzip") with
                         | None => true
                         | Some _ => false
                         end in
      Some (ContentEncoding (encodings ++ if addgz then lit ", gzip" else []))
  | [] => if gz then Some (ContentEncoding (lit "gzip")) else None
  end.

(** The condition under which [send_mime] elects a 206. *)
Definition partial_content (hc : httpd_conn) (status length : Z) : bool :=
  (status =? 200) && got_range hc &&
  (last_byte_index hc >=? first_byte_index hc) &&
  (negb (last_byte_index hc =? length - 1) || negb (first_byte_index hc =? 0)) &&
  ((range_if hc =? -1) || (range_if hc =? st_mtime (sb hc))).

Section SendMime.

Variable w : world.

(** The headers [send_mime] prints once the status is settled, in the
    order of its [add_response] calls.  From here on the function only
    appends to the response, so the values are read from [hc] as it
    stands after the election of 200 or 206. *)
Definition mime_headers (hc : httpd_conn) (partial : bool) (status : Z)
  (title encodings extraheads type : cstring) (length modified : Z)
  : list item :=
  [StatusAndDates (protocol hc) status title (now w)
     (if modified =? 0 then now w else modified)]
  ++ (if partial then
        [ContentRange (first_byte_index hc) (last_byte_index hc) length
           (last_byte_index hc - first_byte_index hc + 1)]
      else if length >=? 0 then
        match compression_type hc with
        | COMPRESSION_NONE => [ContentLength length]
        | COMPRESSION_GZIP => []
        end
      else [])
  ++ [ContentType type (charset (hs hc))]
  ++ match content_encoding hc encodings with
     | Some i => [i]
     | None => []
     end
  ++ (if negb (Z.quot status 100 =? 2) && negb (Z.quot status 100 =? 3)
      then [CacheControlNoCache] else [])
  ++ (if max_age (hs hc) >=? 0
      then [CacheControlMaxAge (max_age (hs hc))
              match file_address hc with
              | Some bytes => Some (md5 w bytes length)
              | None => None
              end]
      else [])
  ++ [ConnectionHeader (negb (do_keep_alive hc =? 0))]
  ++ match extraheads with
     | _ :: _ => [Raw extraheads]
     | [] => []
     end
  ++ [Raw crlf].

Definition send_mime (hc : httpd_conn) (status : Z) (title encodings extraheads
  type : cstring) (length modified : Z) : httpd_conn :=
  let hc := if status =? 200 then hc
            else set_compression_type COMPRESSION_NONE hc in
  let hc := set_status status hc in
  let hc := set_bytes_to_send length hc in
  if mime_flag hc then
    if partial_content hc status length then
      let hc := set_compression_type COMPRESSION_NONE (set_status 206 hc) in
      fold_left (fun h i => add_response i h)
        (mime_headers hc true 206 ok206title encodings extraheads type
           length modified) hc
    else
      let hc := set_got_range false hc in
      fold_left (fun h i => add_response i h)
        (mime_headers hc false status title encodings extraheads type
           length modified) hc
  else hc.

(** [send_response]: headers, then the built-in error page. *)
Definition send_response (hc : httpd_conn) (status : Z) (title extraheads form
  arg : cstring) : httpd_conn :=
  let hc := send_mime hc status title [] extraheads
              (lit "text/html; charset=%s") (-1) 0 in
  let hc := add_response
              (ErrorBody status title form (Defang.defang arg 1000)) hc in
  add_response ResponseTail hc.

(** [send_err_file]: headers, then the page found on disk. *)
Definition send_err_file (hc : httpd_conn) (status : Z) (title extraheads
  : cstring) (dir : cstring) : option httpd_conn :=
  match err_file w dir status with
  | None => None
  | Some page =>
      let hc := send_mime hc status title [] extraheads
                  (lit "text/html; charset=%s") (-1) 0 in
      Some (add_response (Raw page) hc)
  end.

Definition httpd_send_err (hc : httpd_conn) (status : Z) (title extraheads form
  arg : cstring) : httpd_conn :=
  let vhost_page :=
    if vhost (hs hc) && match hostdir hc with [] => false | _ :: _ => true end
    then send_err_file hc status title extraheads (hostdir hc)
    else None in
  match vhost_page with
  | Some hc' => hc'
  | None =>
      match send_err_file hc status title extraheads [] with
      | Some hc' => hc'
      | None => send_response hc status title extraheads form arg
      end
  end.

End SendMime.

Arguments mime_headers : simpl never.

(** Appending items touches the response only. *)
Lemma add_all items : forall hc,
  fold_left (fun h i => add_response i h) items hc
  = set_response (response hc ++ items) hc.
Proof.
  induction items as [|i items IH]; intros hc; simpl.
  - rewrite app_nil_r. destruct hc; reflexivity.
  - rewrite IH. unfold add_response. simpl. rewrite <- app_assoc.
    reflexivity.
Qed.

(** [send_mime] leaves the status it was given, or 206. *)
Lemma send_mime_status w hc st title encs extra ty len modified :
  status (send_mime w hc st title encs extra ty len modified) = st \/
  (st = 200 /\ status (send_mime w hc st title encs extra ty len modified) = 206).
Proof.
  unfold send_mime.
  destruct (mime_flag _); [|left; reflexivity].
  destruct (partial_content _ st len) eqn:E; rewrite add_all.
  - right. split; [|reflexivity].
    unfold partial_content in E. destruct (Z.eqb_spec st 200); [assumption|].
    discriminate.
  - left. reflexivity.
Qed.

Lemma httpd_send_err_status w hc st title extra form arg :
  st <> 200 -> status (httpd_send_err w hc st title extra form arg) = st.
Proof.
  intros Hst.
  assert (forall h e ty l m,
            status (send_mime w h st title e extra ty l m) = st) as K.
  { intros h e ty l m.
    destruct (send_mime_status w h st title e extra ty l m) as [E|[E _]];
      [exact E|contradiction]. }
  unfold httpd_send_err, send_err_file, send_response.
  destruct (vhost (hs hc) && _).
  - destruct (err_file w (hostdir hc) st); [apply K|].
    destruct (err_file w [] st); apply K.
  - destruct (err_file w [] st); apply K.
Qed.

(** A response carries an [ETag] header. *)
Definition is_etag (i : item) : bool :=
  match i with
  | CacheControlMaxAge _ (Some _) => true
  | _ => false
  end.

Definition has_etag (resp : list item) : bool := existsb is_etag resp.

Lemma has_etag_app a b : has_etag (a ++ b) = has_etag a || has_etag b.
Proof. apply existsb_app. Qed.

(** The headers of [send_mime] hold an [ETag] exactly when the file is
    mapped and [max_age] is not negative. *)
Lemma mime_headers_etag w hc partial st title encs extra ty len modified :
  has_etag (mime_headers w hc partial st title encs extra ty len modified)
  = match file_address hc with
    | Some _ => max_age (hs hc) >=? 0
    | None => false
    end.
Proof.
  unfold mime_headers. rewrite !has_etag_app.
  assert (forall (b : bool) (l : list item),
            has_etag l = false -> has_etag (if b then l else []) = false) as K
    by (intros [] l H; [exact H|reflexivity]).
  replace (has_etag (if partial then _ else _)) with false.
  2:{ destruct partial; [reflexivity|].
      destruct (len >=? 0); [|reflexivity].
      destruct (compression_type hc); reflexivity. }
  replace (has_etag match content_encoding hc encs with
                    | Some i => [i] | None => [] end) with false.
  2:{ unfold content_encoding.
      destruct encs; destruct (compression_type hc); reflexivity. }
  rewrite (K _ [CacheControlNoCache]) by reflexivity.
  replace (has_etag match extra with _ :: _ => [Raw extra] | [] => [] end)
    with false by (destruct extra; reflexivity).
  cbn [has_etag existsb is_etag orb].
  destruct (max_age (hs hc) >=? 0); destruct (file_address hc); reflexivity.
Qed.

(** A connection whose file is not mapped and whose response holds no
    [ETag] so far. *)
Definition unmapped (hc : httpd_conn) : Prop :=
  file_address hc = None /\ has_etag (response hc) = false.

Lemma add_response_unmapped i hc :
  is_etag i = false -> unmapped hc -> unmapped (add_response i hc).
Proof.
  intros Hi [Hf He]. split; [exact Hf|].
  unfold add_response. cbn. rewrite has_etag_app, He. cbn.
  rewrite Hi. reflexivity.
Qed.

(** What [send_mime] leaves alone, and what it appends. *)
Lemma send_mime_frame w hc st title encs extra ty len modified :
  let hc' := send_mime w hc st title encs extra ty len modified in
  file_address hc' = file_address hc /\ hs hc' = hs hc /\
  method_ hc' = method_ hc /\ bytes_to_send hc' = len /\
  has_etag (response hc')
  = has_etag (response hc)
    || (mime_flag hc
        && match file_address hc with
           | Some _ => max_age (hs hc) >=? 0
           | None => false
           end).
Proof.
  unfold send_mime. cbn zeta.
  set (hc0 := if st =? 200 then hc else set_compression_type COMPRESSION_NONE hc).
  assert (file_address hc0 = file_address hc /\ hs hc0 = hs hc /\
          method_ hc0 = method_ hc /\ response hc0 = response hc /\
          mime_flag hc0 = mime_flag hc) as (Ef & Eh & Em & Er & Ei)
    by (unfold hc0; destruct (st =? 200); repeat split).
  change (mime_flag (set_bytes_to_send len (set_status st hc0)))
    with (mime_flag hc0).
  rewrite Ei. destruct (mime_flag hc).
  - destruct (partial_content _ st len); rewrite add_all; cbn;
      rewrite has_etag_app, mime_headers_etag; cbn; rewrite Ef, Eh, Er;
      repeat split; assumption.
  - cbn. rewrite Ef, Eh, Em, Er, orb_false_r. repeat split.
Qed.

Lemma send_mime_unmapped w hc st title encs extra ty len modified :
  unmapped hc -> unmapped (send_mime w hc st title encs extra ty len modified).
Proof.
  intros [Hf He].
  destruct (send_mime_frame w hc st title encs extra ty len modified)
    as (Ef & _ & _ & _ & Er).
  split; [congruence|]. rewrite Er, He, Hf, andb_false_r. reflexivity.
Qed.

Lemma httpd_send_err_unmapped w hc st title extra form arg :
  unmapped hc -> unmapped (httpd_send_err w hc st title extra form arg).
Proof.
  intros H.
  assert (forall h e ty l m page, unmapped h ->
            unmapped (add_response (Raw page)
                        (send_mime w h st title e extra ty l m))) as K
    by (intros; apply add_response_unmapped;
        [reflexivity|apply send_mime_unmapped; assumption]).
  unfold httpd_send_err, send_err_file, send_response.
  assert (unmapped
            match err_file w [] st with
            | Some page =>
                add_response (Raw page)
                  (send_mime w hc st title [] extra
                     (lit "text/html; charset=%s") (-1) 0)
            | None =>
                add_response ResponseTail
                  (add_response
                     (ErrorBody st title form (Defang.defang arg 1000))
                     (send_mime w hc st title [] extra
                        (lit "text/html; charset=%s") (-1) 0))
            end) as K2.
  { destruct (err_file w [] st); [apply K; assumption|].
    repeat apply add_response_unmapped; try reflexivity.
    apply send_mime_unmapped; assumption. }
  destruct (vhost (hs hc) && _).
  - destruct (err_file w (hostdir hc) st); [apply K; assumption|].
    destruct (err_file w [] st); exact K2.
  - destruct (err_file w [] st); exact K2.
Qed.

(** Without a 206 there is no [Content-Range]. *)
Lemma mime_headers_no_range w hc st title encs extra ty len modified a b c d :
  ~ In (ContentRange a b c d)
       (mime_headers w hc false st title encs extra ty len modified).
Proof.
  unfold mime_headers, content_encoding. rewrite !in_app_iff.
  destruct (len >=? 0), (compression_type hc), encs,
    (negb (Z.quot st 100 =? 2) && negb (Z.quot st 100 =? 3)),
    (max_age (hs hc) >=? 0), extra; cbn; intuition discriminate.
Qed.

(** With the status 200, [send_mime] elects a 206 exactly on
    [partial_content]. *)
Lemma send_mime_partial w hc title encs extra ty len modified :
  mime_flag hc = true ->
  partial_content hc 200 len = true ->
  let hc' := send_mime w hc 200 title encs extra ty len modified in
  status hc' = 206 /\ got_range hc' = true /\
  In (ContentRange (first_byte_index hc) (last_byte_index hc) len
        (last_byte_index hc - first_byte_index hc + 1)) (response hc').
Proof.
  intros Hm Hp. unfold send_mime. cbn zeta. rewrite Z.eqb_refl.
  change (mime_flag (set_bytes_to_send len (set_status 200 hc)))
    with (mime_flag hc).
  change (partial_content (set_bytes_to_send len (set_status 200 hc)) 200 len)
    with (partial_content hc 200 len).
  rewrite Hm, Hp, add_all. cbn.
  split; [reflexivity|]. split.
  - unfold partial_content in Hp. destruct (got_range hc); [reflexivity|].
    cbn in Hp. discriminate.
  - apply in_or_app. right. right. left. reflexivity.
Qed.

Lemma send_mime_full w hc st title encs extra ty len modified :
  mime_flag hc = true ->
  partial_content hc st len = false ->
  let hc' := send_mime w hc st title encs extra ty len modified in
  status hc' = st /\ got_range hc' = false /\
  forall a b c d, In (ContentRange a b c d) (response hc') ->
                  In (ContentRange a b c d) (response hc).
Proof.
  intros Hm Hp. unfold send_mime. cbn zeta.
  set (hc0 := if st =? 200 then hc else set_compression_type COMPRESSION_NONE hc).
  assert (response hc0 = response hc /\ mime_flag hc0 = mime_flag hc /\
          partial_content hc0 st len = partial_content hc st len)
    as (Er & Ei & Ep)
    by (unfold hc0; destruct (st =? 200); repeat split).
  change (mime_flag (set_bytes_to_send len (set_status st hc0)))
    with (mime_flag hc0).
  change (partial_content (set_bytes_to_send len (set_status st hc0)) st len)
    with (partial_content hc0 st len).
  rewrite Ei, Hm, Ep, Hp, add_all. cbn.
  split; [reflexivity|]. split; [reflexivity|].
  intros a b c d Hin. rewrite Er in Hin.
  apply in_app_or in Hin as [Hin|Hin]; [exact Hin|exfalso].
  apply mime_headers_no_range in Hin. exact Hin.
Qed.

End Response.

(** ** The header loop of [httpd_parse_request] *)

Module Parse.

Import Conn World Response.
Local Open Scope Z_scope.

Definition is_blank (c : ascii) : bool := ascii_eqb c " " || ascii_eqb c "009".

Definition is_digit (c : ascii) : bool := (48 <=? uchar c) && (uchar c <=? 57).

(** [cp += strspn(cp, " \t")] *)
Fixpoint skip_blanks (s : cstring) : cstring :=
  match s with
  | c :: s' => if is_blank c then skip_blanks s' else s
  | [] => []
  end.

(** [strncasecmp(buf, name, strlen(name)) == 0] *)
Definition header_is (buf : cstring) (name : string) : bool :=
  Mime.strncasecmp buf (lit name) (length (lit name)) =? 0.

(** [strcasecmp(a, b)] *)
Definition strcasecmp (a b : cstring) : Z :=
  Mime.strncasecmp a b (S (Nat.max (length a) (length b))).

(** The value after a header name of [n] bytes, leading blanks skipped. *)
Definition value_after (n : nat) (buf : cstring) : cstring :=
  skip_blanks (skipn n buf).

(** Copy up to the first blank, as the [X-Forwarded-For] loop does. *)
Fixpoint until_blank (s : cstring) : cstring :=
  match s with
  | c :: s' => if is_blank c then [] else c :: until_blank s'
  | [] => []
  end.

(** One header line either updates the connection or ends the parse
    with an error response already composed. *)
Inductive outcome :=
| Continue (hc : httpd_conn)
| Reject (hc : httpd_conn).

Section Headers.

Variable w : world.

(** The [Range:] branch: only [n-] and [n-m] are understood. *)
Definition parse_range (hc : httpd_conn) (buf : cstring) : httpd_conn :=
  match strchr buf "," with
  | Some _ => hc
  | None =>
      match strchr buf "=" with
      | None => hc
      | Some eq =>
          let after := skipn (eq + 1) buf in
          match strchr after "-" with
          | None => hc
          | Some O => hc
          | Some dash =>
              let hc := set_got_range true hc in
              let first := atoll w (firstn dash after) in
              let hc := set_first_byte_index (if first <? 0 then 0 else first) hc in
              let tail := skipn (dash + 1) after in
              match tail with
              | c :: _ =>
                  if is_digit c then
                    let last := atoll w tail in
                    set_last_byte_index (if last <? 0 then -1 else last) hc
                  else hc
              | [] => hc
              end
          end
      end
  end.

(** The body of [while ((buf = bufgets(hc)))] for a non-empty line. *)
Definition parse_header (hc : httpd_conn) (buf : cstring) : outcome :=
  if header_is buf "Referer:" then
    Continue (set_referer (value_after 8 buf) hc)
  else if header_is buf "User-Agent:" then
    Continue (set_useragent (value_after 11 buf) hc)
  else if header_is buf "Host:" then
    let hc := set_hdrhost (value_after 5 buf) hc in
    match strchr (hdrhost hc) "/", hdrhost hc with
    | Some _, _ =>
        Reject (httpd_send_err w hc 400 httpd_err400title [] httpd_err400form (lit "7"))
    | None, c :: _ =>
        if ascii_eqb c "."
        then Reject (httpd_send_err w hc 400 httpd_err400title [] httpd_err400form
                       (lit "7"))
        else Continue hc
    | None, [] => Continue hc
    end
  else if header_is buf "Accept:" then
    let cp := value_after 7 buf in
    match accept hc with
    | _ :: _ =>
        if 5000 <? Z.of_nat (length (accept hc)) then
          (* "way too much Accept: data": logged, line dropped *)
          Continue hc
        else
          (* strcat(hc->accept, ", "); strcat(hc->accept, cp); *)
          Continue (set_accept ((accept hc ++ lit ", ") ++ cp) hc)
    | [] => Continue (set_accept (accept hc ++ cp) hc)
    end
  else if header_is buf "Accept-Encoding:" then
    let cp := value_after 16 buf in
    match accepte hc with
    | _ :: _ =>
        if 5000 <? Z.of_nat (length (accepte hc)) then
          Continue hc
        else
          (* strcat(hc->accepte, ", "); strcpy(hc->accepte, cp); *)
          let hc := set_accepte (accepte hc ++ lit ", ") hc in
          Continue (set_accepte cp hc)
    | [] => Continue (set_accepte cp hc)
    end
  else if header_is buf "Accept-Language:" then
    Continue (set_acceptl (value_after 16 buf) hc)
  else if header_is buf "If-Modified-Since:" then
    Continue (set_if_modified_since (tdate_parse w (skipn 18 buf)) hc)
  else if header_is buf "Cookie:" then
    Continue (set_cookie (value_after 7 buf) hc)
  else if header_is buf "Range:" then
    Continue (parse_range hc buf)
  else if header_is buf "Range-If:" || header_is buf "If-Range:" then
    Continue (set_range_if (tdate_parse w (skipn 9 buf)) hc)
  else if header_is buf "Content-Type:" then
    Continue (set_contenttype (value_after 13 buf) hc)
  else if header_is buf "Content-Length:" then
    Continue (set_contentlength (atol w (skipn 15 buf)) hc)
  else if header_is buf "Authorization:" then
    Continue (set_authorization (value_after 14 buf) hc)
  else if header_is buf "Connection:" then
    if strcasecmp (value_after 11 buf) (lit "keep-alive") =? 0
    then Continue (set_do_keep_alive 10 (set_keep_alive true hc))
    else Continue hc
  else if header_is buf "X-Forwarded-For:" then
    Continue (set_real_ip (until_blank (value_after 16 buf)) hc)
  else Continue hc.

(** "Read the MIME headers": the lines are what successive [bufgets]
    calls return; an empty line ends the block. *)
Fixpoint parse_headers (hc : httpd_conn) (lines : list cstring) : outcome :=
  match lines with
  | [] => Continue hc
  | [] :: _ => Continue hc
  | buf :: lines' =>
      match parse_header hc buf with
      | Continue hc' => parse_headers hc' lines'
      | Reject hc' => Reject hc'
      end
  end.

End Headers.

Definition conn_of (o : outcome) : httpd_conn :=
  match o with
  | Continue hc => hc
  | Reject hc => hc
  end.

(** *** Repeated [Accept] and [Accept-Encoding] lines *)

Lemma skip_blanks_id v :
  match v with c :: _ => is_blank c = false | [] => True end ->
  skip_blanks v = v.
Proof. destruct v as [|c v]; simpl; auto. intros ->. reflexivity. Qed.

(** A further [Accept:] line is appended after a comma and a space. *)
Lemma accept_concatenates w hc v :
  accept hc <> [] -> Z.of_nat (length (accept hc)) <= 5000 ->
  match v with c :: _ => is_blank c = false | [] => True end ->
  parse_header w hc (lit "Accept: " ++ v)
  = Continue (set_accept ((accept hc ++ lit ", ") ++ v) hc).
Proof.
  intros Hne Hlen Hv. unfold parse_header.
  change (header_is (lit "Accept: " ++ v) "Referer:") with false.
  change (header_is (lit "Accept: " ++ v) "User-Agent:") with false.
  change (header_is (lit "Accept: " ++ v) "Host:") with false.
  change (header_is (lit "Accept: " ++ v) "Accept:") with true.
  cbv iota.
  change (value_after 7 (lit "Accept: " ++ v)) with (skip_blanks v).
  rewrite (skip_blanks_id v Hv).
  destruct (accept hc) as [|a s] eqn:E; [congruence|].
  destruct (Z.ltb_spec 5000 (Z.of_nat (length (a :: s)))); [lia|reflexivity].
Qed.

(** Beyond the cap a further [Accept:] line is dropped. *)
Lemma accept_capped w hc v :
  5000 < Z.of_nat (length (accept hc)) ->
  parse_header w hc (lit "Accept: " ++ v) = Continue hc.
Proof.
  intros Hlen. unfold parse_header.
  change (header_is (lit "Accept: " ++ v) "Referer:") with false.
  change (header_is (lit "Accept: " ++ v) "User-Agent:") with false.
  change (header_is (lit "Accept: " ++ v) "Host:") with false.
  change (header_is (lit "Accept: " ++ v) "Accept:") with true.
  cbv iota.
  destruct (accept hc) as [|a s] eqn:E; [simpl in Hlen; lia|].
  destruct (Z.ltb_spec 5000 (Z.of_nat (length (a :: s)))); [reflexivity|lia].
Qed.

(** A further [Accept-Encoding:] line replaces what was stored: the
    [strcpy] after the [strcat] of the separator starts again at the
    beginning of the buffer. *)
Lemma accept_encoding_overwrites w hc v :
  accepte hc <> [] -> Z.of_nat (length (accepte hc)) <= 5000 ->
  match v with c :: _ => is_blank c = false | [] => True end ->
  parse_header w hc (lit "Accept-Encoding: " ++ v)
  = Continue (set_accepte v (set_accepte (accepte hc ++ lit ", ") hc)).
Proof.
  intros Hne Hlen Hv. unfold parse_header.
  change (header_is (lit "Accept-Encoding: " ++ v) "Referer:") with false.
  change (header_is (lit "Accept-Encoding: " ++ v) "User-Agent:") with false.
  change (header_is (lit "Accept-Encoding: " ++ v) "Host:") with false.
  change (header_is (lit "Accept-Encoding: " ++ v) "Accept:") with false.
  change (header_is (lit "Accept-Encoding: " ++ v) "Accept-Encoding:") with true.
  cbv iota.
  change (value_after 16 (lit "Accept-Encoding: " ++ v)) with (skip_blanks v).
  rewrite (skip_blanks_id v Hv).
  destruct (accepte hc) as [|a s] eqn:E; [congruence|].
  destruct (Z.ltb_spec 5000 (Z.of_nat (length (a :: s)))); [lia|reflexivity].
Qed.

(** The header block of the failing request. *)
Definition two_of_each : list cstring :=
  [ lit "Accept: text/html"; lit "Accept: image/png";
    lit "Accept-Encoding: gzip"; lit "Accept-Encoding: br" ].

(** C7: on a request with two [Accept:] and two [Accept-Encoding:] lines
    the parser stores [text/html, image/png] for the first pair, as the
    claim says, but only [br] for the second: the earlier
    [Accept-Encoding] value is lost instead of being joined. *)
Theorem repeated_accept_encoding_is_overwritten
  (w : world) (server : httpd_server) (peer : Z) :
  accept (conn_of (parse_headers w (fresh_conn server peer) two_of_each))
    = lit "text/html, image/png" /\
  accepte (conn_of (parse_headers w (fresh_conn server peer) two_of_each))
    = lit "br" /\
  accepte (conn_of (parse_headers w (fresh_conn server peer) two_of_each))
    <> lit "gzip, br".
Proof.
  assert (accepte (conn_of (parse_headers w (fresh_conn server peer) two_of_each))
          = lit "br") as E by reflexivity.
  split; [reflexivity|]. split; [exact E|]. rewrite E. discriminate.
Qed.

End Parse.

(** ** A small concrete world for examples *)

Module Sample.

Import Conn World.
Local Open Scope Z_scope.

(** Decimal digits read from the left; [None] on any other byte. *)
Fixpoint decimal (acc : Z) (s : cstring) : option Z :=
  match s with
  | [] => Some acc
  | c :: s' =>
      if (48 <=? uchar c) && (uchar c <=? 57)
      then decimal (acc * 10 + (uchar c - 48)) s'
      else None
  end.

(** [atol] on the strings of the examples: an unsigned decimal number,
    0 for anything else. *)
Definition atol (s : cstring) : Z :=
  match s with
  | [] => 0
  | _ :: _ => match decimal 0 s with Some n => n | None => 0 end
  end.

(** The pieces of [s] between dots. *)
Fixpoint dotted (cur s : cstring) : list cstring :=
  match s with
  | [] => [rev cur]
  | c :: s' =>
      if ascii_eqb c "." then rev cur :: dotted [] s'
      else dotted (c :: cur) s'
  end.

Definition octet (s : cstring) : option Z :=
  match s with
  | [] => None
  | _ :: _ =>
      match decimal 0 s with
      | Some n => if n <=? 255 then Some n else None
      | None => None
      end
  end.

(** [inet_aton] on dotted quads, on a host whose byte order is the
    network's. *)
Definition inet_aton (s : cstring) : option Z :=
  match map octet (dotted [] s) with
  | [Some a; Some b; Some c; Some d] =>
      Some (((a * 256 + b) * 256 + c) * 256 + d)
  | _ => None
  end.

(** A hash for examples: the password itself, whatever the salt. *)
Definition crypt (key salt : cstring) : option cstring := Some key.

(** A world with the given files: [files] maps a path to its contents,
    [sizes] gives what [stat] reports for a path. *)
Definition sample_world (files : cstring -> option cstring)
  (stats : cstring -> option stat_buf) : world :=
  {| now := 1000;
     md5 := fun _ _ => lit "d41d8cd98f00b204e9800998ecf8427e";
     err_file := fun _ _ => None;
     stat := stats;
     lstat := stats;
     fopen := files;
     readlink := fun _ => Symlinks.NotALink;
     mmc_map := files;
     mmc_icon_check := fun _ => None;
     World.inet_aton := inet_aton;
     htonl := fun x => x;
     World.crypt := crypt;
     b64_decode := fun s => s;
     tdate_parse := fun _ => -1;
     atoll := atol;
     World.atol := atol;
     wildmatch := fun _ _ => false;
     really_check_referer := fun _ => true;
     cgi := fun hc => (0, hc);
     ls := fun hc => (0, hc);
     GENERATE_INDEXES := true;
     MAX_LINKS := 32;
     AUTH_FILE := lit ".htpasswd";
     ACCESS_FILE := lit ".htaccess";
     INDEX_NAMES := [lit "index.html"];
     enc_tab := [];
     typ_tab := Mime.init_mime Mime.sample_typ_tab |}.

(** A file system given by a list of paths with their contents; every
    file is a world-readable regular file last changed at time 500. *)
Fixpoint lookup (files : list (cstring * cstring)) (path : cstring)
  : option cstring :=
  match files with
  | [] => None
  | (p, c) :: files' =>
      if Symlinks.cstr_eqb p path then Some c else lookup files' path
  end.

Definition stat_of (files : list (cstring * cstring)) (path : cstring)
  : option stat_buf :=
  match lookup files path with
  | Some c => Some {| st_mode := S_IFREG + 420;
                      st_size := Z.of_nat (length c);
                      st_mtime := 500 |}
  | None => None
  end.

Definition world_of (files : list (cstring * cstring)) : world :=
  sample_world (lookup files) (stat_of files).

(** A line feed. *)
Definition nl : cstring := ["010"%char].

(** The server of the examples. *)
Definition server : httpd_server :=
  {| max_age := 3600; vhost := false; global_passwd := false;
     no_symlink_check := false; charset := lit "UTF-8"; url_pattern := None;
     cgi_pattern := None |}.

End Sample.

(** ** The address gate: [access_check] and [access_check2] *)

Module Access.

Import Conn World Response.
Local Open Scope Z_scope.

(** The successive results of [fgets(line, size, fp)] over a text file:
    each holds at most [size - 1] bytes and ends after a newline.  [room]
    is what is left of the current buffer, [cur] what it holds so far
    (reversed).  File contents are taken to hold no NUL byte. *)
Fixpoint fgets_all (size room : nat) (cur stream : cstring) : list cstring :=
  match stream with
  | [] =>
      match cur with
      | [] => []
      | _ :: _ => [rev cur]
      end
  | c :: stream' =>
      if ascii_eqb c "010" then
        rev (c :: cur) :: fgets_all size (size - 1) [] stream'
      else
        match room with
        | O | S O => rev (c :: cur) :: fgets_all size (size - 1) [] stream'
        | S room' => fgets_all size room' (c :: cur) stream'
        end
  end.

(** The lines [while (fgets(line, sizeof(line), fp))] sees, [line] being
    [char line[500]]. *)
Definition file_lines (content : cstring) : list cstring :=
  fgets_all 500 499 [] content.

(** "Nuke newline." *)
Definition nuke_newline (line : cstring) : cstring :=
  match rev line with
  | c :: t => if ascii_eqb c "010" then rev t else line
  | [] => line
  end.

(** [addr = addr1 > addr2 ? addr1 : addr2] for the last space and the
    last tab, a missing one being the null pointer. *)
Definition last_blank (line : cstring) : option nat :=
  match strrchr line " ", strrchr line "009" with
  | Some a, Some b => Some (if (b <? a)%nat then a else b)
  | Some a, None => Some a
  | None, Some b => Some b
  | None, None => None
  end.

(** [for (l = 32 - l; l > 0; --l) ipv4_mask.s_addr ^= 1 << (l - 1);] *)
Fixpoint flip_bits (l : nat) (mask : Z) : Z :=
  match l with
  | O => mask
  | S l' => flip_bits l' (Z.lxor mask (Z.shiftl 1 (Z.of_nat l')))
  end.

(** [struct in_addr ipv4_mask = { 0xffffffff }] *)
Definition full_mask : Z := 4294967295.

(** What one line does to the scan. *)
Inductive line_result :=
| LineErr                 (* [goto err] *)
| LineAllow               (* [return 1] *)
| LineNext (mask : Z).    (* next [fgets], with [ipv4_mask] as left *)

Section Check.

Variable w : world.

(** The mask part of a line, after the slash. *)
Definition read_mask (mask : Z) (mask_s : cstring) : option Z :=
  match mask_s with
  | [] => None
  | _ :: _ =>
      match strchr mask_s "." with
      | None =>
          let l := atol w mask_s in
          if (l <? 0) || (l >? 32) then None
          else Some (htonl w (flip_bits (Z.to_nat (32 - l)) mask))
      | Some _ => inet_aton w mask_s
      end
  end.

(** The body of the [while] loop for one line. *)
Definition access_line (client mask : Z) (raw : cstring) : line_result :=
  let line := nuke_newline raw in
  match last_blank line with
  | None => LineErr
  | Some sp =>
      let addr := skipn (sp + 1) line in
      let parsed :=
        match strchr addr "/" with
        | Some sl =>
            match read_mask mask (skipn (sl + 1) addr) with
            | Some mask' => Some (firstn sl addr, mask')
            | None => None
            end
        | None => Some (addr, mask)
        end in
      match parsed with
      | None => LineErr
      | Some (addr, mask') =>
          match inet_aton w addr with
          | None => LineErr
          | Some ipv4_addr =>
              if Z.land client mask' =? Z.land ipv4_addr mask' then
                match line with
                | c :: _ =>
                    if ascii_eqb c "d" || ascii_eqb c "D" then LineNext mask'
                    else if ascii_eqb c "a" || ascii_eqb c "A" then LineAllow
                    else LineErr
                | [] => LineErr
                end
              else LineNext mask'
          end
      end
  end.

(** How the scan of an access file ends. *)
Inductive verdict :=
| Allowed        (* [return 1] *)
| Invalid        (* [err:] 403, [return -1] *)
| Restricted.    (* no line allowed the client: 403, [return -1] *)

Fixpoint access_scan (client mask : Z) (lines : list cstring) : verdict :=
  match lines with
  | [] => Restricted
  | line :: lines' =>
      match access_line client mask line with
      | LineErr => Invalid
      | LineAllow => Allowed
      | LineNext mask' => access_scan client mask' lines'
      end
  end.

Definition forbidden (hc : httpd_conn) : httpd_conn :=
  httpd_send_err w hc 403 err403title [] err403form (encodedurl hc).

(** Returns -1 == unauthorized, 0 == no access file, 1 = authorized. *)
Definition access_check2 (hc : httpd_conn) (dir : cstring) : Z * httpd_conn :=
  let hc := set_accesspath (dir ++ lit "/" ++ ACCESS_FILE w) hc in
  match lstat w (accesspath hc) with
  | None => (0, hc)
  | Some _ =>
      match fopen w (accesspath hc) with
      | None => (-1, forbidden hc)
      | Some content =>
          match access_scan (client_addr hc) full_mask (file_lines content) with
          | Allowed => (1, hc)
          | Invalid => (-1, forbidden hc)
          | Restricted => (-1, forbidden hc)
          end
      end
  end.

(** One round of the [while (1)] loop of [find_htfile]; [path] is the
    candidate file.  [inl] is the result, [inr] the next candidate.  The
    directory names are taken not to contain [htfile] themselves, so
    that [strstr] finds the name where [snprintf] put it. *)
Definition find_htfile_step (topdir htfile path : cstring)
  : option cstring + cstring :=
  match strstr path htfile with
  | None => inl None
  | Some ptr =>
      let dir := firstn (ptr - 1) path in
      match stat w path with
      | Some _ => inl (Some dir)
      | None =>
          if Symlinks.cstr_eqb topdir dir then inl None
          else match strrchr dir "/" with
               | None => inl None
               | Some slash => inr (firstn (slash + 1) dir ++ htfile)
               end
      end
  end.

Fixpoint find_htfile_loop (fuel : nat) (topdir htfile path : cstring)
  : option (option cstring) :=
  match fuel with
  | O => None
  | S fuel' =>
      match find_htfile_step topdir htfile path with
      | inl r => Some r
      | inr path' => find_htfile_loop fuel' topdir htfile path'
      end
  end.

(** [find_htfile]: the directory, at or above [dir], that holds
    [htfile].  The buffer has [strlen(dir) + strlen(htfile) + 2] bytes
    and [snprintf] is bounded by it, so for an empty [dir] the name
    [./htfile] loses its last byte.  The outer [option] is [None] only
    if the iteration budget ran out. *)
Definition find_htfile (topdir dir htfile : cstring) : option (option cstring) :=
  let len := (length dir + length htfile + 2)%nat in
  let path := firstn (len - 1)
                ((match dir with [] => lit "." | _ :: _ => dir end)
                 ++ lit "/" ++ htfile) in
  find_htfile_loop (S (length path)) topdir htfile path.

(** The directory part of the expanded file name, ["."] without one. *)
Definition containing_dir (file : cstring) : cstring :=
  match strrchr file "/" with
  | None => lit "."
  | Some ptr => firstn ptr file
  end.

Definition top_dir (hc : httpd_conn) : cstring :=
  if vhost (hs hc) && match hostdir hc with [] => false | _ :: _ => true end
  then hostdir hc else lit ".".

(** The [local:] part shared by both gates. *)
Definition check_local (check2 : httpd_conn -> cstring -> Z * httpd_conn)
  (htfile : cstring) (hc : httpd_conn) (dir : cstring)
  : option (Z * httpd_conn) :=
  match find_htfile (top_dir hc) dir htfile with
  | None => None
  | Some (Some path) => Some (check2 hc path)
  | Some None => Some (0, hc)
  end.

(** [access_check]; [dir] is [None] for a NULL argument.  The result is
    [None] only if [find_htfile] ran out of its budget. *)
Definition access_check (hc : httpd_conn) (dir : option cstring)
  : option (Z * httpd_conn) :=
  let go (dir : cstring) :=
    if negb (global_passwd (hs hc)) then
      check_local access_check2 (ACCESS_FILE w) hc dir
    else
      let '(rc, hc') := access_check2 hc (top_dir hc) in
      if rc =? 0 then check_local access_check2 (ACCESS_FILE w) hc' dir
      else Some (rc, hc') in
  match dir with
  | Some dir => go dir
  | None =>
      match strstr (expnfilename hc) (ACCESS_FILE w) with
      | Some _ => Some (-1, hc)   (* "tried to retrieve access file" *)
      | None => go (containing_dir (expnfilename hc))
      end
  end.

End Check.

(** *** [find_htfile] always finishes *)

Lemma find_htfile_step_shrinks w topdir htfile path path' :
  find_htfile_step w topdir htfile path = inr path' ->
  (length path' < length path)%nat.
Proof.
  unfold find_htfile_step.
  destruct (strstr path htfile) as [ptr|] eqn:E; [|discriminate].
  destruct (stat w path); [discriminate|].
  destruct (Symlinks.cstr_eqb topdir (firstn (ptr - 1) path)); [discriminate|].
  destruct (strrchr (firstn (ptr - 1) path) "/") as [slash|] eqn:Es;
    [|discriminate].
  intros [= <-]. apply strrchr_firstn in Es as [Hs _].
  assert (ptr + length htfile <= length path)%nat as Hb.
  { destruct htfile as [|c t].
    - destruct path; simpl in E; injection E as <-; simpl in Hs; lia.
    - apply strstr_Some in E. apply sub_at_bound; [discriminate|assumption]. }
  rewrite length_app, length_firstn, length_firstn. lia.
Qed.

Lemma find_htfile_loop_finishes w topdir htfile : forall fuel path,
  (length path < fuel)%nat ->
  exists r, find_htfile_loop w fuel topdir htfile path = Some r.
Proof.
  induction fuel as [|fuel IH]; intros path Hf; [lia|].
  cbn [find_htfile_loop].
  destruct (find_htfile_step w topdir htfile path) as [r|path'] eqn:E; [eauto|].
  apply find_htfile_step_shrinks in E. apply IH. lia.
Qed.

Lemma find_htfile_finishes w topdir dir htfile :
  exists r, find_htfile w topdir dir htfile = Some r.
Proof. unfold find_htfile. apply find_htfile_loop_finishes. lia. Qed.

Lemma check_local_finishes w check2 htfile hc dir :
  exists r, check_local w check2 htfile hc dir = Some r.
Proof.
  unfold check_local.
  destruct (find_htfile_finishes w (top_dir hc) dir htfile) as [[path|] ->];
    eauto.
Qed.

Lemma access_check_finishes w hc dir :
  exists r, access_check w hc dir = Some r.
Proof.
  unfold access_check.
  assert (forall d, exists r,
            (if negb (global_passwd (hs hc))
             then check_local w (access_check2 w) (ACCESS_FILE w) hc d
             else let '(rc, hc') := access_check2 w hc (top_dir hc) in
                  if rc =? 0
                  then check_local w (access_check2 w) (ACCESS_FILE w) hc' d
                  else Some (rc, hc')) = Some r) as K.
  { intros d. destruct (negb _); [apply check_local_finishes|].
    destruct (access_check2 w hc (top_dir hc)) as [rc hc'].
    destruct (rc =? 0); [apply check_local_finishes|eauto]. }
  destruct dir as [d|]; [apply K|].
  destruct (strstr _ _); [eauto|apply K].
Qed.

(** *** The address check maps no file *)

Lemma access_check2_unmapped w hc dir :
  unmapped hc -> unmapped (snd (access_check2 w hc dir)).
Proof.
  intros H. unfold access_check2, forbidden.
  set (hc1 := set_accesspath _ hc).
  assert (unmapped hc1) as H1 by exact H.
  destruct (lstat w _); [|exact H1].
  destruct (fopen w _); [|apply httpd_send_err_unmapped; exact H1].
  destruct (access_scan _ _ _ _); cbn [snd];
    [exact H1|apply httpd_send_err_unmapped; exact H1..].
Qed.

Lemma check_local_unmapped w check2 htfile hc dir r :
  (forall h d, unmapped h -> unmapped (snd (check2 h d))) ->
  unmapped hc ->
  check_local w check2 htfile hc dir = Some r -> unmapped (snd r).
Proof.
  intros Hc H. unfold check_local.
  destruct (find_htfile w _ _ _) as [[path|]|]; intros [= <-];
    [apply Hc; exact H|exact H].
Qed.

Lemma access_check_unmapped w hc dir r :
  unmapped hc -> access_check w hc dir = Some r -> unmapped (snd r).
Proof.
  intros H. unfold access_check.
  assert (forall d,
            (if negb (global_passwd (hs hc))
             then check_local w (access_check2 w) (ACCESS_FILE w) hc d
             else let '(rc, hc') := access_check2 w hc (top_dir hc) in
                  if rc =? 0
                  then check_local w (access_check2 w) (ACCESS_FILE w) hc' d
                  else Some (rc, hc')) = Some r -> unmapped (snd r)) as K.
  { intros d. destruct (negb _).
    - apply check_local_unmapped; [apply access_check2_unmapped|exact H].
    - pose proof (access_check2_unmapped w hc (top_dir hc) H) as H2.
      destruct (access_check2 w hc (top_dir hc)) as [rc hc'].
      destruct (rc =? 0).
      + apply check_local_unmapped; [apply access_check2_unmapped|exact H2].
      + intros [= <-]. exact H2. }
  destruct dir as [d|]; [apply K|].
  destruct (strstr _ _); [intros [= <-]; exact H|apply K].
Qed.

(** *** Which line decides *)

(** The line writes its netmask in dotted form, so it does not depend on
    what earlier lines left in [ipv4_mask]. *)
Definition names_netmask (raw : cstring) : bool :=
  let line := nuke_newline raw in
  match last_blank line with
  | None => true
  | Some sp =>
      match strchr (skipn (sp + 1) line) "/" with
      | Some sl =>
          match strchr (skipn (sl + 1) (skipn (sp + 1) line)) "." with
          | Some _ => true
          | None => false
          end
      | None => false
      end
  end.

(** No rule inherits a mask from an earlier line: each one either names
    its netmask in dotted form or is reached with the mask still
    all-ones. *)
Fixpoint fresh_masks (w : world) (client mask : Z) (lines : list cstring) : bool :=
  match lines with
  | [] => true
  | line :: lines' =>
      ((mask =? full_mask) || names_netmask line) &&
      match access_line w client mask line with
      | LineNext mask' => fresh_masks w client mask' lines'
      | _ => true
      end
  end.

(** A line read on its own, as the first line of a file would be. *)
Definition rule_alone (w : world) (client : Z) (raw : cstring) : line_result :=
  access_line w client full_mask raw.

(** The line is well formed and does not end the scan: it does not match
    the client, or it is a [deny]. *)
Definition passes (w : world) (client : Z) (raw : cstring) : Prop :=
  exists mask, rule_alone w client raw = LineNext mask.

(** The line is an [allow] that matches the client. *)
Definition allows (w : world) (client : Z) (raw : cstring) : Prop :=
  rule_alone w client raw = LineAllow.

(** The verdict when every line is read on its own. *)
Fixpoint decisive (w : world) (client : Z) (lines : list cstring) : verdict :=
  match lines with
  | [] => Restricted
  | line :: lines' =>
      match rule_alone w client line with
      | LineErr => Invalid
      | LineAllow => Allowed
      | LineNext _ => decisive w client lines'
      end
  end.

Lemma names_netmask_blind w client mask raw :
  names_netmask raw = true ->
  access_line w client mask raw = rule_alone w client raw.
Proof.
  unfold names_netmask, rule_alone, access_line.
  destruct (last_blank (nuke_newline raw)) as [sp|]; [|reflexivity].
  destruct (strchr (skipn (sp + 1) (nuke_newline raw)) "/") as [sl|];
    [|discriminate].
  unfold read_mask.
  destruct (skipn (sl + 1) (skipn (sp + 1) (nuke_newline raw))) as [|c t];
    [reflexivity|].
  destruct (strchr (c :: t) "."); [reflexivity|discriminate].
Qed.

Lemma access_scan_fresh w client : forall lines mask,
  fresh_masks w client mask lines = true ->
  access_scan w client mask lines = decisive w client lines.
Proof.
  induction lines as [|line lines IH]; intros mask H; simpl in *; auto.
  apply andb_true_iff in H as [Hm Hrest].
  assert (access_line w client mask line = rule_alone w client line) as E.
  { apply orb_true_iff in Hm as [Hm|Hm].
    - apply Z.eqb_eq in Hm. subst mask. reflexivity.
    - apply names_netmask_blind. assumption. }
  rewrite <- E. destruct (access_line w client mask line); auto.
Qed.

Lemma decisive_allowed w client lines :
  decisive w client lines = Allowed <->
  exists pre line post,
    lines = pre ++ line :: post /\
    Forall (passes w client) pre /\ allows w client line.
Proof.
  induction lines as [|l lines IH]; simpl.
  - split; [discriminate|]. intros [pre [line [post [E _]]]].
    destruct pre; discriminate.
  - destruct (rule_alone w client l) as [| |mask] eqn:El.
    + split; [discriminate|]. intros [pre [line [post [E [Hp Ha]]]]].
      destruct pre as [|x pre]; injection E as -> E.
      * unfold allows in Ha. congruence.
      * inversion Hp as [|? ? [m Hm] _]; subst. congruence.
    + split; [|reflexivity]. intros _. exists [], l, lines.
      repeat split; auto.
    + rewrite IH. split.
      * intros [pre [line [post [E [Hp Ha]]]]].
        exists (l :: pre), line, post. subst lines.
        repeat split; auto. constructor; [exists mask; assumption|assumption].
      * intros [pre [line [post [E [Hp Ha]]]]].
        destruct pre as [|x pre]; injection E as -> E.
        -- unfold allows in Ha. congruence.
        -- exists pre, line, post. inversion Hp; subst. repeat split; auto.
Qed.

(** A matching [deny] line never ends the scan by itself: [break] leaves
    the [switch], not the [while]. *)
Lemma deny_line_continues w client mask raw c rest :
  nuke_newline raw = c :: rest -> c = "d"%char \/ c = "D"%char ->
  access_line w client mask raw = LineErr \/
  exists mask', access_line w client mask raw = LineNext mask'.
Proof.
  intros Hl Hc. unfold access_line. rewrite Hl.
  destruct (last_blank (c :: rest)) as [sp|]; [|auto].
  destruct (match strchr (skipn (sp + 1) (c :: rest)) "/" with
            | Some sl =>
                match read_mask w mask
                        (skipn (sl + 1) (skipn (sp + 1) (c :: rest))) with
                | Some mask' => Some (firstn sl (skipn (sp + 1) (c :: rest)), mask')
                | None => None
                end
            | None => Some (skipn (sp + 1) (c :: rest), mask)
            end) as [[addr mask']|]; [|auto].
  destruct (inet_aton w addr) as [a|]; [|auto].
  destruct (Z.land client mask' =? Z.land a mask'); [|eauto].
  destruct Hc as [-> | ->]; right; eexists; reflexivity.
Qed.

(** The scan in the code's own terms: when [access_check2] consults an
    access file in which no rule inherits a mask from an earlier line, the lines are
    evaluated in order and the request is allowed (1, nothing sent)
    exactly when some line is an [allow] matching the client and every
    line before it is well formed and either does not match or is a
    [deny]; a matching [deny] does not end the scan.  In every other
    case (a malformed line is reached first, or no [allow] matches) the
    result is -1 with a 403 response. *)
Theorem access_check2_first_allow_decides
  (w : world) (hc : httpd_conn) (dir content : cstring) (sbuf : stat_buf) :
  lstat w (dir ++ lit "/" ++ ACCESS_FILE w) = Some sbuf ->
  fopen w (dir ++ lit "/" ++ ACCESS_FILE w) = Some content ->
  fresh_masks w (client_addr hc) full_mask (file_lines content) = true ->
  (fst (access_check2 w hc dir) = 1 <->
   exists pre line post,
     file_lines content = pre ++ line :: post /\
     Forall (passes w (client_addr hc)) pre /\
     allows w (client_addr hc) line) /\
  ((fst (access_check2 w hc dir) = 1 /\
    response (snd (access_check2 w hc dir)) = response hc) \/
   (fst (access_check2 w hc dir) = -1 /\
    status (snd (access_check2 w hc dir)) = 403)).
Proof.
  intros Hl Hf Hfresh.
  rewrite <- decisive_allowed.
  rewrite <- (access_scan_fresh w _ _ _ Hfresh).
  unfold access_check2.
  change (accesspath (set_accesspath (dir ++ lit "/" ++ ACCESS_FILE w) hc))
    with (dir ++ lit "/" ++ ACCESS_FILE w).
  change (client_addr (set_accesspath (dir ++ lit "/" ++ ACCESS_FILE w) hc))
    with (client_addr hc).
  rewrite Hl, Hf.
  destruct (access_scan w (client_addr hc) full_mask (file_lines content));
    cbn [fst snd].
  - split; [tauto|]. left. split; reflexivity.
  - split; [split; [lia|discriminate]|]. right. split; [reflexivity|].
    apply httpd_send_err_status. lia.
  - split; [split; [lia|discriminate]|]. right. split; [reflexivity|].
    apply httpd_send_err_status. lia.
Qed.

(** An access file that first denies one neighbour, then allows the
    whole 10.0.0.0/8 network. *)
Definition sample_access : list (cstring * cstring) :=
  [ (lit "./.htaccess",
     lit "deny 10.0.0.9" ++ Sample.nl ++ lit "allow 10.0.0.0/8" ++ Sample.nl) ].

Lemma access_check2_first_allow_decides_witness :
  (fst (access_check2 (Sample.world_of sample_access)
          (fresh_conn Sample.server 167772161) (lit ".")) = 1 <->
   exists pre line post,
     file_lines (lit "deny 10.0.0.9" ++ Sample.nl
                 ++ lit "allow 10.0.0.0/8" ++ Sample.nl)
       = pre ++ line :: post /\
     Forall (passes (Sample.world_of sample_access) 167772161) pre /\
     allows (Sample.world_of sample_access) 167772161 line) /\
  ((fst (access_check2 (Sample.world_of sample_access)
           (fresh_conn Sample.server 167772161) (lit ".")) = 1 /\
    response (snd (access_check2 (Sample.world_of sample_access)
                     (fresh_conn Sample.server 167772161) (lit "."))) = []) \/
   (fst (access_check2 (Sample.world_of sample_access)
           (fresh_conn Sample.server 167772161) (lit ".")) = -1 /\
    status (snd (access_check2 (Sample.world_of sample_access)
                   (fresh_conn Sample.server 167772161) (lit "."))) = 403)).
Proof.
  apply (access_check2_first_allow_decides (Sample.world_of sample_access)
           (fresh_conn Sample.server 167772161) (lit ".")
           (lit "deny 10.0.0.9" ++ Sample.nl ++ lit "allow 10.0.0.0/8" ++ Sample.nl)
           {| st_mode := S_IFREG + 420; st_size := 31; st_mtime := 500 |}).
  - reflexivity.
  - reflexivity.
  - vm_compute. reflexivity.
Defined.

(** An access file whose first matching line is a [deny]. *)
Definition deny_then_allow : list (cstring * cstring) :=
  [ (lit "./.htaccess",
     lit "deny 10.0.0.1" ++ Sample.nl ++ lit "allow 10.0.0.1" ++ Sample.nl) ].

(** The first line matching the client 10.0.0.1 is a [deny], yet the
    request is allowed by the [allow] line after it. *)
Lemma first_match_does_not_decide :
  nth 0 (file_lines (lit "deny 10.0.0.1" ++ Sample.nl
                     ++ lit "allow 10.0.0.1" ++ Sample.nl)) []
    = lit "deny 10.0.0.1" ++ Sample.nl /\
  Sample.inet_aton (lit "10.0.0.1") = Some 167772161 /\
  access_line (Sample.world_of deny_then_allow) 167772161 full_mask
    (lit "deny 10.0.0.1" ++ Sample.nl) = LineNext full_mask /\
  fst (access_check2 (Sample.world_of deny_then_allow)
         (fresh_conn Sample.server 167772161) (lit ".")) = 1.
Proof. vm_compute. repeat split; reflexivity. Qed.

(** *** What the rules say *)

(** A rule of an access file as the specification reads it: allow or
    deny the clients of a network. *)
Inductive action := Allow | Deny.

Record rule := { act : action; net : Z; netmask : Z }.

(** The client address lies in the network of the rule. *)
Definition matches (client : Z) (r : rule) : bool :=
  Z.land client (netmask r) =? Z.land (net r) (netmask r).

(** "Lines are evaluated in order; the first match decides": the action
    of the first rule that matches the client, [None] when none does. *)
Fixpoint first_match (client : Z) (rules : list rule) : option action :=
  match rules with
  | [] => None
  | r :: rules' =>
      if matches client r then Some (act r) else first_match client rules'
  end.

(** No blank, tab or newline. *)
Definition one_word (s : cstring) : Prop :=
  ~ In " "%char s /\ ~ In "009"%char s /\ ~ In "010"%char s.

(** The line of an access file that writes a rule: a word that begins
    with [a] or [A] for allow, with [d] or [D] for deny, a blank, the
    address, a slash, the netmask in dotted form, and a newline, in at
    most 499 bytes. *)
Definition written (w : world) (r : rule) (raw : cstring) : Prop :=
  exists c word addr_s mask_s,
    raw = (c :: word) ++ " "%char :: addr_s ++ "/"%char :: mask_s ++ ["010"%char] /\
    match act r with
    | Allow => c = "a"%char \/ c = "A"%char
    | Deny => c = "d"%char \/ c = "D"%char
    end /\
    one_word word /\ one_word addr_s /\ one_word mask_s /\
    ~ In "/"%char addr_s /\ In "."%char mask_s /\
    inet_aton w addr_s = Some (net r) /\
    inet_aton w mask_s = Some (netmask r) /\
    (length raw <= 499)%nat.

Lemma strrchr_last s c : forall t,
  ~ In c t -> strrchr (s ++ c :: t) c = Some (length s).
Proof.
  induction s as [|a s IH]; intros t H; simpl.
  - rewrite Symlinks.strrchr_absent by assumption.
    rewrite ascii_eqb_refl. reflexivity.
  - rewrite IH by assumption. reflexivity.
Qed.

Lemma strchr_first s c : forall t,
  ~ In c s -> strchr (s ++ c :: t) c = Some (length s).
Proof.
  induction s as [|a s IH]; intros t H; simpl.
  - rewrite ascii_eqb_refl. reflexivity.
  - rewrite ascii_eqb_neq by (intros ->; apply H; left; reflexivity).
    rewrite IH by (intros Hin; apply H; right; exact Hin). reflexivity.
Qed.

Lemma strchr_present s c : In c s -> exists i, strchr s c = Some i.
Proof.
  induction s as [|a s IH]; intros H; [destruct H|]. simpl.
  destruct (Ascii.eqb_spec a c) as [->|Hne].
  - rewrite ascii_eqb_refl. eauto.
  - rewrite ascii_eqb_neq by assumption.
    destruct H as [H|H]; [contradiction|].
    destruct (IH H) as [i ->]. simpl. eauto.
Qed.

Lemma nuke_newline_line body : nuke_newline (body ++ ["010"%char]) = body.
Proof.
  unfold nuke_newline. rewrite rev_app_distr. simpl.
  rewrite ?ascii_eqb_refl. apply rev_involutive.
Qed.

Lemma skipn_past {A} (a : list A) x b :
  skipn (length a + 1) (a ++ x :: b) = b.
Proof.
  rewrite skipn_app, skipn_all2 by lia.
  replace (length a + 1 - length a)%nat with 1%nat by lia. reflexivity.
Qed.

Lemma firstn_upto {A} (a b : list A) : firstn (length a) (a ++ b) = a.
Proof.
  rewrite firstn_app, Nat.sub_diag, firstn_all. cbn. apply app_nil_r.
Qed.

(** What the loop body makes of a written rule: a matching allow ends
    the scan, every other rule goes on to the next line. *)
Lemma written_line w r raw client mask :
  written w r raw ->
  access_line w client mask raw
  = if matches client r
    then match act r with
         | Allow => LineAllow
         | Deny => LineNext (netmask r)
         end
    else LineNext (netmask r).
Proof.
  intros (c & word & addr_s & mask_s & -> & Hc & Hw & Ha & Hm & Hs & Hd
          & Haddr & Hmask & _).
  destruct Hw as (Hw1 & Hw2 & Hw3), Ha as (Ha1 & Ha2 & Ha3),
    Hm as (Hm1 & Hm2 & Hm3).
  assert (c <> " "%char /\ c <> "009"%char) as [Hc1 Hc2]
    by (destruct (act r), Hc as [-> | ->]; split; discriminate).
  unfold access_line.
  replace ((c :: word) ++ " "%char :: addr_s ++ "/"%char :: mask_s ++ ["010"%char])
    with (((c :: word) ++ " "%char :: addr_s ++ "/"%char :: mask_s) ++ ["010"%char])
    by (rewrite <- !app_assoc; cbn [app]; rewrite <- app_assoc; reflexivity).
  rewrite nuke_newline_line.
  set (tail := addr_s ++ "/"%char :: mask_s).
  assert (last_blank ((c :: word) ++ " "%char :: tail)
          = Some (length (c :: word))) as ->.
  { unfold last_blank. rewrite strrchr_last.
    - rewrite Symlinks.strrchr_absent; [reflexivity|].
      intros Hin. apply in_app_or in Hin as [[Hin|Hin]|[Hin|Hin]];
        [congruence|auto|discriminate Hin|].
      unfold tail in Hin.
      apply in_app_or in Hin as [Hin|[Hin|Hin]]; [auto|discriminate Hin|auto].
    - unfold tail. intros Hin.
      apply in_app_or in Hin as [Hin|[Hin|Hin]]; [auto|discriminate Hin|auto]. }
  rewrite skipn_past. unfold tail.
  rewrite strchr_first by assumption.
  rewrite skipn_past, firstn_upto.
  unfold read_mask.
  destruct mask_s as [|m mask_s']; [destruct Hd|].
  destruct (strchr_present _ _ Hd) as [i ->].
  rewrite Hmask, Haddr. unfold matches.
  destruct (Z.land client (netmask r) =? Z.land (net r) (netmask r));
    [|reflexivity].
  cbn [app].
  destruct (act r), Hc as [-> | ->]; reflexivity.
Qed.

(** [fgets] hands a short line over whole. *)
Lemma fgets_all_line size body : forall room cur rest,
  ~ In "010"%char body -> (length body < room)%nat ->
  fgets_all size room cur (body ++ "010"%char :: rest)
  = (rev cur ++ body ++ ["010"%char]) :: fgets_all size (size - 1) [] rest.
Proof.
  induction body as [|c body IH]; intros room cur rest Hnl Hroom.
  - cbn [app fgets_all]. rewrite ascii_eqb_refl. reflexivity.
  - cbn [app fgets_all].
    rewrite ascii_eqb_neq by (intros ->; apply Hnl; left; reflexivity).
    cbn [length] in Hroom.
    destruct room as [|[|room]]; [lia|lia|].
    rewrite IH; [|intros Hin; apply Hnl; right; exact Hin|lia].
    cbn [rev]. rewrite <- app_assoc. reflexivity.
Qed.

Lemma written_shape w r raw :
  written w r raw ->
  exists body, raw = body ++ ["010"%char] /\ ~ In "010"%char body /\
               (length body < 499)%nat.
Proof.
  intros (c & word & addr_s & mask_s & -> & Hc & Hw & Ha & Hm & _ & _ & _ & _
          & Hlen).
  exists ((c :: word) ++ " "%char :: addr_s ++ "/"%char :: mask_s).
  split; [rewrite <- !app_assoc; cbn [app]; rewrite <- app_assoc; reflexivity|].
  split.
  - destruct Hw as (_ & _ & Hw), Ha as (_ & _ & Ha), Hm as (_ & _ & Hm).
    intros Hin. apply in_app_or in Hin as [[Hin|Hin]|[Hin|Hin]].
    + destruct (act r), Hc as [-> | ->]; discriminate Hin.
    + auto.
    + discriminate Hin.
    + apply in_app_or in Hin as [Hin|[Hin|Hin]]; [auto|discriminate Hin|auto].
  - revert Hlen.
    repeat (rewrite length_app || (progress cbn [length])). lia.
Qed.

(** The lines [access_check2] reads from a file of written rules are
    the rules' lines. *)
Lemma file_lines_written w : forall rules raws,
  Forall2 (written w) rules raws -> file_lines (concat raws) = raws.
Proof.
  unfold file_lines. induction 1 as [|r raw rules raws Hr _ IH]; [reflexivity|].
  destruct (written_shape w r raw Hr) as (body & -> & Hnl & Hlen).
  cbn [concat]. rewrite <- app_assoc. cbn [app].
  rewrite fgets_all_line by (assumption || lia).
  cbn [rev app]. f_equal. exact IH.
Qed.

Definition allows_client (client : Z) (r : rule) : bool :=
  match act r with
  | Allow => matches client r
  | Deny => false
  end.

Lemma access_scan_written w client : forall rules raws mask,
  Forall2 (written w) rules raws ->
  access_scan w client mask raws
  = if existsb (allows_client client) rules then Allowed else Restricted.
Proof.
  intros rules raws mask H. revert mask.
  induction H as [|r raw rules raws Hr _ IH]; intros mask; [reflexivity|].
  cbn [access_scan existsb]. rewrite (written_line w r raw client mask Hr).
  unfold allows_client at 1.
  destruct (matches client r), (act r); cbn [orb]; auto.
Qed.

(** C4 (the code's behaviour): in a file of written rules the deny
    lines have no effect at all.  [access_check2] allows the request
    exactly when some allow rule matches the client, wherever it stands
    and whatever stands before it, and answers 403 otherwise.  So the
    code agrees with "the first match decides" when the first rule
    that matches is an allow or when no rule matches, and returns 1
    against it when the first match is a deny and an allow rule matches
    further down. *)
Theorem deny_lines_have_no_effect
  (w : world) (hc : httpd_conn) (dir : cstring) (rules : list rule)
  (raws : list cstring) (sbuf : stat_buf) :
  lstat w (dir ++ lit "/" ++ ACCESS_FILE w) = Some sbuf ->
  fopen w (dir ++ lit "/" ++ ACCESS_FILE w) = Some (concat raws) ->
  Forall2 (written w) rules raws ->
  (fst (access_check2 w hc dir) = 1 <->
   exists r, In r rules /\ act r = Allow /\ matches (client_addr hc) r = true) /\
  ((fst (access_check2 w hc dir) = 1 /\
    response (snd (access_check2 w hc dir)) = response hc) \/
   (fst (access_check2 w hc dir) = -1 /\
    status (snd (access_check2 w hc dir)) = 403)) /\
  (first_match (client_addr hc) rules = Some Allow ->
   fst (access_check2 w hc dir) = 1) /\
  (first_match (client_addr hc) rules = None ->
   fst (access_check2 w hc dir) = -1) /\
  (first_match (client_addr hc) rules = Some Deny ->
   (exists r, In r rules /\ act r = Allow /\ matches (client_addr hc) r = true) ->
   fst (access_check2 w hc dir) = 1).
Proof.
  intros Hl Hf Hw.
  assert (existsb (allows_client (client_addr hc)) rules = true <->
          exists r, In r rules /\ act r = Allow
                    /\ matches (client_addr hc) r = true) as Hex.
  { rewrite existsb_exists. unfold allows_client.
    split; intros (r & Hin & H); exists r; (split; [exact Hin|]).
    - destruct (act r); [auto|discriminate].
    - destruct H as [-> H]. exact H. }
  assert (fst (access_check2 w hc dir)
          = (if existsb (allows_client (client_addr hc)) rules then 1 else -1)
          /\ ((fst (access_check2 w hc dir) = 1 /\
               response (snd (access_check2 w hc dir)) = response hc) \/
              (fst (access_check2 w hc dir) = -1 /\
               status (snd (access_check2 w hc dir)) = 403))) as [Hrc Hreply].
  { unfold access_check2.
    change (accesspath (set_accesspath (dir ++ lit "/" ++ ACCESS_FILE w) hc))
      with (dir ++ lit "/" ++ ACCESS_FILE w).
    change (client_addr (set_accesspath (dir ++ lit "/" ++ ACCESS_FILE w) hc))
      with (client_addr hc).
    rewrite Hl, Hf, (file_lines_written w rules raws Hw).
    rewrite (access_scan_written w (client_addr hc) rules raws full_mask Hw).
    destruct (existsb (allows_client (client_addr hc)) rules); cbn [fst snd].
    - split; [reflexivity|]. left. split; reflexivity.
    - split; [reflexivity|]. right. split; [reflexivity|].
      apply httpd_send_err_status. lia. }
  assert (fst (access_check2 w hc dir) = 1 <->
          existsb (allows_client (client_addr hc)) rules = true) as Hone.
  { rewrite Hrc.
    destruct (existsb (allows_client (client_addr hc)) rules);
      split; intros H; (reflexivity || discriminate H). }
  split; [rewrite Hone; exact Hex|]. split; [exact Hreply|].
  split; [|split].
  - intros Hfirst. apply Hone, Hex. clear - Hfirst.
    induction rules as [|r rules IH]; [discriminate|].
    cbn [first_match] in Hfirst.
    destruct (matches (client_addr hc) r) eqn:Em.
    + injection Hfirst as Ha. exists r. repeat split; [left; reflexivity|..];
        assumption.
    + destruct (IH Hfirst) as (r' & Hin & H). exists r'.
      split; [right; exact Hin|exact H].
  - intros Hfirst. rewrite Hrc.
    replace (existsb (allows_client (client_addr hc)) rules) with false;
      [reflexivity|].
    symmetry. clear - Hfirst.
    induction rules as [|r rules IH]; [reflexivity|].
    cbn [first_match existsb] in *. unfold allows_client at 1.
    destruct (matches (client_addr hc) r); [discriminate|].
    rewrite (IH Hfirst). destruct (act r); reflexivity.
  - intros _ Hallow. apply Hone, Hex. exact Hallow.
Qed.

(** A file that denies the client 10.0.0.1 by name and then allows the
    network 10.0.0.0/8. *)
Definition deny_one_allow_net : list cstring :=
  [ lit "deny 10.0.0.1/255.255.255.255" ++ Sample.nl;
    lit "allow 10.0.0.0/255.0.0.0" ++ Sample.nl ].

Definition deny_one_allow_net_rules : list rule :=
  [ {| act := Deny; net := 167772161; netmask := 4294967295 |};
    {| act := Allow; net := 167772160; netmask := 4278190080 |} ].

Definition deny_one_allow_net_world : world :=
  Sample.world_of [ (lit "./.htaccess", concat deny_one_allow_net) ].

Lemma deny_lines_have_no_effect_witness :
  (fst (access_check2 deny_one_allow_net_world
          (fresh_conn Sample.server 167772161) (lit ".")) = 1 <->
   exists r, In r deny_one_allow_net_rules /\ act r = Allow
             /\ matches 167772161 r = true) /\
  ((fst (access_check2 deny_one_allow_net_world
           (fresh_conn Sample.server 167772161) (lit ".")) = 1 /\
    response (snd (access_check2 deny_one_allow_net_world
                     (fresh_conn Sample.server 167772161) (lit "."))) = []) \/
   (fst (access_check2 deny_one_allow_net_world
           (fresh_conn Sample.server 167772161) (lit ".")) = -1 /\
    status (snd (access_check2 deny_one_allow_net_world
                   (fresh_conn Sample.server 167772161) (lit "."))) = 403)) /\
  (first_match 167772161 deny_one_allow_net_rules = Some Allow ->
   fst (access_check2 deny_one_allow_net_world
          (fresh_conn Sample.server 167772161) (lit ".")) = 1) /\
  (first_match 167772161 deny_one_allow_net_rules = None ->
   fst (access_check2 deny_one_allow_net_world
          (fresh_conn Sample.server 167772161) (lit ".")) = -1) /\
  (first_match 167772161 deny_one_allow_net_rules = Some Deny ->
   (exists r, In r deny_one_allow_net_rules /\ act r = Allow
              /\ matches 167772161 r = true) ->
   fst (access_check2 deny_one_allow_net_world
          (fresh_conn Sample.server 167772161) (lit ".")) = 1).
Proof.
  apply (deny_lines_have_no_effect deny_one_allow_net_world
           (fresh_conn Sample.server 167772161) (lit ".")
           deny_one_allow_net_rules deny_one_allow_net
           {| st_mode := S_IFREG + 420; st_size := 55; st_mtime := 500 |}).
  - reflexivity.
  - reflexivity.
  - constructor; [|constructor; [|constructor]].
    + exists "d"%char, (lit "eny"), (lit "10.0.0.1"), (lit "255.255.255.255").
      unfold one_word. cbn.
      repeat split; try reflexivity; try (intuition discriminate); auto; lia.
    + exists "a"%char, (lit "llow"), (lit "10.0.0.0"), (lit "255.0.0.0").
      unfold one_word. cbn.
      repeat split; try reflexivity; try (intuition discriminate); auto; lia.
Defined.

(** The first rule that matches the client 10.0.0.1 is the deny, and
    the request is allowed all the same. *)
Example first_matching_deny_is_ignored :
  first_match 167772161 deny_one_allow_net_rules = Some Deny /\
  fst (access_check2 deny_one_allow_net_world
         (fresh_conn Sample.server 167772161) (lit ".")) = 1.
Proof. split; vm_compute; reflexivity. Qed.

(** A mask given as a length is folded into whatever the previous line
    left in [ipv4_mask], and a line without a mask keeps using it: after
    [deny 10.0.0.0/8], the line [allow 192.168.1.7] admits the whole of
    192.0.0.0/8, here 192.255.255.255. *)
Example mask_is_inherited :
  fst (access_check2
         (Sample.world_of
            [ (lit "./.htaccess",
               lit "deny 10.0.0.0/8" ++ Sample.nl
               ++ lit "allow 192.168.1.7" ++ Sample.nl) ])
         (fresh_conn Sample.server 3238002687) (lit ".")) = 1.
Proof. vm_compute. reflexivity. Qed.

End Access.

(** ** The password gate: [auth_check] and [auth_check2] *)

Module Auth.

Import Conn World Response.
Local Open Scope Z_scope.

(** [strcmp(a, b) == 0] *)
Definition same (a b : cstring) : bool := strcmp a b =? 0.

Section Check.

Variable w : world.

(** [send_authenticate]: a 401 with the challenge header. *)
Definition send_authenticate (hc : httpd_conn) (realm : cstring) : httpd_conn :=
  let header := lit "WWW-Authenticate: Basic realm=" ++ [dquote] ++ realm
                  ++ [dquote] ++ crlf in
  let hc := httpd_send_err w hc 401 err401title header err401form
              (encodedurl hc) in
  match method_ hc with
  | METHOD_POST | METHOD_PUT => set_should_linger true hc
  | _ => hc
  end.

(** "Split into user and password", cutting any further field. *)
Definition credentials (hc : httpd_conn) : option (cstring * cstring) :=
  match authorization hc with
  | [] => None
  | _ :: _ =>
      if strncmp (authorization hc) (lit "Basic ") 6 =? 0 then
        let authinfo := b64_decode w (skipn 6 (authorization hc)) in
        match strchr authinfo ":" with
        | None => None
        | Some colon =>
            let authpass := skipn (colon + 1) authinfo in
            Some (firstn colon authinfo,
                  match strchr authpass ":" with
                  | Some colon2 => firstn colon2 authpass
                  | None => authpass
                  end)
        end
      else None
  end.

(** "See if we have a cached entry and can use it." *)
Definition cache_hit (hc : httpd_conn) (mtime : Z) (user : cstring) : bool :=
  negb (maxprevauthpath hc =? 0) && same (authpath hc) (prevauthpath hc) &&
  (mtime =? prevmtime hc) && same user (prevuser hc).

(** One line of the password file: the user and the encrypted password,
    [None] for a line without a colon. *)
Definition entry (raw : cstring) : option (cstring * cstring) :=
  let line := Access.nuke_newline raw in
  match strchr line ":" with
  | None => None
  | Some colon => Some (firstn colon line, skipn (colon + 1) line)
  end.

(** How the scan of a password file ends. *)
Inductive verdict :=
| Accepted (user cryp : cstring)   (* [return 1] *)
| Mismatch                         (* 401, [return -1] *)
| NoCrypt                          (* [crypt] gave NULL: bare [return -1] *)
| NoUser.                          (* "Didn't find that user": 401 *)

(** "So is the password right?" *)
Definition judge (authpass user cryp : cstring) : verdict :=
  match crypt w authpass cryp with
  | None => NoCrypt
  | Some crypt_result =>
      if same crypt_result cryp then Accepted user cryp else Mismatch
  end.

(** The [while (fgets(line, sizeof(line), fp))] loop. *)
Fixpoint auth_scan (authinfo authpass : cstring) (lines : list cstring)
  : verdict :=
  match lines with
  | [] => NoUser
  | raw :: lines' =>
      match entry raw with
      | None => auth_scan authinfo authpass lines'
      | Some (user, cryp) =>
          if same user authinfo then judge authpass user cryp
          else auth_scan authinfo authpass lines'
      end
  end.

(** Returns -1 == unauthorized, 0 == no auth file, 1 = authorized. *)
Definition auth_check2 (hc : httpd_conn) (dir : cstring) : Z * httpd_conn :=
  let hc := set_authpath (dir ++ lit "/" ++ AUTH_FILE w) hc in
  match lstat w (authpath hc) with
  | None => (0, hc)
  | Some sbuf =>
      match credentials hc with
      | None => (-1, send_authenticate hc dir)
      | Some (authinfo, authpass) =>
          if cache_hit hc (st_mtime sbuf) authinfo then
            match crypt w authpass (prevcryp hc) with
            | None => (-1, hc)
            | Some crypt_result =>
                if same crypt_result (prevcryp hc)
                then (1, set_remoteuser authinfo hc)
                else (-1, send_authenticate hc dir)
            end
          else
            match fopen w (authpath hc) with
            | None =>
                (-1, httpd_send_err w hc 403 err403title [] err403form
                       (encodedurl hc))
            | Some content =>
                match auth_scan authinfo authpass (Access.file_lines content) with
                | Accepted user cryp =>
                    let hc := set_remoteuser user hc in
                    let hc := set_prevmtime (st_mtime sbuf) hc in
                    let hc := set_prevauthpath (authpath hc) hc in
                    let hc := set_prevuser authinfo hc in
                    (1, set_prevcryp cryp hc)
                | Mismatch => (-1, send_authenticate hc dir)
                | NoCrypt => (-1, hc)
                | NoUser => (-1, send_authenticate hc dir)
                end
            end
      end
  end.

(** [auth_check]; [dir] is [None] for a NULL argument. *)
Definition auth_check (hc : httpd_conn) (dir : option cstring)
  : option (Z * httpd_conn) :=
  let go (dir : cstring) :=
    if negb (global_passwd (hs hc)) then
      Access.check_local w auth_check2 (AUTH_FILE w) hc dir
    else
      let '(rc, hc') := auth_check2 hc (Access.top_dir hc) in
      if rc =? 0 then Access.check_local w auth_check2 (AUTH_FILE w) hc' dir
      else Some (rc, hc') in
  match dir with
  | Some dir => go dir
  | None =>
      match strstr (expnfilename hc) (AUTH_FILE w) with
      | Some _ => Some (-1, hc)   (* "tried to retrieve auth file" *)
      | None => go (Access.containing_dir (expnfilename hc))
      end
  end.

End Check.

Lemma auth_check_finishes w hc dir :
  exists r, auth_check w hc dir = Some r.
Proof.
  unfold auth_check.
  assert (forall d, exists r,
            (if negb (global_passwd (hs hc))
             then Access.check_local w (auth_check2 w) (AUTH_FILE w) hc d
             else let '(rc, hc') := auth_check2 w hc (Access.top_dir hc) in
                  if rc =? 0
                  then Access.check_local w (auth_check2 w) (AUTH_FILE w) hc' d
                  else Some (rc, hc')) = Some r) as K.
  { intros d. destruct (negb _); [apply Access.check_local_finishes|].
    destruct (auth_check2 w hc (Access.top_dir hc)) as [rc hc'].
    destruct (rc =? 0); [apply Access.check_local_finishes|eauto]. }
  destruct dir as [d|]; [apply K|].
  destruct (strstr _ _); [eauto|apply K].
Qed.

(** *** The password check maps no file *)

Lemma send_authenticate_unmapped w hc realm :
  unmapped hc -> unmapped (send_authenticate w hc realm).
Proof.
  intros H. unfold send_authenticate.
  set (hc1 := httpd_send_err _ _ _ _ _ _ _).
  assert (unmapped hc1) as H1 by (apply httpd_send_err_unmapped; exact H).
  destruct (method_ hc1); exact H1.
Qed.

Lemma auth_check2_unmapped w hc dir :
  unmapped hc -> unmapped (snd (auth_check2 w hc dir)).
Proof.
  intros H. unfold auth_check2.
  set (hc1 := set_authpath _ hc).
  assert (unmapped hc1) as H1 by exact H.
  destruct (lstat w _) as [sbuf|]; [|exact H1].
  destruct (credentials w hc1) as [[authinfo authpass]|];
    [|apply send_authenticate_unmapped; exact H1].
  destruct (cache_hit hc1 _ _).
  - destruct (crypt w _ _); [|exact H1].
    destruct (same _ _); [exact H1|].
    apply send_authenticate_unmapped; exact H1.
  - destruct (fopen w _); [|apply httpd_send_err_unmapped; exact H1].
    destruct (auth_scan w _ _ _); cbn [snd];
      [exact H1|apply send_authenticate_unmapped; exact H1|exact H1
      |apply send_authenticate_unmapped; exact H1].
Qed.

Lemma auth_check_unmapped w hc dir r :
  unmapped hc -> auth_check w hc dir = Some r -> unmapped (snd r).
Proof.
  intros H. unfold auth_check.
  assert (forall d,
            (if negb (global_passwd (hs hc))
             then Access.check_local w (auth_check2 w) (AUTH_FILE w) hc d
             else let '(rc, hc') := auth_check2 w hc (Access.top_dir hc) in
                  if rc =? 0
                  then Access.check_local w (auth_check2 w) (AUTH_FILE w) hc' d
                  else Some (rc, hc')) = Some r -> unmapped (snd r)) as K.
  { intros d. destruct (negb _).
    - apply Access.check_local_unmapped; [apply auth_check2_unmapped|exact H].
    - pose proof (auth_check2_unmapped w hc (Access.top_dir hc) H) as H2.
      destruct (auth_check2 w hc (Access.top_dir hc)) as [rc hc'].
      destruct (rc =? 0).
      + apply Access.check_local_unmapped;
          [apply auth_check2_unmapped|exact H2].
      + intros [= <-]. exact H2. }
  destruct dir as [d|]; [apply K|].
  destruct (strstr _ _); [intros [= <-]; exact H|apply K].
Qed.

(** *** Which entry decides *)

(** The line is an entry for [user]. *)
Definition entry_for (user : cstring) (raw : cstring) : bool :=
  match entry raw with
  | Some (u, _) => same u user
  | None => false
  end.

(** Lines before the first entry of the user are skipped, lines after it
    are never read. *)
Lemma auth_scan_first_entry w authinfo authpass : forall pre raw post user cryp,
  Forall (fun x => entry_for authinfo x = false) pre ->
  entry raw = Some (user, cryp) -> same user authinfo = true ->
  auth_scan w authinfo authpass (pre ++ raw :: post)
  = judge w authpass user cryp.
Proof.
  induction pre as [|x pre IH]; intros raw post user cryp Hpre He Hu; simpl.
  - rewrite He, Hu. reflexivity.
  - inversion Hpre as [|? ? Hx Hrest]; subst. unfold entry_for in Hx.
    destruct (entry x) as [[u c]|].
    + rewrite Hx. apply IH; assumption.
    + apply IH; assumption.
Qed.

(** The return value for each way the scan can end. *)
Definition return_code (v : verdict) : Z :=
  match v with
  | Accepted _ _ => 1
  | _ => -1
  end.

(** C5 (amended): when [auth_check2] scans a password file (the file
    exists and opens, the request carries Basic credentials, the cache
    does not apply), the first line whose user field equals the presented
    user name is the one whose crypted password decides acceptance;
    later lines for the same user are never read. *)
Theorem auth_check2_first_entry_decides
  (w : world) (hc : httpd_conn) (dir content : cstring) (sbuf : stat_buf)
  (authinfo authpass user cryp : cstring) (pre post : list cstring)
  (raw : cstring) :
  lstat w (dir ++ lit "/" ++ AUTH_FILE w) = Some sbuf ->
  credentials w (set_authpath (dir ++ lit "/" ++ AUTH_FILE w) hc)
    = Some (authinfo, authpass) ->
  cache_hit (set_authpath (dir ++ lit "/" ++ AUTH_FILE w) hc)
    (st_mtime sbuf) authinfo = false ->
  fopen w (dir ++ lit "/" ++ AUTH_FILE w) = Some content ->
  Access.file_lines content = pre ++ raw :: post ->
  Forall (fun x => entry_for authinfo x = false) pre ->
  entry raw = Some (user, cryp) -> same user authinfo = true ->
  fst (auth_check2 w hc dir) = return_code (judge w authpass user cryp).
Proof.
  intros Hl Hc Hcache Hf Hlines Hpre He Hu.
  unfold auth_check2.
  change (authpath (set_authpath (dir ++ lit "/" ++ AUTH_FILE w) hc))
    with (dir ++ lit "/" ++ AUTH_FILE w).
  rewrite Hl, Hc, Hcache, Hf, Hlines.
  rewrite (auth_scan_first_entry w authinfo authpass pre raw post user cryp
             Hpre He Hu).
  destruct (judge w authpass user cryp); reflexivity.
Qed.

(** A password file with two entries for the same user. *)
Definition two_entries : cstring :=
  lit "bob:alpha" ++ Sample.nl ++ lit "bob:beta" ++ Sample.nl.

Definition sample_passwd : list (cstring * cstring) :=
  [ (lit "./.htpasswd", two_entries) ].

(** A request presenting user [bob] with the given password. *)
Definition bob_with (password : string) : httpd_conn :=
  set_authorization (lit "Basic bob:" ++ lit password)
    (fresh_conn Sample.server 167772161).

Lemma auth_check2_first_entry_decides_witness :
  fst (auth_check2 (Sample.world_of sample_passwd) (bob_with "alpha") (lit "."))
  = return_code (judge (Sample.world_of sample_passwd) (lit "alpha")
                   (lit "bob") (lit "alpha")).
Proof.
  apply (auth_check2_first_entry_decides (Sample.world_of sample_passwd)
           (bob_with "alpha") (lit ".") two_entries
           {| st_mode := S_IFREG + 420; st_size := 19; st_mtime := 500 |}
           (lit "bob") (lit "alpha") (lit "bob") (lit "alpha")
           [] [lit "bob:beta" ++ Sample.nl] (lit "bob:alpha" ++ Sample.nl)).
  - reflexivity.
  - reflexivity.
  - reflexivity.
  - reflexivity.
  - reflexivity.
  - constructor.
  - reflexivity.
  - reflexivity.
Defined.

(** C5 as stated fails: with the entries [bob:alpha] and [bob:beta] and
    the example hash (the password itself), the last entry for [bob]
    accepts the password [beta], yet the request presenting it is
    refused with a 401, because the first entry decided. *)
Lemma last_entry_does_not_decide :
  Access.file_lines two_entries
    = [lit "bob:alpha" ++ Sample.nl; lit "bob:beta" ++ Sample.nl] /\
  judge (Sample.world_of sample_passwd) (lit "beta") (lit "bob") (lit "beta")
    = Accepted (lit "bob") (lit "beta") /\
  fst (auth_check2 (Sample.world_of sample_passwd) (bob_with "beta") (lit "."))
    = -1 /\
  status (snd (auth_check2 (Sample.world_of sample_passwd) (bob_with "beta")
                 (lit "."))) = 401.
Proof. vm_compute. repeat split; reflexivity. Qed.

End Auth.

(** ** Starting a request: [really_start_request] *)

Module Request.

Import Conn World Response.
Local Open Scope Z_scope.

Definition httpd_method_str (m : method) : cstring :=
  match m with
  | METHOD_GET => lit "GET"
  | METHOD_HEAD => lit "HEAD"
  | METHOD_POST => lit "POST"
  | METHOD_PUT => lit "PUT"
  | METHOD_DELETE => lit "DELETE"
  | METHOD_CONNECT => lit "CONNECT"
  | METHOD_OPTIONS => lit "OPTIONS"
  | METHOD_TRACE => lit "TRACE"
  | METHOD_UNKNOWN => lit "UNKNOWN"
  end.

(** [st_mode & (S_IROTH | S_IXOTH)] *)
Definition world_readable (mode : Z) : bool :=
  negb (Z.land mode (Z.lor S_IROTH S_IXOTH) =? 0).

(** The suffixes [mod_headers] answers with [Vary: Accept-Encoding]. *)
Definition vary_suffixes : list cstring :=
  [lit ".js"; lit ".css"; lit ".xml"; lit ".gz"; lit ".html"].

Definition vary_header : cstring := lit "Vary: Accept-Encoding" ++ crlf.

Section Start.

Variable w : world.

(** [stat(path, &sb) != -1], as [expand_symlinks] asks it. *)
Definition exists_ (path : cstring) : bool :=
  match stat w path with
  | Some _ => true
  | None => false
  end.

(** [send_dirredirect], its two static buffers taken to be large
    enough for the address and the header; the buffers themselves are
    in [Redirect.send_dirredirect_static]. *)
Definition send_dirredirect (hc : httpd_conn) : httpd_conn :=
  let '(hc, location) :=
    match query hc with
    | _ :: _ =>
        let hc := match strchr (encodedurl hc) "?" with
                  | Some cp => set_encodedurl (firstn cp (encodedurl hc)) hc
                  | None => hc
                  end in
        (hc, encodedurl hc ++ lit "/?" ++ query hc)
    | [] => (hc, encodedurl hc ++ lit "/")
    end in
  send_response w hc 302 err302title (lit "Location: " ++ location ++ crlf)
    err302form location.

(** [is_cgi]: the expanded file name, without the directory of its
    virtual host, against the CGI pattern. *)
Definition is_cgi (hc : httpd_conn) : bool :=
  let fn := expnfilename hc in
  let fn :=
    if vhost (hs hc) then
      let buf := firstn 255 (hostdir hc ++ lit "/**") in
      if wildmatch w buf fn then skipn (length (hostdir hc) + 1) fn else fn
    else fn in
  match cgi_pattern (hs hc) with
  | Some pattern => wildmatch w pattern fn
  | None => false
  end.

(** The sibling [expnfilename.gz] that [mod_headers] would serve
    instead: it exists, is world-readable or world-executable and is not
    older than the file itself. *)
Definition serve_dotgz (hc : httpd_conn) : option stat_buf :=
  match stat w (expnfilename hc ++ lit ".gz") with
  | Some st =>
      if world_readable (st_mode st) && (st_mtime st >=? st_mtime (sb hc))
      then Some st else None
  | None => None
  end.

(** The first half of [mod_headers], up to [done:]. *)
Definition substitute_dotgz (hc : httpd_conn) : httpd_conn :=
  match compression_type hc with
  | COMPRESSION_NONE => hc
  | COMPRESSION_GZIP =>
      match serve_dotgz hc, encodings hc with
      | Some st, [] =>
          let hc := set_expnfilename (expnfilename hc ++ lit ".gz") hc in
          let hc := set_sb {| st_mode := st_mode (sb hc);
                              st_size := st_size st;
                              st_mtime := st_mtime (sb hc) |} hc in
          let hc := set_compression_type COMPRESSION_NONE hc in
          set_encodings (lit "gzip") hc
      | _, _ => hc
      end
  end.

(** The three reasons for which [mod_headers] gives up compressing. *)
Definition settle_compression (hc : httpd_conn) : httpd_conn :=
  if negb (has_deflate hc) then set_compression_type COMPRESSION_NONE hc
  else if negb (strncmp (type hc) (lit "text/") 5 =? 0)
          && negb (strcmp (type hc) (lit "application/javascript") =? 0)
  then set_compression_type COMPRESSION_NONE hc
  else if st_size (sb hc) <? 256 then set_compression_type COMPRESSION_NONE hc
  else hc.

(** [mod_headers]: the extra header and the connection.  [None] stands
    for the [strcmp] on a NULL suffix, made when the name has no dot
    although [encodings] mentions gzip. *)
Definition mod_headers (hc : httpd_conn) : option (cstring * httpd_conn) :=
  let hc := settle_compression (substitute_dotgz hc) in
  match strrchr (expnfilename hc) "." with
  | Some dot =>
      let fn := skipn dot (expnfilename hc) in
      Some (if existsb (fun m => strcmp fn m =? 0) vary_suffixes
            then vary_header else [], hc)
  | None =>
      match strstr (encodings hc) (lit "gzip") with
      | Some _ => None
      | None => Some ([], hc)
      end
  end.

(** Returns 1 if ok to serve the url, 0 if not. *)
Definition check_referer (hc : httpd_conn) : bool * httpd_conn :=
  match url_pattern (hs hc) with
  | None => (true, hc)
  | Some _ =>
      if really_check_referer w hc then (true, hc)
      else (false, httpd_send_err w hc 403 err403title [] err403form
                     (encodedurl hc))
  end.

(** "Fill in last_byte_index, if necessary." *)
Definition fill_in_last_byte_index (hc : httpd_conn) : httpd_conn :=
  if got_range hc && ((last_byte_index hc =? -1)
                      || (last_byte_index hc >=? st_size (sb hc)))
  then set_last_byte_index (st_size (sb hc) - 1) hc else hc.

(** The tail of [really_start_request], from "Fill in last_byte_index,
    if necessary" to its [return 0]. *)
Definition deliver (hc : httpd_conn) (is_icon : bool) : option (Z * httpd_conn) :=
  let hc := fill_in_last_byte_index hc in
  match Mime.figure_mime (enc_tab w) (typ_tab w) (expnfilename hc) with
  | None => None
  | Some (ty, encs) =>
      let hc := set_encodings encs (set_type ty hc) in
      match method_ hc with
      | METHOD_HEAD =>
          match mod_headers hc with
          | None => None
          | Some (extra, hc) =>
              Some (0, send_mime w hc 200 ok200title (encodings hc) extra
                         (type hc) (st_size (sb hc)) (st_mtime (sb hc)))
          end
      | _ =>
          if negb (if_modified_since hc =? -1)
             && (if_modified_since hc >=? st_mtime (sb hc))
          then Some (0, send_mime w hc 304 err304title (encodings hc) []
                          (type hc) (-1) (st_mtime (sb hc)))
          else
            match mod_headers hc with
            | None => None
            | Some (extra, hc) =>
                let hc := set_file_address (mmc_map w (expnfilename hc)) hc in
                match file_address hc with
                | None =>
                    Some (-1, if is_icon
                              then httpd_send_err w hc 404 err404title []
                                     err404form (encodedurl hc)
                              else httpd_send_err w hc 500 err500title []
                                     err500form (encodedurl hc))
                | Some _ =>
                    Some (0, send_mime w hc 200 ok200title (encodings hc) extra
                               (type hc) (st_size (sb hc)) (st_mtime (sb hc)))
                end
            end
      end
  end.

(** The code from the label [sneaky:] on. *)
Definition sneaky (hc : httpd_conn) (is_icon : bool) : option (Z * httpd_conn) :=
  let '(ok, hc) := check_referer hc in
  if negb ok then Some (-1, hc)
  else
    match method_ hc with
    | METHOD_OPTIONS =>
        Some (0, add_response (OptionsReply (protocol hc) (now w) (is_cgi hc)
                                 (max_age (hs hc))) hc)
    | _ =>
        if is_cgi hc then
          if negb (Z.land (st_mode (sb hc)) S_IXOTH =? 0) then Some (cgi w hc)
          else Some (-1, httpd_send_err w hc 403 err403title [] err403form
                           (encodedurl hc))
        else
          match pathinfo hc with
          | _ :: _ => Some (-1, httpd_send_err w hc 403 err403title []
                                  err403form (encodedurl hc))
          | [] => deliver hc is_icon
          end
    end.

(** [access_check(hc, NULL)], [auth_check(hc, NULL)], then [sneaky:]. *)
Definition gates (hc : httpd_conn) : option (Z * httpd_conn) :=
  match Access.access_check w hc None with
  | None => None
  | Some (rc, hc) =>
      if rc =? -1 then Some (-1, hc)
      else
        match Auth.auth_check w hc None with
        | None => None
        | Some (rc, hc) =>
            if rc =? -1 then Some (-1, hc) else sneaky hc false
        end
  end.

(** The name tried for one entry of [index_names]. *)
Definition index_path (expnfilename name : cstring) : cstring :=
  let indexname :=
    match rev expnfilename with
    | [] => expnfilename ++ lit "/"
    | c :: _ => if ascii_eqb c "/" then expnfilename
                else expnfilename ++ lit "/"
    end in
  let indexname := if strcmp indexname (lit "./") =? 0 then [] else indexname in
  indexname ++ name.

(** "Check for an index file": [true] for the jump to [got_one]. *)
Fixpoint probe_indexes (names : list cstring) (hc : httpd_conn)
  : bool * httpd_conn :=
  match names with
  | [] => (false, hc)
  | name :: names' =>
      let hc := set_indexname (index_path (expnfilename hc) name) hc in
      match stat w (indexname hc) with
      | Some st => (true, set_sb st hc)
      | None => probe_indexes names' hc
      end
  end.

(** "Nope, no index file, so it's an actual directory request." *)
Definition list_directory (hc : httpd_conn) : option (Z * httpd_conn) :=
  if GENERATE_INDEXES w then
    if Z.land (st_mode (sb hc)) S_IROTH =? 0 then
      Some (-1, httpd_send_err w hc 403 err403title [] err403form
                  (encodedurl hc))
    else
      match Access.access_check w hc (Some (expnfilename hc)) with
      | None => None
      | Some (rc, hc) =>
          if rc =? -1 then Some (-1, hc)
          else
            match Auth.auth_check w hc (Some (expnfilename hc)) with
            | None => None
            | Some (rc, hc) =>
                if rc =? -1 then Some (-1, hc)
                else
                  let '(ok, hc) := check_referer hc in
                  if negb ok then Some (-1, hc) else Some (ls w hc)
            end
      end
  else
    Some (-1, httpd_send_err w hc 403 err403title [] err403form (encodedurl hc)).

(** The code from the label [got_one:] on. *)
Definition got_one (hc : httpd_conn) : option (Z * httpd_conn) :=
  match Symlinks.expand_symlinks (MAX_LINKS w) (readlink w) exists_
          (indexname hc) (no_symlink_check (hs hc)) (tildemapped hc) with
  | None => None
  | Some None =>
      Some (-1, httpd_send_err w hc 500 err500title [] err500form
                  (encodedurl hc))
  | Some (Some (cp, pi)) =>
      match pi with
      | _ :: _ =>
          Some (-1, httpd_send_err w hc 500 err500title [] err500form
                      (encodedurl hc))
      | [] =>
          let hc := set_expnfilename cp hc in
          if negb (world_readable (st_mode (sb hc))) then
            Some (-1, httpd_send_err w hc 403 err403title [] err403form
                        (encodedurl hc))
          else gates hc
      end
  end.

(** The branch "Is it a directory?". *)
Definition directory (hc : httpd_conn) : option (Z * httpd_conn) :=
  match pathinfo hc with
  | _ :: _ =>
      Some (-1, httpd_send_err w hc 404 err404title [] err404form
                  (encodedurl hc))
  | [] =>
      if negb (strcmp (origfilename hc) [] =? 0)
         && negb (strcmp (origfilename hc) (lit ".") =? 0)
         && negb (ascii_eqb (last (origfilename hc) NUL) "/")
      then Some (-1, send_dirredirect hc)
      else
        match probe_indexes (INDEX_NAMES w) hc with
        | (true, hc) => got_one hc
        | (false, hc) => list_directory hc
        end
  end.

(** [really_start_request]: the return value and the connection as it
    is left.  [None] only if one of the bounded loops below it ran out
    of its budget, or [mod_headers] compared a NULL suffix;
    [really_start_request_finishes] shows that neither happens. *)
Definition really_start_request (hc : httpd_conn) : option (Z * httpd_conn) :=
  match method_ hc with
  | METHOD_GET | METHOD_HEAD | METHOD_POST | METHOD_OPTIONS | METHOD_PUT
  | METHOD_DELETE =>
      match mmc_icon_check w (pathinfo hc) with
      | Some icon =>
          let hc := set_sb icon hc in
          let hc := set_expnfilename (pathinfo hc) hc in
          sneaky (set_pathinfo [] hc) true
      | None =>
          match stat w (expnfilename hc) with
          | None =>
              Some (-1, httpd_send_err w hc 500 err500title [] err500form
                          (encodedurl hc))
          | Some st =>
              let hc := set_sb st hc in
              if negb (world_readable (st_mode (sb hc))) then
                Some (-1, httpd_send_err w hc 403 err403title [] err403form
                            (encodedurl hc))
              else if S_ISDIR (st_mode (sb hc)) then directory hc
              else if negb (S_ISREG (st_mode (sb hc))) then
                Some (-1, httpd_send_err w hc 404 err404title [] err404form
                            (encodedurl hc))
              else gates hc
          end
      end
  | _ =>
      Some (-1, httpd_send_err w hc 501 err501title [] err501form
                  (httpd_method_str (method_ hc)))
  end.

(** [httpd_start_request] *)
Definition httpd_start_request (hc : httpd_conn) : option (Z * httpd_conn) :=
  really_start_request hc.

End Start.

(** *** [mod_headers] *)

(** What the tail of [really_start_request] relies on across a call. *)
Record same_request (a b : httpd_conn) : Prop := {
  same_hs : hs a = hs b;
  same_method : method_ a = method_ b;
  same_mime_flag : mime_flag a = mime_flag b;
  same_got_range : got_range a = got_range b;
  same_first : first_byte_index a = first_byte_index b;
  same_last : last_byte_index a = last_byte_index b;
  same_range_if : range_if a = range_if b;
  same_ims : if_modified_since a = if_modified_since b;
  same_mtime : st_mtime (sb a) = st_mtime (sb b);
  same_file_address : file_address a = file_address b;
  same_response : response a = response b
}.

Lemma same_request_refl a : same_request a a.
Proof. split; reflexivity. Qed.

Lemma substitute_dotgz_same w hc : same_request (substitute_dotgz w hc) hc.
Proof.
  unfold substitute_dotgz.
  destruct (compression_type hc); [apply same_request_refl|].
  destruct (serve_dotgz w hc); [|apply same_request_refl].
  destruct (encodings hc); split; reflexivity.
Qed.

Lemma settle_compression_same hc : same_request (settle_compression hc) hc.
Proof.
  unfold settle_compression.
  destruct (negb (has_deflate hc)); [split; reflexivity|].
  destruct (_ && _); [split; reflexivity|].
  destruct (_ <? _); split; reflexivity.
Qed.

Lemma settle_compression_file hc :
  expnfilename (settle_compression hc) = expnfilename hc /\
  sb (settle_compression hc) = sb hc /\
  encodings (settle_compression hc) = encodings hc.
Proof.
  unfold settle_compression.
  destruct (negb (has_deflate hc)); [repeat split|].
  destruct (_ && _); [repeat split|].
  destruct (_ <? _); repeat split.
Qed.

Lemma mod_headers_same w hc extra hc' :
  mod_headers w hc = Some (extra, hc') -> same_request hc' hc.
Proof.
  unfold mod_headers.
  pose proof (substitute_dotgz_same w hc) as [].
  pose proof (settle_compression_same (substitute_dotgz w hc)) as [].
  destruct (strrchr _ _); [|destruct (strstr _ _); [discriminate|]];
    intros [= _ <-]; split; congruence.
Qed.

(** Without a sibling to serve, or without gzip asked for, the file and
    its size stay. *)
Lemma mod_headers_file w hc extra hc' :
  compression_type hc = COMPRESSION_NONE \/ serve_dotgz w hc = None ->
  mod_headers w hc = Some (extra, hc') ->
  expnfilename hc' = expnfilename hc /\ sb hc' = sb hc.
Proof.
  intros Hno. unfold mod_headers.
  destruct (settle_compression_file (substitute_dotgz w hc)) as (Ee & Es & _).
  assert (substitute_dotgz w hc = hc) as E.
  { unfold substitute_dotgz. destruct Hno as [-> | ->]; [reflexivity|].
    destruct (compression_type hc); reflexivity. }
  rewrite E in *.
  destruct (strrchr _ _); [|destruct (strstr _ _); [discriminate|]];
    intros [= _ <-]; split; assumption.
Qed.

(** The NULL suffix is never compared for the encodings [figure_mime]
    leaves. *)
Lemma mod_headers_finishes w hc :
  (strrchr (expnfilename hc) "." = None -> encodings hc = []) ->
  exists r, mod_headers w hc = Some r.
Proof.
  intros H. unfold mod_headers.
  destruct (settle_compression_file (substitute_dotgz w hc)) as (-> & _ & ->).
  destruct (strrchr (expnfilename (substitute_dotgz w hc)) ".") eqn:Ed;
    [eauto|].
  assert (substitute_dotgz w hc = hc) as E.
  { unfold substitute_dotgz in *. destruct (compression_type hc); [reflexivity|].
    destruct (serve_dotgz w hc); [|reflexivity].
    destruct (encodings hc); [|reflexivity].
    exfalso. cbn in Ed. revert Ed. apply strrchr_app. discriminate. }
  rewrite E in *. rewrite (H Ed). cbn. eauto.
Qed.

(** *** Every request is answered *)

Lemma deliver_finishes w hc is_icon : exists r, deliver w hc is_icon = Some r.
Proof.
  unfold deliver.
  match goal with
  | |- context [Mime.figure_mime _ _ (expnfilename ?h)] => set (hc1 := h)
  end.
  destruct (Mime.figure_mime_finishes (enc_tab w) (typ_tab w) (expnfilename hc1))
    as [[ty encs] Ef].
  rewrite Ef.
  set (hc2 := set_encodings encs (set_type ty hc1)).
  destruct (mod_headers_finishes w hc2) as [[extra hc3] Em].
  { intros Hd. change (expnfilename hc2) with (expnfilename hc1) in Hd.
    rewrite (Mime.figure_mime_no_dot _ _ _ Hd) in Ef.
    injection Ef as _ <-. reflexivity. }
  rewrite Em.
  change (method_ hc2) with (method_ hc1).
  change (if_modified_since hc2) with (if_modified_since hc1).
  change (sb hc2) with (sb hc1).
  destruct (method_ hc1); eauto;
    (destruct (negb (if_modified_since hc1 =? -1) && _); [eauto|];
     cbn [file_address set_file_address]; destruct (mmc_map w _); eauto).
Qed.

Lemma sneaky_finishes w hc is_icon : exists r, sneaky w hc is_icon = Some r.
Proof.
  unfold sneaky. destruct (check_referer w hc) as [ok hc1].
  destruct ok; cbn [negb]; [|eauto].
  assert (exists r,
            (if is_cgi w hc1
             then if negb (Z.land (st_mode (sb hc1)) S_IXOTH =? 0)
                  then Some (cgi w hc1)
                  else Some (-1, httpd_send_err w hc1 403 err403title []
                                   err403form (encodedurl hc1))
             else match pathinfo hc1 with
                  | [] => deliver w hc1 is_icon
                  | _ :: _ => Some (-1, httpd_send_err w hc1 403 err403title []
                                          err403form (encodedurl hc1))
                  end) = Some r) as K.
  { destruct (is_cgi w hc1); [destruct (negb _); eauto|].
    destruct (pathinfo hc1); [apply deliver_finishes|eauto]. }
  destruct (method_ hc1); eauto.
Qed.

Lemma gates_finishes w hc : exists r, gates w hc = Some r.
Proof.
  unfold gates.
  destruct (Access.access_check_finishes w hc None) as [[rc hc1] ->].
  destruct (rc =? -1); [eauto|].
  destruct (Auth.auth_check_finishes w hc1 None) as [[rc2 hc2] ->].
  destruct (rc2 =? -1); [eauto|apply sneaky_finishes].
Qed.

Lemma list_directory_finishes w hc : exists r, list_directory w hc = Some r.
Proof.
  unfold list_directory. destruct (GENERATE_INDEXES w); [|eauto].
  destruct (_ =? 0); [eauto|].
  destruct (Access.access_check_finishes w hc (Some (expnfilename hc)))
    as [[rc hc1] ->].
  destruct (rc =? -1); [eauto|].
  destruct (Auth.auth_check_finishes w hc1 (Some (expnfilename hc1)))
    as [[rc2 hc2] ->].
  destruct (rc2 =? -1); [eauto|].
  destruct (check_referer w hc2) as [ok hc3]. destruct ok; cbn; eauto.
Qed.

Lemma got_one_finishes w hc : exists r, got_one w hc = Some r.
Proof.
  unfold got_one.
  destruct (Symlinks.expand_symlinks_finishes (MAX_LINKS w) (readlink w)
              (exists_ w) (indexname hc) (no_symlink_check (hs hc))
              (tildemapped hc)) as [[[cp pi]|] ->]; [|eauto].
  destruct pi; [|eauto].
  destruct (negb _); [eauto|apply gates_finishes].
Qed.

Lemma directory_finishes w hc : exists r, directory w hc = Some r.
Proof.
  unfold directory. destruct (pathinfo hc); [|eauto].
  destruct (_ && _); [eauto|].
  destruct (probe_indexes w (INDEX_NAMES w) hc) as [[|] hc1];
    [apply got_one_finishes|apply list_directory_finishes].
Qed.

(** [really_start_request] returns, whatever the request and the file
    system. *)
Lemma really_start_request_finishes w hc :
  exists r, really_start_request w hc = Some r.
Proof.
  unfold really_start_request.
  destruct (method_ hc); eauto;
    (destruct (mmc_icon_check w _); [apply sneaky_finishes|];
     destruct (stat w _); [|eauto]; destruct (negb _); [eauto|];
     destruct (S_ISDIR _); [apply directory_finishes|];
     destruct (negb _); [eauto|apply gates_finishes]).
Qed.

(** *** Ranges *)

Lemma fill_in_last_byte_index_same hc :
  let hc1 := fill_in_last_byte_index hc in
  expnfilename hc1 = expnfilename hc /\ sb hc1 = sb hc /\
  compression_type hc1 = compression_type hc /\
  method_ hc1 = method_ hc /\ mime_flag hc1 = mime_flag hc /\
  got_range hc1 = got_range hc /\
  first_byte_index hc1 = first_byte_index hc /\
  range_if hc1 = range_if hc /\
  if_modified_since hc1 = if_modified_since hc /\
  file_address hc1 = file_address hc /\ response hc1 = response hc /\
  hs hc1 = hs hc.
Proof.
  unfold fill_in_last_byte_index. destruct (_ && _); repeat split.
Qed.

(** The request the 200 branches of [deliver] hand to [send_mime]. *)
Lemma deliver_200 w hc is_icon :
  compression_type hc = COMPRESSION_NONE \/ serve_dotgz w hc = None ->
  method_ hc = METHOD_HEAD \/
  (negb (if_modified_since hc =? -1)
   && (if_modified_since hc >=? st_mtime (sb hc)) = false /\
   mmc_map w (expnfilename hc) <> None) ->
  exists h encs extra ty,
    deliver w hc is_icon
    = Some (0, send_mime w h 200 ok200title encs extra ty (st_size (sb hc))
                 (st_mtime (sb hc))) /\
    mime_flag h = mime_flag hc /\ got_range h = got_range hc /\
    first_byte_index h = first_byte_index hc /\
    last_byte_index h = last_byte_index (fill_in_last_byte_index hc) /\
    range_if h = range_if hc /\ sb h = sb hc /\ response h = response hc.
Proof.
  intros Hno H200. unfold deliver.
  destruct (fill_in_last_byte_index_same hc)
    as (Ee & Es & Ec & Em & Ei & Eg & Ef & Er & Eims & Ea & Ersp & Ehs).
  set (hc1 := fill_in_last_byte_index hc) in *.
  destruct (Mime.figure_mime_finishes (enc_tab w) (typ_tab w) (expnfilename hc1))
    as [[ty encs] Efm].
  rewrite Efm.
  set (hc2 := set_encodings encs (set_type ty hc1)).
  destruct (mod_headers_finishes w hc2) as [[extra hc3] Emh].
  { intros Hd. change (expnfilename hc2) with (expnfilename hc1) in Hd.
    rewrite (Mime.figure_mime_no_dot _ _ _ Hd) in Efm.
    injection Efm as _ <-. reflexivity. }
  rewrite Emh.
  destruct (mod_headers_same w hc2 extra hc3 Emh) as [].
  destruct (mod_headers_file w hc2 extra hc3) as (Ee3 & Es3); [|exact Emh|].
  { change (compression_type hc2) with (compression_type hc1).
    unfold serve_dotgz in *.
    change (expnfilename hc2) with (expnfilename hc1).
    change (sb hc2) with (sb hc1).
    rewrite Ec, Ee, Es. exact Hno. }
  change (method_ hc2) with (method_ hc1) in *.
  change (if_modified_since hc2) with (if_modified_since hc1) in *.
  change (sb hc2) with (sb hc1) in *.
  change (expnfilename hc2) with (expnfilename hc1) in *.
  change (mime_flag hc2) with (mime_flag hc1) in *.
  change (got_range hc2) with (got_range hc1) in *.
  change (first_byte_index hc2) with (first_byte_index hc1) in *.
  change (last_byte_index hc2) with (last_byte_index hc1) in *.
  change (range_if hc2) with (range_if hc1) in *.
  change (response hc2) with (response hc1) in *.
  assert (method_ hc1 = METHOD_HEAD \/
          (method_ hc1 <> METHOD_HEAD /\
           negb (if_modified_since hc1 =? -1)
           && (if_modified_since hc1 >=? st_mtime (sb hc1)) = false /\
           exists bytes, mmc_map w (expnfilename hc3) = Some bytes))
    as [Hhead|(Hnh & Hims & bytes & Hmap)].
  { rewrite Em, Eims, Es, Ee3, Ee.
    destruct H200 as [Hh|[H1 H2]]; [left; exact Hh|].
    destruct (method_ hc) eqn:Emeth; try (left; reflexivity);
      (right; split; [discriminate|]; split; [exact H1|];
       destruct (mmc_map w (expnfilename hc)); [eauto|contradiction]). }
  - rewrite Hhead. exists hc3, (encodings hc3), extra, (type hc3).
    rewrite Es3, Es. repeat split; congruence.
  - exists (set_file_address (Some bytes) hc3), (encodings hc3), extra,
      (type hc3).
    split.
    + destruct (method_ hc1); try contradiction;
        rewrite Hims; cbn [file_address set_file_address]; rewrite Hmap;
        cbn [encodings type sb set_file_address]; rewrite Es3, Es;
        reflexivity.
    + cbn [mime_flag got_range first_byte_index last_byte_index range_if sb
           response set_file_address].
      repeat split; congruence.
Qed.

(** Modelled from the claim: a usable range, not inverted and not the
    whole file, with no [If-Range] or one that names the file's own
    modification time.  [last] is the last byte asked for once
    [last_byte_index] is filled in. *)
Definition proper_range (hc : httpd_conn) : bool :=
  let first := first_byte_index hc in
  let last := last_byte_index (fill_in_last_byte_index hc) in
  got_range hc && (first <=? last)
  && negb ((first =? 0) && (last =? st_size (sb hc) - 1))
  && ((range_if hc =? -1) || (range_if hc =? st_mtime (sb hc))).

(** The claim's own condition, without the two exclusions. *)
Definition usable_range (hc : httpd_conn) : bool :=
  got_range hc
  && ((range_if hc =? -1) || (range_if hc =? st_mtime (sb hc))).

Lemma partial_content_proper h hc :
  got_range h = got_range hc ->
  first_byte_index h = first_byte_index hc ->
  last_byte_index h = last_byte_index (fill_in_last_byte_index hc) ->
  range_if h = range_if hc -> sb h = sb hc ->
  partial_content h 200 (st_size (sb hc)) = proper_range hc.
Proof.
  intros Eg Ef El Er Es. unfold partial_content, proper_range. cbn zeta.
  rewrite Eg, Ef, El, Er, Es, Z.eqb_refl, Z.geb_leb, negb_andb. cbn [andb].
  f_equal. f_equal. apply orb_comm.
Qed.

(** C3. For a request that [deliver] answers from the file itself (a
    HEAD, or a GET that is not answered 304 and whose file can be
    mapped), served without a newer [.gz] sibling taking its place: if
    the request carries a range that is not inverted and not the whole
    file, with no [If-Range] or one equal to the file's modification
    time, the response has status 206 and the header [Content-Range:
    bytes first-last/total] with [Content-Length] last - first + 1,
    where 0 <= first <= last < total; in every other case the response
    has status 200, [got_range] is cleared, the whole file is announced
    and no [Content-Range] is added. *)
Theorem proper_range_gets_206 w hc is_icon :
  mime_flag hc = true ->
  0 <= first_byte_index hc ->
  compression_type hc = COMPRESSION_NONE \/ serve_dotgz w hc = None ->
  method_ hc = METHOD_HEAD \/
  (negb (if_modified_since hc =? -1)
   && (if_modified_since hc >=? st_mtime (sb hc)) = false /\
   mmc_map w (expnfilename hc) <> None) ->
  let first := first_byte_index hc in
  let last := last_byte_index (fill_in_last_byte_index hc) in
  let total := st_size (sb hc) in
  exists hc',
    deliver w hc is_icon = Some (0, hc') /\
    if proper_range hc then
      status hc' = 206 /\
      In (ContentRange first last total (last - first + 1)) (response hc') /\
      0 <= first /\ first <= last /\ last < total
    else
      status hc' = 200 /\ got_range hc' = false /\
      bytes_to_send hc' = total /\
      forall a b c d, In (ContentRange a b c d) (response hc') ->
                      In (ContentRange a b c d) (response hc).
Proof.
  intros Hmime Hfirst Hno H200 first last total.
  destruct (deliver_200 w hc is_icon Hno H200)
    as (h & encs & extra & ty & Ed & Ei & Eg & Ef & El & Er & Es & Ersp).
  eexists. split; [exact Ed|].
  pose proof (partial_content_proper h hc Eg Ef El Er Es) as Hp.
  rewrite Hmime in Ei.
  destruct (proper_range hc) eqn:Hpr.
  - destruct (send_mime_partial w h ok200title encs extra ty total
                (st_mtime (sb hc)) Ei Hp) as (Hst & _ & Hin).
    split; [exact Hst|]. rewrite Ef, El in Hin. split; [exact Hin|].
    unfold proper_range in Hpr. fold first last total in Hpr.
    apply andb_prop in Hpr as [Hpr _]. apply andb_prop in Hpr as [Hpr _].
    apply andb_prop in Hpr as [Hg Hle]. apply Z.leb_le in Hle.
    split; [exact Hfirst|]. split; [exact Hle|].
    unfold last, fill_in_last_byte_index. rewrite Hg. cbn [andb].
    destruct (_ || _) eqn:Hc; [cbn; fold total; lia|].
    apply orb_false_elim in Hc as [_ Hc]. fold total in Hc. lia.
  - destruct (send_mime_full w h 200 ok200title encs extra ty total
                (st_mtime (sb hc)) Ei Hp) as (Hst & Hg & Hin).
    destruct (send_mime_frame w h 200 ok200title encs extra ty total
                (st_mtime (sb hc))) as (_ & _ & _ & Hb & _).
    repeat split; try assumption.
    intros a b c d Hi. rewrite <- Ersp. apply Hin. exact Hi.
Qed.

(** *** Sample requests *)

(** A document root with a ten-byte text file, a script with a newer
    compressed sibling, and the two files of the gates. *)
Definition sample_files : list (cstring * cstring) :=
  [ (lit "a.txt", lit "0123456789");
    (lit "b.js", lit "function f() { return 0123456789; }");
    (lit "b.js.gz", lit "gzipped");
    (lit ".htaccess", lit "allow 10.0.0.0/8" ++ Sample.nl);
    (lit ".htpasswd", lit "bob:secret" ++ Sample.nl) ].

Definition sample_world : world := Sample.world_of sample_files.

(** The connection after the request line [method /path HTTP/1.1] of a
    client at 10.0.0.1. *)
Definition request (m : method) (path : string) : httpd_conn :=
  let hc := fresh_conn Sample.server 167772161 in
  let hc := set_method m hc in
  let hc := set_protocol (lit "HTTP/1.1") hc in
  let hc := set_one_one true hc in
  let hc := set_encodedurl (lit "/" ++ lit path) hc in
  let hc := set_origfilename (lit path) hc in
  set_expnfilename (lit path) hc.

(** The same connection after one more header line. *)
Definition with_header (line : string) (hc : httpd_conn) : httpd_conn :=
  Parse.conn_of (Parse.parse_header sample_world hc (lit line)).

Definition middle_range : httpd_conn :=
  with_header "Range: bytes=2-5" (request METHOD_GET "a.txt").

Definition whole_range : httpd_conn :=
  with_header "Range: bytes=0-" (request METHOD_GET "a.txt").

(** A ranged request for the script from a client that accepts gzip, as
    [httpd_parse_request] leaves it. *)
Definition gzip_range : httpd_conn :=
  set_compression_type COMPRESSION_GZIP
    (with_header "Range: bytes=20-30" (request METHOD_GET "b.js")).

(** A connection once [really_start_request] has called [stat]. *)
Definition after_stat (hc : httpd_conn) : httpd_conn :=
  match stat sample_world (expnfilename hc) with
  | Some st => set_sb st hc
  | None => hc
  end.

Lemma proper_range_gets_206_witness :
  exists hc',
    deliver sample_world (after_stat middle_range) false = Some (0, hc') /\
    status hc' = 206 /\
    In (ContentRange 2 5 10 4) (response hc') /\
    0 <= 2 /\ 2 <= 5 /\ 5 < 10.
Proof.
  assert (mime_flag (after_stat middle_range) = true) as H1 by reflexivity.
  assert (0 <= first_byte_index (after_stat middle_range)) as H2
    by (vm_compute; discriminate).
  assert (compression_type (after_stat middle_range) = COMPRESSION_NONE \/
          serve_dotgz sample_world (after_stat middle_range) = None) as H3
    by (left; reflexivity).
  assert (method_ (after_stat middle_range) = METHOD_HEAD \/
          (negb (if_modified_since (after_stat middle_range) =? -1)
           && (if_modified_since (after_stat middle_range)
               >=? st_mtime (sb (after_stat middle_range))) = false /\
           mmc_map sample_world (expnfilename (after_stat middle_range))
           <> None)) as H4
    by (right; split; [reflexivity|vm_compute; discriminate]).
  pose proof (proper_range_gets_206 sample_world (after_stat middle_range)
                false H1 H2 H3 H4) as H.
  cbv zeta in H.
  change (proper_range (after_stat middle_range)) with true in H.
  exact H.
Defined.

(** The claim as written fails for [Range: bytes=0-]: the range is
    usable and there is no [If-Range], yet the answer is a plain 200. *)
Lemma whole_file_range_gets_200 :
  usable_range whole_range = true /\
  last_byte_index (fill_in_last_byte_index (after_stat whole_range))
  = st_size (sb (after_stat whole_range)) - 1 /\
  exists hc',
    really_start_request sample_world whole_range = Some (0, hc') /\
    status hc' = 200 /\ status hc' <> 206 /\
    forall a b c d, ~ In (ContentRange a b c d) (response hc').
Proof.
  split; [reflexivity|]. split; [reflexivity|].
  eexists. split; [vm_compute; reflexivity|].
  split; [reflexivity|]. split; [discriminate|].
  intros a b c d Hin. cbn in Hin. intuition discriminate.
Qed.

(** What the amended claim leaves out: [mod_headers] replaces the size
    by that of the [.gz] sibling after [last_byte_index] was filled in
    against the size of the file itself, so the 206 names a last byte
    beyond the total. *)
Example range_beyond_gz_sibling :
  exists hc',
    really_start_request sample_world gzip_range = Some (0, hc') /\
    status hc' = 206 /\
    In (ContentRange 20 30 7 11) (response hc').
Proof.
  eexists. split; [vm_compute; reflexivity|].
  split; [reflexivity|]. cbn. right. left. reflexivity.
Qed.

(** *** The files of the gates *)

Lemma regular_is_no_directory mode : S_ISREG mode = true -> S_ISDIR mode = false.
Proof.
  unfold S_ISREG, S_ISDIR. intros H. apply Z.eqb_eq in H. rewrite H.
  reflexivity.
Qed.

(** The password file is refused the same way, once the address gate
    has let the request through. *)
Lemma auth_file_is_refused_without_reply w hc :
  strstr (expnfilename hc) (AUTH_FILE w) <> None ->
  Auth.auth_check w hc None = Some (-1, hc).
Proof.
  intros H. unfold Auth.auth_check.
  destruct (strstr _ _); [reflexivity|contradiction].
Qed.

(** C6. What the code does instead of sending a 403: for a GET of a
    world-readable regular file whose expanded name contains the name
    of the access file, [really_start_request] returns -1 and leaves
    the connection as it was but for the [stat] buffer; nothing is added
    to the response and no status is set. *)
Theorem access_file_is_refused_without_reply w hc st :
  method_ hc = METHOD_GET ->
  mmc_icon_check w (pathinfo hc) = None ->
  stat w (expnfilename hc) = Some st ->
  world_readable (st_mode st) = true ->
  S_ISREG (st_mode st) = true ->
  strstr (expnfilename hc) (ACCESS_FILE w) <> None ->
  really_start_request w hc = Some (-1, set_sb st hc) /\
  response (set_sb st hc) = response hc /\
  status (set_sb st hc) = status hc.
Proof.
  intros Hm Hi Hs Hr Hreg Hacc.
  split; [|split; reflexivity].
  unfold really_start_request. rewrite Hm, Hi, Hs.
  cbn [sb set_sb]. rewrite Hr, (regular_is_no_directory _ Hreg), Hreg.
  cbn [negb]. unfold gates, Access.access_check.
  change (expnfilename (set_sb st hc)) with (expnfilename hc).
  destruct (strstr (expnfilename hc) (ACCESS_FILE w)); [reflexivity|].
  contradiction.
Qed.

Lemma access_file_is_refused_without_reply_witness :
  really_start_request sample_world (request METHOD_GET ".htaccess")
  = Some (-1, set_sb {| st_mode := S_IFREG + 420; st_size := 17;
                        st_mtime := 500 |}
                (request METHOD_GET ".htaccess")) /\
  response (set_sb {| st_mode := S_IFREG + 420; st_size := 17;
                      st_mtime := 500 |}
              (request METHOD_GET ".htaccess")) = [] /\
  status (set_sb {| st_mode := S_IFREG + 420; st_size := 17;
                    st_mtime := 500 |}
            (request METHOD_GET ".htaccess")) = 0.
Proof.
  apply (access_file_is_refused_without_reply sample_world
           (request METHOD_GET ".htaccess")).
  - reflexivity.
  - reflexivity.
  - reflexivity.
  - reflexivity.
  - reflexivity.
  - vm_compute. discriminate.
Defined.

(** The same request for a file the world may not read does get its
    403, from the check made before the gates. *)
Example unreadable_file_gets_403 w hc st :
  method_ hc = METHOD_GET ->
  mmc_icon_check w (pathinfo hc) = None ->
  stat w (expnfilename hc) = Some st ->
  world_readable (st_mode st) = false ->
  exists hc', really_start_request w hc = Some (-1, hc') /\ status hc' = 403.
Proof.
  intros Hm Hi Hs Hr. unfold really_start_request. rewrite Hm, Hi, Hs.
  cbn [sb set_sb]. rewrite Hr. cbn [negb].
  eexists. split; [reflexivity|]. apply httpd_send_err_status. lia.
Qed.

Example htpasswd_request_gets_no_reply :
  exists hc',
    really_start_request sample_world (request METHOD_GET ".htpasswd")
    = Some (-1, hc') /\
    response hc' = [] /\ status hc' = 0.
Proof. eexists. split; [vm_compute; reflexivity|]. split; reflexivity. Qed.

(** *** Entity tags *)

Lemma send_response_unmapped w hc st title extra form arg :
  unmapped hc -> unmapped (send_response w hc st title extra form arg).
Proof.
  intros H. unfold send_response.
  repeat apply add_response_unmapped; try reflexivity.
  apply send_mime_unmapped. exact H.
Qed.

Lemma send_dirredirect_unmapped w hc :
  unmapped hc -> unmapped (send_dirredirect w hc).
Proof.
  intros H. unfold send_dirredirect.
  destruct (query hc); [apply send_response_unmapped; exact H|].
  destruct (strchr (encodedurl hc) "?");
    apply send_response_unmapped; exact H.
Qed.

Lemma check_referer_unmapped w hc :
  unmapped hc -> unmapped (snd (check_referer w hc)).
Proof.
  intros H. unfold check_referer.
  destruct (url_pattern (hs hc)); [|exact H].
  destruct (really_check_referer w hc); [exact H|].
  apply httpd_send_err_unmapped. exact H.
Qed.

Lemma probe_indexes_unmapped w names : forall hc,
  unmapped hc -> unmapped (snd (probe_indexes w names hc)).
Proof.
  induction names as [|name names IH]; intros hc H; cbn [probe_indexes];
    [exact H|].
  destruct (stat w _); [exact H|]. apply IH. exact H.
Qed.

Lemma mod_headers_unmapped w hc extra hc' :
  unmapped hc -> mod_headers w hc = Some (extra, hc') -> unmapped hc'.
Proof.
  intros [Hf He] Hm. destruct (mod_headers_same w hc extra hc' Hm) as [].
  split; congruence.
Qed.

(** How a request can end: nothing mapped and no [ETag] sent, or a 200
    or 206 to a method other than HEAD. *)
Definition settled (hc : httpd_conn) : Prop :=
  unmapped hc \/
  (method_ hc <> METHOD_HEAD /\ (status hc = 200 \/ status hc = 206)).

Section Etag.

Variable w : world.

(** The two sibling functions map no file and send no [ETag]. *)
Hypothesis cgi_unmapped : forall h, unmapped h -> unmapped (snd (cgi w h)).
Hypothesis ls_unmapped : forall h, unmapped h -> unmapped (snd (ls w h)).

Lemma deliver_settled hc is_icon r :
  unmapped hc -> deliver w hc is_icon = Some r -> settled (snd r).
Proof.
  intros H. unfold deliver.
  destruct (fill_in_last_byte_index_same hc)
    as (_ & _ & _ & _ & _ & _ & _ & _ & _ & Ea & Ersp & _).
  set (hc1 := fill_in_last_byte_index hc) in *.
  assert (unmapped hc1) as H1 by (destruct H; split; congruence).
  destruct (Mime.figure_mime _ _ _) as [[ty encs]|]; [|discriminate].
  set (hc2 := set_encodings encs (set_type ty hc1)).
  assert (unmapped hc2) as H2 by exact H1.
  assert (forall extra hc3,
            mod_headers w hc2 = Some (extra, hc3) ->
            method_ hc2 <> METHOD_HEAD ->
            settled
              (snd (match file_address
                            (set_file_address (mmc_map w (expnfilename hc3)) hc3)
                    with
                    | Some _ =>
                        (0, send_mime w
                              (set_file_address (mmc_map w (expnfilename hc3)) hc3)
                              200 ok200title (encodings hc3) extra (type hc3)
                              (st_size (sb hc3)) (st_mtime (sb hc3)))
                    | None =>
                        (-1, if is_icon
                             then httpd_send_err w
                                    (set_file_address
                                       (mmc_map w (expnfilename hc3)) hc3)
                                    404 err404title [] err404form (encodedurl hc3)
                             else httpd_send_err w
                                    (set_file_address
                                       (mmc_map w (expnfilename hc3)) hc3)
                                    500 err500title [] err500form (encodedurl hc3))
                    end))) as Kget.
  { intros extra hc3 Em Hnh.
    pose proof (mod_headers_unmapped w hc2 extra hc3 H2 Em) as [Hf3 He3].
    destruct (mod_headers_same w hc2 extra hc3 Em) as [].
    cbn [file_address set_file_address].
    destruct (mmc_map w (expnfilename hc3)) as [bytes|]; cbn [snd].
    - right.
      destruct (send_mime_frame w (set_file_address (Some bytes) hc3) 200
                  ok200title (encodings hc3) extra (type hc3)
                  (st_size (sb hc3)) (st_mtime (sb hc3)))
        as (_ & _ & Emeth & _).
      split.
      + rewrite Emeth. cbn [method_ set_file_address]. congruence.
      + destruct (send_mime_status w (set_file_address (Some bytes) hc3) 200
                    ok200title (encodings hc3) extra (type hc3)
                    (st_size (sb hc3)) (st_mtime (sb hc3))) as [E|[_ E]];
          [left|right]; exact E.
    - left. destruct is_icon; apply httpd_send_err_unmapped;
        (split; [reflexivity|exact He3]). }
  assert (forall r',
            (if negb (if_modified_since hc2 =? -1)
                && (if_modified_since hc2 >=? st_mtime (sb hc2))
             then Some (0, send_mime w hc2 304 err304title (encodings hc2) []
                             (type hc2) (-1) (st_mtime (sb hc2)))
             else match mod_headers w hc2 with
                  | Some (extra, hc3) =>
                      match file_address
                              (set_file_address (mmc_map w (expnfilename hc3)) hc3)
                      with
                      | Some _ =>
                          Some (0, send_mime w
                                     (set_file_address
                                        (mmc_map w (expnfilename hc3)) hc3)
                                     200 ok200title
                                     (encodings
                                        (set_file_address
                                           (mmc_map w (expnfilename hc3)) hc3))
                                     extra
                                     (type
                                        (set_file_address
                                           (mmc_map w (expnfilename hc3)) hc3))
                                     (st_size
                                        (sb (set_file_address
                                               (mmc_map w (expnfilename hc3)) hc3)))
                                     (st_mtime
                                        (sb (set_file_address
                                               (mmc_map w (expnfilename hc3)) hc3))))
                      | None =>
                          Some (-1,
                                if is_icon
                                then httpd_send_err w
                                       (set_file_address
                                          (mmc_map w (expnfilename hc3)) hc3)
                                       404 err404title [] err404form
                                       (encodedurl
                                          (set_file_address
                                             (mmc_map w (expnfilename hc3)) hc3))
                                else httpd_send_err w
                                       (set_file_address
                                          (mmc_map w (expnfilename hc3)) hc3)
                                       500 err500title [] err500form
                                       (encodedurl
                                          (set_file_address
                                             (mmc_map w (expnfilename hc3)) hc3)))
                      end
                  | None => None
                  end) = Some r' ->
            method_ hc2 <> METHOD_HEAD -> settled (snd r')) as Kother.
  { intros r' Hr Hnh.
    destruct (_ && _).
    - injection Hr as <-. left. apply send_mime_unmapped. exact H2.
    - destruct (mod_headers w hc2) as [[extra hc3]|] eqn:Em; [|discriminate].
      specialize (Kget extra hc3 eq_refl Hnh).
      cbn [encodings type sb encodedurl set_file_address] in Hr.
      revert Hr Kget.
      destruct (file_address
                  (set_file_address (mmc_map w (expnfilename hc3)) hc3));
        intros [= <-] Kget; exact Kget. }
  destruct (method_ hc2) eqn:Emeth;
    try (intros Hr; apply (Kother r Hr); discriminate).
  destruct (mod_headers w hc2) as [[extra hc3]|] eqn:Em; [|discriminate].
  intros [= <-]. left. apply send_mime_unmapped.
  apply (mod_headers_unmapped w hc2 extra hc3 H2 Em).
Qed.

Lemma sneaky_settled hc is_icon r :
  unmapped hc -> sneaky w hc is_icon = Some r -> settled (snd r).
Proof.
  intros H. unfold sneaky.
  pose proof (check_referer_unmapped w hc H) as H1.
  destruct (check_referer w hc) as [ok hc1]. cbn [snd] in H1.
  destruct ok; cbn [negb]; [|intros [= <-]; left; exact H1].
  assert (forall r',
            (if is_cgi w hc1
             then if negb (Z.land (st_mode (sb hc1)) S_IXOTH =? 0)
                  then Some (cgi w hc1)
                  else Some (-1, httpd_send_err w hc1 403 err403title []
                                   err403form (encodedurl hc1))
             else match pathinfo hc1 with
                  | [] => deliver w hc1 is_icon
                  | _ :: _ => Some (-1, httpd_send_err w hc1 403 err403title []
                                          err403form (encodedurl hc1))
                  end) = Some r' -> settled (snd r')) as K.
  { intros r'. destruct (is_cgi w hc1).
    - destruct (negb _); intros [= <-]; left;
        [apply cgi_unmapped; exact H1|apply httpd_send_err_unmapped; exact H1].
    - destruct (pathinfo hc1); [apply deliver_settled; exact H1|].
      intros [= <-]. left. apply httpd_send_err_unmapped. exact H1. }
  destruct (method_ hc1); try apply K.
  intros [= <-]. left. apply add_response_unmapped; [reflexivity|exact H1].
Qed.

Lemma gates_settled hc r :
  unmapped hc -> gates w hc = Some r -> settled (snd r).
Proof.
  intros H. unfold gates.
  destruct (Access.access_check w hc None) as [[rc hc1]|] eqn:Ea;
    [|discriminate].
  pose proof (Access.access_check_unmapped w hc None _ H Ea) as H1.
  cbn [snd] in H1.
  destruct (rc =? -1); [intros [= <-]; left; exact H1|].
  destruct (Auth.auth_check w hc1 None) as [[rc2 hc2]|] eqn:Eb;
    [|discriminate].
  pose proof (Auth.auth_check_unmapped w hc1 None _ H1 Eb) as H2.
  cbn [snd] in H2.
  destruct (rc2 =? -1); [intros [= <-]; left; exact H2|].
  apply sneaky_settled. exact H2.
Qed.

Lemma list_directory_settled hc r :
  unmapped hc -> list_directory w hc = Some r -> settled (snd r).
Proof.
  intros H. unfold list_directory.
  destruct (GENERATE_INDEXES w);
    [|intros [= <-]; left; apply httpd_send_err_unmapped; exact H].
  destruct (_ =? 0);
    [intros [= <-]; left; apply httpd_send_err_unmapped; exact H|].
  destruct (Access.access_check w hc _) as [[rc hc1]|] eqn:Ea; [|discriminate].
  pose proof (Access.access_check_unmapped w hc _ _ H Ea) as H1.
  cbn [snd] in H1.
  destruct (rc =? -1); [intros [= <-]; left; exact H1|].
  destruct (Auth.auth_check w hc1 _) as [[rc2 hc2]|] eqn:Eb; [|discriminate].
  pose proof (Auth.auth_check_unmapped w hc1 _ _ H1 Eb) as H2.
  cbn [snd] in H2.
  destruct (rc2 =? -1); [intros [= <-]; left; exact H2|].
  pose proof (check_referer_unmapped w hc2 H2) as H3.
  destruct (check_referer w hc2) as [ok hc3]. cbn [snd] in H3.
  destruct ok; cbn [negb]; intros [= <-]; left;
    [apply ls_unmapped; exact H3|exact H3].
Qed.

Lemma got_one_settled hc r :
  unmapped hc -> got_one w hc = Some r -> settled (snd r).
Proof.
  intros H. unfold got_one.
  destruct (Symlinks.expand_symlinks _ _ _ _ _ _) as [[[cp pi]|]|];
    [| intros [= <-]; left; apply httpd_send_err_unmapped; exact H
     | discriminate].
  destruct pi;
    [|intros [= <-]; left; apply httpd_send_err_unmapped; exact H].
  destruct (negb _);
    [intros [= <-]; left; apply httpd_send_err_unmapped; exact H|].
  apply gates_settled. exact H.
Qed.

Lemma directory_settled hc r :
  unmapped hc -> directory w hc = Some r -> settled (snd r).
Proof.
  intros H. unfold directory.
  destruct (pathinfo hc);
    [|intros [= <-]; left; apply httpd_send_err_unmapped; exact H].
  destruct (_ && _);
    [intros [= <-]; left; apply send_dirredirect_unmapped; exact H|].
  pose proof (probe_indexes_unmapped w (INDEX_NAMES w) hc H) as H1.
  destruct (probe_indexes w (INDEX_NAMES w) hc) as [[|] hc1]; cbn [snd] in H1;
    [apply got_one_settled|apply list_directory_settled]; exact H1.
Qed.

Lemma really_start_request_settled hc r :
  unmapped hc -> really_start_request w hc = Some r -> settled (snd r).
Proof.
  intros H. unfold really_start_request.
  assert (forall r',
            match mmc_icon_check w (pathinfo hc) with
            | Some icon =>
                sneaky w
                  (set_pathinfo []
                     (set_expnfilename (pathinfo (set_sb icon hc))
                        (set_sb icon hc))) true
            | None =>
                match stat w (expnfilename hc) with
                | Some st =>
                    if negb (world_readable (st_mode (sb (set_sb st hc))))
                    then Some (-1, httpd_send_err w (set_sb st hc) 403
                                     err403title [] err403form
                                     (encodedurl (set_sb st hc)))
                    else if S_ISDIR (st_mode (sb (set_sb st hc)))
                    then directory w (set_sb st hc)
                    else if negb (S_ISREG (st_mode (sb (set_sb st hc))))
                    then Some (-1, httpd_send_err w (set_sb st hc) 404
                                     err404title [] err404form
                                     (encodedurl (set_sb st hc)))
                    else gates w (set_sb st hc)
                | None =>
                    Some (-1, httpd_send_err w hc 500 err500title []
                                err500form (encodedurl hc))
                end
            end = Some r' -> settled (snd r')) as K.
  { intros r'.
    destruct (mmc_icon_check w _); [apply sneaky_settled; exact H|].
    destruct (stat w _) as [st|];
      [|intros [= <-]; left; apply httpd_send_err_unmapped; exact H].
    destruct (negb _);
      [intros [= <-]; left; apply httpd_send_err_unmapped; exact H|].
    destruct (S_ISDIR _); [apply directory_settled; exact H|].
    destruct (negb _);
      [intros [= <-]; left; apply httpd_send_err_unmapped; exact H|].
    apply gates_settled. exact H. }
  destruct (method_ hc); try apply K;
    intros [= <-]; left; apply httpd_send_err_unmapped; exact H.
Qed.

End Etag.



(** A GET of the same file is answered with an [ETag]. *)
Example get_carries_etag :
  exists hc',
    really_start_request sample_world (request METHOD_GET "a.txt")
    = Some (0, hc') /\
    status hc' = 200 /\ has_etag (response hc') = true.
Proof. eexists. split; [vm_compute; reflexivity|]. split; reflexivity. Qed.

End Request.

(** ** More on the string functions *)

Module CStrFacts.

Local Open Scope Z_scope.

Lemma uchar_NUL c : uchar c = 0 -> c = NUL.
Proof.
  intros H. apply Mime.uchar_inj. rewrite H. reflexivity.
Qed.

Lemma strcmp_refl s : strcmp s s = 0.
Proof.
  induction s as [|c s IH]; cbn [strcmp]; [reflexivity|].
  rewrite Z.sub_diag. cbn. exact IH.
Qed.

(** On strings without NUL, [strcmp] is 0 exactly for equal strings. *)
Lemma strcmp_eq a : forall b,
  Symlinks.nul_free a -> Symlinks.nul_free b -> strcmp a b = 0 -> a = b.
Proof.
  induction a as [|c a IH]; intros [|d b] Ha Hb; cbn [strcmp].
  - reflexivity.
  - intros H. exfalso. apply Hb. left. apply uchar_NUL. lia.
  - intros H. exfalso. apply Ha. left. apply uchar_NUL. lia.
  - destruct (Z.eqb_spec (uchar c - uchar d) 0) as [E|E]; [|congruence].
    intros H. f_equal.
    + apply Mime.uchar_inj. lia.
    + apply IH; [| |exact H].
      * intros Hin. apply Ha. right. exact Hin.
      * intros Hin. apply Hb. right. exact Hin.
Qed.

Lemma strcmp_neq a b :
  Symlinks.nul_free a -> Symlinks.nul_free b -> a <> b ->
  (strcmp a b =? 0) = false.
Proof.
  intros Ha Hb Hne. apply Z.eqb_neq. intros H. apply Hne.
  apply strcmp_eq; assumption.
Qed.

Lemma nul_free_lit_dot : Symlinks.nul_free (lit ".").
Proof. intros [H|[]]. discriminate H. Qed.

Lemma nul_free_nil : Symlinks.nul_free [].
Proof. intros []. Qed.

End CStrFacts.

(** ** [httpd_got_request]: has a complete request arrived *)

Module GotRequest.

(** The states of the finite state machine, [CHST_*]. *)
Inductive chst :=
| CHST_FIRSTWORD | CHST_FIRSTWS | CHST_SECONDWORD | CHST_SECONDWS
| CHST_THIRDWORD | CHST_THIRDWS | CHST_LINE | CHST_LF | CHST_CR
| CHST_CRLF | CHST_CRLFCR | CHST_BOGUS.

(** The return values, [GR_*]. *)
Inductive gr := GR_NO_REQUEST | GR_GOT_REQUEST | GR_BAD_REQUEST.

Definition SP : ascii := " ".
Definition TAB : ascii := "009".
Definition LF : ascii := "010".
Definition CR : ascii := "013".

(** What one pass through the [switch] does: go on with a new state, or
    return with the state as it stands. *)
Inductive step_result :=
| Next (st : chst)
| Return (st : chst) (r : gr).

Definition step (st : chst) (c : ascii) : step_result :=
  let sp := ascii_eqb c SP || ascii_eqb c TAB in
  let lf := ascii_eqb c LF in
  let cr := ascii_eqb c CR in
  match st with
  | CHST_FIRSTWORD =>
      if sp then Next CHST_FIRSTWS
      else if lf || cr then Return CHST_BOGUS GR_BAD_REQUEST
      else Next CHST_FIRSTWORD
  | CHST_FIRSTWS =>
      if sp then Next CHST_FIRSTWS
      else if lf || cr then Return CHST_BOGUS GR_BAD_REQUEST
      else Next CHST_SECONDWORD
  | CHST_SECONDWORD =>
      if sp then Next CHST_SECONDWS
      else if lf || cr then Return CHST_SECONDWORD GR_GOT_REQUEST
      else Next CHST_SECONDWORD
  | CHST_SECONDWS =>
      if sp then Next CHST_SECONDWS
      else if lf || cr then Return CHST_BOGUS GR_BAD_REQUEST
      else Next CHST_THIRDWORD
  | CHST_THIRDWORD =>
      if sp then Next CHST_THIRDWS
      else if lf then Next CHST_LF
      else if cr then Next CHST_CR
      else Next CHST_THIRDWORD
  | CHST_THIRDWS =>
      if sp then Next CHST_THIRDWS
      else if lf then Next CHST_LF
      else if cr then Next CHST_CR
      else Return CHST_BOGUS GR_BAD_REQUEST
  | CHST_LINE =>
      if lf then Next CHST_LF
      else if cr then Next CHST_CR
      else Next CHST_LINE
  | CHST_LF =>
      if lf then Return CHST_LF GR_GOT_REQUEST
      else if cr then Next CHST_CR
      else Next CHST_LINE
  | CHST_CR =>
      if lf then Next CHST_CRLF
      else if cr then Return CHST_CR GR_GOT_REQUEST
      else Next CHST_LINE
  | CHST_CRLF =>
      if lf then Return CHST_CRLF GR_GOT_REQUEST
      else if cr then Next CHST_CRLFCR
      else Next CHST_LINE
  | CHST_CRLFCR =>
      if lf || cr then Return CHST_CRLFCR GR_GOT_REQUEST
      else Next CHST_LINE
  | CHST_BOGUS => Return CHST_BOGUS GR_BAD_REQUEST
  end.

(** The fields of [struct httpd_conn] the function works on;
    [read_idx] is the length of [read_buf]. *)
Record reader := {
  read_buf : list ascii;
  checked_idx : nat;
  checked_state : chst
}.

(** The [for] loop over the unchecked bytes.  A [return] inside the
    loop leaves [checked_idx] at the byte that caused it. *)
Fixpoint scan (rest : list ascii) (idx : nat) (st : chst) : gr * nat * chst :=
  match rest with
  | [] => (GR_NO_REQUEST, idx, st)
  | c :: rest' =>
      match step st c with
      | Next st' => scan rest' (S idx) st'
      | Return st' r => (r, idx, st')
      end
  end.

Definition httpd_got_request (hc : reader) : gr * reader :=
  let '(r, idx, st) :=
    scan (skipn (checked_idx hc) (read_buf hc)) (checked_idx hc)
      (checked_state hc) in
  (r, {| read_buf := read_buf hc; checked_idx := idx; checked_state := st |}).

(** What the caller does between two calls: more bytes are read in. *)
Definition more (data : list ascii) (hc : reader) : reader :=
  {| read_buf := read_buf hc ++ data;
     checked_idx := checked_idx hc;
     checked_state := checked_state hc |}.

(** A connection on which nothing has been checked yet. *)
Definition fresh (buf : list ascii) : reader :=
  {| read_buf := buf; checked_idx := 0; checked_state := CHST_FIRSTWORD |}.

(** A word of the request line: no blank, no line end. *)
Definition word_char (c : ascii) : bool :=
  negb (ascii_eqb c SP || ascii_eqb c TAB || ascii_eqb c LF || ascii_eqb c CR).

(** The states in which the machine reads header lines. *)
Definition header_state (st : chst) : bool :=
  match st with
  | CHST_LINE | CHST_LF | CHST_CR | CHST_CRLF | CHST_CRLFCR => true
  | _ => false
  end.

(** A [return] inside the loop never carries [GR_NO_REQUEST]. *)
Lemma step_returns st c st' r : step st c = Return st' r -> r <> GR_NO_REQUEST.
Proof.
  destruct st; cbn;
    repeat match goal with
           | |- context [if ?b then _ else _] => destruct b
           end; intros [= <- <-] || intros [=]; discriminate.
Qed.

Lemma scan_app a : forall b idx st,
  scan (a ++ b) idx st
  = match scan a idx st with
    | (GR_NO_REQUEST, i, s) => scan b i s
    | other => other
    end.
Proof.
  induction a as [|c a IH]; intros b idx st; cbn [app scan]; [reflexivity|].
  destruct (step st c) as [st'|st' r] eqn:E; [apply IH|].
  apply step_returns in E. destruct r; try reflexivity. contradiction.
Qed.

Lemma scan_no_request rest : forall idx st i s,
  scan rest idx st = (GR_NO_REQUEST, i, s) -> i = idx + length rest.
Proof.
  induction rest as [|c rest IH]; intros idx st i s; cbn [scan length].
  - intros [= <- _]. lia.
  - destruct (step st c) as [st'|st' r] eqn:E.
    + intros H. apply IH in H. lia.
    + intros [= -> _ _]. apply step_returns in E. contradiction.
Qed.

Lemma scan_bad rest : forall idx st i s,
  scan rest idx st = (GR_BAD_REQUEST, i, s) ->
  s = CHST_BOGUS /\ idx <= i < idx + length rest.
Proof.
  induction rest as [|c rest IH]; intros idx st i s; cbn [scan length];
    [discriminate|].
  destruct (step st c) as [st'|st' r] eqn:E.
  - intros H. apply IH in H as [-> H]. split; [reflexivity|lia].
  - intros [= -> <- <-]. split; [|lia].
    destruct st; cbn in E;
      repeat match goal with
             | H : context [if ?b then _ else _] |- _ => destruct b
             end; congruence.
Qed.

(** X1. Reading a request in pieces gives the same answer as reading it
    at once: if a call finds no complete request yet, the call made after
    more bytes have arrived gives the result, the position and the
    state that a single call on the longer buffer gives. *)
Theorem got_request_resumes (hc : reader) (data : list ascii) :
  fst (httpd_got_request hc) = GR_NO_REQUEST ->
  httpd_got_request (more data (snd (httpd_got_request hc)))
  = httpd_got_request (more data hc).
Proof.
  unfold httpd_got_request, more. cbn [read_buf checked_idx checked_state].
  destruct (Nat.le_gt_cases (checked_idx hc) (length (read_buf hc))) as [Hle|Hgt].
  - rewrite (skipn_app (checked_idx hc)).
    replace (checked_idx hc - length (read_buf hc)) with 0 by lia.
    cbn [skipn]. rewrite scan_app.
    destruct (scan (skipn (checked_idx hc) (read_buf hc)) (checked_idx hc)
                (checked_state hc)) as [[r i] s] eqn:E.
    cbn [fst snd read_buf checked_idx checked_state]. intros ->.
    apply scan_no_request in E. rewrite length_skipn in E.
    rewrite skipn_app, skipn_all2 by lia.
    replace (i - length (read_buf hc)) with 0 by lia. reflexivity.
  - rewrite (skipn_all2 (read_buf hc)) by lia. cbn [scan fst snd].
    cbn [read_buf checked_idx checked_state]. reflexivity.
Qed.

Definition sample_request : list ascii :=
  lit "GET /index.html HTTP/1.1" ++ [CR; LF] ++ lit "Host: example.org"
  ++ [CR; LF; CR; LF].

Lemma got_request_resumes_witness :
  httpd_got_request
    (more (skipn 10 sample_request)
       (snd (httpd_got_request (fresh (firstn 10 sample_request)))))
  = httpd_got_request
      (more (skipn 10 sample_request) (fresh (firstn 10 sample_request))).
Proof.
  apply (got_request_resumes (fresh (firstn 10 sample_request))).
  reflexivity.
Defined.

(** X2. A bad request stays bad: once a call has returned
    [GR_BAD_REQUEST], every later call returns it again, whatever has
    been read in the meantime. *)
Theorem bad_request_is_final (hc : reader) (data : list ascii) :
  fst (httpd_got_request hc) = GR_BAD_REQUEST ->
  fst (httpd_got_request (more data (snd (httpd_got_request hc))))
  = GR_BAD_REQUEST.
Proof.
  unfold httpd_got_request, more.
  destruct (scan (skipn (checked_idx hc) (read_buf hc)) (checked_idx hc)
              (checked_state hc)) as [[r i] s] eqn:E.
  cbn [fst snd read_buf checked_idx checked_state]. intros ->.
  apply scan_bad in E as [-> Hi]. rewrite length_skipn in Hi.
  destruct (skipn i (read_buf hc ++ data)) as [|c rest] eqn:Es.
  - exfalso. apply (f_equal (@length ascii)) in Es.
    rewrite length_skipn, length_app in Es. cbn in Es. lia.
  - reflexivity.
Qed.

Lemma bad_request_is_final_witness :
  fst (httpd_got_request
         (more (lit "GET / HTTP/1.1")
            (snd (httpd_got_request (fresh [CR; LF])))))
  = GR_BAD_REQUEST.
Proof.
  apply (bad_request_is_final (fresh [CR; LF])). reflexivity.
Defined.

Lemma step_without_eol st c :
  ascii_eqb c LF = false -> ascii_eqb c CR = false ->
  forall st', step st c <> Return st' GR_GOT_REQUEST.
Proof.
  intros Hl Hc st'. destruct st; cbn; rewrite ?Hl, ?Hc; cbn;
    repeat match goal with
           | |- context [if ?b then _ else _] => destruct b
           end; discriminate.
Qed.

Lemma scan_without_eol rest : forall idx st,
  Forall (fun c => ascii_eqb c LF = false /\ ascii_eqb c CR = false) rest ->
  fst (fst (scan rest idx st)) <> GR_GOT_REQUEST.
Proof.
  induction rest as [|c rest IH]; intros idx st H; cbn [scan].
  - discriminate.
  - inversion H as [|? ? [Hl Hc] Hrest]; subst.
    pose proof (step_without_eol st c Hl Hc) as Hs.
    destruct (step st c) as [st'|st' r].
    + apply IH. exact Hrest.
    + cbn. intros ->. apply (Hs st'). reflexivity.
Qed.

(** X3. No request is ever complete before a line end has been read:
    while the unchecked bytes hold neither CR nor LF, the result is never
    [GR_GOT_REQUEST]. *)
Theorem no_request_without_line_end (hc : reader) :
  Forall (fun c => ascii_eqb c LF = false /\ ascii_eqb c CR = false)
    (skipn (checked_idx hc) (read_buf hc)) ->
  fst (httpd_got_request hc) <> GR_GOT_REQUEST.
Proof.
  intros H. unfold httpd_got_request.
  pose proof (scan_without_eol _ (checked_idx hc) (checked_state hc) H) as K.
  destruct (scan _ _ _) as [[r i] s]. exact K.
Qed.

Lemma no_request_without_line_end_witness :
  fst (httpd_got_request (fresh (lit "GET /index.html HTTP/1.1")))
  <> GR_GOT_REQUEST.
Proof.
  apply (no_request_without_line_end (fresh (lit "GET /index.html HTTP/1.1"))).
  cbn. repeat constructor.
Defined.

Lemma scan_word w : forall idx st,
  Forall (fun c => word_char c = true) w ->
  (st = CHST_FIRSTWORD \/ st = CHST_SECONDWORD \/ st = CHST_THIRDWORD) ->
  scan w idx st = (GR_NO_REQUEST, idx + length w, st).
Proof.
  induction w as [|c w IH]; intros idx st H Hst; cbn [scan length].
  - f_equal. f_equal. lia.
  - inversion H as [|? ? Hc Hw]; subst. unfold word_char in Hc.
    apply negb_true_iff in Hc.
    apply orb_false_elim in Hc as [Hc Hcr].
    apply orb_false_elim in Hc as [Hc Hlf].
    assert (step st c = Next st) as ->.
    { destruct Hst as [-> | [-> | ->]]; cbn; rewrite Hc, ?Hlf, ?Hcr; reflexivity. }
    rewrite IH by assumption. f_equal. f_equal. lia.
Qed.

Lemma step_word st c :
  word_char c = true ->
  step st c
  = match st with
    | CHST_FIRSTWS => Next CHST_SECONDWORD
    | CHST_SECONDWS => Next CHST_THIRDWORD
    | CHST_THIRDWS | CHST_BOGUS => Return CHST_BOGUS GR_BAD_REQUEST
    | CHST_FIRSTWORD | CHST_SECONDWORD | CHST_THIRDWORD => Next st
    | _ => Next CHST_LINE
    end.
Proof.
  unfold word_char. intros Hc. apply negb_true_iff in Hc.
  apply orb_false_elim in Hc as [Hc Hcr].
  apply orb_false_elim in Hc as [Hc Hlf].
  destruct st; cbn; rewrite ?Hc, ?Hlf, ?Hcr; reflexivity.
Qed.

Lemma step_header st c :
  header_state st = true ->
  (exists st', step st c = Next st' /\ header_state st' = true) \/
  (exists st', step st c = Return st' GR_GOT_REQUEST).
Proof.
  destruct st; try discriminate; intros _; cbn;
    destruct (ascii_eqb c LF), (ascii_eqb c CR); cbn; eauto.
Qed.

(** From a header state, a blank line in the form CR LF CR LF ends the
    request, wherever it comes. *)
Lemma scan_blank_line pre : forall post idx st,
  header_state st = true ->
  fst (fst (scan (pre ++ [CR; LF; CR; LF] ++ post) idx st)) = GR_GOT_REQUEST.
Proof.
  induction pre as [|c pre IH]; intros post idx st Hst.
  - destruct st; try discriminate; reflexivity.
  - cbn [app scan].
    destruct (step_header st c Hst) as [[st' [-> Hst']]|[st' ->]].
    + apply IH. exact Hst'.
    + reflexivity.
Qed.

Lemma got_request_result hc :
  fst (httpd_got_request hc)
  = fst (fst (scan (skipn (checked_idx hc) (read_buf hc)) (checked_idx hc)
                (checked_state hc))).
Proof. unfold httpd_got_request. destruct (scan _ _ _) as [[r i] s]. reflexivity. Qed.

(** X4. A complete request is recognised.  For a request line of three
    words (the first may be empty) separated by single spaces, followed
    by text that begins with CR and holds a blank line in the form
    CR LF CR LF, the result is [GR_GOT_REQUEST]; and so it is for a line
    of two words ended by CR or LF, the HTTP/0.9 form. *)
Theorem complete_request_is_recognised (m u p pre post body : list ascii) :
  Forall (fun c => word_char c = true) m ->
  Forall (fun c => word_char c = true) u -> u <> [] ->
  Forall (fun c => word_char c = true) p -> p <> [] ->
  hd_error (pre ++ [CR; LF; CR; LF] ++ post) = Some CR ->
  fst (httpd_got_request
         (fresh (m ++ [SP] ++ u ++ [SP] ++ p
                 ++ pre ++ [CR; LF; CR; LF] ++ post)))
  = GR_GOT_REQUEST /\
  fst (httpd_got_request (fresh (m ++ [SP] ++ u ++ [CR] ++ body)))
  = GR_GOT_REQUEST /\
  fst (httpd_got_request (fresh (m ++ [SP] ++ u ++ [LF] ++ body)))
  = GR_GOT_REQUEST.
Proof.
  intros Hm Hu Hune Hp Hpne Hcr.
  destruct u as [|u0 u]; [contradiction|].
  destruct p as [|p0 p]; [contradiction|].
  inversion Hu as [|? ? Hu0 Hu']; subst.
  inversion Hp as [|? ? Hp0 Hp']; subst.
  rewrite !got_request_result. unfold fresh.
  cbn [read_buf checked_idx checked_state skipn].
  assert (forall rest,
            scan (m ++ [SP] ++ (u0 :: u) ++ rest) 0 CHST_FIRSTWORD
            = scan rest (length m + 1 + 1 + length u) CHST_SECONDWORD) as Hline.
  { intros rest. rewrite scan_app, (scan_word m) by auto.
    cbn [app scan]. change (step CHST_FIRSTWORD SP) with (Next CHST_FIRSTWS).
    cbn iota. rewrite (step_word CHST_FIRSTWS u0 Hu0).
    rewrite scan_app, (scan_word u) by auto.
    f_equal. lia. }
  split; [|split].
  - rewrite Hline. cbn [app scan].
    change (step CHST_SECONDWORD SP) with (Next CHST_SECONDWS). cbn iota.
    rewrite (step_word CHST_SECONDWS p0 Hp0).
    rewrite scan_app, (scan_word p) by auto.
    destruct pre as [|c pre]; cbn [app hd_error] in Hcr |- *.
    + reflexivity.
    + injection Hcr as ->. cbn [scan].
      change (step CHST_THIRDWORD CR) with (Next CHST_CR). cbn iota.
      apply scan_blank_line. reflexivity.
  - rewrite Hline. reflexivity.
  - rewrite Hline. reflexivity.
Qed.

Lemma complete_request_is_recognised_witness :
  fst (httpd_got_request
         (fresh (lit "GET" ++ [SP] ++ lit "/index.html" ++ [SP]
                 ++ lit "HTTP/1.1"
                 ++ ([CR; LF] ++ lit "Host: example.org")
                 ++ [CR; LF; CR; LF] ++ lit "rest")))
  = GR_GOT_REQUEST /\
  fst (httpd_got_request
         (fresh (lit "GET" ++ [SP] ++ lit "/index.html" ++ [CR]
                 ++ lit "rest")))
  = GR_GOT_REQUEST /\
  fst (httpd_got_request
         (fresh (lit "GET" ++ [SP] ++ lit "/index.html" ++ [LF]
                 ++ lit "rest")))
  = GR_GOT_REQUEST.
Proof.
  apply (complete_request_is_recognised (lit "GET") (lit "/index.html")
           (lit "HTTP/1.1") ([CR; LF] ++ lit "Host: example.org") []
           (lit "rest")).
  - repeat constructor.
  - repeat constructor.
  - discriminate.
  - repeat constructor.
  - discriminate.
  - reflexivity.
Defined.

End GotRequest.

(** ** [strdecode] and [strencode]: percent escapes *)

Module Url.

Local Open Scope Z_scope.

(** The character classes of [<ctype.h>], in the C locale. *)
Definition isdigit (c : ascii) : bool := (48 <=? uchar c) && (uchar c <=? 57).
Definition isupper (c : ascii) : bool := (65 <=? uchar c) && (uchar c <=? 90).
Definition islower (c : ascii) : bool := (97 <=? uchar c) && (uchar c <=? 122).
Definition isalnum (c : ascii) : bool := isdigit c || isupper c || islower c.
Definition isxdigit (c : ascii) : bool :=
  isdigit c
  || ((97 <=? uchar c) && (uchar c <=? 102))
  || ((65 <=? uchar c) && (uchar c <=? 70)).

Definition hexit (c : ascii) : Z :=
  if (48 <=? uchar c) && (uchar c <=? 57) then uchar c - 48
  else if (97 <=? uchar c) && (uchar c <=? 102) then uchar c - 97 + 10
  else if (65 <=? uchar c) && (uchar c <=? 70) then uchar c - 65 + 10
  else 0.

(** An [int] stored into a [char]. *)
Definition to_char (n : Z) : ascii := ascii_of_N (Z.to_N (n mod 256)).

(** The bytes the loop of [strdecode] writes to [to]. *)
Fixpoint strdecode_bytes (from : cstring) : list ascii :=
  match from with
  | [] => []
  | c :: tl =>
      match tl with
      | a :: b :: rest =>
          if ascii_eqb c "%" && isxdigit a && isxdigit b
          then to_char (hexit a * 16 + hexit b) :: strdecode_bytes rest
          else c :: strdecode_bytes tl
      | _ => c :: strdecode_bytes tl
      end
  end.

(** [strdecode]: the string left in [to].  A decoded [%00] is a NUL like
    any other, so the string ends there. *)
Definition strdecode (from : cstring) : cstring :=
  Symlinks.c_str (strdecode_bytes from).

(** The test of [strencode] on one byte: [isalnum] of it, or [strchr]
    finding it in the five characters slash, underscore, dot, hyphen
    and tilde. *)
Definition unreserved (c : ascii) : bool :=
  isalnum c
  || match strchr (lit "/_.-~") c with Some _ => true | None => false end.

(** One digit of [%02x]. *)
Definition hex_digit (n : Z) : ascii :=
  if n <? 10 then to_char (48 + n) else to_char (97 + (n - 10)).

(** What [sprintf] writes for the format percent, two hex digits: the
    byte as an unsigned value in lower-case hexadecimal. *)
Definition escape (c : ascii) : cstring :=
  ["%"%char; hex_digit (uchar c / 16); hex_digit (uchar c mod 16)].

(** The loop of [strencode]; it stops when fewer than five bytes of
    [to] are left. *)
Fixpoint strencode_loop (from : cstring) (tolen tosize : Z) : cstring :=
  match from with
  | [] => []
  | c :: from' =>
      if tolen + 4 <? tosize then
        if unreserved c then c :: strencode_loop from' (tolen + 1) tosize
        else escape c ++ strencode_loop from' (tolen + 3) tosize
      else []
  end.

Definition strencode (tosize : Z) (from : cstring) : cstring :=
  strencode_loop from 0 tosize.

(** *** Bytes *)

Lemma uchar_range c : 0 <= uchar c < 256.
Proof.
  unfold uchar. pose proof (N_ascii_bounded c) as H. lia.
Qed.

Lemma uchar_to_char n : 0 <= n < 256 -> uchar (to_char n) = n.
Proof.
  intros H. unfold uchar, to_char. rewrite Z.mod_small by lia.
  rewrite N_ascii_embedding by lia. lia.
Qed.

Lemma to_char_uchar c : to_char (uchar c) = c.
Proof.
  unfold to_char, uchar. pose proof (N_ascii_bounded c) as H.
  rewrite Z.mod_small by lia. rewrite N2Z.id. apply ascii_N_embedding.
Qed.

Lemma hex_digit_ok n :
  0 <= n < 16 -> isxdigit (hex_digit n) = true /\ hexit (hex_digit n) = n.
Proof.
  intros H. unfold hex_digit, isxdigit, isdigit, hexit.
  destruct (Z.ltb_spec n 10); rewrite uchar_to_char by lia.
  - replace ((48 <=? 48 + n) && (48 + n <=? 57)) with true
      by (symmetry; apply andb_true_iff; split; apply Z.leb_le; lia).
    split; [reflexivity|lia].
  - replace ((48 <=? 97 + (n - 10)) && (97 + (n - 10) <=? 57)) with false
      by (symmetry; apply andb_false_iff; right; apply Z.leb_gt; lia).
    replace ((97 <=? 97 + (n - 10)) && (97 + (n - 10) <=? 102)) with true
      by (symmetry; apply andb_true_iff; split; apply Z.leb_le; lia).
    split; [reflexivity|lia].
Qed.

Lemma hex_digit_alnum n : 0 <= n < 16 -> isalnum (hex_digit n) = true.
Proof.
  intros H. unfold hex_digit, isalnum, isdigit, isupper, islower.
  destruct (Z.ltb_spec n 10); rewrite uchar_to_char by lia.
  - replace ((48 <=? 48 + n) && (48 + n <=? 57)) with true
      by (symmetry; apply andb_true_iff; split; apply Z.leb_le; lia).
    reflexivity.
  - replace ((97 <=? 97 + (n - 10)) && (97 + (n - 10) <=? 122)) with true
      by (symmetry; apply andb_true_iff; split; apply Z.leb_le; lia).
    apply orb_true_r.
Qed.

Lemma unreserved_not_percent c : unreserved c = true -> ascii_eqb c "%" = false.
Proof.
  intros H. destruct (ascii_eqb c "%") eqn:E; [|reflexivity].
  apply ascii_eqb_eq in E. subst c. discriminate H.
Qed.

Lemma c_str_id s : Symlinks.nul_free s -> Symlinks.c_str s = s.
Proof.
  induction s as [|c s IH]; intros Hn; [reflexivity|].
  cbn. destruct (ascii_eqb c NUL) eqn:E.
  - exfalso. apply Hn. left. symmetry. apply ascii_eqb_eq. exact E.
  - f_equal. apply IH. intros H. apply Hn. right. exact H.
Qed.

(** *** Decoding *)

Lemma strdecode_bytes_plain c tl :
  ascii_eqb c "%" = false ->
  strdecode_bytes (c :: tl) = c :: strdecode_bytes tl.
Proof.
  intros H. cbn [strdecode_bytes]. rewrite H.
  destruct tl as [|a [|b rest]]; reflexivity.
Qed.

Lemma strdecode_bytes_escape c rest :
  strdecode_bytes (escape c ++ rest) = c :: strdecode_bytes rest.
Proof.
  pose proof (uchar_range c) as Hc.
  assert (0 <= uchar c / 16 < 16) as Hhi
    by (split; [apply Z.div_pos; lia|apply Z.div_lt_upper_bound; lia]).
  assert (0 <= uchar c mod 16 < 16) as Hlo by (apply Z.mod_pos_bound; lia).
  destruct (hex_digit_ok _ Hhi) as [Hx1 Hv1].
  destruct (hex_digit_ok _ Hlo) as [Hx2 Hv2].
  unfold escape. cbn [app strdecode_bytes].
  rewrite ascii_eqb_refl, Hx1, Hx2, Hv1, Hv2. cbn [andb].
  f_equal. rewrite <- (to_char_uchar c) at 3. f_equal.
  rewrite (Z.div_mod (uchar c) 16) at 3 by lia. lia.
Qed.

(** X5. Decoding undoes encoding: for every string and every buffer
    that leaves the loop of [strencode] room for the whole of it,
    [strdecode] of the encoded string is the string itself. *)
Theorem strdecode_strencode (s : cstring) (tosize : Z) :
  Symlinks.nul_free s ->
  3 * Z.of_nat (length s) + 4 < tosize ->
  strdecode (strencode tosize s) = s.
Proof.
  intros Hn Hroom. unfold strdecode, strencode.
  assert (forall s tolen,
            tolen + 3 * Z.of_nat (length s) + 4 < tosize + 3 ->
            strdecode_bytes (strencode_loop s tolen tosize) = s) as K.
  { clear. induction s as [|c s IH]; intros tolen H; cbn [strencode_loop];
      [reflexivity|].
    cbn [length] in H.
    destruct (Z.ltb_spec (tolen + 4) tosize); [|lia].
    destruct (unreserved c) eqn:Eu.
    - rewrite strdecode_bytes_plain by (apply unreserved_not_percent, Eu).
      rewrite IH by lia. reflexivity.
    - rewrite strdecode_bytes_escape, IH by lia. reflexivity. }
  rewrite K by lia. apply c_str_id. exact Hn.
Qed.

Lemma strdecode_strencode_witness :
  strdecode (strencode 100 (lit "a b/c?d=%41&e")) = lit "a b/c?d=%41&e".
Proof.
  apply (strdecode_strencode (lit "a b/c?d=%41&e") 100).
  - unfold Symlinks.nul_free. cbn. intuition discriminate.
  - cbn. lia.
Defined.

(** X6. The encoded string is safe and fits: every byte of it is an
    unreserved character (a letter, a digit or one of [/_.-~]) or the
    percent sign, and it is at most [tosize - 2] bytes long, so that its
    terminator lies inside a buffer of [tosize] bytes. *)
Theorem strencode_output (s : cstring) (tosize : Z) :
  Forall (fun c => unreserved c = true \/ c = "%"%char) (strencode tosize s) /\
  Z.of_nat (length (strencode tosize s)) <= Z.max 0 (tosize - 2).
Proof.
  unfold strencode.
  assert (forall s tolen,
            Forall (fun c => unreserved c = true \/ c = "%"%char)
              (strencode_loop s tolen tosize) /\
            (0 <= tolen ->
             tolen + Z.of_nat (length (strencode_loop s tolen tosize))
             <= Z.max tolen (tosize - 2))) as K.
  { clear. induction s as [|c s IH]; intros tolen; cbn [strencode_loop].
    - split; [constructor|cbn; lia].
    - destruct (Z.ltb_spec (tolen + 4) tosize); [|split; [constructor|cbn; lia]].
      destruct (unreserved c) eqn:Eu.
      + destruct (IH (tolen + 1)) as [Hf Hl].
        split; [constructor; auto|]. intros H0. cbn [length].
        specialize (Hl ltac:(lia)). lia.
      + destruct (IH (tolen + 3)) as [Hf Hl].
        pose proof (uchar_range c) as Hc.
        assert (0 <= uchar c / 16 < 16) as Hhi
          by (split; [apply Z.div_pos; lia|apply Z.div_lt_upper_bound; lia]).
        assert (0 <= uchar c mod 16 < 16) as Hlo
          by (apply Z.mod_pos_bound; lia).
        split.
        * unfold escape. cbn [app].
          constructor; [right; reflexivity|].
          constructor; [left; unfold unreserved;
                        rewrite hex_digit_alnum by assumption; reflexivity|].
          constructor; [left; unfold unreserved;
                        rewrite hex_digit_alnum by assumption; reflexivity|].
          exact Hf.
        * intros H0. unfold escape. cbn [app length].
          specialize (Hl ltac:(lia)). lia. }
  destruct (K s 0) as [Hf Hl]. split; [exact Hf|]. specialize (Hl ltac:(lia)). lia.
Qed.

(** *** What decoding does to a name *)

Lemma strdecode_bytes_length : forall n from,
  (length from <= n)%nat ->
  (length (strdecode_bytes from) <= length from)%nat.
Proof.
  induction n as [|n IH]; intros from Hn.
  - destruct from; [cbn; lia|cbn in Hn; lia].
  - destruct from as [|c tl]; [cbn; lia|].
    cbn [length] in Hn. cbn [strdecode_bytes].
    destruct tl as [|a [|b rest]].
    + cbn; lia.
    + cbn; lia.
    + destruct (_ && _).
      * cbn [length]. specialize (IH rest). cbn [length] in Hn. lia.
      * cbn [length]. specialize (IH (a :: b :: rest)).
        cbn [length] in IH, Hn |- *. lia.
Qed.

Lemma c_str_length mem : (length (Symlinks.c_str mem) <= length mem)%nat.
Proof.
  induction mem as [|c mem IH]; cbn; [lia|].
  destruct (ascii_eqb c NUL); cbn; lia.
Qed.

Lemma c_str_app_nul x y :
  Symlinks.c_str (x ++ NUL :: y) = Symlinks.c_str x.
Proof.
  induction x as [|c x IH]; cbn; [reflexivity|].
  destruct (ascii_eqb c NUL); [reflexivity|]. rewrite IH. reflexivity.
Qed.

Lemma strdecode_bytes_step c a b rest :
  strdecode_bytes (c :: a :: b :: rest)
  = if ascii_eqb c "%" && isxdigit a && isxdigit b
    then to_char (hexit a * 16 + hexit b) :: strdecode_bytes rest
    else c :: strdecode_bytes (a :: b :: rest).
Proof. reflexivity. Qed.

Lemma strdecode_bytes_nul : forall n s t,
  (length s <= n)%nat ->
  strdecode_bytes (s ++ lit "%00" ++ t)
  = strdecode_bytes s ++ NUL :: strdecode_bytes t.
Proof.
  induction n as [|n IH]; intros s t Hn.
  - destruct s; [reflexivity|cbn in Hn; lia].
  - destruct s as [|c s]; [reflexivity|].
    cbn [length] in Hn.
    destruct s as [|a s].
    + (* the last byte before the escape *)
      cbn [app]. change (lit "%00" ++ t) with ("%"%char :: "0"%char :: "0"%char :: t).
      cbn [strdecode_bytes].
      change (isxdigit "%") with false. rewrite andb_false_r. cbn [andb].
      reflexivity.
    + destruct s as [|b s].
      * cbn [app]. change (lit "%00" ++ t)
          with ("%"%char :: "0"%char :: "0"%char :: t).
        cbn [strdecode_bytes].
        change (isxdigit "%") with false. rewrite !andb_false_r.
        cbn [andb]. reflexivity.
      * change ((c :: a :: b :: s) ++ lit "%00" ++ t)
          with (c :: a :: b :: (s ++ lit "%00" ++ t)).
        rewrite (strdecode_bytes_step c a b (s ++ lit "%00" ++ t)).
        rewrite (strdecode_bytes_step c a b s).
        destruct (ascii_eqb c "%" && isxdigit a && isxdigit b).
        -- cbn [app]. f_equal. apply IH. cbn [length] in Hn. lia.
        -- cbn [app]. f_equal.
           change (a :: b :: s ++ lit "%00" ++ t)
             with ((a :: b :: s) ++ lit "%00" ++ t).
           apply IH. cbn [length] in Hn |- *. lia.
Qed.

(** X7. What [strdecode] does to a name: the result is never longer
    than the input; a name without a percent sign is left as it is; and
    an escaped NUL ends the name, so that whatever follows [%00] is
    lost. *)
Theorem strdecode_behaviour (s t : cstring) :
  (length (strdecode s) <= length s)%nat /\
  (Symlinks.nul_free s -> ~ In "%"%char s -> strdecode s = s) /\
  strdecode (s ++ lit "%00" ++ t) = strdecode s.
Proof.
  unfold strdecode. split; [|split].
  - pose proof (c_str_length (strdecode_bytes s)).
    pose proof (strdecode_bytes_length (length s) s ltac:(lia)). lia.
  - intros Hn Hp.
    assert (strdecode_bytes s = s) as ->.
    { clear Hn. induction s as [|c s IH]; [reflexivity|].
      rewrite strdecode_bytes_plain, IH; [reflexivity| |].
      - intros H. apply Hp. right. exact H.
      - destruct (ascii_eqb c "%") eqn:E; [|reflexivity].
        exfalso. apply Hp. left. symmetry. apply ascii_eqb_eq. exact E. }
    apply c_str_id. exact Hn.
  - rewrite (strdecode_bytes_nul (length s)) by lia. apply c_str_app_nul.
Qed.

Lemma strdecode_behaviour_witness :
  strdecode (lit "/index.html") = lit "/index.html".
Proof.
  apply (proj1 (proj2 (strdecode_behaviour (lit "/index.html") []))).
  - unfold Symlinks.nul_free. cbn. intuition discriminate.
  - cbn. intuition discriminate.
Defined.

(** An escaped NUL cuts the name short. *)
Example strdecode_cut : strdecode (lit "/a%00.html") = lit "/a".
Proof. reflexivity. Qed.

End Url.

(** ** [bufgets]: the next line of the request *)

Module Lines.

Import GotRequest.

(** The offset, from [checked_idx], of the first CR or LF. *)
Fixpoint eol (rest : list ascii) : option nat :=
  match rest with
  | [] => None
  | c :: rest' =>
      if ascii_eqb c LF || ascii_eqb c CR then Some 0
      else option_map S (eol rest')
  end.

(** [bufgets]: the line, NULL being [None], and the connection with the
    terminator overwritten by NUL and [checked_idx] moved past it. *)
Definition bufgets (hc : reader) : option cstring * reader :=
  let i := checked_idx hc in
  match eol (skipn i (read_buf hc)) with
  | None =>
      (None, {| read_buf := read_buf hc;
                checked_idx := Nat.max i (length (read_buf hc));
                checked_state := checked_state hc |})
  | Some k =>
      let c := nth (i + k) (read_buf hc) NUL in
      let buf := Symlinks.poke (read_buf hc) (i + k) NUL in
      let idx := S (i + k) in
      let '(buf, idx) :=
        if ascii_eqb c CR && (idx <? length buf)
           && ascii_eqb (nth idx buf NUL) LF
        then (Symlinks.poke buf idx NUL, S idx)
        else (buf, idx) in
      (Some (Symlinks.c_str (skipn i buf)),
       {| read_buf := buf; checked_idx := idx;
          checked_state := checked_state hc |})
  end.

(** A byte that can stand inside a line: not CR, LF or NUL. *)
Definition line_char (c : ascii) : bool :=
  negb (ascii_eqb c LF || ascii_eqb c CR || ascii_eqb c NUL).

Lemma eol_line line : forall rest,
  Forall (fun c => line_char c = true) line ->
  eol (line ++ rest) = option_map (Nat.add (length line)) (eol rest).
Proof.
  induction line as [|c line IH]; intros rest H; cbn [app eol length].
  - destruct (eol rest); reflexivity.
  - inversion H as [|? ? Hc Hl]; subst. unfold line_char in Hc.
    apply negb_true_iff in Hc. apply orb_false_elim in Hc as [Hc _].
    rewrite Hc, IH by assumption. destruct (eol rest); reflexivity.
Qed.

Lemma poke_middle pre c rest b :
  Symlinks.poke (pre ++ c :: rest) (length pre) b = pre ++ b :: rest.
Proof. induction pre as [|a pre IH]; cbn; [reflexivity|]. rewrite IH. reflexivity. Qed.

Lemma nth_middle_byte pre (c : ascii) rest :
  nth (length pre) (pre ++ c :: rest) NUL = c.
Proof. induction pre as [|a pre IH]; cbn; auto. Qed.

Lemma c_str_line line rest :
  Forall (fun c => line_char c = true) line ->
  Symlinks.c_str (line ++ NUL :: rest) = line.
Proof.
  intros H. apply Symlinks.c_str_nul_free. intros Hin.
  rewrite Forall_forall in H. apply H in Hin. discriminate Hin.
Qed.

(** The general step: a line, one terminating byte, and what follows. *)
Lemma bufgets_step pre line c rest st :
  Forall (fun c => line_char c = true) line ->
  ascii_eqb c LF || ascii_eqb c CR = true ->
  bufgets {| read_buf := pre ++ line ++ c :: rest;
             checked_idx := length pre; checked_state := st |}
  = match rest with
    | d :: rest' =>
        if ascii_eqb c CR && ascii_eqb d LF
        then (Some line,
              {| read_buf := pre ++ line ++ NUL :: NUL :: rest';
                 checked_idx := length pre + length line + 2;
                 checked_state := st |})
        else (Some line,
              {| read_buf := pre ++ line ++ NUL :: rest;
                 checked_idx := length pre + length line + 1;
                 checked_state := st |})
    | [] =>
        (Some line,
         {| read_buf := pre ++ line ++ [NUL];
            checked_idx := length pre + length line + 1;
            checked_state := st |})
    end.
Proof.
  intros Hl Hc. unfold bufgets. cbn [read_buf checked_idx checked_state].
  rewrite skipn_app, Nat.sub_diag, skipn_all2 by lia. cbn [app skipn].
  rewrite eol_line by assumption. cbn [eol]. rewrite Hc. cbn [option_map].
  rewrite Nat.add_0_r.
  replace (length pre + length line) with (length (pre ++ line))
    by apply length_app.
  rewrite (app_assoc pre line).
  rewrite nth_middle_byte, poke_middle.
  assert (forall tl, Symlinks.c_str
                       (skipn (length pre) ((pre ++ line) ++ NUL :: tl)) = line)
    as Hstr.
  { intros tl. rewrite <- app_assoc, skipn_app, Nat.sub_diag, skipn_all2 by lia.
    cbn [app skipn]. apply c_str_line. assumption. }
  destruct rest as [|d rest'].
  - replace (S (length (pre ++ line)) <? length ((pre ++ line) ++ [NUL]))
      with false
      by (symmetry; apply Nat.ltb_ge; rewrite !length_app; cbn [length]; lia).
    rewrite andb_false_r. cbn [andb]. rewrite Hstr.
    rewrite <- app_assoc, length_app. do 2 f_equal. lia.
  - replace (S (length (pre ++ line))
             <? length ((pre ++ line) ++ NUL :: d :: rest')) with true
      by (symmetry; apply Nat.ltb_lt; rewrite !length_app; cbn [length]; lia).
    rewrite andb_true_r.
    replace (nth (S (length (pre ++ line)))
               ((pre ++ line) ++ NUL :: d :: rest') NUL) with d.
    2:{ change ((pre ++ line) ++ NUL :: d :: rest')
          with ((pre ++ line) ++ [NUL] ++ d :: rest').
        rewrite app_assoc.
        replace (S (length (pre ++ line)))
          with (length ((pre ++ line) ++ [NUL]))
          by (rewrite !length_app; cbn [length]; lia).
        symmetry. apply nth_middle_byte. }
    destruct (ascii_eqb c CR && ascii_eqb d LF).
    + replace (Symlinks.poke ((pre ++ line) ++ NUL :: d :: rest')
                 (S (length (pre ++ line))) NUL)
        with ((pre ++ line) ++ NUL :: NUL :: rest').
      2:{ change ((pre ++ line) ++ NUL :: d :: rest')
            with ((pre ++ line) ++ [NUL] ++ d :: rest').
          rewrite app_assoc.
          replace (S (length (pre ++ line)))
            with (length ((pre ++ line) ++ [NUL]))
            by (rewrite !length_app; cbn [length]; lia).
          rewrite poke_middle, <- (app_assoc (pre ++ line) [NUL]).
          reflexivity. }
      rewrite Hstr, <- app_assoc, length_app. do 2 f_equal. lia.
    + rewrite Hstr, <- app_assoc, length_app. do 2 f_equal. lia.
Qed.

(** X8. [bufgets] hands out one line at a time.  With the unread part
    of the buffer starting with a line (bytes other than CR, LF and NUL)
    that is ended by CR LF, by LF, or by a CR not followed by LF, the
    call returns that line, overwrites the terminator with NUL and moves
    [checked_idx] just past it; with no CR or LF among the unread bytes
    it returns NULL and leaves the buffer as it is. *)
Theorem bufgets_returns_the_line (pre line rest : list ascii) (st : chst) :
  Forall (fun c => line_char c = true) line ->
  bufgets {| read_buf := pre ++ line ++ [CR; LF] ++ rest;
             checked_idx := length pre; checked_state := st |}
  = (Some line, {| read_buf := pre ++ line ++ [NUL; NUL] ++ rest;
                   checked_idx := length pre + length line + 2;
                   checked_state := st |}) /\
  bufgets {| read_buf := pre ++ line ++ [LF] ++ rest;
             checked_idx := length pre; checked_state := st |}
  = (Some line, {| read_buf := pre ++ line ++ [NUL] ++ rest;
                   checked_idx := length pre + length line + 1;
                   checked_state := st |}) /\
  (hd_error rest <> Some LF ->
   bufgets {| read_buf := pre ++ line ++ [CR] ++ rest;
              checked_idx := length pre; checked_state := st |}
   = (Some line, {| read_buf := pre ++ line ++ [NUL] ++ rest;
                    checked_idx := length pre + length line + 1;
                    checked_state := st |})) /\
  fst (bufgets {| read_buf := pre ++ line;
                  checked_idx := length pre; checked_state := st |}) = None /\
  read_buf (snd (bufgets {| read_buf := pre ++ line;
                            checked_idx := length pre; checked_state := st |}))
  = pre ++ line.
Proof.
  intros Hl. split; [|split; [|split; [|split]]].
  - cbn [app]. rewrite (bufgets_step pre line CR (LF :: rest) st Hl eq_refl).
    reflexivity.
  - cbn [app]. rewrite (bufgets_step pre line LF rest st Hl eq_refl).
    destruct rest; reflexivity.
  - intros Hr. cbn [app].
    rewrite (bufgets_step pre line CR rest st Hl eq_refl).
    destruct rest as [|d rest']; [reflexivity|].
    destruct (ascii_eqb d LF) eqn:E; [|reflexivity].
    exfalso. apply Hr. apply ascii_eqb_eq in E. subst d. reflexivity.
  - unfold bufgets. cbn [read_buf checked_idx checked_state].
    rewrite skipn_app, Nat.sub_diag, skipn_all2 by lia. cbn [app skipn].
    rewrite <- (app_nil_r line), eol_line by assumption. reflexivity.
  - unfold bufgets. cbn [read_buf checked_idx checked_state].
    rewrite skipn_app, Nat.sub_diag, skipn_all2 by lia. cbn [app skipn].
    rewrite <- (app_nil_r line) at 1. rewrite eol_line by assumption.
    reflexivity.
Qed.

Lemma bufgets_returns_the_line_witness :
  bufgets {| read_buf := lit "GET / HTTP/1.1" ++ [CR; LF] ++ lit "Host: a"
                         ++ [CR; LF] ++ lit "rest";
             checked_idx := 16; checked_state := CHST_FIRSTWORD |}
  = (Some (lit "Host: a"),
     {| read_buf := lit "GET / HTTP/1.1" ++ [CR; LF] ++ lit "Host: a"
                    ++ [NUL; NUL] ++ lit "rest";
        checked_idx := 16 + 7 + 2; checked_state := CHST_FIRSTWORD |}).
Proof.
  apply (proj1 (bufgets_returns_the_line
                  (lit "GET / HTTP/1.1" ++ [CR; LF]) (lit "Host: a")
                  (lit "rest") CHST_FIRSTWORD ltac:(repeat constructor))).
Defined.

End Lines.

(** ** More on [de_dotdot] *)

Module DeDotdotFacts.

Import DeDotdot.

(** The string does not begin with a slash. *)
Definition relative (s : cstring) : Prop := nth_error s 0 <> Some slash.

Lemma no_double_slash s i :
  no_sub (lit "//") s ->
  nth_error s i = Some slash -> nth_error s (i + 1) <> Some slash.
Proof.
  intros H A B. apply (H i). apply (sub_at_2 slash slash). split; assumption.
Qed.

Lemma strip_slash_relative s :
  no_sub (lit "//") s -> relative (strip_slash s).
Proof.
  intros H. destruct s as [|c s]; [discriminate|]. cbn [strip_slash].
  destruct (ascii_eqb c "/") eqn:E.
  - apply ascii_eqb_eq in E. subst c.
    apply (no_double_slash ("/"%char :: s) 0 H). reflexivity.
  - intros [= ->]. rewrite ascii_eqb_refl in E. discriminate.
Qed.

Lemma dot_slash_step_relative f f' :
  no_sub (lit "//") f -> dot_slash_step f = Some f' -> relative f'.
Proof.
  intros H. unfold dot_slash_step.
  destruct (starts_with (lit "./") f) eqn:E; [|discriminate].
  intros E'. apply Some_eq in E'. subst f'.
  apply starts_with_spec, (sub_at_2 dot slash) in E as [E0 E1].
  intros A. rewrite nth_error_skipn in A.
  apply (no_double_slash f 1 H); assumption.
Qed.

Lemma slash_dot_step_relative f f' :
  relative f -> slash_dot_step f = Some f' -> relative f'.
Proof.
  intros Hr. unfold slash_dot_step.
  destruct (strstr f (lit "/./")) as [cp|] eqn:E; [|discriminate].
  intros [= <-]. apply strstr_Some in E.
  pose proof (sub_at_bound (lit "/./") f cp ltac:(discriminate) E) as Hb.
  cbn in Hb.
  apply (sub_at_3 slash dot slash) in E as [E0 [E1 E2]].
  intros A. rewrite nth_error_delete in A by lia.
  destruct (Nat.ltb_spec 0 cp); [exact (Hr A)|].
  assert (cp = 0) by lia. subst cp. exact (Hr E0).
Qed.

Lemma leading_dotdot_step_relative f f' :
  no_sub (lit "//") f -> leading_dotdot_step f = Some f' -> relative f'.
Proof.
  intros H. unfold leading_dotdot_step.
  destruct (starts_with (lit "../") f) eqn:E; [|discriminate].
  intros E'. apply Some_eq in E'. subst f'.
  apply starts_with_spec, (sub_at_3 dot dot slash) in E as [E0 [E1 E2]].
  intros A. rewrite nth_error_skipn in A.
  apply (no_double_slash f 2 H); assumption.
Qed.

Lemma dotdot_edit_relative f cp :
  no_sub (lit "//") f -> relative f -> sub_at (lit "/../") f cp ->
  relative (firstn (after_prev_slash f cp) f ++ skipn (cp + 4) f).
Proof.
  intros H Hr E.
  pose proof (sub_at_bound (lit "/../") f cp ltac:(discriminate) E) as Hb.
  cbn in Hb.
  apply (sub_at_4 slash dot dot slash) in E as [E0 [E1 [E2 E3]]].
  assert (after_prev_slash f cp <= cp) as Hp.
  { unfold after_prev_slash.
    destruct (strrchr (firstn cp f) "/") as [j|] eqn:Ej; [|lia].
    apply strrchr_firstn in Ej. lia. }
  intros A. rewrite nth_error_delete in A by lia.
  destruct (Nat.ltb_spec 0 (after_prev_slash f cp)); [exact (Hr A)|].
  replace (0 + (cp + 4 - after_prev_slash f cp)) with (cp + 3 + 1) in A by lia.
  exact (no_double_slash f (cp + 3) H E3 A).
Qed.

Lemma trailing_step_relative f f' :
  relative f -> trailing_step f = Some f' -> relative f'.
Proof.
  intros Hr. unfold trailing_step.
  destruct ((3 <? length f) && _); [|discriminate].
  destruct (strrchr (firstn (length f - 3) f) "/") as [cp2|]; [|discriminate].
  intros [= <-] A. apply Hr.
  rewrite nth_error_firstn in A. destruct (0 <? cp2); [exact A|discriminate].
Qed.

Lemma dotdot_loop_relative : forall fuel file,
  clean file -> relative file -> relative (dotdot_loop fuel file).
Proof.
  induction fuel as [|fuel IH]; intros file Hc Hr; [exact Hr|].
  cbn [dotdot_loop].
  pose proof (while_inv (fun s => clean s /\ relative s) leading_dotdot_step)
    as Hinv.
  destruct (Hinv ltac:(intros f f' [Hcf Hrf] Hs; split;
                       [exact (leading_dotdot_step_clean f f' Hcf Hs)
                       |apply (leading_dotdot_step_relative f f');
                        [apply Hcf|exact Hs]])
              (S (length file)) file (conj Hc Hr)) as [Hc1 Hr1].
  fold (run leading_dotdot_step file) in Hc1, Hr1.
  set (file1 := run leading_dotdot_step file) in *.
  destruct (strstr file1 (lit "/../")) as [cp|] eqn:E; [|exact Hr1].
  apply strstr_Some in E. apply IH.
  - apply dotdot_edit_clean; assumption.
  - apply dotdot_edit_relative; [apply Hc1|exact Hr1|exact E].
Qed.

Lemma de_dotdot_relative file : relative (de_dotdot file).
Proof.
  unfold de_dotdot.
  apply (while_inv relative trailing_step trailing_step_relative).
  apply dotdot_loop_relative; [apply clean_before_dotdot|].
  pose proof (collapsed file) as H0.
  set (f0 := run collapse_step file) in *.
  pose proof (strip_slash_relative f0 H0) as H1.
  pose proof (strip_slash_no_sub (lit "//") f0 H0) as N1.
  set (f1 := strip_slash f0) in *.
  destruct (while_inv (fun s => no_sub (lit "//") s /\ relative s) dot_slash_step
              ltac:(intros f f' [Hn Hrf] Hs; split;
                    [exact (dot_slash_step_slashes f f' Hn Hs)
                    |exact (dot_slash_step_relative f f' Hn Hs)])
              (S (length f1)) f1 (conj N1 H1)) as [N2 H2].
  fold (run dot_slash_step f1) in N2, H2.
  apply (while_inv relative slash_dot_step slash_dot_step_relative).
  exact H2.
Qed.

Lemma run_fixed step f : step f = None -> run step f = f.
Proof. intros H. unfold run. cbn [while]. rewrite H. reflexivity. Qed.

Lemma no_sub_strstr needle s : no_sub needle s -> strstr s needle = None.
Proof.
  intros H. destruct (strstr s needle) as [i|] eqn:E; [|reflexivity].
  apply strstr_Some in E. exfalso. exact (H i E).
Qed.

(** A string that is already sanitized, relative and without an
    elidable tail is left alone. *)
Lemma de_dotdot_fixed f :
  sanitized f -> relative f -> trailing_step f = None -> de_dotdot f = f.
Proof.
  intros [[H1 H2 H3] H4 H5] Hr Ht. unfold de_dotdot.
  assert (run collapse_step f = f) as ->.
  { apply run_fixed. unfold collapse_step.
    rewrite (no_sub_strstr _ _ H1). reflexivity. }
  assert (strip_slash f = f) as ->.
  { destruct f as [|c f]; [reflexivity|]. cbn [strip_slash].
    destruct (ascii_eqb c "/") eqn:E; [|reflexivity].
    apply ascii_eqb_eq in E. subst c. exfalso. apply Hr. reflexivity. }
  assert (run dot_slash_step f = f) as ->.
  { apply run_fixed. unfold dot_slash_step. rewrite H3. reflexivity. }
  assert (run slash_dot_step f = f) as ->.
  { apply run_fixed. unfold slash_dot_step.
    rewrite (no_sub_strstr _ _ H2). reflexivity. }
  assert (dotdot_loop (S (length f)) f = f) as ->.
  { cbn [dotdot_loop].
    assert (run leading_dotdot_step f = f) as ->.
    { apply run_fixed. unfold leading_dotdot_step. rewrite H5. reflexivity. }
    rewrite (no_sub_strstr _ _ H4). reflexivity. }
  apply run_fixed. exact Ht.
Qed.

(** X9. [de_dotdot] is idempotent, and what it returns never begins
    with a slash: sanitizing a sanitized name changes nothing, and no
    input makes the sanitizer hand back an absolute path. *)
Theorem de_dotdot_idempotent (file : cstring) :
  de_dotdot (de_dotdot file) = de_dotdot file /\
  starts_with (lit "/") (de_dotdot file) = false.
Proof.
  pose proof (de_dotdot_relative file) as Hr.
  split.
  - apply de_dotdot_fixed; [apply de_dotdot_sanitized|exact Hr|].
    unfold de_dotdot at 1.
    apply (run_done trailing_step trailing_step_shrinks).
  - destruct (de_dotdot file) as [|c s]; [reflexivity|].
    cbn [starts_with lit list_ascii_of_string].
    destruct (ascii_eqb "/" c) eqn:E; [|reflexivity].
    apply ascii_eqb_eq in E. subst c. exfalso. apply Hr. reflexivity.
Qed.

(** What the sanitizer leaves in: a lone [..], and a [..] after a
    single first component. *)
Example de_dotdot_leaves_dotdot :
  de_dotdot (lit "..") = lit ".." /\ de_dotdot (lit "a/..") = lit "a/.." /\
  de_dotdot (lit "a/b/..") = lit "a" /\
  de_dotdot (lit "//etc/./passwd") = lit "etc/passwd".
Proof. repeat split. Qed.

End DeDotdotFacts.

(** ** More on [defang] *)

Module DefangFacts.

Import Defang.
Local Open Scope Z_scope.

Lemma defang_loop_prefix str : forall used dfsize,
  exists k, defang_loop str used dfsize = flat_map entity (firstn k str).
Proof.
  induction str as [|c str IH]; intros used dfsize; cbn [defang_loop].
  - exists 0%nat. reflexivity.
  - destruct (used <? dfsize - 8); [|exists 0%nat; reflexivity].
    destruct (IH (used + Z.of_nat (length (entity c))) dfsize) as [k Hk].
    exists (S k). cbn [firstn flat_map]. rewrite Hk. reflexivity.
Qed.

Lemma defang_loop_whole str : forall used dfsize,
  used + 6 * Z.of_nat (length str) <= dfsize - 8 + 5 ->
  defang_loop str used dfsize = flat_map entity str.
Proof.
  induction str as [|c str IH]; intros used dfsize H; cbn [defang_loop flat_map];
    [reflexivity|].
  cbn [length] in H. pose proof (entity_length c) as Hl.
  destruct (Z.ltb_spec used (dfsize - 8)); [|lia].
  rewrite IH by lia. reflexivity.
Qed.

(** X10. [defang] never overruns and never cuts an entity: for a
    buffer of [dfsize] > 0 bytes the output is shorter than [dfsize],
    it is the escaped form of a prefix of the input, and it is the
    escaped form of the whole input when six bytes for each input byte
    fit below [dfsize - 3]. *)
Theorem defang_fits_whole_entities (str : cstring) (dfsize : Z) :
  0 < dfsize ->
  Z.of_nat (length (defang str dfsize)) < dfsize /\
  (exists k, defang str dfsize = flat_map entity (firstn k str)) /\
  (6 * Z.of_nat (length str) <= dfsize - 3 ->
   defang str dfsize = flat_map entity str).
Proof.
  intros H. unfold defang. split; [|split].
  - pose proof (defang_loop_fits str 0 dfsize ltac:(lia)). lia.
  - apply defang_loop_prefix.
  - intros Hroom. apply defang_loop_whole. lia.
Qed.

Lemma defang_fits_whole_entities_witness :
  Z.of_nat (length (defang (lit "<a href='x'>") 20)) < 20 /\
  (exists k, defang (lit "<a href='x'>") 20
             = flat_map entity (firstn k (lit "<a href='x'>"))) /\
  (6 * Z.of_nat (length (lit "<a href='x'>")) <= 20 - 3 ->
   defang (lit "<a href='x'>") 20 = flat_map entity (lit "<a href='x'>")).
Proof.
  apply (defang_fits_whole_entities (lit "<a href='x'>") 20). lia.
Defined.

End DefangFacts.

(** ** The request target: from the URL to [origfilename] *)

Module Target.

Import Conn World Response Parse.
Local Open Scope Z_scope.

(** [origfilename[0] == '/' || (origfilename[0] == '.' &&
    origfilename[1] == '.' && (origfilename[2] == '\0' ||
    origfilename[2] == '/'))] *)
Definition climbs (origfilename : cstring) : bool :=
  match origfilename with
  | c0 :: tl =>
      ascii_eqb c0 "/"
      || (ascii_eqb c0 "."
          && match tl with
             | c1 :: tl' =>
                 ascii_eqb c1 "."
                 && match tl' with
                    | [] => true
                    | c2 :: _ => ascii_eqb c2 "/"
                    end
             | [] => false
             end)
  | [] => false
  end.

(** The part of [httpd_parse_request] between the method and the
    headers: it decodes the URL, which begins with a slash, into
    [origfilename], splits off the query and sanitizes the name. *)
Definition request_target (w : world) (hc : httpd_conn) (url : cstring)
  : outcome :=
  let hc := set_encodedurl url hc in
  let decodedurl := Url.strdecode (encodedurl hc) in
  let hc := set_origfilename (skipn 1 decodedurl) hc in
  (* Special case for top-level URL. *)
  let hc := match origfilename hc with
            | [] => set_origfilename (lit ".") hc
            | _ :: _ => hc
            end in
  (* Extract query string from encoded URL. *)
  let hc :=
    match strchr (encodedurl hc) "?" with
    | Some cp =>
        let hc := set_query (skipn (cp + 1) (encodedurl hc)) hc in
        (* Remove query from (decoded) origfilename. *)
        match strchr (origfilename hc) "?" with
        | Some cp' => set_origfilename (firstn cp' (origfilename hc)) hc
        | None => hc
        end
    | None => hc
    end in
  let hc := set_origfilename (DeDotdot.de_dotdot (origfilename hc)) hc in
  if climbs (origfilename hc) then
    Reject (httpd_send_err w hc 400 httpd_err400title [] httpd_err400form
              (lit "6"))
  else Continue hc.

Lemma climbs_dotdot s :
  climbs s = false -> s <> lit ".." /\ starts_with (lit "../") s = false.
Proof.
  destruct s as [|c0 [|c1 [|c2 s]]]; cbn; intros H; try (split; [discriminate|]);
    try reflexivity.
  - destruct (ascii_eqb "." c0); reflexivity.
  - split.
    + intros [= -> ->]. rewrite !ascii_eqb_refl in H.
      destruct (ascii_eqb "." "/"); discriminate.
    + destruct (ascii_eqb "." c0) eqn:E0; [|reflexivity].
      destruct (ascii_eqb "." c1); reflexivity.
  - apply orb_false_elim in H as [_ H].
    destruct (ascii_eqb "." c0) eqn:E0; [|reflexivity].
    apply ascii_eqb_eq in E0. subst c0. rewrite ascii_eqb_refl in H.
    destruct (ascii_eqb "." c1) eqn:E1; [|reflexivity].
    apply ascii_eqb_eq in E1. subst c1. rewrite ascii_eqb_refl in H.
    cbn [andb] in H |- *.
    destruct (ascii_eqb "/" c2) eqn:E2; [|reflexivity].
    apply ascii_eqb_eq in E2. subst c2. rewrite ascii_eqb_refl in H.
    discriminate.
Qed.

(** X11. No URL gets a climbing name past [httpd_parse_request]: either
    the request is refused with status 400, or the file name it goes on
    with is not the parent directory [..], does not begin with a slash
    or with [../], and holds neither [/../] nor an empty component. *)
Theorem request_target_is_contained (w : world) (hc : httpd_conn)
  (url : cstring) :
  match request_target w hc url with
  | Reject hc' => status hc' = 400
  | Continue hc' =>
      origfilename hc' <> lit ".." /\
      starts_with (lit "/") (origfilename hc') = false /\
      starts_with (lit "../") (origfilename hc') = false /\
      ~ occurs (lit "/../") (origfilename hc') /\
      ~ occurs (lit "//") (origfilename hc')
  end.
Proof.
  unfold request_target.
  match goal with
  | |- context [DeDotdot.de_dotdot ?x] => generalize x
  end.
  intros x.
  match goal with
  | |- context [set_origfilename (DeDotdot.de_dotdot x) ?h] => generalize h
  end.
  intros h.
  change (origfilename (set_origfilename (DeDotdot.de_dotdot x) h))
    with (DeDotdot.de_dotdot x).
  destruct (climbs (DeDotdot.de_dotdot x)) eqn:E.
  - apply httpd_send_err_status. lia.
  - change (origfilename (set_origfilename (DeDotdot.de_dotdot x) h))
      with (DeDotdot.de_dotdot x).
    destruct (climbs_dotdot _ E) as [H1 H2].
    destruct (DeDotdot.de_dotdot_sanitized x) as [[S1 S2 S3] S4 S5].
    destruct (DeDotdotFacts.de_dotdot_idempotent x) as [_ Hrel].
    repeat split; try assumption; apply no_sub_not_occurs; assumption.
Qed.

Example climbing_urls_are_refused :
  (exists hc', request_target Request.sample_world
                 (fresh_conn Sample.server 0) (lit "/..") = Reject hc') /\
  (exists hc', request_target Request.sample_world
                 (fresh_conn Sample.server 0) (lit "/%2e%2e/a/../..")
               = Reject hc') /\
  (exists hc', request_target Request.sample_world
                 (fresh_conn Sample.server 0) (lit "/a/../b?c=d")
               = Continue hc' /\
               origfilename hc' = lit "b" /\ query hc' = lit "c=d").
Proof.
  split; [|split].
  - eexists. vm_compute. reflexivity.
  - eexists. vm_compute. reflexivity.
  - eexists. split; [vm_compute; reflexivity|]. split; reflexivity.
Qed.

(** *** The byte range kept by the header loop *)

(** A first byte that is not negative, and a last byte that is -1 (for
    "to the end") or not negative. *)
Definition range_sane (hc : httpd_conn) : Prop :=
  0 <= first_byte_index hc /\ -1 <= last_byte_index hc.

Lemma send_mime_range w hc st title encs extra ty len modified :
  first_byte_index (send_mime w hc st title encs extra ty len modified)
  = first_byte_index hc /\
  last_byte_index (send_mime w hc st title encs extra ty len modified)
  = last_byte_index hc.
Proof.
  unfold send_mime. cbn zeta.
  set (hc0 := if st =? 200 then hc else set_compression_type COMPRESSION_NONE hc).
  assert (first_byte_index hc0 = first_byte_index hc /\
          last_byte_index hc0 = last_byte_index hc) as [E1 E2]
    by (unfold hc0; destruct (st =? 200); split; reflexivity).
  destruct (mime_flag _); [|split; assumption].
  destruct (partial_content _ st len); rewrite add_all; split; assumption.
Qed.

Lemma httpd_send_err_range w hc st title extra form arg :
  range_sane hc -> range_sane (httpd_send_err w hc st title extra form arg).
Proof.
  intros [H1 H2].
  assert (forall e ty l m,
            range_sane (send_mime w hc st title e extra ty l m)) as K.
  { intros e ty l m. destruct (send_mime_range w hc st title e extra ty l m)
      as [E1 E2]. split; congruence. }
  unfold httpd_send_err, send_err_file, send_response.
  destruct (vhost (hs hc) && _).
  - destruct (err_file w (hostdir hc) st); [apply K|].
    destruct (err_file w [] st); apply K.
  - destruct (err_file w [] st); apply K.
Qed.

Lemma parse_range_sane w hc buf :
  range_sane hc -> range_sane (parse_range w hc buf).
Proof.
  intros [H1 H2]. unfold parse_range.
  destruct (strchr buf ","); [split; assumption|].
  destruct (strchr buf "=") as [eq|]; [|split; assumption].
  destruct (strchr (skipn (eq + 1) buf) "-") as [[|dash]|];
    [split; assumption| |split; assumption].
  set (first := atoll w _).
  assert (0 <= (if first <? 0 then 0 else first)) as Hf
    by (destruct (Z.ltb_spec first 0); lia).
  destruct (skipn (S dash + 1) (skipn (eq + 1) buf)) as [|c tail] eqn:Et;
    [split; [exact Hf|exact H2]|].
  destruct (is_digit c); [|split; [exact Hf|exact H2]].
  split; [exact Hf|]. cbn.
  destruct (Z.ltb_spec (atoll w (c :: tail)) 0); lia.
Qed.

Lemma parse_header_sane w hc buf :
  range_sane hc -> range_sane (conn_of (parse_header w hc buf)).
Proof.
  intros H. unfold parse_header.
  repeat match goal with
         | |- range_sane (conn_of (if header_is buf ?n then _ else _)) =>
             destruct (header_is buf n)
         | |- range_sane
                (conn_of (if header_is buf ?n || header_is buf ?m
                          then _ else _)) =>
             destruct (header_is buf n || header_is buf m)
         end;
    try exact H.
  - set (hc1 := set_hdrhost _ hc).
    assert (range_sane hc1) as H1 by exact H.
    destruct (strchr (hdrhost hc1) "/");
      [apply httpd_send_err_range; exact H1|].
    destruct (hdrhost hc1) as [|c t]; [exact H1|].
    destruct (ascii_eqb c "."); [apply httpd_send_err_range|]; exact H1.
  - destruct (accept hc); [exact H|]. destruct (_ <? _); exact H.
  - destruct (accepte hc); [exact H|]. destruct (_ <? _); exact H.
  - apply parse_range_sane. exact H.
  - destruct (_ =? 0); exact H.
Qed.

(** X12. The header loop keeps the byte range sane: whatever header
    lines arrive, and whether the loop ends normally or with an error
    reply, [first_byte_index] is not negative and [last_byte_index] is
    -1 or not negative, provided they were so before (as they are after
    [httpd_init_conn_content]). *)
Theorem parse_headers_keep_range_sane (w : world) (lines : list cstring)
  (hc : httpd_conn) :
  range_sane hc -> range_sane (conn_of (parse_headers w hc lines)).
Proof.
  revert hc. induction lines as [|buf lines IH]; intros hc H;
    cbn [parse_headers]; [exact H|].
  destruct buf as [|c buf]; [exact H|].
  pose proof (parse_header_sane w hc (c :: buf) H) as H1.
  destruct (parse_header w hc (c :: buf)) as [hc'|hc']; cbn [conn_of] in H1.
  - apply IH. exact H1.
  - exact H1.
Qed.

Lemma parse_headers_keep_range_sane_witness :
  range_sane
    (conn_of (parse_headers Request.sample_world
                (fresh_conn Sample.server 0)
                [lit "Host: example.org"; lit "Range: bytes=5-"])).
Proof.
  apply (parse_headers_keep_range_sane Request.sample_world
           [lit "Host: example.org"; lit "Range: bytes=5-"]
           (fresh_conn Sample.server 0)).
  split; vm_compute; discriminate.
Defined.

End Target.

(** ** More on [really_start_request] *)

Module RequestFacts.

Import Conn World Response Request.
Local Open Scope Z_scope.

(** The six methods [really_start_request] serves. *)
Definition served (m : method) : bool :=
  match m with
  | METHOD_GET | METHOD_HEAD | METHOD_POST | METHOD_OPTIONS | METHOD_PUT
  | METHOD_DELETE => true
  | _ => false
  end.

Lemma served_request w hc :
  served (method_ hc) = true ->
  mmc_icon_check w (pathinfo hc) = None ->
  really_start_request w hc
  = match stat w (expnfilename hc) with
    | None =>
        Some (-1, httpd_send_err w hc 500 err500title [] err500form
                    (encodedurl hc))
    | Some st =>
        let hc := set_sb st hc in
        if negb (world_readable (st_mode (sb hc))) then
          Some (-1, httpd_send_err w hc 403 err403title [] err403form
                      (encodedurl hc))
        else if S_ISDIR (st_mode (sb hc)) then directory w hc
        else if negb (S_ISREG (st_mode (sb hc))) then
          Some (-1, httpd_send_err w hc 404 err404title [] err404form
                      (encodedurl hc))
        else gates w hc
    end.
Proof.
  intros Hm Hi. unfold really_start_request. rewrite Hi.
  destruct (method_ hc); try discriminate; reflexivity.
Qed.

(** X13. The refusals made before any file is served.  A method other
    than GET, HEAD, POST, OPTIONS, PUT and DELETE is answered 501; for a
    served method on a path that is no icon, a file that cannot be
    examined is answered 500, one that the world may neither read nor
    execute 403, a directory followed by path info 404, and anything
    that is neither a directory nor a regular file 404.  Each time the
    function returns -1. *)
Theorem early_refusals (w : world) (hc : httpd_conn) :
  (served (method_ hc) = false ->
   exists hc', really_start_request w hc = Some (-1, hc') /\ status hc' = 501)
  /\
  (served (method_ hc) = true -> mmc_icon_check w (pathinfo hc) = None ->
   (stat w (expnfilename hc) = None ->
    exists hc', really_start_request w hc = Some (-1, hc') /\ status hc' = 500)
   /\
   (forall st,
      stat w (expnfilename hc) = Some st ->
      (world_readable (st_mode st) = false ->
       exists hc',
         really_start_request w hc = Some (-1, hc') /\ status hc' = 403) /\
      (world_readable (st_mode st) = true ->
       S_ISDIR (st_mode st) = true -> pathinfo hc <> [] ->
       exists hc',
         really_start_request w hc = Some (-1, hc') /\ status hc' = 404) /\
      (world_readable (st_mode st) = true ->
       S_ISDIR (st_mode st) = false -> S_ISREG (st_mode st) = false ->
       exists hc',
         really_start_request w hc = Some (-1, hc') /\ status hc' = 404))).
Proof.
  split.
  - intros Hm. unfold really_start_request.
    destruct (method_ hc); try discriminate; eexists;
      (split; [reflexivity|apply httpd_send_err_status; lia]).
  - intros Hm Hi. rewrite (served_request w hc Hm Hi). split.
    + intros ->. eexists. split; [reflexivity|].
      apply httpd_send_err_status. lia.
    + intros st ->. cbn zeta. cbn [sb set_sb]. split; [|split].
      * intros ->. eexists. split; [reflexivity|].
        apply httpd_send_err_status. lia.
      * intros -> -> Hp. cbn [negb]. unfold directory.
        change (pathinfo (set_sb st hc)) with (pathinfo hc).
        destruct (pathinfo hc); [contradiction|].
        eexists. split; [reflexivity|]. apply httpd_send_err_status. lia.
      * intros -> -> ->. eexists. split; [reflexivity|].
        apply httpd_send_err_status. lia.
Qed.

(** *** What [send_mime] prints *)

Lemma send_mime_extraheads w hc st title encs extra ty len modified :
  mime_flag hc = true -> extra <> [] ->
  In (Raw extra)
     (response (send_mime w hc st title encs extra ty len modified)).
Proof.
  intros Hm He. unfold send_mime. cbn zeta.
  set (hc0 := if st =? 200 then hc else set_compression_type COMPRESSION_NONE hc).
  assert (mime_flag hc0 = true) as Hm0
    by (unfold hc0; destruct (st =? 200); exact Hm).
  change (mime_flag (set_bytes_to_send len (set_status st hc0)))
    with (mime_flag hc0).
  rewrite Hm0.
  assert (forall h p s t,
            In (Raw extra) (mime_headers w h p s t encs extra ty len modified))
    as K.
  { intros h p s t. unfold mime_headers.
    do 7 (apply in_or_app; right). apply in_or_app. left.
    destruct extra; [contradiction|]. left. reflexivity. }
  destruct (partial_content _ st len); rewrite add_all; cbn;
    apply in_or_app; right; apply K.
Qed.

Lemma send_response_status w hc st title extra form arg :
  st <> 200 -> status (send_response w hc st title extra form arg) = st.
Proof.
  intros Hst. unfold send_response. cbn.
  destruct (send_mime_status w hc st title [] extra
              (lit "text/html; charset=%s") (-1) 0) as [E|[E _]];
    [exact E|contradiction].
Qed.

(** *** Conditional requests *)

Lemma mime_headers_no_length w hc partial st title encs extra ty len
  modified n :
  len < 0 ->
  ~ In (ContentLength n)
       (mime_headers w hc partial st title encs extra ty len modified).
Proof.
  intros Hlen. unfold mime_headers, content_encoding. rewrite !in_app_iff.
  replace (len >=? 0) with false
    by (symmetry; rewrite Z.geb_leb; apply Z.leb_gt; lia).
  destruct partial, (compression_type hc), encs,
    (negb (Z.quot st 100 =? 2) && negb (Z.quot st 100 =? 3)),
    (max_age (hs hc) >=? 0), extra; cbn; intuition discriminate.
Qed.

Lemma send_mime_items w hc st title encs extra ty len modified :
  exists h p s t,
    response (send_mime w hc st title encs extra ty len modified)
    = response hc
      ++ (if mime_flag hc
          then mime_headers w h p s t encs extra ty len modified else []).
Proof.
  unfold send_mime. cbn zeta.
  set (hc0 := if st =? 200 then hc else set_compression_type COMPRESSION_NONE hc).
  assert (mime_flag hc0 = mime_flag hc /\ response hc0 = response hc)
    as [Ei Er] by (unfold hc0; destruct (st =? 200); split; reflexivity).
  change (mime_flag (set_bytes_to_send len (set_status st hc0)))
    with (mime_flag hc0).
  rewrite Ei. destruct (mime_flag hc).
  - destruct (partial_content _ st len); rewrite add_all; cbn; rewrite Er;
      do 4 eexists; reflexivity.
  - exists hc, false, st, title. cbn. rewrite Er, app_nil_r. reflexivity.
Qed.

Lemma partial_content_other hc st len :
  st <> 200 -> partial_content hc st len = false.
Proof.
  intros H. unfold partial_content.
  destruct (Z.eqb_spec st 200); [contradiction|reflexivity].
Qed.

(** X15. A conditional request is answered 304 without touching the
    file: for a method other than HEAD and an [If-Modified-Since] time
    that is set and not before the file's modification time, the tail of
    [really_start_request] returns 0 with status 304, announces no
    length ([bytes_to_send] is -1 and no [Content-Length] or
    [Content-Range] is added), clears [got_range] and maps nothing. *)
Theorem not_modified_reply (w : world) (hc : httpd_conn) (is_icon : bool) :
  method_ hc <> METHOD_HEAD ->
  mime_flag hc = true ->
  if_modified_since hc <> -1 ->
  st_mtime (sb hc) <= if_modified_since hc ->
  exists hc',
    deliver w hc is_icon = Some (0, hc') /\
    status hc' = 304 /\ bytes_to_send hc' = -1 /\
    got_range hc' = false /\ file_address hc' = file_address hc /\
    (forall n, In (ContentLength n) (response hc') ->
               In (ContentLength n) (response hc)) /\
    (forall a b c d, In (ContentRange a b c d) (response hc') ->
                     In (ContentRange a b c d) (response hc)).
Proof.
  intros Hm Hmime Hset Hnew. unfold deliver.
  destruct (fill_in_last_byte_index_same hc)
    as (Ee & Es & Ec & Em & Ei & Eg & Ef & Er & Eims & Ea & Ersp & Ehs).
  set (hc1 := fill_in_last_byte_index hc) in *.
  destruct (Mime.figure_mime_finishes (enc_tab w) (typ_tab w) (expnfilename hc1))
    as [[ty encs] ->].
  set (hc2 := set_encodings encs (set_type ty hc1)).
  change (method_ hc2) with (method_ hc1).
  change (if_modified_since hc2) with (if_modified_since hc1).
  change (sb hc2) with (sb hc1).
  rewrite Em, Eims, Es.
  assert (negb (if_modified_since hc =? -1)
          && (if_modified_since hc >=? st_mtime (sb hc)) = true) as ->.
  { apply andb_true_iff. split.
    - apply negb_true_iff, Z.eqb_neq. exact Hset.
    - apply Z.geb_le. exact Hnew. }
  assert (mime_flag hc2 = true) as Hm2 by (change (mime_flag hc1 = true); congruence).
  pose proof (partial_content_other hc2 304 (-1) ltac:(lia)) as Hp.
  destruct (send_mime_full w hc2 304 err304title (encodings hc2) []
              (type hc2) (-1) (st_mtime (sb hc)) Hm2 Hp) as (Hst & Hgr & Hcr).
  destruct (send_mime_frame w hc2 304 err304title (encodings hc2) []
              (type hc2) (-1) (st_mtime (sb hc))) as (Hfa & _ & _ & Hb & _).
  destruct (send_mime_items w hc2 304 err304title (encodings hc2) []
              (type hc2) (-1) (st_mtime (sb hc))) as (h & p & s & t & Hitems).
  exists (send_mime w hc2 304 err304title (encodings hc2) [] (type hc2) (-1)
            (st_mtime (sb hc))).
  split; [destruct (method_ hc); try reflexivity; contradiction|].
  repeat split; try assumption.
  - rewrite Hfa. exact Ea.
  - intros n Hin. rewrite Hitems, Hm2 in Hin.
    apply in_app_or in Hin as [Hin|Hin]; [rewrite <- Ersp; exact Hin|].
    exfalso. revert Hin. apply mime_headers_no_length. lia.
  - intros a b c d Hin. rewrite <- Ersp. apply Hcr. exact Hin.
Qed.

Lemma not_modified_reply_witness :
  exists hc',
    deliver sample_world
      (after_stat (set_if_modified_since 600 (request METHOD_GET "a.txt")))
      false = Some (0, hc') /\
    status hc' = 304 /\ bytes_to_send hc' = -1 /\
    got_range hc' = false /\ file_address hc' = None /\
    (forall n, In (ContentLength n) (response hc') -> In (ContentLength n) []) /\
    (forall a b c d, In (ContentRange a b c d) (response hc') ->
                     In (ContentRange a b c d) []).
Proof.
  apply (not_modified_reply sample_world
           (after_stat (set_if_modified_since 600 (request METHOD_GET "a.txt")))
           false).
  - discriminate.
  - reflexivity.
  - discriminate.
  - vm_compute. discriminate.
Defined.

(** *** Compression *)

(** X16. Compression survives [mod_headers] only where it can work: if
    [compression_type] is still GZIP afterwards, then it was GZIP before,
    zlib is there, the type is text or javascript, the file has at least
    256 bytes and is the file that was asked for, not a [.gz] sibling.
    The header handed back is empty or [Vary: Accept-Encoding]. *)
Theorem mod_headers_keeps_gzip_only_for_text (w : world) (hc : httpd_conn)
  (extra : cstring) (hc' : httpd_conn) :
  mod_headers w hc = Some (extra, hc') ->
  (compression_type hc' = COMPRESSION_GZIP ->
   compression_type hc = COMPRESSION_GZIP /\ has_deflate hc = true /\
   (strncmp (type hc) (lit "text/") 5 = 0 \/
    strcmp (type hc) (lit "application/javascript") = 0) /\
   256 <= st_size (sb hc) /\
   expnfilename hc' = expnfilename hc /\ sb hc' = sb hc) /\
  (extra = [] \/ extra = vary_header).
Proof.
  unfold mod_headers.
  set (hc1 := substitute_dotgz w hc).
  assert (compression_type hc1 = COMPRESSION_GZIP ->
          hc1 = hc /\ compression_type hc = COMPRESSION_GZIP) as H1.
  { unfold hc1, substitute_dotgz.
    destruct (compression_type hc) eqn:Ec; [intros E; congruence|].
    destruct (serve_dotgz w hc); [|auto].
    destruct (encodings hc); [discriminate|auto]. }
  assert (compression_type (settle_compression hc1) = COMPRESSION_GZIP ->
          settle_compression hc1 = hc1 /\
          compression_type hc1 = COMPRESSION_GZIP /\
          has_deflate hc1 = true /\
          (strncmp (type hc1) (lit "text/") 5 = 0 \/
           strcmp (type hc1) (lit "application/javascript") = 0) /\
          256 <= st_size (sb hc1)) as H2.
  { unfold settle_compression.
    destruct (has_deflate hc1); cbn [negb]; [|discriminate].
    destruct (Z.eqb_spec (strncmp (type hc1) (lit "text/") 5) 0) as [E1|E1];
      destruct (Z.eqb_spec (strcmp (type hc1) (lit "application/javascript")) 0)
        as [E2|E2]; cbn [negb andb]; try discriminate;
      (destruct (Z.ltb_spec (st_size (sb hc1)) 256); [discriminate|]);
      intros E; repeat split; auto. }
  set (hc2 := settle_compression hc1) in *.
  assert (forall e, Some (e, hc2) = Some (extra, hc') ->
                    (e = [] \/ e = vary_header) ->
                    (compression_type hc' = COMPRESSION_GZIP ->
                     compression_type hc = COMPRESSION_GZIP /\
                     has_deflate hc = true /\
                     (strncmp (type hc) (lit "text/") 5 = 0 \/
                      strcmp (type hc) (lit "application/javascript") = 0) /\
                     256 <= st_size (sb hc) /\
                     expnfilename hc' = expnfilename hc /\ sb hc' = sb hc) /\
                    (extra = [] \/ extra = vary_header)) as K.
  { intros e [= <- <-] He. split; [|exact He].
    intros E. destruct (H2 E) as (E2 & E1 & Hd & Ht & Hs).
    destruct (H1 E1) as (E0 & Ec). rewrite E2, E0 in *.
    repeat split; assumption. }
  destruct (strrchr (expnfilename hc2) ".") as [dot|].
  - intros H. apply (K _ H). destruct (existsb _ _); auto.
  - destruct (strstr (encodings hc2) (lit "gzip")); [discriminate|].
    intros H. apply (K _ H). auto.
Qed.

(** A connection of a server built with zlib. *)
Definition set_has_deflate : bool -> httpd_conn -> httpd_conn :=
  ltac:(setter has_deflate).

(** A request for a style sheet of 300 bytes from a client that takes
    gzip, as it stands when [mod_headers] is called. *)
Definition style_sheet : httpd_conn :=
  set_has_deflate true
    (set_compression_type COMPRESSION_GZIP
       (set_type (lit "text/css")
          (set_sb {| st_mode := S_IFREG + 420; st_size := 300;
                     st_mtime := 500 |}
             (request METHOD_GET "style.css")))).

Lemma mod_headers_keeps_gzip_only_for_text_witness :
  mod_headers sample_world style_sheet = Some (vary_header, style_sheet) /\
  compression_type style_sheet = COMPRESSION_GZIP /\
  (compression_type style_sheet = COMPRESSION_GZIP ->
   compression_type style_sheet = COMPRESSION_GZIP /\
   has_deflate style_sheet = true /\
   (strncmp (type style_sheet) (lit "text/") 5 = 0 \/
    strcmp (type style_sheet) (lit "application/javascript") = 0) /\
   256 <= st_size (sb style_sheet) /\
   expnfilename style_sheet = expnfilename style_sheet /\
   sb style_sheet = sb style_sheet) /\
  (vary_header = [] \/ vary_header = vary_header).
Proof.
  split; [vm_compute; reflexivity|]. split; [reflexivity|].
  apply (mod_headers_keeps_gzip_only_for_text sample_world style_sheet
           vary_header style_sheet).
  vm_compute. reflexivity.
Defined.

(** Without zlib the same request is served as it is. *)
Example mod_headers_drops_gzip_without_zlib :
  option_map (fun r => compression_type (snd r))
    (mod_headers sample_world (set_has_deflate false style_sheet))
  = Some COMPRESSION_NONE.
Proof. vm_compute. reflexivity. Qed.

End RequestFacts.

(** ** More on [auth_check2] *)

Module AuthFacts.

Import Conn World Response Auth.
Local Open Scope Z_scope.

Lemma httpd_send_err_extraheads w hc st title extra form arg :
  mime_flag hc = true -> extra <> [] ->
  In (Raw extra) (response (httpd_send_err w hc st title extra form arg)).
Proof.
  intros Hm He.
  assert (forall e ty l m,
            In (Raw extra) (response (send_mime w hc st title e extra ty l m)))
    as K by (intros; apply RequestFacts.send_mime_extraheads; assumption).
  unfold httpd_send_err, send_err_file, send_response.
  assert (In (Raw extra)
            (response
               match err_file w [] st with
               | Some page =>
                   add_response (Raw page)
                     (send_mime w hc st title [] extra
                        (lit "text/html; charset=%s") (-1) 0)
               | None =>
                   add_response ResponseTail
                     (add_response
                        (ErrorBody st title form (Defang.defang arg 1000))
                        (send_mime w hc st title [] extra
                           (lit "text/html; charset=%s") (-1) 0))
               end)) as K2.
  { destruct (err_file w [] st); cbn [response add_response set_response];
      repeat (apply in_or_app; left); apply K. }
  destruct (vhost (hs hc) && _).
  - destruct (err_file w (hostdir hc) st).
    + cbn [response add_response set_response]. apply in_or_app. left. apply K.
    + destruct (err_file w [] st); exact K2.
  - destruct (err_file w [] st); exact K2.
Qed.

(** The challenge [send_authenticate] sends for a realm. *)
Definition challenge (realm : cstring) : cstring :=
  lit "WWW-Authenticate: Basic realm=" ++ [dquote] ++ realm ++ [dquote] ++ crlf.

Lemma send_authenticate_reply w hc realm :
  mime_flag hc = true ->
  status (send_authenticate w hc realm) = 401 /\
  In (Raw (challenge realm)) (response (send_authenticate w hc realm)).
Proof.
  intros Hm. unfold send_authenticate.
  set (hc1 := httpd_send_err _ _ _ _ _ _ _).
  assert (status hc1 = 401) as Hs by (apply httpd_send_err_status; lia).
  assert (In (Raw (challenge realm)) (response hc1)) as Hr.
  { apply httpd_send_err_extraheads; [exact Hm|]. discriminate. }
  destruct (method_ hc1); split; assumption.
Qed.

(** X17. A protected directory challenges a request without usable
    credentials: if the directory has a password file and the request
    carries no [Authorization] header, or one that is not of the Basic
    scheme, or one whose decoded text holds no colon, [auth_check2]
    returns -1 with status 401 and a [WWW-Authenticate] header naming
    the directory as the realm. *)
Theorem missing_credentials_are_challenged (w : world) (hc : httpd_conn)
  (dir : cstring) (sbuf : stat_buf) :
  lstat w (dir ++ lit "/" ++ AUTH_FILE w) = Some sbuf ->
  mime_flag hc = true ->
  credentials w hc = None ->
  fst (auth_check2 w hc dir) = -1 /\
  status (snd (auth_check2 w hc dir)) = 401 /\
  In (Raw (challenge dir)) (response (snd (auth_check2 w hc dir))) /\
  (authorization hc = [] \/
   strncmp (authorization hc) (lit "Basic ") 6 <> 0 \/
   strchr (b64_decode w (skipn 6 (authorization hc))) ":" = None).
Proof.
  intros Hl Hm Hc. unfold auth_check2.
  set (hc1 := set_authpath _ hc).
  change (authpath hc1) with (dir ++ lit "/" ++ AUTH_FILE w).
  rewrite Hl.
  change (credentials w hc1) with (credentials w hc). rewrite Hc.
  cbn [fst snd].
  destruct (send_authenticate_reply w hc1 dir Hm) as [Hs Hr].
  repeat split; try assumption.
  unfold credentials in Hc.
  destruct (authorization hc) as [|c t] eqn:Ea; [left; reflexivity|right].
  destruct (Z.eqb_spec (strncmp (c :: t) (lit "Basic ") 6) 0) as [E|E];
    [right|left; exact E].
  destruct (strchr (b64_decode w (skipn 6 (c :: t))) ":"); [discriminate|].
  reflexivity.
Qed.

Lemma missing_credentials_are_challenged_witness :
  fst (auth_check2 (Sample.world_of sample_passwd)
         (fresh_conn Sample.server 0) (lit ".")) = -1 /\
  status (snd (auth_check2 (Sample.world_of sample_passwd)
                 (fresh_conn Sample.server 0) (lit "."))) = 401 /\
  In (Raw (challenge (lit ".")))
     (response (snd (auth_check2 (Sample.world_of sample_passwd)
                       (fresh_conn Sample.server 0) (lit ".")))) /\
  (authorization (fresh_conn Sample.server 0) = [] \/
   strncmp (authorization (fresh_conn Sample.server 0)) (lit "Basic ") 6 <> 0 \/
   strchr (b64_decode (Sample.world_of sample_passwd)
             (skipn 6 (authorization (fresh_conn Sample.server 0)))) ":"
   = None).
Proof.
  refine (missing_credentials_are_challenged (Sample.world_of sample_passwd)
            (fresh_conn Sample.server 0) (lit ".") _ _ _ _).
  - vm_compute. reflexivity.
  - reflexivity.
  - reflexivity.
Defined.

(** *** The cache of the last accepted user *)

Lemma same_refl a : same a a = true.
Proof. unfold same. rewrite CStrFacts.strcmp_refl. reflexivity. Qed.

Lemma auth_scan_accepted w authinfo authpass lines user cryp :
  auth_scan w authinfo authpass lines = Accepted user cryp ->
  exists r, crypt w authpass cryp = Some r /\ same r cryp = true.
Proof.
  induction lines as [|raw lines IH]; cbn [auth_scan]; [discriminate|].
  destruct (entry raw) as [[u c]|]; [|exact IH].
  destruct (same u authinfo); [|exact IH].
  unfold judge. destruct (crypt w authpass c) as [r|] eqn:E; [|discriminate].
  destruct (same r c) eqn:Es; [|discriminate].
  intros [= <- <-]. eauto.
Qed.

(** What the cache holds after an accepted request: the entry the
    next request with the same credentials will be checked against. *)
Lemma accepted_request_is_cached w hc dir hc1 sbuf authinfo authpass :
  lstat w (dir ++ lit "/" ++ AUTH_FILE w) = Some sbuf ->
  credentials w hc = Some (authinfo, authpass) ->
  auth_check2 w hc dir = (1, hc1) ->
  maxprevauthpath hc1 = maxprevauthpath hc /\
  same (dir ++ lit "/" ++ AUTH_FILE w) (prevauthpath hc1) = true /\
  st_mtime sbuf = prevmtime hc1 /\
  same authinfo (prevuser hc1) = true /\
  exists r, crypt w authpass (prevcryp hc1) = Some r /\
            same r (prevcryp hc1) = true.
Proof.
  intros Hl Hc. unfold auth_check2.
  set (hc0 := set_authpath _ hc).
  change (authpath hc0) with (dir ++ lit "/" ++ AUTH_FILE w).
  rewrite Hl.
  change (credentials w hc0) with (credentials w hc). rewrite Hc.
  destruct (cache_hit hc0 (st_mtime sbuf) authinfo) eqn:Eh.
  - unfold cache_hit in Eh.
    apply andb_prop in Eh as [Eh Eu]. apply andb_prop in Eh as [Eh Em].
    apply andb_prop in Eh as [_ Ep].
    change (authpath hc0) with (dir ++ lit "/" ++ AUTH_FILE w) in Ep.
    destruct (crypt w authpass (prevcryp hc0)) as [r|] eqn:Ec;
      [|intros [= ? _]; lia].
    destruct (same r (prevcryp hc0)) eqn:Es; [|intros [= ? _]; lia].
    intros [= <-]. cbn. repeat split; try assumption.
    + apply Z.eqb_eq. exact Em.
    + exists r. split; assumption.
  - destruct (fopen w _) as [content|]; [|intros [= ? _]; lia].
    destruct (auth_scan w authinfo authpass (Access.file_lines content))
      as [user cryp| | |] eqn:Escan; try (intros [= ? _]; lia).
    apply auth_scan_accepted in Escan as [r [Er Es]].
    intros [= <-]. cbn. repeat split.
    + apply same_refl.
    + apply same_refl.
    + exists r. split; assumption.
Qed.

(** X18. An accepted request is answered from the cache the next
    time: after [auth_check2] has returned 1 on a connection, the next
    request on it that carries the same [Authorization] header for the
    same directory is accepted again, as long as the password file has
    the same modification time, whatever the file holds by then. *)
Theorem accepted_credentials_are_cached (w w' : world) (hc hc1 : httpd_conn)
  (dir : cstring) (sbuf sbuf' : stat_buf) :
  maxprevauthpath hc <> 0 ->
  lstat w (dir ++ lit "/" ++ AUTH_FILE w) = Some sbuf ->
  auth_check2 w hc dir = (1, hc1) ->
  AUTH_FILE w' = AUTH_FILE w ->
  lstat w' (dir ++ lit "/" ++ AUTH_FILE w) = Some sbuf' ->
  st_mtime sbuf' = st_mtime sbuf ->
  (forall key salt, crypt w' key salt = crypt w key salt) ->
  (forall text, b64_decode w' text = b64_decode w text) ->
  let next := set_authorization (authorization hc)
                (httpd_init_conn_content hc1) in
  fst (auth_check2 w' next dir) = 1 /\
  response (snd (auth_check2 w' next dir)) = [].
Proof.
  intros Hmax Hl H1 Hfile Hl' Hmt Hcrypt Hb64 next.
  assert (exists authinfo authpass,
            credentials w hc = Some (authinfo, authpass))
    as (authinfo & authpass & Hc).
  { revert H1. unfold auth_check2.
    change (authpath (set_authpath (dir ++ lit "/" ++ AUTH_FILE w) hc))
      with (dir ++ lit "/" ++ AUTH_FILE w).
    rewrite Hl.
    change (credentials w (set_authpath (dir ++ lit "/" ++ AUTH_FILE w) hc))
      with (credentials w hc).
    destruct (credentials w hc) as [[a p]|]; [eauto|intros [= ? _]; lia]. }
  destruct (accepted_request_is_cached w hc dir hc1 sbuf authinfo authpass
              Hl Hc H1) as (Emax & Epath & Emt & Euser & r & Er & Es).
  assert (credentials w' next = Some (authinfo, authpass)) as Hc'.
  { rewrite <- Hc. unfold credentials, next.
    cbn [authorization set_authorization]. rewrite !Hb64. reflexivity. }
  unfold auth_check2. rewrite Hfile.
  set (next0 := set_authpath _ next).
  change (authpath next0) with (dir ++ lit "/" ++ AUTH_FILE w).
  rewrite Hl'.
  change (credentials w' next0) with (credentials w' next). rewrite Hc'.
  assert (cache_hit next0 (st_mtime sbuf') authinfo = true) as ->.
  { unfold cache_hit.
    change (maxprevauthpath next0) with (maxprevauthpath hc1).
    change (authpath next0) with (dir ++ lit "/" ++ AUTH_FILE w).
    change (prevauthpath next0) with (prevauthpath hc1).
    change (prevmtime next0) with (prevmtime hc1).
    change (prevuser next0) with (prevuser hc1).
    rewrite Emax, Epath, Euser, Hmt, Emt, Z.eqb_refl.
    destruct (Z.eqb_spec (maxprevauthpath hc) 0); [contradiction|].
    reflexivity. }
  change (prevcryp next0) with (prevcryp hc1).
  rewrite Hcrypt, Er, Es. split; reflexivity.
Qed.

Lemma accepted_credentials_are_cached_witness :
  fst (auth_check2 (Sample.world_of [(lit "./.htpasswd", lit "bob:changed")])
         (set_authorization (authorization (bob_with "alpha"))
            (httpd_init_conn_content
               (snd (auth_check2 (Sample.world_of sample_passwd)
                       (bob_with "alpha") (lit ".")))))
         (lit ".")) = 1 /\
  response
    (snd (auth_check2 (Sample.world_of [(lit "./.htpasswd", lit "bob:changed")])
            (set_authorization (authorization (bob_with "alpha"))
               (httpd_init_conn_content
                  (snd (auth_check2 (Sample.world_of sample_passwd)
                          (bob_with "alpha") (lit ".")))))
            (lit "."))) = [].
Proof.
  refine (accepted_credentials_are_cached
            (Sample.world_of sample_passwd)
            (Sample.world_of [(lit "./.htpasswd", lit "bob:changed")])
            (bob_with "alpha")
            (snd (auth_check2 (Sample.world_of sample_passwd)
                    (bob_with "alpha") (lit ".")))
            (lit ".")
            {| st_mode := S_IFREG + 420; st_size := 19; st_mtime := 500 |}
            {| st_mode := S_IFREG + 420; st_size := 11; st_mtime := 500 |}
            _ _ _ _ _ _ _ _).
  - vm_compute. discriminate.
  - vm_compute. reflexivity.
  - vm_compute. reflexivity.
  - reflexivity.
  - vm_compute. reflexivity.
  - reflexivity.
  - reflexivity.
  - reflexivity.
Defined.

End AuthFacts.

(** ** Sizes: [humane_size] and [httpd_realloc_str] *)

Module Numbers.

Import Conn.
Local Open Scope Z_scope.

(** The units of [humane_size], [mult]. *)
Definition mult : list cstring :=
  [lit ""; lit "k"; lit "M"; lit "G"; lit "T"; lit "P"].

(** The loop [while (bytes > 1000 && i < NELEMS(mult))]; [left] is
    [NELEMS(mult) - i]. *)
Fixpoint scale (left : nat) (bytes : Z) (i : nat) : Z * nat :=
  match left with
  | O => (bytes, i)
  | S left' =>
      if 1000 <? bytes then scale left' (Z.quot bytes 1000) (S i)
      else (bytes, i)
  end.

(** What [humane_size] prints. *)
Inductive size_text :=
| Dash                               (* a directory *)
| Amount (n : Z) (unit : cstring)    (* the number and its unit *)
| Overrun (n : Z) (i : nat).         (* [mult[i]] read past the table *)

Definition humane_size (st : stat_buf) : size_text :=
  if S_ISDIR (st_mode st) then Dash
  else
    let '(bytes, i) := scale (length mult) (st_size st) 0 in
    match nth_error mult i with
    | Some unit => Amount bytes unit
    | None => Overrun bytes i
    end.

Lemma scale_spec left : forall bytes i,
  0 <= bytes ->
  let '(n, j) := scale left bytes i in
  (i <= j <= i + left)%nat /\
  n = bytes / 1000 ^ Z.of_nat (j - i) /\
  ((j < i + left)%nat -> n <= 1000) /\
  ((j = i + left)%nat ->
   left = O \/ 1000 < bytes / 1000 ^ Z.of_nat (left - 1)).
Proof.
  induction left as [|left IH]; intros bytes i Hb; cbn [scale].
  - rewrite Nat.sub_diag. cbn. rewrite Z.div_1_r.
    repeat split; try lia; auto.
  - destruct (Z.ltb_spec 1000 bytes) as [Hgt|Hle].
    + assert (0 <= Z.quot bytes 1000) as Hq
        by (rewrite Z.quot_div_nonneg by lia; apply Z.div_pos; lia).
      specialize (IH (Z.quot bytes 1000) (S i) Hq).
      destruct (scale left (Z.quot bytes 1000) (S i)) as [n j].
      destruct IH as (Hj & Hn & Hsmall & Hfull).
      rewrite Z.quot_div_nonneg in Hn, Hfull by lia.
      repeat split; try lia.
      * rewrite Hn.
        replace (Z.of_nat (j - i)) with (1 + Z.of_nat (j - S i)) by lia.
        rewrite Z.pow_add_r, Z.pow_1_r by lia.
        rewrite Z.div_div by lia. reflexivity.
      * intros Hje. right. destruct (Hfull ltac:(lia)) as [-> | Hbig].
        -- cbn. rewrite Z.div_1_r. exact Hgt.
        -- destruct left as [|left']; [cbn; rewrite Z.div_1_r; exact Hgt|].
           replace (Z.of_nat (S (S left') - 1))
             with (1 + Z.of_nat (S left' - 1)) by lia.
           rewrite Z.pow_add_r, Z.pow_1_r by lia.
           rewrite <- Z.div_div by lia. exact Hbig.
    + rewrite Nat.sub_diag. cbn [Z.of_nat Z.pow]. rewrite Z.div_1_r.
      repeat split; try lia.
Qed.

(** X19. [humane_size] stays inside its table of units exactly for
    sizes below 1001 * 1000^5: for a file that is not a directory and
    has such a size, the text shows a number of at most 1000, the size
    divided by the power of 1000 that goes with the unit; from that size
    on it reads [mult] past its last entry. *)
Theorem humane_size_units (st : stat_buf) :
  S_ISDIR (st_mode st) = false ->
  0 <= st_size st ->
  (st_size st < 1001 * 1000 ^ 5 ->
   exists n i unit,
     humane_size st = Amount n unit /\
     nth_error mult i = Some unit /\
     n = st_size st / 1000 ^ Z.of_nat i /\ n <= 1000) /\
  (1001 * 1000 ^ 5 <= st_size st ->
   exists n, humane_size st = Overrun n 6).
Proof.
  intros Hd Hs. unfold humane_size. rewrite Hd.
  pose proof (scale_spec (length mult) (st_size st) 0 Hs) as H.
  destruct (scale (length mult) (st_size st) 0) as [n j].
  destruct H as (Hj & Hn & Hsmall & Hfull).
  rewrite Nat.sub_0_r in Hn. change (length mult) with 6%nat in *.
  cbn [Nat.add] in *.
  split.
  - intros Hlt.
    assert (j < 6 \/ j = 6)%nat as [Hj6|Hj6] by lia.
    + destruct (nth_error mult j) as [unit|] eqn:Eu.
      * exists n, j, unit. repeat split; auto.
      * apply nth_error_None in Eu. cbn in Eu. lia.
    + exfalso. destruct (Hfull Hj6) as [|Hbig]; [discriminate|].
      change (Z.of_nat (6 - 1)) with 5 in Hbig.
      pose proof (Z.mul_div_le (st_size st) (1000 ^ 5) ltac:(lia)). lia.
  - intros Hge.
    assert (j < 6 \/ j = 6)%nat as [Hj6|Hj6] by lia.
    + exfalso. specialize (Hsmall Hj6).
      assert (1001 <= st_size st / 1000 ^ 5) as H5
        by (apply Z.div_le_lower_bound; lia).
      assert (st_size st / 1000 ^ 5 <= st_size st / 1000 ^ Z.of_nat j) as Hm.
      { apply Z.div_le_compat_l; [lia|]. split; [apply Z.pow_pos_nonneg; lia|].
        apply Z.pow_le_mono_r; lia. }
      lia.
    + subst j. exists n. reflexivity.
Qed.

Lemma humane_size_units_witness :
  (1234567 < 1001 * 1000 ^ 5 ->
   exists n i unit,
     humane_size {| st_mode := S_IFREG + 420; st_size := 1234567;
                    st_mtime := 0 |} = Amount n unit /\
     nth_error mult i = Some unit /\
     n = 1234567 / 1000 ^ Z.of_nat i /\ n <= 1000) /\
  (1001 * 1000 ^ 5 <= 1234567 ->
   exists n, humane_size {| st_mode := S_IFREG + 420; st_size := 1234567;
                            st_mtime := 0 |} = Overrun n 6).
Proof.
  apply (humane_size_units
           {| st_mode := S_IFREG + 420; st_size := 1234567; st_mtime := 0 |}).
  - reflexivity.
  - cbn. lia.
Defined.

(** A file of a million bytes is shown as [1000k], not [1M]: the loop
    divides only while the number is above 1000. *)
Example humane_size_million :
  humane_size {| st_mode := S_IFREG + 420; st_size := 1000000; st_mtime := 0 |}
  = Amount 1000 (lit "k").
Proof. reflexivity. Qed.

(** [size_t] arithmetic, 64 bits wide. *)
Definition SIZE_MAX : Z := 2 ^ 64 - 1.

Definition size_t (n : Z) : Z := n mod 2 ^ 64.

(** [httpd_realloc_str]: the new value of [*curr_len].  The buffer
    holds [*curr_len + 1] bytes afterwards; an allocation that fails
    ends the program. *)
Definition httpd_realloc_str (curr_len new_len : Z) : Z :=
  if curr_len =? 0 then Z.max 200 (size_t (new_len + 100))
  else if new_len >? curr_len then
    Z.max (size_t (curr_len * 2)) (size_t (new_len * 5) / 4)
  else curr_len.

(** X20. [httpd_realloc_str] makes room for what was asked and never
    shrinks a buffer: as long as five times the new length fits in a
    [size_t], the capacity afterwards is at least the new length, at
    least the old capacity, and at least 200 where something had to be
    allocated; a buffer that is large enough is left as it is. *)
Theorem httpd_realloc_str_makes_room (curr_len new_len : Z) :
  0 <= curr_len <= SIZE_MAX ->
  0 <= new_len ->
  new_len * 5 <= SIZE_MAX ->
  new_len <= httpd_realloc_str curr_len new_len <= SIZE_MAX /\
  curr_len <= httpd_realloc_str curr_len new_len /\
  (curr_len = 0 -> 200 <= httpd_realloc_str curr_len new_len) /\
  (curr_len <> 0 -> new_len <= curr_len ->
   httpd_realloc_str curr_len new_len = curr_len).
Proof.
  unfold httpd_realloc_str, size_t, SIZE_MAX. intros Hc Hn H5.
  destruct (Z.eqb_spec curr_len 0) as [->|Hc0].
  - rewrite Z.mod_small by lia. repeat split; lia.
  - destruct (Z.gtb_spec new_len curr_len) as [Hgt|Hle].
    + rewrite (Z.mod_small (new_len * 5)) by lia.
      assert (new_len <= new_len * 5 / 4)
        by (apply Z.div_le_lower_bound; lia).
      assert (new_len * 5 / 4 <= 2 ^ 64 - 1)
        by (apply Z.div_le_upper_bound; lia).
      pose proof (Z.mod_pos_bound (curr_len * 2) (2 ^ 64) ltac:(lia)).
      repeat split; lia.
    + repeat split; lia.
Qed.

Lemma httpd_realloc_str_makes_room_witness :
  300 <= httpd_realloc_str 200 300 <= SIZE_MAX /\
  200 <= httpd_realloc_str 200 300 /\
  (200 = 0 -> 200 <= httpd_realloc_str 200 300) /\
  (200 <> 0 -> 300 <= 200 -> httpd_realloc_str 200 300 = 200).
Proof.
  apply (httpd_realloc_str_makes_room 200 300); unfold SIZE_MAX; lia.
Defined.

(** Beyond that bound the product wraps, and the buffer can come out
    smaller than what was asked for. *)
Example httpd_realloc_str_wraps :
  httpd_realloc_str 200 (2 ^ 62) = 2 ^ 60.
Proof. reflexivity. Qed.

End Numbers.

(** ** The redirect to a directory, with its buffers *)

Module Redirect.

Import Conn World Response Request.
Local Open Scope Z_scope.

(** [snprintf(buf, size, ...)] for a [size] above 0: the text, cut to
    [size - 1] bytes. *)
Definition snprintf (size : Z) (text : cstring) : cstring :=
  firstn (Z.to_nat (size - 1)) text.

(** [send_dirredirect] with its two static buffers.  [maxlocation] and
    [maxheader] are the capacities that earlier calls have left in the
    statics (0 before the first call); the result gives the new ones.
    The second request is for [sizeof(headstr) + strlen(location)]
    bytes, and both [snprintf] are bounded by the capacity. *)
Definition send_dirredirect_static (w : world) (maxlocation maxheader : Z)
  (hc : httpd_conn) : Z * Z * httpd_conn :=
  let '(hc, text) :=
    match query hc with
    | _ :: _ =>
        let hc := match strchr (encodedurl hc) "?" with
                  | Some cp => set_encodedurl (firstn cp (encodedurl hc)) hc
                  | None => hc
                  end in
        (hc, encodedurl hc ++ lit "/?" ++ query hc)
    | [] => (hc, encodedurl hc ++ lit "/")
    end in
  let maxlocation :=
    Numbers.httpd_realloc_str maxlocation (Z.of_nat (length text)) in
  let location := snprintf maxlocation text in
  let maxheader :=
    Numbers.httpd_realloc_str maxheader (11 + Z.of_nat (length location)) in
  let header := snprintf maxheader (lit "Location: " ++ location ++ crlf) in
  (maxlocation, maxheader,
   send_response w hc 302 err302title header err302form location).

(** What [httpd_realloc_str] can have left in a static capacity. *)
Definition capacity (c : Z) : Prop :=
  c = 0 \/ 200 <= c <= Numbers.SIZE_MAX.

(** The address the redirect names: the URL without its query, a
    slash, and the query again if there is one. *)
Definition redirect_location (hc : httpd_conn) : cstring :=
  match query hc with
  | [] => encodedurl hc ++ lit "/"
  | _ :: _ =>
      match strchr (encodedurl hc) "?" with
      | Some cp => firstn cp (encodedurl hc)
      | None => encodedurl hc
      end ++ lit "/?" ++ query hc
  end.

Lemma realloc_small c n :
  capacity c -> 0 <= n <= 199 ->
  200 <= Numbers.httpd_realloc_str c n <= Numbers.SIZE_MAX.
Proof.
  unfold capacity, Numbers.httpd_realloc_str, Numbers.size_t, Numbers.SIZE_MAX.
  intros [-> | Hc] Hn.
  - cbn [Z.eqb]. rewrite Z.mod_small by lia. lia.
  - destruct (Z.eqb_spec c 0); [lia|].
    destruct (Z.gtb_spec n c); lia.
Qed.

Lemma snprintf_fits size text :
  200 <= size -> (length text <= 199)%nat -> snprintf size text = text.
Proof.
  intros Hs Hl. unfold snprintf. apply firstn_all2. lia.
Qed.

(** With at most 187 bytes to name, nothing is cut, whatever the
    earlier redirects were: the buffers give what the strings give. *)
Lemma send_dirredirect_fits w maxlocation maxheader hc :
  capacity maxlocation -> capacity maxheader ->
  (length (redirect_location hc) <= 187)%nat ->
  snd (send_dirredirect_static w maxlocation maxheader hc)
  = send_dirredirect w hc.
Proof.
  intros Hl Hh Hlen.
  unfold send_dirredirect_static, send_dirredirect, redirect_location in *.
  destruct (query hc) as [|q qs] eqn:Eq.
  - set (text := encodedurl hc ++ lit "/") in *.
    pose proof (realloc_small maxlocation (Z.of_nat (length text)) Hl
                  ltac:(lia)) as H1.
    rewrite (snprintf_fits _ text) by lia.
    pose proof (realloc_small maxheader (11 + Z.of_nat (length text)) Hh
                  ltac:(lia)) as H2.
    rewrite snprintf_fits; [reflexivity|lia|].
    rewrite !length_app. cbn [length lit list_ascii_of_string crlf]. lia.
  - destruct (strchr (encodedurl hc) "?") as [cp|].
    + cbn [query encodedurl set_encodedurl]. rewrite Eq.
      set (text := firstn cp (encodedurl hc) ++ lit "/?" ++ q :: qs) in *.
      pose proof (realloc_small maxlocation (Z.of_nat (length text)) Hl
                    ltac:(lia)) as H1.
      rewrite (snprintf_fits _ text) by lia.
      pose proof (realloc_small maxheader (11 + Z.of_nat (length text)) Hh
                    ltac:(lia)) as H2.
      rewrite snprintf_fits; [reflexivity|lia|].
      rewrite !length_app. cbn [length lit list_ascii_of_string crlf].
      fold text. lia.
    + rewrite Eq.
      set (text := encodedurl hc ++ lit "/?" ++ q :: qs) in *.
      pose proof (realloc_small maxlocation (Z.of_nat (length text)) Hl
                    ltac:(lia)) as H1.
      rewrite (snprintf_fits _ text) by lia.
      pose proof (realloc_small maxheader (11 + Z.of_nat (length text)) Hh
                    ltac:(lia)) as H2.
      rewrite snprintf_fits; [reflexivity|lia|].
      rewrite !length_app. cbn [length lit list_ascii_of_string crlf].
      fold text. lia.
Qed.

(** X14. A directory asked for without its final slash is answered
    with a redirect: for an address of at most 187 bytes (the URL, the
    slash and the query), status 302, return value -1, and a
    [Location] header that names the URL with the slash put before the
    query; this is what the static buffers of [send_dirredirect] hold
    whatever capacities earlier redirects have left in them. *)
Theorem directory_without_slash_is_redirected (w : world) (hc : httpd_conn)
  (st : stat_buf) (maxlocation maxheader : Z) :
  RequestFacts.served (method_ hc) = true ->
  mmc_icon_check w (pathinfo hc) = None ->
  stat w (expnfilename hc) = Some st ->
  world_readable (st_mode st) = true ->
  S_ISDIR (st_mode st) = true ->
  pathinfo hc = [] ->
  mime_flag hc = true ->
  Symlinks.nul_free (origfilename hc) ->
  origfilename hc <> [] -> origfilename hc <> lit "." ->
  last (origfilename hc) NUL <> "/"%char ->
  capacity maxlocation -> capacity maxheader ->
  (length (redirect_location hc) <= 187)%nat ->
  exists hc',
    really_start_request w hc = Some (-1, hc') /\
    hc' = snd (send_dirredirect_static w maxlocation maxheader (set_sb st hc)) /\
    status hc' = 302 /\
    In (Raw (lit "Location: " ++ redirect_location hc ++ crlf)) (response hc').
Proof.
  intros Hm Hi Hs Hr Hd Hp Hmime Hz Ho1 Ho2 Hlast Hcl Hch Hlen.
  rewrite (RequestFacts.served_request w hc Hm Hi), Hs.
  cbn zeta. cbn [sb set_sb].
  rewrite Hr, Hd. cbn [negb]. unfold directory.
  change (pathinfo (set_sb st hc)) with (pathinfo hc). rewrite Hp.
  change (origfilename (set_sb st hc)) with (origfilename hc).
  rewrite (CStrFacts.strcmp_neq _ [] Hz CStrFacts.nul_free_nil Ho1).
  rewrite (CStrFacts.strcmp_neq _ (lit ".") Hz CStrFacts.nul_free_lit_dot Ho2).
  rewrite (ascii_eqb_neq _ _ Hlast). cbn [negb andb].
  eexists. split; [reflexivity|].
  split; [symmetry; apply send_dirredirect_fits; assumption|].
  unfold send_dirredirect, redirect_location.
  change (query (set_sb st hc)) with (query hc).
  change (encodedurl (set_sb st hc)) with (encodedurl hc).
  destruct (query hc) as [|q qs] eqn:Eq.
  - split; [apply RequestFacts.send_response_status; lia|].
    unfold send_response. cbn [response add_response set_response].
    apply in_or_app. left. apply in_or_app. left.
    apply RequestFacts.send_mime_extraheads; [exact Hmime|discriminate].
  - destruct (strchr (encodedurl hc) "?") as [cp|].
    + split; [apply RequestFacts.send_response_status; lia|].
      unfold send_response. cbn [response add_response set_response].
      apply in_or_app. left. apply in_or_app. left.
      cbn [query encodedurl set_encodedurl set_sb]. rewrite Eq.
      apply RequestFacts.send_mime_extraheads; [exact Hmime|discriminate].
    + split; [apply RequestFacts.send_response_status; lia|].
      unfold send_response. cbn [response add_response set_response].
      apply in_or_app. left. apply in_or_app. left.
      cbn [query encodedurl set_sb]. rewrite Eq.
      apply RequestFacts.send_mime_extraheads; [exact Hmime|discriminate].
Qed.

(** A document root with one directory, [docs]. *)
Definition docs_world : world :=
  Sample.sample_world (fun _ => None)
    (fun p => if Symlinks.cstr_eqb p (lit "docs")
              then Some {| st_mode := S_IFDIR + 493; st_size := 4096;
                           st_mtime := 500 |}
              else None).

Definition docs_stat : stat_buf :=
  {| st_mode := S_IFDIR + 493; st_size := 4096; st_mtime := 500 |}.

Lemma directory_without_slash_is_redirected_witness :
  exists hc',
    really_start_request docs_world (request METHOD_GET "docs")
    = Some (-1, hc') /\
    hc' = snd (send_dirredirect_static docs_world 200 200
                 (set_sb docs_stat (request METHOD_GET "docs"))) /\
    status hc' = 302 /\
    In (Raw (lit "Location: " ++ redirect_location (request METHOD_GET "docs")
             ++ crlf)) (response hc').
Proof.
  apply (directory_without_slash_is_redirected docs_world
           (request METHOD_GET "docs") docs_stat 200 200);
    try reflexivity; try discriminate.
  - unfold Symlinks.nul_free. cbn. intuition discriminate.
  - right. unfold Numbers.SIZE_MAX. lia.
  - right. unfold Numbers.SIZE_MAX. lia.
  - cbn. lia.
Defined.

(** A URL of [n + 1] bytes. *)
Definition long_url (n : nat) : cstring := "/"%char :: repeat "d"%char n.

Definition long_request (n : nat) : httpd_conn :=
  set_encodedurl (long_url n) (request METHOD_GET "docs").

(** After an earlier redirect has left both capacities at 200, the
    address of a URL of 199 bytes fills its buffer without the slash,
    and the header names the directory as it was asked for. *)
Example later_redirect_loses_the_slash :
  In (Raw (lit "Location: " ++ long_url 198 ++ crlf))
     (response (snd (send_dirredirect_static docs_world 200 200
                       (long_request 198)))) /\
  fst (send_dirredirect_static docs_world 200 200 (long_request 198))
  = (200, 400).
Proof. split; vm_compute; [tauto|reflexivity]. Qed.

(** And the header of a URL of 188 bytes fills its buffer without the
    line end. *)
Example later_redirect_loses_the_line_end :
  In (Raw (lit "Location: " ++ long_url 187 ++ lit "/"))
     (response (snd (send_dirredirect_static docs_world 200 200
                       (long_request 187)))) /\
  fst (send_dirredirect_static docs_world 200 200 (long_request 187))
  = (200, 200).
Proof. split; vm_compute; [tauto|reflexivity]. Qed.

End Redirect.

(** ** [expand_symlinks] on a tree without symbolic links *)

Module SymlinkFacts.

Import Symlinks.

(** A path written from its components. *)
Fixpoint join (comps : list cstring) : cstring :=
  match comps with
  | [] => []
  | c :: comps' =>
      match comps' with
      | [] => c
      | _ :: _ => c ++ "/"%char :: join comps'
      end
  end.

(** The value [expand_symlinks] returns for the components [pre]. *)
Definition checked_of (pre : list cstring) : cstring :=
  match pre with
  | [] => lit "."
  | _ :: _ => join pre
  end.

Lemma join_cons c d rest :
  join (c :: d :: rest) = c ++ "/"%char :: join (d :: rest).
Proof. reflexivity. Qed.

Lemma join_snoc : forall pre c,
  pre <> [] -> join (pre ++ [c]) = join pre ++ "/"%char :: c.
Proof.
  induction pre as [|a pre IH]; intros c Hne; [congruence|].
  destruct pre as [|b pre]; [reflexivity|].
  change (join ((a :: b :: pre) ++ [c]))
    with (a ++ "/"%char :: join ((b :: pre) ++ [c])).
  rewrite IH by discriminate. rewrite join_cons, <- app_assoc. reflexivity.
Qed.

Lemma join_nonempty c comps :
  comp_ok c -> join (c :: comps) <> [].
Proof.
  intros [Hne _]. destruct comps; cbn [join]; [assumption|].
  destruct c; [congruence|discriminate].
Qed.

Lemma join_last_not_slash : forall comps,
  Forall comp_ok comps -> comps <> [] ->
  nth_error (join comps) (length (join comps) - 1) <> Some "/"%char.
Proof.
  induction comps as [|c comps IH]; intros H Hne; [congruence|].
  inversion H as [|? ? Hc Hrest]; subst.
  destruct comps as [|d comps].
  - cbn [join]. intros E. apply nth_error_In in E.
    destruct Hc as (_ & Hs & _). exact (Hs E).
  - rewrite join_cons.
    pose proof (join_nonempty d comps (Forall_inv Hrest)) as Hd.
    assert (0 < length (join (d :: comps))) as Hl
      by (destruct (join (d :: comps)); [congruence|simpl; lia]).
    rewrite length_app. cbn [length].
    rewrite nth_error_app2 by lia.
    replace (length c + S (length (join (d :: comps))) - 1 - length c)
      with (S (length (join (d :: comps)) - 1)) by lia.
    cbn [nth_error]. apply IH; [assumption|discriminate].
Qed.

Lemma length_join : forall comps,
  Forall comp_ok comps -> length comps <= length (join comps).
Proof.
  induction comps as [|c comps IH]; intros H; [simpl; lia|].
  inversion H as [|? ? Hc Hrest]; subst.
  assert (0 < length c) as Hl
    by (destruct Hc as [Hne _]; destruct c; [congruence|simpl; lia]).
  destruct comps as [|d comps]; [simpl; lia|].
  rewrite join_cons, length_app. cbn [length].
  specialize (IH Hrest). cbn [length] in IH. lia.
Qed.

Lemma strchr_component c tail :
  ~ In "/"%char c -> strchr (c ++ "/"%char :: tail) "/" = Some (length c).
Proof.
  induction c as [|a c IH]; intros H; cbn [strchr app length].
  - rewrite ascii_eqb_refl. reflexivity.
  - rewrite ascii_eqb_neq by (intros ->; apply H; left; reflexivity).
    rewrite IH by (intros Hin; apply H; right; exact Hin). reflexivity.
Qed.

Lemma strchr_absent c : ~ In "/"%char c -> strchr c "/" = None.
Proof.
  induction c as [|a c IH]; intros H; cbn [strchr]; [reflexivity|].
  rewrite ascii_eqb_neq by (intros ->; apply H; left; reflexivity).
  rewrite IH by (intros Hin; apply H; right; exact Hin). reflexivity.
Qed.

(** A component that is not [..] is not taken for one, whatever
    follows its slash. *)
Lemma strncmp_component c tail :
  comp_ok c ->
  (strncmp (c ++ "/"%char :: tail) (lit "..") (Nat.max (length c) 2) =? 0)%Z
  = false.
Proof.
  intros (Hne & Hs & Hd & Hz). apply Z.eqb_neq. intros E.
  destruct c as [|a c]; [congruence|].
  assert (a <> NUL) as Ha by (intros ->; apply Hz; left; reflexivity).
  destruct c as [|b c].
  - (* one byte, then the slash *)
    cbn in E.
    destruct (Z.eqb_spec (uchar a - 46) 0) as [_|]; [|lia].
    cbn in E. discriminate E.
  - assert (b <> NUL) as Hb
      by (intros ->; apply Hz; right; left; reflexivity).
    destruct c as [|d c].
    + change (strncmp ([a; b] ++ "/"%char :: tail) (lit "..")
                (Nat.max (length [a; b]) 2))
        with (if (uchar a - uchar "."%char =? 0)%Z
              then if (uchar b - uchar "."%char =? 0)%Z then 0%Z
                   else (uchar b - uchar "."%char)%Z
              else (uchar a - uchar "."%char)%Z) in E.
      destruct (Z.eqb_spec (uchar a - uchar "."%char) 0) as [Ea|]; [|lia].
      destruct (Z.eqb_spec (uchar b - uchar "."%char) 0) as [Eb|]; [|lia].
      apply Hd.
      assert (a = "."%char) as -> by (apply Mime.uchar_inj; lia).
      assert (b = "."%char) as -> by (apply Mime.uchar_inj; lia).
      reflexivity.
    + assert (d <> NUL) as Hd3
        by (intros ->; apply Hz; right; right; left; reflexivity).
      change (strncmp ((a :: b :: d :: c) ++ "/"%char :: tail) (lit "..")
                (Nat.max (length (a :: b :: d :: c)) 2))
        with (if (uchar a - uchar "."%char =? 0)%Z
              then if (uchar b - uchar "."%char =? 0)%Z then uchar d
                   else (uchar b - uchar "."%char)%Z
              else (uchar a - uchar "."%char)%Z) in E.
      destruct (Z.eqb_spec (uchar a - uchar "."%char) 0) as [Ea|]; [|lia].
      destruct (Z.eqb_spec (uchar b - uchar "."%char) 0) as [Eb|]; [|lia].
      apply Hd3. apply CStrFacts.uchar_NUL. exact E.
Qed.

Lemma nul_free_dotdot : nul_free (lit "..").
Proof. intros [H|[H|[]]]; discriminate H. Qed.

(** The buffer after a component has been appended. *)
Lemma add_separator_append mem pre c mem' len' :
  Forall comp_ok pre -> comp_ok c ->
  c_str mem = join pre ->
  add_separator mem (length (join pre)) = (mem', len') ->
  c_str (poke (blit mem' len' c) (len' + length c) NUL) = join (pre ++ [c]) /\
  len' + length c = length (join (pre ++ [c])).
Proof.
  intros Hpre Hc Hmem Hsep.
  assert (nul_free c) as Hz by apply Hc.
  assert (length (c_str mem) = length (join pre)) as Hlen
    by (rewrite Hmem; reflexivity).
  unfold add_separator in Hsep.
  destruct pre as [|p pre].
  - cbn in Hsep. injection Hsep as <- <-.
    rewrite (c_str_append mem 0 c Hlen Hz), Hmem. cbn. split; reflexivity.
  - set (s := join (p :: pre)) in *.
    assert (s <> []) as Hs
      by (apply join_nonempty; exact (Forall_inv Hpre)).
    assert (0 < length s) as Hpos
      by (destruct s; [congruence|simpl; lia]).
    destruct (Nat.ltb_spec 0 (length s)) as [_|]; [|lia].
    assert (nth_error (c_str mem) (length s - 1)
            = Some (peek mem (length s - 1))) as Hpeek
      by (apply peek_c_str; lia).
    rewrite Hmem in Hpeek.
    pose proof (join_last_not_slash (p :: pre) Hpre ltac:(discriminate))
      as Hlast.
    fold s in Hlast.
    rewrite ascii_eqb_neq in Hsep by congruence.
    cbn [andb negb] in Hsep. injection Hsep as <- <-.
    change (blit (poke mem (length s) "/") (S (length s)) c)
      with (blit mem (length s) ("/"%char :: c)).
    replace (S (length s) + length c)
      with (length s + length ("/"%char :: c)) by (simpl; lia).
    rewrite (c_str_append mem (length s) ("/"%char :: c) Hlen).
    + rewrite Hmem, join_snoc by discriminate. fold s.
      split; [reflexivity|]. rewrite length_app. reflexivity.
    + intros [H|H]; [discriminate H|exact (Hz H)].
Qed.

Section NoLinks.

Variable MAX_LINKS : nat.
Variable readlink : cstring -> readlink_result.
Hypothesis no_links : forall p t, readlink p <> Link t.

(** What a run over the components [comps] may return. *)
Definition split_at (comps : list cstring) (from : nat) (res : result)
  : Prop :=
  match res with
  | Some (checked, trailer) =>
      exists pre post,
        comps = pre ++ post /\
        checked = checked_of pre /\ trailer = join post /\
        (forall k, from < k <= length pre ->
                   readlink (join (firstn k comps)) = NotALink) /\
        match post with
        | [] => True
        | c :: _ => readlink (join (pre ++ [c])) = Bogus
        end
  | None => exists k, readlink (join (firstn k comps)) = Failure
  end.

Lemma expand_loop_without_links : forall post pre fuel mem,
  Forall comp_ok pre -> Forall comp_ok post ->
  c_str mem = join pre ->
  length post < fuel ->
  exists res,
    expand_loop MAX_LINKS readlink fuel mem (length (join pre)) (join post) 0
    = Some res /\
    split_at (pre ++ post) (length pre) res.
Proof.
  induction post as [|c post IH]; intros pre fuel mem Hpre Hpost Hmem Hfuel.
  - destruct fuel as [|fuel]; [simpl in Hfuel; lia|].
    cbn [join expand_loop]. eexists. split; [reflexivity|].
    exists pre, []. rewrite Hmem.
    repeat split; auto.
    + destruct pre as [|p pre]; [reflexivity|].
      pose proof (join_nonempty p pre (Forall_inv Hpre)) as Hne.
      cbn [checked_of]. destruct (join (p :: pre)); [congruence|reflexivity].
    + intros k Hk. lia.
  - destruct fuel as [|fuel]; [simpl in Hfuel; lia|].
    inversion Hpost as [|? ? Hc Hrest]; subst.
    pose proof (join_nonempty c post Hc) as Hne.
    cbn [expand_loop].
    destruct (join (c :: post)) as [|a r'] eqn:Er; [congruence|].
    rewrite <- Er.
    assert (Forall comp_ok (pre ++ [c])) as Hpre'
      by (apply Forall_app; split; [assumption|constructor; [assumption|constructor]]).
    assert (exists mem1,
              grab_component mem (length (join pre)) (join (c :: post))
              = (mem1, length (join (pre ++ [c])), join post) /\
              c_str mem1 = join (pre ++ [c])) as (mem1 & Hg & Hmem1).
    { unfold grab_component.
      destruct (add_separator mem (length (join pre))) as [mem' len'] eqn:Hsep.
      destruct (add_separator_append mem pre c mem' len' Hpre Hc Hmem Hsep)
        as [Hstr Hl].
      destruct post as [|d post].
      - cbn [join].
        rewrite strchr_absent by apply Hc.
        rewrite CStrFacts.strcmp_neq;
          [|apply Hc|apply nul_free_dotdot|apply Hc].
        rewrite blit_app. cbn [blit].
        rewrite Hl in Hstr. rewrite Hl.
        eexists. split; [reflexivity|exact Hstr].
      - rewrite join_cons.
        rewrite strchr_component by apply Hc.
        destruct (Nat.eqb_spec (length c) 0) as [E0|_].
        { destruct Hc as [Hc0 _]. destruct c; [congruence|discriminate E0]. }
        rewrite strncmp_component by assumption.
        rewrite Hl in Hstr. rewrite Hl.
        rewrite firstn_app, firstn_all, Nat.sub_diag. cbn [firstn].
        rewrite app_nil_r, skipn_app, skipn_all2 by lia.
        replace (length c + 1 - length c) with 1 by lia. cbn [skipn app].
        eexists. split; [reflexivity|exact Hstr]. }
    rewrite Hg, Hmem1.
    pose proof (join_nonempty c [] Hc) as Hne1.
    assert (join (pre ++ [c]) <> []) as Hne2.
    { destruct pre as [|p pre]; [exact Hne1|].
      rewrite join_snoc by discriminate.
      destruct (join (p :: pre)); discriminate. }
    destruct (join (pre ++ [c])) as [|b s1] eqn:Ej; [congruence|].
    rewrite <- Ej in *.
    destruct (readlink (join (pre ++ [c]))) as [t| | |] eqn:Erl.
    + exfalso. exact (no_links _ _ Erl).
    + destruct (IH (pre ++ [c]) fuel mem1 Hpre' Hrest Hmem1
                  ltac:(simpl in Hfuel; lia)) as (res & Hres & Hsplit).
      exists res. split; [exact Hres|].
      rewrite <- app_assoc in Hsplit. cbn [app] in Hsplit.
      destruct res as [[checked trailer]|].
      * destruct Hsplit as (pre' & post' & E & Hch & Htr & Hnot & Hbog).
        exists pre', post'. repeat split; auto.
        intros k Hk.
        destruct (Nat.eq_dec k (S (length pre))) as [->|Hk'].
        -- replace (S (length pre)) with (length (pre ++ [c]) + 0)
             by (rewrite length_app; simpl; lia).
           replace (pre ++ c :: post) with ((pre ++ [c]) ++ post)
             by (rewrite <- app_assoc; reflexivity).
           rewrite firstn_app_2. cbn [firstn]. rewrite app_nil_r. exact Erl.
        -- apply Hnot. rewrite length_app. simpl. lia.
      * exact Hsplit.
    + eexists. split; [reflexivity|].
      exists pre, (c :: post). repeat split; auto.
      * unfold dot_if_empty.
        destruct pre as [|p pre]; [reflexivity|].
        pose proof (join_nonempty p pre (Forall_inv Hpre)) as Hp.
        destruct (Nat.eqb_spec (length (join (p :: pre))) 0) as [E0|_].
        { destruct (join (p :: pre)); [congruence|discriminate E0]. }
        rewrite c_str_poke_nul, Hmem1, join_snoc by discriminate.
        rewrite firstn_app, Nat.sub_diag, firstn_all. cbn [firstn].
        rewrite app_nil_r. reflexivity.
      * intros k Hk. lia.
    + eexists. split; [reflexivity|].
      exists (S (length pre)).
      replace (S (length pre)) with (length (pre ++ [c]) + 0)
        by (rewrite length_app; simpl; lia).
      replace (pre ++ c :: post) with ((pre ++ [c]) ++ post)
        by (rewrite <- app_assoc; reflexivity).
      rewrite firstn_app_2. cbn [firstn]. rewrite app_nil_r. exact Erl.
Qed.

End NoLinks.

Lemma skip_slashes_join comps :
  Forall comp_ok comps -> skip_slashes (join comps) = join comps.
Proof.
  intros H. destruct comps as [|c comps]; [reflexivity|].
  pose proof (Forall_inv H) as (Hne & Hs & _).
  destruct c as [|a c]; [congruence|].
  assert (a <> "/"%char) as Ha by (intros ->; apply Hs; left; reflexivity).
  destruct comps; cbn [join app skip_slashes];
    rewrite ascii_eqb_neq by assumption; reflexivity.
Qed.

(** X21. Where no name is a symbolic link, [expand_symlinks] returns the
    path as it was given, split where the first missing name is: for a
    path of components without slash, none of them empty or [..], and
    a [readlink] that never finds a link, the call returns; a NULL
    result means [readlink] failed on one of the path's prefixes;
    otherwise the components fall into those checked and the trailer,
    the returned name is the checked part ([.] when it is empty), every
    checked prefix was reported as no link, and the trailer is empty or
    begins at the first name that [readlink] reported as missing.  With
    no name missing either, the result is the path itself and an empty
    trailer. *)
Theorem expand_symlinks_without_links (MAX_LINKS : nat)
  (readlink : cstring -> readlink_result) (stat : cstring -> bool)
  (comps : list cstring) :
  Forall comp_ok comps ->
  (forall p t, readlink p <> Link t) ->
  (exists res,
     expand_symlinks MAX_LINKS readlink stat (join comps) false false
     = Some res /\
     split_at readlink comps 0 res) /\
  ((forall p, readlink p = NotALink) ->
   expand_symlinks MAX_LINKS readlink stat (join comps) false false
   = Some (Some (checked_of comps, []))).
Proof.
  intros Hc Hno.
  assert (exists res,
     expand_symlinks MAX_LINKS readlink stat (join comps) false false
     = Some res /\
     split_at readlink comps 0 res) as Hrun.
  { unfold expand_symlinks. cbn [andb]. rewrite skip_slashes_join by assumption.
    apply (expand_loop_without_links MAX_LINKS readlink Hno comps []
             (budget MAX_LINKS (join comps) 0) [NUL]);
      [constructor|assumption|reflexivity|].
    pose proof (length_join comps Hc). unfold budget. lia. }
  split; [exact Hrun|].
  intros Hall. destruct Hrun as (res & -> & Hsplit). do 2 f_equal.
  destruct res as [[checked trailer]|].
  - destruct Hsplit as (pre & post & -> & -> & -> & _ & Hbog).
    destruct post as [|c post].
    + rewrite app_nil_r. reflexivity.
    + rewrite Hall in Hbog. discriminate Hbog.
  - destruct Hsplit as [k Hk]. rewrite Hall in Hk. discriminate Hk.
Qed.

(** A tree for examples: [b] exists, [b/gone] does not. *)
Definition missing_tail (p : cstring) : readlink_result :=
  if cstr_eqb p (lit "b/gone") then Bogus else NotALink.

Lemma expand_symlinks_without_links_witness :
  (exists res,
     expand_symlinks 32 missing_tail (fun _ => false)
       (join [lit "b"; lit "gone"; lit "x"]) false false
     = Some res /\
     split_at missing_tail [lit "b"; lit "gone"; lit "x"] 0 res) /\
  ((forall p, missing_tail p = NotALink) ->
   expand_symlinks 32 missing_tail (fun _ => false)
     (join [lit "b"; lit "gone"; lit "x"]) false false
   = Some (Some (checked_of [lit "b"; lit "gone"; lit "x"], []))).
Proof.
  apply (expand_symlinks_without_links 32 missing_tail (fun _ => false)
           [lit "b"; lit "gone"; lit "x"]).
  - repeat constructor; try discriminate;
      cbn; unfold nul_free; cbn; intuition discriminate.
  - intros p t. unfold missing_tail.
    destruct (cstr_eqb p (lit "b/gone")); discriminate.
Defined.

Example expand_symlinks_missing_tail :
  expand_symlinks 32 missing_tail (fun _ => false) (lit "b/gone/x") false false
  = Some (Some (lit "b", lit "gone/x")).
Proof. vm_compute. reflexivity. Qed.

End SymlinkFacts.

(** ** [figure_mime] and the case of a file name *)

Module MimeFacts.

Import Mime.
Local Open Scope Z_scope.

Lemma tolower_idem c : tolower (tolower c) = tolower c.
Proof.
  destruct c as [[] [] [] [] [] [] [] []]; reflexivity.
Qed.

Lemma tolower_dot c : ascii_eqb (tolower c) "." = ascii_eqb c ".".
Proof.
  destruct c as [[] [] [] [] [] [] [] []]; reflexivity.
Qed.

Lemma strncasecmp_tolower : forall n a b,
  strncasecmp (map tolower a) b n = strncasecmp a b n.
Proof.
  induction n as [|n IH]; intros a b; [destruct a; reflexivity|].
  destruct a as [|x a], b as [|y b]; cbn [map strncasecmp];
    rewrite ?tolower_idem; try reflexivity.
  rewrite IH. reflexivity.
Qed.

Lemma strrchr_tolower : forall s,
  strrchr (map tolower s) "." = strrchr s ".".
Proof.
  induction s as [|a s IH]; [reflexivity|].
  cbn [map strrchr]. rewrite IH, tolower_dot. reflexivity.
Qed.

Lemma ext_matches_tolower e m :
  ext_matches (map tolower e) m = ext_matches e m.
Proof.
  unfold ext_matches. rewrite length_map, strncasecmp_tolower. reflexivity.
Qed.

Lemma enc_index_tolower e : forall enc_tab,
  enc_index enc_tab (map tolower e) = enc_index enc_tab e.
Proof.
  induction enc_tab as [|m tab IH]; [reflexivity|].
  cbn [enc_index]. rewrite ext_matches_tolower, IH. reflexivity.
Qed.

Lemma bsearch_tolower typ_tab e : forall fuel bot top,
  bsearch fuel typ_tab (map tolower e) bot top = bsearch fuel typ_tab e bot top.
Proof.
  induction fuel as [|fuel IH]; intros bot top; [reflexivity|].
  cbn [bsearch]. rewrite length_map.
  destruct (top >=? bot); [|reflexivity].
  destruct (nth_error typ_tab (Z.to_nat (Z.quot (top + bot) 2))) as [m|];
    [|reflexivity].
  rewrite strncasecmp_tolower, !IH. reflexivity.
Qed.

Lemma type_lookup_tolower typ_tab e :
  type_lookup typ_tab (map tolower e) = type_lookup typ_tab e.
Proof. unfold type_lookup. apply bsearch_tolower. Qed.

Lemma peel_tolower enc_tab typ_tab fn : forall fuel prev_dot me_indexes,
  peel fuel enc_tab typ_tab (map tolower fn) prev_dot me_indexes
  = peel fuel enc_tab typ_tab fn prev_dot me_indexes.
Proof.
  induction fuel as [|fuel IH]; intros prev_dot me_indexes; [reflexivity|].
  cbn [peel]. rewrite firstn_map, strrchr_tolower.
  destruct (strrchr (firstn prev_dot fn) ".") as [dot|]; [|reflexivity].
  rewrite skipn_map, firstn_map, enc_index_tolower, type_lookup_tolower.
  destruct (type_lookup typ_tab _) as [[m|]|]; try reflexivity.
  apply IH.
Qed.

Lemma figure_mime_tolower enc_tab typ_tab fn :
  figure_mime enc_tab typ_tab (map tolower fn) = figure_mime enc_tab typ_tab fn.
Proof.
  unfold figure_mime. rewrite length_map, peel_tolower. reflexivity.
Qed.

(** X22. [figure_mime] does not look at the case of a file name: two
    names that differ only in the case of their letters get the same
    type and the same encodings, whatever the tables hold. *)
Theorem figure_mime_ignores_case (enc_tab typ_tab : list mime_entry)
  (a b : cstring) :
  map tolower a = map tolower b ->
  figure_mime enc_tab typ_tab a = figure_mime enc_tab typ_tab b.
Proof.
  intros H.
  rewrite <- (figure_mime_tolower enc_tab typ_tab a),
          <- (figure_mime_tolower enc_tab typ_tab b), H.
  reflexivity.
Qed.

Lemma figure_mime_ignores_case_witness :
  figure_mime [{| ext := lit "gz"; val := lit "gzip" |}]
    (init_mime sample_typ_tab) (lit "INDEX.Html.GZ")
  = figure_mime [{| ext := lit "gz"; val := lit "gzip" |}]
      (init_mime sample_typ_tab) (lit "index.html.gz").
Proof.
  apply (figure_mime_ignores_case [{| ext := lit "gz"; val := lit "gzip" |}]
           (init_mime sample_typ_tab)
           (lit "INDEX.Html.GZ") (lit "index.html.gz")).
  reflexivity.
Defined.

End MimeFacts.

(** ** The request line *)

Module RequestLine.

Import Conn World Response Parse.
Local Open Scope Z_scope.

(** A byte of the set [" \t\n\r"]. *)
Definition is_ws (c : ascii) : bool :=
  ascii_eqb c " " || ascii_eqb c "009" || ascii_eqb c "010"
  || ascii_eqb c "013".

(** [strpbrk(s, " \t\n\r")]: offset of the first such byte. *)
Fixpoint strpbrk (s : cstring) : option nat :=
  match s with
  | [] => None
  | c :: s' => if is_ws c then Some O else option_map S (strpbrk s')
  end.

(** [s += strspn(s, " \t\n\r")] *)
Fixpoint skip_ws (s : cstring) : cstring :=
  match s with
  | c :: s' => if is_ws c then skip_ws s' else s
  | [] => []
  end.

(** The chain of [strcasecmp(method_str, httpd_method_str(...))]. *)
Definition method_of (method_str : cstring) : option method :=
  let named m := strcasecmp method_str (Request.httpd_method_str m) =? 0 in
  if named METHOD_GET then Some METHOD_GET
  else if named METHOD_HEAD then Some METHOD_HEAD
  else if named METHOD_POST then Some METHOD_POST
  else if named METHOD_PUT then Some METHOD_PUT
  else if named METHOD_DELETE then Some METHOD_DELETE
  else if named METHOD_CONNECT then Some METHOD_CONNECT
  else if named METHOD_OPTIONS then Some METHOD_OPTIONS
  else if named METHOD_TRACE then Some METHOD_TRACE
  else None.

(** How the first part of [httpd_parse_request] ends: with an error
    reply and -1, or with the URL to decode; [reqhost] is the field
    [hc->reqhost]. *)
Inductive line_result :=
| Bad (hc : httpd_conn)
| Line (hc : httpd_conn) (reqhost url : cstring).

Section Line.

Variable w : world.

Definition bad_request (hc : httpd_conn) (arg : string) : line_result :=
  Bad (httpd_send_err w hc 400 httpd_err400title [] httpd_err400form (lit arg)).

(** [httpd_parse_request] from its start to the choice of the method;
    [line] is what the first [bufgets] returned. *)
Definition request_line (hc : httpd_conn) (reqhost line : cstring)
  : line_result :=
  match strpbrk line with
  | None => bad_request hc "1"
  | Some sp =>
      let method_str := firstn sp line in
      let url := skip_ws (skipn (sp + 1) line) in
      let '(hc, url, protocol) :=
        match strpbrk url with
        | None => (set_mime_flag false hc, url, lit "HTTP/0.9")
        | Some sp2 =>
            let protocol := skip_ws (skipn (sp2 + 1) url) in
            let url := firstn sp2 url in
            match protocol with
            | [] => (hc, url, protocol)
            | _ :: _ =>
                let protocol :=
                  match strpbrk protocol with
                  | Some eol => firstn eol protocol
                  | None => protocol
                  end in
                (if negb (strcasecmp protocol (lit "HTTP/1.0") =? 0)
                 then set_one_one true hc else hc, url, protocol)
            end
        end in
      let hc := set_protocol protocol hc in
      (* Check for HTTP/1.1 absolute URL. *)
      let absolute :=
        if Mime.strncasecmp url (lit "http://") 7 =? 0 then
          if negb (one_one hc) then inl "2"%string
          else
            let host := skipn 7 url in
            match strchr host "/" with
            | None => inl "3"%string
            | Some slash =>
                let url := skipn slash host in
                let host := firstn slash host in
                if match strchr host "/" with Some _ => true | None => false end
                   || match host with
                      | c :: _ => ascii_eqb c "."
                      | [] => false
                      end
                then inl "4"%string
                else inr (host, url)
            end
        else inr (reqhost, url) in
      match absolute with
      | inl arg => bad_request hc arg
      | inr (reqhost, url) =>
          match url with
          | c :: _ =>
              if ascii_eqb c "/" then
                match method_of method_str with
                | Some m => Line (set_method m hc) reqhost url
                | None =>
                    Bad (httpd_send_err w hc 501 err501title [] err501form
                           method_str)
                end
              else bad_request hc "5"
          | [] => bad_request hc "5"
          end
      end
  end.

End Line.

Lemma strpbrk_word : forall word rest,
  strpbrk word = None ->
  strpbrk (word ++ " "%char :: rest) = Some (length word).
Proof.
  induction word as [|c word IH]; intros rest H; [reflexivity|].
  cbn [strpbrk app length] in *.
  destruct (is_ws c); [discriminate|].
  destruct (strpbrk word); [discriminate|].
  rewrite IH by reflexivity. reflexivity.
Qed.

Lemma strpbrk_app : forall a b,
  strpbrk a = None -> strpbrk (a ++ b) = option_map (Nat.add (length a)) (strpbrk b).
Proof.
  induction a as [|c a IH]; intros b H; cbn [strpbrk app length] in *.
  - destruct (strpbrk b); reflexivity.
  - destruct (is_ws c); [discriminate|].
    destruct (strpbrk a); [discriminate|].
    rewrite IH by reflexivity. destruct (strpbrk b); reflexivity.
Qed.

Lemma skip_ws_word word :
  word <> [] -> strpbrk word = None -> skip_ws word = word.
Proof.
  destruct word as [|c word]; [congruence|]. intros _ H.
  cbn [strpbrk skip_ws] in *. destruct (is_ws c); [discriminate|reflexivity].
Qed.

Lemma skip_ws_app word rest :
  word <> [] -> strpbrk word = None -> skip_ws (word ++ rest) = word ++ rest.
Proof.
  destruct word as [|c word]; [congruence|]. intros _ H.
  cbn [strpbrk skip_ws app] in *. destruct (is_ws c); [discriminate|reflexivity].
Qed.

Lemma method_of_method_str m :
  m <> METHOD_UNKNOWN ->
  method_of (Request.httpd_method_str m) = Some m /\
  strpbrk (Request.httpd_method_str m) = None.
Proof.
  destruct m; intros H; try congruence; split; vm_compute; reflexivity.
Qed.

Lemma firstn_word {A} (a b : list A) : firstn (length a) (a ++ b) = a.
Proof.
  rewrite firstn_app, Nat.sub_diag, firstn_all. cbn. apply app_nil_r.
Qed.

Lemma skipn_word {A} (a : list A) x b :
  skipn (length a + 1) (a ++ x :: b) = b.
Proof.
  rewrite skipn_app, skipn_all2 by lia.
  replace (length a + 1 - length a)%nat with 1%nat by lia. reflexivity.
Qed.

Lemma skipn_exact {A} (a b : list A) : skipn (length a) (a ++ b) = b.
Proof.
  rewrite skipn_app, skipn_all, Nat.sub_diag. reflexivity.
Qed.

Lemma strchr_host host path :
  strchr host "/" = None ->
  strchr (host ++ "/"%char :: path) "/" = Some (length host).
Proof.
  induction host as [|c host IH]; cbn [strchr app length]; intros H.
  - rewrite ascii_eqb_refl. reflexivity.
  - destruct (ascii_eqb c "/"); [discriminate|].
    destruct (strchr host "/"); [discriminate|].
    rewrite IH by reflexivity. reflexivity.
Qed.

(** The connection after a request line of three words. *)
Definition with_line (m : method) (protocol : cstring) (hc : httpd_conn)
  : httpd_conn :=
  set_method m
    (set_protocol protocol
       (if negb (strcasecmp protocol (lit "HTTP/1.0") =? 0)
        then set_one_one true hc else hc)).

(** X23. The request line is read back as it was written: for a method
    [m] that the server knows, a path that begins with a slash and a
    protocol word, both without white space, the line
    [httpd_method_str(m) path protocol] is parsed into the method [m],
    the URL [path] and the protocol, with [one_one] set unless the
    protocol is HTTP/1.0; the two-word line [httpd_method_str(m) path]
    gives the same method and URL with the protocol HTTP/0.9 and
    [mime_flag] cleared; and with a protocol other than HTTP/1.0, the
    absolute form [http://host/path] gives the URL [/path] and stores
    the host in [reqhost], for a host without slash or white space that
    does not begin with a dot. *)
Theorem request_line_round_trip (w : world) (hc : httpd_conn)
  (reqhost : cstring) (m : method) (path protocol : cstring) :
  m <> METHOD_UNKNOWN ->
  strpbrk path = None ->
  strpbrk protocol = None -> protocol <> [] ->
  let name := Request.httpd_method_str m in
  request_line w hc reqhost
    (name ++ lit " " ++ ("/"%char :: path) ++ lit " " ++ protocol)
  = Line (with_line m protocol hc) reqhost ("/"%char :: path) /\
  request_line w hc reqhost (name ++ lit " " ++ "/"%char :: path)
  = Line (set_method m (set_protocol (lit "HTTP/0.9")
                          (set_mime_flag false hc)))
         reqhost ("/"%char :: path) /\
  (forall host,
     strpbrk host = None -> strchr host "/" = None ->
     starts_with (lit ".") host = false ->
     (strcasecmp protocol (lit "HTTP/1.0") =? 0) = false ->
     request_line w hc reqhost
       (name ++ lit " " ++ lit "http://" ++ host ++ ("/"%char :: path)
        ++ lit " " ++ protocol)
     = Line (with_line m protocol hc) host ("/"%char :: path)).
Proof.
  intros Hm Hpath Hproto Hne name.
  destruct (method_of_method_str m Hm) as [Hmeth Hname]. fold name in Hmeth, Hname.
  assert (strpbrk ("/"%char :: path) = None) as Hurl
    by (cbn [strpbrk]; change (is_ws "/") with false; rewrite Hpath; reflexivity).
  assert (skip_ws protocol = protocol) as Hskip
    by (apply skip_ws_word; assumption).
  split; [|split].
  - unfold request_line. change (lit " ") with [" "%char]. cbn [app].
    rewrite strpbrk_word by assumption.
    rewrite firstn_word, skipn_word.
    change (skip_ws ("/"%char :: path ++ " "%char :: protocol))
      with ("/"%char :: path ++ " "%char :: protocol).
    change ("/"%char :: path ++ " "%char :: protocol)
      with (("/"%char :: path) ++ " "%char :: protocol).
    rewrite strpbrk_word by assumption.
    rewrite firstn_word, skipn_word, Hskip.
    destruct protocol as [|p protocol']; [congruence|].
    set (protocol := p :: protocol') in *.
    rewrite Hproto. cbn [app].
    change (Mime.strncasecmp ("/"%char :: path) (lit "http://") 7 =? 0)
      with false.
    cbn iota. rewrite ascii_eqb_refl, Hmeth. reflexivity.
  - unfold request_line. change (lit " ") with [" "%char]. cbn [app].
    rewrite strpbrk_word by assumption.
    rewrite firstn_word, skipn_word.
    change (skip_ws ("/"%char :: path)) with ("/"%char :: path).
    rewrite Hurl.
    change (Mime.strncasecmp ("/"%char :: path) (lit "http://") 7 =? 0)
      with false.
    cbn iota. rewrite ascii_eqb_refl, Hmeth. reflexivity.
  - intros host Hhost Hslash Hdot H11.
    unfold request_line. change (lit " ") with [" "%char]. cbn [app].
    rewrite strpbrk_word by assumption.
    rewrite firstn_word, skipn_word.
    set (url := lit "http://" ++ host ++ "/"%char :: path).
    assert (strpbrk url = None) as Hu.
    { unfold url. rewrite strpbrk_app by reflexivity.
      rewrite strpbrk_app by assumption. rewrite Hurl. reflexivity. }
    change (lit "http://" ++ host ++ "/"%char :: path ++ " "%char :: protocol)
      with (lit "http://" ++ host ++ ("/"%char :: path) ++ " "%char :: protocol).
    replace (lit "http://" ++ host ++ ("/"%char :: path) ++ " "%char :: protocol)
      with (url ++ " "%char :: protocol)
      by (unfold url; rewrite <- !app_assoc; reflexivity).
    rewrite skip_ws_app by (assumption || discriminate).
    rewrite strpbrk_word by assumption.
    rewrite firstn_word, skipn_word, Hskip.
    destruct protocol as [|p protocol']; [congruence|].
    set (protocol := p :: protocol') in *.
    rewrite Hproto, H11. cbn [negb].
    assert (Mime.strncasecmp url (lit "http://") 7 = 0) as Hhttp
      by (unfold url; destruct (host ++ "/"%char :: path); reflexivity).
    rewrite Hhttp. cbn [Z.eqb]. cbn iota.
    change (one_one (set_protocol protocol (set_one_one true hc))) with true.
    cbn [negb]. change (skipn 7 url) with (host ++ "/"%char :: path).
    rewrite strchr_host by assumption.
    rewrite firstn_word, skipn_exact, Hslash.
    assert (match host with
            | [] => false
            | c :: _ => ascii_eqb c "."
            end = false) as Hd.
    { destruct host as [|c host']; [reflexivity|].
      cbn in Hdot. rewrite (Bool.andb_true_r) in Hdot.
      destruct (Ascii.eqb_spec c "."%char) as [->|Hc];
        [rewrite ascii_eqb_refl in Hdot; discriminate|].
      apply ascii_eqb_neq. exact Hc. }
    rewrite Hd. cbn [orb]. cbn iota. rewrite ascii_eqb_refl, Hmeth.
    unfold with_line. rewrite H11. reflexivity.
Qed.

Lemma request_line_round_trip_witness :
  request_line Request.sample_world (fresh_conn Sample.server 0) []
    (Request.httpd_method_str METHOD_HEAD ++ lit " "
     ++ ("/"%char :: lit "a/b.html?x=1") ++ lit " " ++ lit "HTTP/1.1")
  = Line (with_line METHOD_HEAD (lit "HTTP/1.1") (fresh_conn Sample.server 0))
         [] ("/"%char :: lit "a/b.html?x=1") /\
  request_line Request.sample_world (fresh_conn Sample.server 0) []
    (Request.httpd_method_str METHOD_HEAD ++ lit " "
     ++ "/"%char :: lit "a/b.html?x=1")
  = Line (set_method METHOD_HEAD
            (set_protocol (lit "HTTP/0.9")
               (set_mime_flag false (fresh_conn Sample.server 0))))
         [] ("/"%char :: lit "a/b.html?x=1") /\
  (forall host,
     strpbrk host = None -> strchr host "/" = None ->
     starts_with (lit ".") host = false ->
     (strcasecmp (lit "HTTP/1.1") (lit "HTTP/1.0") =? 0) = false ->
     request_line Request.sample_world (fresh_conn Sample.server 0) []
       (Request.httpd_method_str METHOD_HEAD ++ lit " " ++ lit "http://"
        ++ host ++ ("/"%char :: lit "a/b.html?x=1") ++ lit " "
        ++ lit "HTTP/1.1")
     = Line (with_line METHOD_HEAD (lit "HTTP/1.1")
               (fresh_conn Sample.server 0))
            host ("/"%char :: lit "a/b.html?x=1")).
Proof.
  apply (request_line_round_trip Request.sample_world
           (fresh_conn Sample.server 0) [] METHOD_HEAD
           (lit "a/b.html?x=1") (lit "HTTP/1.1")).
  - discriminate.
  - reflexivity.
  - reflexivity.
  - discriminate.
Defined.

(** An absolute URL in an HTTP/1.0 request is refused, and so is a
    method the server has no name for. *)
Example absolute_url_needs_one_one :
  exists hc,
    request_line Request.sample_world (fresh_conn Sample.server 0) []
      (lit "GET http://example.org/ HTTP/1.0") = Bad hc /\
    status hc = 400.
Proof. eexists. split; vm_compute; reflexivity. Qed.

Example unknown_method_gets_501 :
  exists hc,
    request_line Request.sample_world (fresh_conn Sample.server 0) []
      (lit "PATCH / HTTP/1.1") = Bad hc /\
    status hc = 501.
Proof. eexists. split; vm_compute; reflexivity. Qed.

End RequestLine.

(** ** [find_htfile]: where an access or password file is looked for *)

Module HtfileFacts.

Import Conn World Access.

(** The directories [find_htfile] looks at, nearest first: [dir], then
    each time the part before the last slash. *)
Fixpoint ancestors (fuel : nat) (dir : cstring) : list cstring :=
  dir :: match fuel with
         | O => []
         | S fuel' =>
             match strrchr dir "/" with
             | Some slash => ancestors fuel' (firstn slash dir)
             | None => []
             end
         end.

(** The first of the candidates that holds [htfile]; the search ends
    at [topdir]. *)
Fixpoint nearest (w : world) (topdir htfile : cstring)
  (candidates : list cstring) : option cstring :=
  match candidates with
  | [] => None
  | d :: rest =>
      match stat w (d ++ lit "/" ++ htfile) with
      | Some _ => Some d
      | None =>
          if Symlinks.cstr_eqb topdir d then None
          else nearest w topdir htfile rest
      end
  end.

(** [strstr] finds the first occurrence. *)
Lemma strstr_first needle : forall i hay,
  needle <> [] ->
  sub_at needle hay i -> (forall j, j < i -> ~ sub_at needle hay j) ->
  strstr hay needle = Some i.
Proof.
  induction i as [|i IH]; intros hay Hn Hat Hfirst.
  - apply starts_with_spec in Hat.
    destruct hay; cbn [strstr]; rewrite Hat; reflexivity.
  - destruct hay as [|a hay].
    + apply sub_at_bound in Hat; [simpl in Hat; lia|assumption].
    + cbn [strstr].
      destruct (starts_with needle (a :: hay)) eqn:E.
      * apply starts_with_spec in E. exfalso. exact (Hfirst 0 ltac:(lia) E).
      * rewrite (IH hay Hn); [reflexivity| |].
        -- apply sub_at_cons in Hat. exact Hat.
        -- intros j Hj H. apply (Hfirst (S j) ltac:(lia)).
           apply sub_at_cons. exact H.
Qed.

(** In [d/htfile] the name is found where [snprintf] put it. *)
Lemma strstr_htfile d htfile :
  htfile <> [] -> ~ In "/"%char htfile -> no_sub htfile d ->
  strstr (d ++ lit "/" ++ htfile) htfile = Some (length d + 1).
Proof.
  intros Hn Hs Hno. change (lit "/") with ["/"%char].
  apply strstr_first; [assumption| |].
  - intros j Hj. rewrite nth_error_app2 by lia.
    replace (length d + 1 + j - length d) with (S j) by lia. reflexivity.
  - intros j Hj H.
    destruct (Nat.le_gt_cases (j + length htfile) (length d)) as [Hin|Hover].
    + (* the occurrence lies inside [d] *)
      apply (Hno j). intros k Hk. rewrite <- (H k Hk).
      symmetry. apply nth_error_app1. lia.
    + (* the occurrence runs over the slash *)
      specialize (H (length d - j) ltac:(lia)).
      replace (j + (length d - j)) with (length d) in H by lia.
      rewrite nth_error_app2, Nat.sub_diag in H by lia. cbn in H.
      apply Hs. symmetry in H. apply nth_error_In in H. exact H.
Qed.

Lemma firstn_slash d slash :
  strrchr d "/" = Some slash ->
  firstn (slash + 1) d = firstn slash d ++ lit "/".
Proof.
  intros H. apply strrchr_Some in H. revert d H.
  induction slash as [|slash IH]; intros [|a d] H; cbn in H; try discriminate.
  - injection H as ->. reflexivity.
  - cbn [firstn Nat.add app]. rewrite IH by assumption. reflexivity.
Qed.

Lemma find_htfile_loop_nearest w topdir htfile :
  htfile <> [] -> ~ In "/"%char htfile ->
  forall fuel d n,
    no_sub htfile d ->
    length d <= n -> length d < fuel ->
    find_htfile_loop w fuel topdir htfile (d ++ lit "/" ++ htfile)
    = Some (nearest w topdir htfile (ancestors n d)).
Proof.
  intros Hn Hs. induction fuel as [|fuel IH]; intros d n Hno Hlen Hfuel; [lia|].
  cbn [find_htfile_loop]. unfold find_htfile_step.
  rewrite strstr_htfile by assumption.
  replace (length d + 1 - 1) with (length d) by lia.
  rewrite firstn_app, firstn_all, Nat.sub_diag. cbn [firstn].
  rewrite app_nil_r.
  destruct n as [|n].
  - (* an empty [d] has no parent *)
    destruct d; [|simpl in Hlen; lia].
    cbn [ancestors nearest strrchr].
    destruct (stat w ([] ++ lit "/" ++ htfile)); [reflexivity|].
    destruct (Symlinks.cstr_eqb topdir []); reflexivity.
  - cbn [ancestors nearest].
    destruct (stat w (d ++ lit "/" ++ htfile)); [reflexivity|].
    destruct (Symlinks.cstr_eqb topdir d); [reflexivity|].
    destruct (strrchr d "/") as [slash|] eqn:Es; [|reflexivity].
    pose proof (strrchr_bound _ _ _ Es) as Hb.
    rewrite (firstn_slash d slash Es), <- app_assoc.
    apply IH.
    + intros i H. apply (Hno i). eapply sub_at_firstn. exact H.
    + rewrite length_firstn. lia.
    + rewrite length_firstn. lia.
Qed.

(** X24. [find_htfile] returns the nearest directory that holds the
    file: it looks in [dir], then in the part of [dir] before its last
    slash, and so on, and returns the first of these directories in
    which [stat] finds [htfile]; it gives up after [topdir] and after a
    name without slash.  The directory names are taken not to contain
    the file's name, which has no slash. *)
Theorem find_htfile_is_nearest (w : world) (topdir dir htfile : cstring) :
  dir <> [] -> htfile <> [] -> ~ In "/"%char htfile -> no_sub htfile dir ->
  find_htfile w topdir dir htfile
  = Some (nearest w topdir htfile (ancestors (length dir) dir)).
Proof.
  intros Hd Hn Hs Hno. unfold find_htfile.
  destruct dir as [|c dir']; [congruence|].
  rewrite firstn_all2 by (rewrite !length_app; simpl; lia).
  apply find_htfile_loop_nearest; try assumption.
  - lia.
  - rewrite !length_app. simpl. lia.
Qed.

(** A tree in which only [docs] holds an access file. *)
Definition one_htaccess : list (cstring * cstring) :=
  [ (lit "docs/.htaccess", lit "allow 10.0.0.0/8" ++ Sample.nl);
    (lit "./.htaccess", lit "deny 10.0.0.0/8" ++ Sample.nl) ].

Lemma find_htfile_is_nearest_witness :
  find_htfile (Sample.world_of one_htaccess) (lit ".") (lit "docs/img/big")
    (lit ".htaccess")
  = Some (nearest (Sample.world_of one_htaccess) (lit ".") (lit ".htaccess")
            (ancestors (length (lit "docs/img/big")) (lit "docs/img/big"))).
Proof.
  apply (find_htfile_is_nearest (Sample.world_of one_htaccess) (lit ".")
           (lit "docs/img/big") (lit ".htaccess")).
  - discriminate.
  - discriminate.
  - cbn. intuition discriminate.
  - apply strstr_None. reflexivity.
Defined.

Example find_htfile_climbs :
  find_htfile (Sample.world_of one_htaccess) (lit ".") (lit "docs/img/big")
    (lit ".htaccess") = Some (Some (lit "docs")).
Proof. vm_compute. reflexivity. Qed.

(** The file in the top directory [.] is found for the directory [.]
    itself; the climb from a deeper directory never arrives there. *)
Example find_htfile_misses_top :
  find_htfile (Sample.world_of one_htaccess) (lit ".") (lit "pub/img")
    (lit ".htaccess") = Some None /\
  find_htfile (Sample.world_of one_htaccess) (lit ".") (lit ".")
    (lit ".htaccess") = Some (Some (lit ".")).
Proof. split; vm_compute; reflexivity. Qed.

(** For an empty [dir] the name the buffer holds is cut by one byte,
    and nothing is found even where [./.htaccess] exists. *)
Example find_htfile_empty_dir :
  find_htfile (Sample.world_of one_htaccess) (lit ".") [] (lit ".htaccess")
  = Some None.
Proof. vm_compute. reflexivity. Qed.

End HtfileFacts.

(** ** [atoll], the replacement for systems without one *)

From Stdlib Require Decimal DecimalString DecimalPos.

Module Atoll.

Local Open Scope Z_scope.

Definition LLONG_MAX : Z := 2 ^ 63 - 1.

(** [isspace] in the C locale: the blank and the bytes 9 to 13. *)
Definition isspace (c : ascii) : bool :=
  ascii_eqb c " " || ((9 <=? uchar c) && (uchar c <=? 13)).

(** The loop that skips leading white space. *)
Fixpoint skip_space (s : cstring) : cstring :=
  match s with
  | c :: s' => if isspace c then skip_space s' else s
  | [] => []
  end.

(** The loop over the digits.  [value] is a [long long]; where
    [value * 10 + digit] would leave its range the C program has no
    defined result, and the model returns [None]. *)
Fixpoint digits (s : cstring) (value : Z) : option Z :=
  match s with
  | c :: s' =>
      if Url.isdigit c then
        let value' := value * 10 + (uchar c - uchar "0"%char) in
        if value' <=? LLONG_MAX then digits s' value' else None
      else Some value
  | [] => Some value
  end.

Definition atoll (str : cstring) : option Z :=
  let str := skip_space str in
  let '(sign, str) :=
    match str with
    | c :: str' =>
        if ascii_eqb c "-" then (-1, str')
        else if ascii_eqb c "+" then (1, str')
        else (1, str)
    | [] => (1, str)
    end in
  option_map (Z.mul sign) (digits str 0).

(** The decimal text of a number, as [printf("%lld")] writes it. *)
Definition decimal (n : Z) : cstring :=
  list_ascii_of_string (DecimalString.NilZero.string_of_int (Z.to_int n)).

(** The digits of a [uint] as text, and their value read from the left. *)
Definition text (d : Decimal.uint) : cstring :=
  list_ascii_of_string (DecimalString.NilEmpty.string_of_uint d).

Fixpoint val (d : Decimal.uint) (v : Z) : Z :=
  match d with
  | Decimal.Nil => v
  | Decimal.D0 l => val l (v * 10 + 0)
  | Decimal.D1 l => val l (v * 10 + 1)
  | Decimal.D2 l => val l (v * 10 + 2)
  | Decimal.D3 l => val l (v * 10 + 3)
  | Decimal.D4 l => val l (v * 10 + 4)
  | Decimal.D5 l => val l (v * 10 + 5)
  | Decimal.D6 l => val l (v * 10 + 6)
  | Decimal.D7 l => val l (v * 10 + 7)
  | Decimal.D8 l => val l (v * 10 + 8)
  | Decimal.D9 l => val l (v * 10 + 9)
  end.

(** What may follow a number: nothing, or a byte that is no digit. *)
Definition ends_number (rest : cstring) : Prop :=
  match rest with
  | c :: _ => Url.isdigit c = false
  | [] => True
  end.

Lemma val_ge d : forall v, 0 <= v -> v <= val d v.
Proof.
  induction d as [|d IH|d IH|d IH|d IH|d IH|d IH|d IH|d IH|d IH|d IH];
    intros v Hv; cbn [val]; [lia|..];
    (etransitivity; [|apply IH]; lia).
Qed.

Lemma digits_text d : forall v rest,
  0 <= v -> val d v <= LLONG_MAX -> ends_number rest ->
  digits (text d ++ rest) v = Some (val d v).
Proof.
  induction d as [|d IH|d IH|d IH|d IH|d IH|d IH|d IH|d IH|d IH|d IH];
    intros v rest Hv Hmax Hrest;
    [cbn; destruct rest as [|c rest]; [reflexivity|];
     cbn [digits]; cbn in Hrest; rewrite Hrest; reflexivity|..];
    cbn [val] in Hmax |- *;
    match goal with
    | |- digits _ _ = Some (val _ ?v') =>
        pose proof (val_ge d v' ltac:(lia)) as Hge;
        cbn [text DecimalString.NilEmpty.string_of_uint list_ascii_of_string
             app digits];
        fold (text d);
        match goal with
        | |- context [Url.isdigit ?c] => change (Url.isdigit c) with true
        end;
        cbn iota;
        match goal with
        | |- context [uchar ?c - uchar "0"%char] =>
            let k := eval vm_compute in (uchar c - uchar "0"%char) in
            change (uchar c - uchar "0"%char) with k
        end;
        cbv zeta;
        destruct (Z.leb_spec v' LLONG_MAX); [|lia];
        apply IH; [lia|assumption|assumption]
    end.
Qed.

Lemma val_of_uint_acc l : forall acc,
  val l (Z.pos acc) = Z.pos (Pos.of_uint_acc l acc).
Proof.
  induction l as [|l IH|l IH|l IH|l IH|l IH|l IH|l IH|l IH|l IH|l IH];
    intros acc; cbn [val Pos.of_uint_acc]; [reflexivity|..];
    rewrite <- IH; f_equal; lia.
Qed.

Lemma val_of_uint d : val d 0 = Z.of_N (Pos.of_uint d).
Proof.
  induction d as [|d IH|d IH|d IH|d IH|d IH|d IH|d IH|d IH|d IH|d IH];
    cbn [val Pos.of_uint Z.of_N]; [reflexivity|exact IH|..];
    rewrite <- val_of_uint_acc; reflexivity.
Qed.

(** The text of a positive number begins with a digit. *)
Lemma text_to_uint p :
  val (Pos.to_uint p) 0 = Z.pos p /\
  DecimalString.NilZero.string_of_uint (Pos.to_uint p)
  = DecimalString.NilEmpty.string_of_uint (Pos.to_uint p) /\
  exists c t, text (Pos.to_uint p) = c :: t /\ Url.isdigit c = true.
Proof.
  split; [|split].
  - rewrite val_of_uint, DecimalPos.Unsigned.of_to. reflexivity.
  - pose proof (DecimalPos.Unsigned.to_uint_nonnil p) as Hn.
    destruct (Pos.to_uint p); [congruence|reflexivity..].
  - pose proof (DecimalPos.Unsigned.to_uint_nonnil p) as Hn.
    destruct (Pos.to_uint p); [congruence|..];
      eexists; eexists; (split; [reflexivity|reflexivity]).
Qed.

Lemma skip_space_app spaces : forall t,
  forallb isspace spaces = true ->
  skip_space (spaces ++ t) = skip_space t.
Proof.
  induction spaces as [|c spaces IH]; intros t H; [reflexivity|].
  cbn [forallb] in H. apply andb_prop in H as [Hc H].
  cbn [app skip_space]. rewrite Hc. apply IH. exact H.
Qed.

Lemma digit_is_plain c :
  Url.isdigit c = true ->
  isspace c = false /\ ascii_eqb c "-" = false /\ ascii_eqb c "+" = false.
Proof.
  destruct c as [[] [] [] [] [] [] [] []]; intros H;
    try discriminate H; repeat split.
Qed.

(** X25. [atoll] reads back a number written in decimal: for every
    number that a [long long] holds, except the least one, the text of
    the number, after any white space and followed by nothing or by a
    byte that is no digit, is read as that number, and no step of the
    computation leaves the range of [long long]. *)
Theorem atoll_reads_decimal (n : Z) (spaces rest : cstring) :
  - LLONG_MAX <= n <= LLONG_MAX ->
  forallb isspace spaces = true ->
  ends_number rest ->
  atoll (spaces ++ decimal n ++ rest) = Some n.
Proof.
  intros Hn Hsp Hrest. unfold atoll. rewrite skip_space_app by assumption.
  unfold decimal. destruct n as [|p|p]; cbn [Z.to_int].
  - change (list_ascii_of_string
              (DecimalString.NilZero.string_of_int (Decimal.Pos Decimal.zero)))
      with (text (Decimal.D0 Decimal.Nil)).
    change (text (Decimal.D0 Decimal.Nil) ++ rest)
      with ("0"%char :: text Decimal.Nil ++ rest).
    cbn [skip_space]. change (isspace "0") with false. cbn iota.
    change (ascii_eqb "0" "-") with false.
    change (ascii_eqb "0" "+") with false. cbn iota.
    change ("0"%char :: text Decimal.Nil ++ rest)
      with (text (Decimal.D0 Decimal.Nil) ++ rest).
    rewrite digits_text; [reflexivity|lia|cbn; unfold LLONG_MAX; lia|assumption].
  - destruct (text_to_uint p) as (Hval & Hstr & c & t & Ht & Hc).
    cbn [DecimalString.NilZero.string_of_int]. rewrite Hstr.
    fold (text (Pos.to_uint p)).
    destruct (digit_is_plain c Hc) as (Hs & Hminus & Hplus).
    rewrite Ht. cbn [app skip_space]. rewrite Hs, Hminus, Hplus.
    change (c :: t ++ rest) with ((c :: t) ++ rest). rewrite <- Ht.
    rewrite digits_text; [|lia|rewrite Hval; lia|assumption].
    rewrite Hval. reflexivity.
  - destruct (text_to_uint p) as (Hval & Hstr & c & t & Ht & Hc).
    cbn [DecimalString.NilZero.string_of_int list_ascii_of_string].
    rewrite Hstr. fold (text (Pos.to_uint p)).
    cbn [app skip_space]. change (isspace "-") with false. cbn iota.
    rewrite ascii_eqb_refl.
    rewrite digits_text; [|lia|rewrite Hval; lia|assumption].
    rewrite Hval. reflexivity.
Qed.

Lemma atoll_reads_decimal_witness :
  atoll (lit "  " ++ decimal (-1234567890123) ++ lit "-99")
  = Some (-1234567890123).
Proof.
  apply (atoll_reads_decimal (-1234567890123) (lit "  ") (lit "-99")).
  - unfold LLONG_MAX. lia.
  - reflexivity.
  - reflexivity.
Defined.

(** One digit too many, and the multiplication overflows. *)
Example atoll_overflows :
  atoll (lit "9223372036854775807") = Some LLONG_MAX /\
  atoll (lit "9223372036854775808") = None.
Proof. split; vm_compute; reflexivity. Qed.

End Atoll.
